(** * kafka-nodeTS: the wire codec, the broker connection, the cluster
      metadata cache and the network client, embedded in Rocq.

    The development follows the TypeScript sources:
    - [Buf]: the Node.js [Buffer] primitives the sources call;
    - [BasicTypes]: src/protocol/types/BasicTypes.ts;
    - [Headers]: protocol/Headers (RequestHeader, ResponseHeader);
    - [ClusterMetadata]: network/ClusterMetadata;
    - [BrokerConnection]: network/BrokerConnection;
    - [NetworkClient]: src/network/NetworkClient.ts.

    Conventions.  A JavaScript [number] holding an integer is a [Z]; a
    [Buffer] is a [list byte]; a JavaScript string is represented by its
    UTF-8 image, a Rocq [string] (one character per byte), so that
    [Buffer.byteLength] is [String.length]; a thrown exception is the
    [Throw] case of [result]. *)

From Stdlib Require Import ZArith List Lia Bool String.
From Stdlib Require Import DecimalString DecimalPos DecimalZ.
From Stdlib.Strings Require Import Byte.
From stdpp Require Import base option list gmap strings sorting.
Import ListNotations.

#[local] Open Scope Z_scope.

(** ** Exceptions and results *)

Inductive JsError : Type :=
| RangeError                                  (* ERR_OUT_OF_RANGE of Buffer *)
| KafkaError (message : string)
| DisconnectedError (message : string)
| TimeoutError (message : string)
| LeaderNotAvailableError (message : string)
| SocketError (message : string).             (* an Error of the net module *)

Inductive result (A : Type) : Type :=
| Ok (a : A)
| Throw (e : JsError).

Arguments Ok {A} a.
Arguments Throw {A} e.

Definition bind {A B} (r : result A) (k : A -> result B) : result B :=
  match r with
  | Ok a => k a
  | Throw e => Throw e
  end.

Notation "'let!' x ':=' r 'in' k" := (bind r (fun x => k))
  (at level 10, x pattern, r at level 100, k at level 200).

(** ** Bytes and 32-bit JavaScript arithmetic *)

Abbreviation Buffer := (list byte).

Definition byte_to_Z (b : byte) : Z := Z.of_N (Byte.to_N b).

Definition byte_of_Z (z : Z) : byte :=
  match Byte.of_N (Z.to_N (z mod 256)) with
  | Some b => b
  | None => x00
  end.

Definition blen (b : Buffer) : Z := Z.of_nat (List.length b).

(** ToInt32 of ECMAScript, the conversion every bitwise operator applies. *)
Definition toInt32 (z : Z) : Z := (z + 2 ^ 31) mod 2 ^ 32 - 2 ^ 31.

Definition js_and (a b : Z) : Z := Z.land (toInt32 a) (toInt32 b).
Definition js_or (a b : Z) : Z := Z.lor (toInt32 a) (toInt32 b).
Definition js_shl (a b : Z) : Z := toInt32 (Z.shiftl (toInt32 a) (b mod 32)).
Definition js_sar (a b : Z) : Z := Z.shiftr (toInt32 a) (b mod 32).

(** Two's complement reading of a [w]-bit pattern. *)
Definition to_signed (w : Z) (u : Z) : Z :=
  if u <? 2 ^ (w - 1) then u else u - 2 ^ w.

(** Big-endian value of a byte sequence, and the [n] low bytes of a number. *)
Fixpoint be_to_Z (bs : Buffer) : Z :=
  match bs with
  | [] => 0
  | b :: bs' => byte_to_Z b * 256 ^ blen bs' + be_to_Z bs'
  end.

Fixpoint Z_to_be (n : nat) (z : Z) : Buffer :=
  match n with
  | O => []
  | S k => byte_of_Z (z / 256 ^ Z.of_nat k) :: Z_to_be k z
  end.

(** ** The Buffer primitives of Node.js used by the sources *)

Module Buf.

Definition alloc (size : Z) : Buffer := repeat x00 (Z.to_nat size).

(** A JavaScript string is held as its UTF-8 image, one character of the
    Rocq string per byte: [Buffer.from(s)] and [buf.write(s)] give these
    bytes, and decoding bytes that are well-formed UTF-8 gives the string
    with that image. *)
Definition bytes_of_string (s : string) : Buffer := list_byte_of_string s.
Definition string_of_bytes (b : Buffer) : string := string_of_list_byte b.

(** [Buffer.byteLength(value)] *)
Definition byteLength (s : string) : Z := Z.of_nat (String.length s).

(** Overwrite [buf] from [offset] with as much of [data] as fits;
    [buf.write(string, offset)] and [src.copy(buf, offset)] both do this. *)
Definition blit (buf : Buffer) (data : Buffer) (offset : Z) : Buffer :=
  if (offset <? 0) || (blen buf <? offset) then buf
  else
    let o := Z.to_nat offset in
    let room := (List.length buf - o)%nat in
    take o buf ++ take room data ++ drop (o + List.length (take room data)) buf.

Definition write (buf : Buffer) (s : string) (offset : Z) : Buffer :=
  blit buf (bytes_of_string s) offset.

Definition copy (src : Buffer) (target : Buffer) (targetStart : Z) : Buffer :=
  blit target src targetStart.

(** [buf[idx] = v] on a Uint8Array: the value is reduced modulo 256, an
    index outside the array is ignored. *)
Definition set_index (buf : Buffer) (idx : Z) (v : Z) : Buffer :=
  if idx <? 0 then buf else <[Z.to_nat idx := byte_of_Z v]> buf.

(** The bounds check shared by every [read*]/[write*] method. *)
Definition in_bounds (buf : Buffer) (offset : Z) (width : nat) : bool :=
  (0 <=? offset) && (offset + Z.of_nat width <=? blen buf).

Definition readUIntBE (width : nat) (buf : Buffer) (offset : Z) : result Z :=
  if in_bounds buf offset width
  then Ok (be_to_Z (take width (drop (Z.to_nat offset) buf)))
  else Throw RangeError.

Definition readIntBE (width : nat) (buf : Buffer) (offset : Z) : result Z :=
  let! u := readUIntBE width buf offset in
  Ok (to_signed (8 * Z.of_nat width) u).

(** [write*] methods: the value is range-checked first, then the offset. *)
Definition writeBE (width : nat) (lo hi : Z) (buf : Buffer) (value offset : Z)
  : result Buffer :=
  if (value <? lo) || (hi <? value) then Throw RangeError
  else if in_bounds buf offset width
  then Ok (blit buf (Z_to_be width value) offset)
  else Throw RangeError.

Definition readUInt8 := readUIntBE 1.
Definition readUInt16BE := readUIntBE 2.
Definition readUInt32BE := readUIntBE 4.
Definition readBigUInt64BE := readUIntBE 8.
Definition readInt8 := readIntBE 1.
Definition readInt16BE := readIntBE 2.
Definition readInt32BE := readIntBE 4.
Definition readBigInt64BE := readIntBE 8.

Definition writeUInt8 := writeBE 1 0 (2 ^ 8 - 1).
Definition writeUInt16BE := writeBE 2 0 (2 ^ 16 - 1).
Definition writeUInt32BE := writeBE 4 0 (2 ^ 32 - 1).
Definition writeBigUInt64BE := writeBE 8 0 (2 ^ 64 - 1).
Definition writeInt8 := writeBE 1 (- 2 ^ 7) (2 ^ 7 - 1).
Definition writeInt16BE := writeBE 2 (- 2 ^ 15) (2 ^ 15 - 1).
Definition writeInt32BE := writeBE 4 (- 2 ^ 31) (2 ^ 31 - 1).
Definition writeBigInt64BE := writeBE 8 (- 2 ^ 63) (2 ^ 63 - 1).

(** [buf.toString('utf8', start, end)]: both ends are clamped to the
    buffer, an empty or inverted range gives the empty string.  On a range
    that is well-formed UTF-8 ([utf8] below) the result is the string with
    these bytes.  On a range that is not (a multi-byte character cut by the
    end of the buffer, say) Node puts U+FFFD in the place of every
    ill-formed sequence; that substitution is not part of the model, and
    what is stated about the text [toString] returns is stated for
    well-formed ranges. *)
Definition toString (buf : Buffer) (start end_ : Z) : string :=
  let s := Z.max 0 start in
  let e := Z.min (blen buf) end_ in
  if e <=? s then EmptyString
  else string_of_bytes (take (Z.to_nat (e - s)) (drop (Z.to_nat s) buf)).

(** [adjustOffset] of lib/buffer.js: negative indices count from the end. *)
Definition adjustOffset (offset length : Z) : Z :=
  if offset <? 0 then Z.max 0 (offset + length)
  else Z.min offset length.

(** [buf.slice(start, end)] *)
Definition slice (buf : Buffer) (start end_ : Z) : Buffer :=
  let s := adjustOffset start (blen buf) in
  let e := adjustOffset end_ (blen buf) in
  if s <? e then take (Z.to_nat (e - s)) (drop (Z.to_nat s) buf) else [].

(** [buf.slice(start)] *)
Definition slice_from (buf : Buffer) (start : Z) : Buffer :=
  slice buf start (blen buf).

Definition concat (a b : Buffer) : Buffer := a ++ b.

End Buf.

(** Well-formed UTF-8 (Unicode, table 3-7): the byte sequences that are the
    image of a string, and that [toString] decodes without substitution. *)
Definition byte_between (lo hi : Z) (b : byte) : bool :=
  (lo <=? byte_to_Z b) && (byte_to_Z b <=? hi).

Definition second_of_three (b1 b2 : byte) : bool :=
  if byte_to_Z b1 =? 224 then byte_between 160 191 b2
  else if byte_to_Z b1 =? 237 then byte_between 128 159 b2
  else byte_between 128 191 b2.

Definition second_of_four (b1 b2 : byte) : bool :=
  if byte_to_Z b1 =? 240 then byte_between 144 191 b2
  else if byte_to_Z b1 =? 244 then byte_between 128 143 b2
  else byte_between 128 191 b2.

Fixpoint utf8 (bytes : Buffer) : bool :=
  match bytes with
  | [] => true
  | b1 :: rest1 =>
      if byte_to_Z b1 <=? 127 then utf8 rest1
      else
        match rest1 with
        | [] => false
        | b2 :: rest2 =>
            if byte_between 194 223 b1
            then byte_between 128 191 b2 && utf8 rest2
            else
              match rest2 with
              | [] => false
              | b3 :: rest3 =>
                  if byte_between 224 239 b1
                  then second_of_three b1 b2 && byte_between 128 191 b3
                       && utf8 rest3
                  else
                    match rest3 with
                    | [] => false
                    | b4 :: rest4 =>
                        byte_between 240 244 b1 && second_of_four b1 b2
                        && byte_between 128 191 b3 && byte_between 128 191 b4
                        && utf8 rest4
                    end
              end
        end
  end.

(** ** src/protocol/types/BasicTypes.ts *)

Module BasicTypes.

(** An IEEE-754 value is identified with its bit pattern, the image that
    [writeFloatBE]/[writeDoubleBE] store and [readFloatBE]/[readDoubleBE]
    load; floating-point arithmetic itself is not part of the codec. *)
Definition writeFloatBE (buf : Buffer) (bits offset : Z) : result Buffer :=
  if Buf.in_bounds buf offset 4
  then Ok (Buf.blit buf (Z_to_be 4 bits) offset) else Throw RangeError.
Definition writeDoubleBE (buf : Buffer) (bits offset : Z) : result Buffer :=
  if Buf.in_bounds buf offset 8
  then Ok (Buf.blit buf (Z_to_be 8 bits) offset) else Throw RangeError.

Definition encodeBoolean (value : bool) : result Buffer :=
  let buffer := Buf.alloc 1 in
  Buf.writeInt8 buffer (if value then 1 else 0) 0.

Definition decodeBoolean (buffer : Buffer) (offset : Z) : result (bool * Z) :=
  let! v := Buf.readInt8 buffer offset in
  Ok (negb (v =? 0), offset + 1).

Definition encodeInt8 (value : Z) : result Buffer :=
  let buffer := Buf.alloc 1 in Buf.writeInt8 buffer value 0.
Definition decodeInt8 (buffer : Buffer) (offset : Z) : result (Z * Z) :=
  let! value := Buf.readInt8 buffer offset in Ok (value, offset + 1).

Definition encodeInt16 (value : Z) : result Buffer :=
  let buffer := Buf.alloc 2 in Buf.writeInt16BE buffer value 0.
Definition decodeInt16 (buffer : Buffer) (offset : Z) : result (Z * Z) :=
  let! value := Buf.readInt16BE buffer offset in Ok (value, offset + 2).

Definition encodeInt32 (value : Z) : result Buffer :=
  let buffer := Buf.alloc 4 in Buf.writeInt32BE buffer value 0.
Definition decodeInt32 (buffer : Buffer) (offset : Z) : result (Z * Z) :=
  let! value := Buf.readInt32BE buffer offset in Ok (value, offset + 4).

Definition encodeInt64 (value : Z) : result Buffer :=
  let buffer := Buf.alloc 8 in Buf.writeBigInt64BE buffer value 0.
Definition decodeInt64 (buffer : Buffer) (offset : Z) : result (Z * Z) :=
  let! value := Buf.readBigInt64BE buffer offset in Ok (value, offset + 8).

Definition encodeUInt8 (value : Z) : result Buffer :=
  let buffer := Buf.alloc 1 in Buf.writeUInt8 buffer value 0.
Definition decodeUInt8 (buffer : Buffer) (offset : Z) : result (Z * Z) :=
  let! value := Buf.readUInt8 buffer offset in Ok (value, offset + 1).

Definition encodeUInt16 (value : Z) : result Buffer :=
  let buffer := Buf.alloc 2 in Buf.writeUInt16BE buffer value 0.
Definition decodeUInt16 (buffer : Buffer) (offset : Z) : result (Z * Z) :=
  let! value := Buf.readUInt16BE buffer offset in Ok (value, offset + 2).

Definition encodeUInt32 (value : Z) : result Buffer :=
  let buffer := Buf.alloc 4 in Buf.writeUInt32BE buffer value 0.
Definition decodeUInt32 (buffer : Buffer) (offset : Z) : result (Z * Z) :=
  let! value := Buf.readUInt32BE buffer offset in Ok (value, offset + 4).

Definition encodeUInt64 (value : Z) : result Buffer :=
  let buffer := Buf.alloc 8 in Buf.writeBigUInt64BE buffer value 0.
Definition decodeUInt64 (buffer : Buffer) (offset : Z) : result (Z * Z) :=
  let! value := Buf.readBigUInt64BE buffer offset in Ok (value, offset + 8).

Definition encodeFloat (bits : Z) : result Buffer :=
  let buffer := Buf.alloc 4 in writeFloatBE buffer bits 0.
Definition decodeFloat (buffer : Buffer) (offset : Z) : result (Z * Z) :=
  let! bits := Buf.readUInt32BE buffer offset in Ok (bits, offset + 4).

Definition encodeDouble (bits : Z) : result Buffer :=
  let buffer := Buf.alloc 8 in writeDoubleBE buffer bits 0.
Definition decodeDouble (buffer : Buffer) (offset : Z) : result (Z * Z) :=
  let! bits := Buf.readBigUInt64BE buffer offset in Ok (bits, offset + 8).

Definition encodeString (value : option string) : result Buffer :=
  match value with
  | None => Ok [xff; xff]
  | Some value =>
      let length := Buf.byteLength value in
      let buffer := Buf.alloc (2 + length) in
      let! buffer := Buf.writeInt16BE buffer length 0 in
      Ok (Buf.write buffer value 2)
  end.

Definition decodeString (buffer : Buffer) (offset : Z)
  : result (option string * Z) :=
  let! length := Buf.readInt16BE buffer offset in
  let offset := offset + 2 in
  if length <? 0 then Ok (None, offset)
  else
    let value := Buf.toString buffer offset (offset + length) in
    Ok (Some value, offset + length).

(** The two [while (len > 127)] loops of the compact encoders.  [len >> 7]
    makes the second value of [len] a 32-bit integer below 2^24, so the
    loops run at most five times whatever the first value is
    ([sizeOfLength_loop_exit], [writeLength_loop_exit]). *)
Definition varint_fuel : nat := 5.

Fixpoint sizeOfLength_loop (fuel : nat) (sizeOfLength len : Z) : Z * Z :=
  match fuel with
  | O => (sizeOfLength, len)
  | S fuel' =>
      if 127 <? len
      then sizeOfLength_loop fuel' (sizeOfLength + 1) (js_sar len 7)
      else (sizeOfLength, len)
  end.

Fixpoint writeLength_loop (fuel : nat) (buffer : Buffer) (idx len : Z)
  : Buffer * Z * Z :=
  match fuel with
  | O => (buffer, idx, len)
  | S fuel' =>
      if 127 <? len
      then writeLength_loop fuel'
             (Buf.set_index buffer idx (js_or (js_and len 127) 128))
             (idx + 1) (js_sar len 7)
      else (buffer, idx, len)
  end.

(** [let sizeOfLength = 1; let len = encodedLength; while ...] *)
Definition sizeOfLength (encodedLength : Z) : Z :=
  fst (sizeOfLength_loop varint_fuel 1 encodedLength).

(** [let idx = 0; len = encodedLength; while ...; buffer[idx++] = len & 0x7F] *)
Definition writeLength (buffer : Buffer) (encodedLength : Z) : Buffer * Z :=
  let '(buffer, idx, len) := writeLength_loop varint_fuel buffer 0 encodedLength in
  (Buf.set_index buffer idx (js_and len 127), idx + 1).

(** The [do { byteRead = buffer.readUInt8(offset++); ... } while (byteRead & 0x80)]
    loop of the compact decoders; [rest] is the buffer from [offset] on,
    so reading past the end is the [[]] case. *)
Fixpoint readLength_loop (rest : Buffer) (length shift offset : Z)
  : result (Z * Z) :=
  match rest with
  | [] => Throw RangeError
  | b :: rest' =>
      let byteRead := byte_to_Z b in
      let offset := offset + 1 in
      let length := js_or length (js_shl (js_and byteRead 127) shift) in
      let shift := shift + 7 in
      if js_and byteRead 128 =? 0 then Ok (length, offset)
      else readLength_loop rest' length shift offset
  end.

Definition readLength (buffer : Buffer) (offset : Z) : result (Z * Z) :=
  if offset <? 0 then Throw RangeError
  else readLength_loop (drop (Z.to_nat offset) buffer) 0 0 offset.

Definition encodeCompactString (value : option string) : result Buffer :=
  match value with
  | None => Ok [x00]
  | Some value =>
      let length := Buf.byteLength value in
      let encodedLength := length + 1 in
      let sizeOfLength := sizeOfLength encodedLength in
      let buffer := Buf.alloc (sizeOfLength + length) in
      let '(buffer, idx) := writeLength buffer encodedLength in
      Ok (Buf.write buffer value idx)
  end.

Definition decodeCompactString (buffer : Buffer) (offset : Z)
  : result (option string * Z) :=
  let! (length, offset) := readLength buffer offset in
  if length =? 0 then Ok (None, offset)
  else
    let length := length - 1 in
    let value := Buf.toString buffer offset (offset + length) in
    Ok (Some value, offset + length).

Definition encodeBytes (value : option Buffer) : result Buffer :=
  match value with
  | None => Ok [xff; xff; xff; xff]
  | Some value =>
      let length := blen value in
      let buffer := Buf.alloc (4 + length) in
      let! buffer := Buf.writeInt32BE buffer length 0 in
      Ok (Buf.copy value buffer 4)
  end.

Definition decodeBytes (buffer : Buffer) (offset : Z)
  : result (option Buffer * Z) :=
  let! length := Buf.readInt32BE buffer offset in
  let offset := offset + 4 in
  if length <? 0 then Ok (None, offset)
  else
    let value := Buf.slice buffer offset (offset + length) in
    Ok (Some value, offset + length).

Definition encodeCompactBytes (value : option Buffer) : result Buffer :=
  match value with
  | None => Ok [x00]
  | Some value =>
      let length := blen value in
      let encodedLength := length + 1 in
      let sizeOfLength := sizeOfLength encodedLength in
      let buffer := Buf.alloc (sizeOfLength + length) in
      let '(buffer, idx) := writeLength buffer encodedLength in
      Ok (Buf.copy value buffer idx)
  end.

Definition decodeCompactBytes (buffer : Buffer) (offset : Z)
  : result (option Buffer * Z) :=
  let! (length, offset) := readLength buffer offset in
  if length =? 0 then Ok (None, offset)
  else
    let length := length - 1 in
    let value := Buf.slice buffer offset (offset + length) in
    Ok (Some value, offset + length).

Section Arrays.
Context {T : Type}.
Variable encodeFunc : T -> result Buffer.
Variable decodeFunc : Buffer -> Z -> result (T * Z).

(** [for (const value of values) { encoded = encodeFunc(value); ... }] *)
Fixpoint encodeValues (values : list T) (totalSize : Z)
    (encodedValues : list Buffer) : result (Z * list Buffer) :=
  match values with
  | [] => Ok (totalSize, encodedValues)
  | value :: values' =>
      let! encoded := encodeFunc value in
      encodeValues values' (totalSize + blen encoded)
        (encodedValues ++ [encoded])
  end.

(** [for (const encoded of encodedValues) { encoded.copy(buffer, offset); ... }] *)
Fixpoint copyValues (encodedValues : list Buffer) (buffer : Buffer)
    (offset : Z) : Buffer * Z :=
  match encodedValues with
  | [] => (buffer, offset)
  | encoded :: rest =>
      copyValues rest (Buf.copy encoded buffer offset) (offset + blen encoded)
  end.

(** [for (let i = 0; i < length; i++) { [value, newOffset] = decodeFunc(buffer, offset); ... }] *)
Fixpoint decodeValues (count : nat) (buffer : Buffer) (offset : Z)
    (values : list T) : result (list T * Z) :=
  match count with
  | O => Ok (values, offset)
  | S count' =>
      let! (value, newOffset) := decodeFunc buffer offset in
      decodeValues count' buffer newOffset (values ++ [value])
  end.

Definition encodeArray (values : option (list T)) : result Buffer :=
  match values with
  | None => Ok [xff; xff; xff; xff]
  | Some values =>
      let! (totalSize, encodedValues) := encodeValues values 4 [] in
      let buffer := Buf.alloc totalSize in
      let! buffer := Buf.writeInt32BE buffer (Z.of_nat (List.length values)) 0 in
      Ok (fst (copyValues encodedValues buffer 4))
  end.

Definition decodeArray (buffer : Buffer) (offset : Z)
  : result (option (list T) * Z) :=
  let! length := Buf.readInt32BE buffer offset in
  let offset := offset + 4 in
  if length <? 0 then Ok (None, offset)
  else
    let! (values, offset) := decodeValues (Z.to_nat length) buffer offset [] in
    Ok (Some values, offset).

Definition encodeCompactArray (values : option (list T)) : result Buffer :=
  match values with
  | None => Ok [x00]
  | Some values =>
      let encodedLength := Z.of_nat (List.length values) + 1 in
      let sizeOfLength := sizeOfLength encodedLength in
      let! (totalSize, encodedValues) := encodeValues values sizeOfLength [] in
      let buffer := Buf.alloc totalSize in
      let '(buffer, idx) := writeLength buffer encodedLength in
      Ok (fst (copyValues encodedValues buffer idx))
  end.

Definition decodeCompactArray (buffer : Buffer) (offset : Z)
  : result (option (list T) * Z) :=
  let! (length, offset) := readLength buffer offset in
  if length =? 0 then Ok (None, offset)
  else
    let length := length - 1 in
    let! (values, offset) := decodeValues (Z.to_nat length) buffer offset [] in
    Ok (Some values, offset).
End Arrays.

End BasicTypes.

(** ** The round-trip law of a codec

    [decodes_framed dec bytes v]: wherever [bytes] sits in a buffer,
    decoding at its first byte gives [v] and the offset just after it.
    [round_trips enc dec v]: [enc v] returns such bytes; taking the frame
    empty, this is [decode(encode(v)) = v]. *)

Definition decodes_framed {T} (dec : Buffer -> Z -> result (T * Z))
    (bytes : Buffer) (v : T) : Prop :=
  forall pre post : Buffer,
    dec (pre ++ bytes ++ post) (blen pre) = Ok (v, blen pre + blen bytes).

Definition round_trips {T} (enc : T -> result Buffer)
    (dec : Buffer -> Z -> result (T * Z)) (v : T) : Prop :=
  exists bytes, enc v = Ok bytes /\ decodes_framed dec bytes v.


(** ** The unsigned base-128 varint

    The byte sequence the [while (len > 127)] loops are meant to write:
    seven bits per byte, least significant group first, the high bit set on
    every byte but the last.  [more] bounds the number of continuation
    bytes. *)

Fixpoint uvarint (more : nat) (n : Z) : Buffer :=
  match more with
  | O => [byte_of_Z (n mod 128)]
  | S more' =>
      if 127 <? n
      then byte_of_Z (n mod 128 + 128) :: uvarint more' (n / 128)
      else [byte_of_Z (n mod 128)]
  end.

(** [chunks] are the encodings of the elements [vs], one by one. *)
Definition encoded_as {T} (enc : T -> result Buffer)
    (dec : Buffer -> Z -> result (T * Z)) (vs : list T) (chunks : list Buffer)
  : Prop :=
  Forall2 (fun v c => enc v = Ok c /\ decodes_framed dec c v) vs chunks.

(** ** protocol/Headers: RequestHeader and ResponseHeader *)

Module RequestHeader.

(** [clientId] is declared [string]; at run time the field may also hold
    [null] (the nullable string of the wire format), which is [None]. *)
Record t : Type := mk {
  apiKey : Z;
  apiVersion : Z;
  correlationId : Z;
  clientId : option string
}.

(** The truthiness test [this.clientId ? ... : ...]: [null] and the empty
    string are falsy, every other string is truthy. *)
Definition truthy (clientId : option string) : option string :=
  match clientId with
  | Some EmptyString => None
  | Some s => Some s
  | None => None
  end.

Definition encode (this : t) : result Buffer :=
  let clientIdLength :=
    match truthy (clientId this) with
    | Some s => Buf.byteLength s
    | None => -1
    end in
  let size := 2 + 2 + 4 + 2 + (if 0 <? clientIdLength then clientIdLength else 0) in
  let buffer := Buf.alloc size in
  let offset := 0 in
  let! buffer := Buf.writeInt16BE buffer (apiKey this) offset in
  let offset := offset + 2 in
  let! buffer := Buf.writeInt16BE buffer (apiVersion this) offset in
  let offset := offset + 2 in
  let! buffer := Buf.writeInt32BE buffer (correlationId this) offset in
  let offset := offset + 4 in
  match truthy (clientId this) with
  | Some s =>
      let! buffer := Buf.writeInt16BE buffer clientIdLength offset in
      let offset := offset + 2 in
      Ok (Buf.write buffer s offset)
  | None => Buf.writeInt16BE buffer (-1) offset
  end.

Definition decode (buffer : Buffer) : result t :=
  let offset := 0 in
  let! apiKey := Buf.readInt16BE buffer offset in
  let offset := offset + 2 in
  let! apiVersion := Buf.readInt16BE buffer offset in
  let offset := offset + 2 in
  let! correlationId := Buf.readInt32BE buffer offset in
  let offset := offset + 4 in
  let! clientIdLength := Buf.readInt16BE buffer offset in
  let offset := offset + 2 in
  let clientId :=
    if 0 <=? clientIdLength
    then Buf.toString buffer offset (offset + clientIdLength)
    else EmptyString in
  Ok (mk apiKey apiVersion correlationId (Some clientId)).

(** What a client id reads back as after [decode (encode _)]. *)
Definition collapsed (clientId : option string) : string :=
  match clientId with
  | Some s => s
  | None => EmptyString
  end.

(** The fields fit the widths [encode] writes them with. *)
Definition fits (this : t) : Prop :=
  - 2 ^ 15 <= apiKey this <= 2 ^ 15 - 1 /\
  - 2 ^ 15 <= apiVersion this <= 2 ^ 15 - 1 /\
  - 2 ^ 31 <= correlationId this <= 2 ^ 31 - 1 /\
  Buf.byteLength (collapsed (clientId this)) <= 2 ^ 15 - 1.

End RequestHeader.

Module ResponseHeader.

Record t : Type := mk {
  correlationId : Z;
  size : Z            (* size of the header in bytes *)
}.

Definition decode (buffer : Buffer) : result t :=
  let offset := 0 in
  let! correlationId := Buf.readInt32BE buffer offset in
  let offset := offset + 4 in
  Ok (mk correlationId offset).

End ResponseHeader.

(** ** network/ClusterMetadata *)

(** [String(n)] for an integer: decimal digits, a leading minus sign. *)
Definition Number_toString (n : Z) : string :=
  NilZero.string_of_int (Z.to_int n).

(** The default order of [Array.prototype.sort]: elements are compared by
    their string images, code unit by code unit. *)
Definition sort_le (x y : Z) : Prop :=
  String.leb (Number_toString x) (Number_toString y) = true.

#[global] Instance sort_le_dec (x y : Z) : Decision (sort_le x y) :=
  decide (String.leb (Number_toString x) (Number_toString y) = true).

(** [[...a].sort()].  The order is total and no two numbers share a string
    image, so every sorting algorithm returns this list. *)
Definition Array_sort (a : list Z) : list Z := merge_sort sort_le a.

Module Broker.
Record t : Type := mk {
  nodeId : Z;
  host : string;
  port : Z;
  rack : option string
}.
End Broker.

Module PartitionMetadata.
Record t : Type := mk {
  errorCode : Z;
  partitionIndex : Z;
  leaderId : Z;
  leaderEpoch : Z;
  replicaNodes : list Z;
  isrNodes : list Z;
  offlineReplicas : list Z
}.
End PartitionMetadata.

Module TopicMetadata.
Record t : Type := mk {
  errorCode : Z;
  name : string;
  isInternal : bool;
  partitions : list PartitionMetadata.t;
  topicAuthorizedOperations : Z
}.
End TopicMetadata.

Module ClusterMetadata.

(** The state of a ClusterMetadata object; [updates] is the log of the
    ['update'] events it has emitted, each with its list of topic names. *)
Record t : Type := mk {
  topics : gmap string TopicMetadata.t;
  brokers : gmap Z Broker.t;
  clusterId : option string;
  controllerId : Z;
  isMetadataInitialized : bool;
  updates : list (list string)
}.

Definition new : t := mk ∅ ∅ None (-1) false [].

Definition findLeader (this : t) (topic : string) (partition : Z) : result Z :=
  match topics this !! topic with
  | None =>
      Throw (KafkaError ("Topic " +:+ topic +:+ " not found in metadata"))
  | Some topicMetadata =>
      match List.find (fun p => PartitionMetadata.partitionIndex p =? partition)
                      (TopicMetadata.partitions topicMetadata) with
      | None =>
          Throw (KafkaError ("Partition " +:+ Number_toString partition
                               +:+ " not found for topic " +:+ topic))
      | Some partitionMetadata =>
          if PartitionMetadata.leaderId partitionMetadata <? 0
          then Throw (LeaderNotAvailableError
                        ("No leader for topic " +:+ topic +:+ " partition "
                           +:+ Number_toString partition))
          else Ok (PartitionMetadata.leaderId partitionMetadata)
      end
  end.

Definition getPartitionsForTopic (this : t) (topic : string)
  : list PartitionMetadata.t :=
  match topics this !! topic with
  | None => []
  | Some topicMetadata => TopicMetadata.partitions topicMetadata
  end.

Definition getPartitionCount (this : t) (topic : string) : Z :=
  Z.of_nat (List.length (getPartitionsForTopic this topic)).

(** [for (let i = 0; i < sortedA.length; i++) if (sortedA[i] !== sortedB[i]) return true] *)
Fixpoint differs_at_some_index (sortedA sortedB : list Z) : bool :=
  match sortedA, sortedB with
  | [], _ => false
  | _ :: _, [] => true
  | x :: sortedA', y :: sortedB' =>
      if x =? y then differs_at_some_index sortedA' sortedB' else true
  end.

Definition hasArrayChanged (a b : list Z) : bool :=
  if negb (List.length a =? List.length b)%nat then true
  else differs_at_some_index (Array_sort a) (Array_sort b).

(** [existingMap.set(partition.partitionIndex, partition)] for each partition *)
Definition existingMap (existing : list PartitionMetadata.t)
  : gmap Z PartitionMetadata.t :=
  fold_left (fun m partition =>
               <[PartitionMetadata.partitionIndex partition := partition]> m)
            existing ∅.

Definition partitionChanged (existingPartition : option PartitionMetadata.t)
    (partition : PartitionMetadata.t) : bool :=
  match existingPartition with
  | None => true
  | Some existingPartition =>
      if negb (PartitionMetadata.leaderId existingPartition
               =? PartitionMetadata.leaderId partition)
         || negb (PartitionMetadata.leaderEpoch existingPartition
                  =? PartitionMetadata.leaderEpoch partition)
      then true
      else if hasArrayChanged (PartitionMetadata.replicaNodes existingPartition)
                              (PartitionMetadata.replicaNodes partition)
      then true
      else if hasArrayChanged (PartitionMetadata.isrNodes existingPartition)
                              (PartitionMetadata.isrNodes partition)
      then true
      else hasArrayChanged (PartitionMetadata.offlineReplicas existingPartition)
                           (PartitionMetadata.offlineReplicas partition)
  end.

(** [for (const partition of updated) { ... return true ... } return false] *)
Fixpoint anyPartitionChanged (m : gmap Z PartitionMetadata.t)
    (updated : list PartitionMetadata.t) : bool :=
  match updated with
  | [] => false
  | partition :: updated' =>
      if partitionChanged (m !! PartitionMetadata.partitionIndex partition) partition
      then true
      else anyPartitionChanged m updated'
  end.

Definition hasPartitionChanges (existing updated : list PartitionMetadata.t)
  : bool :=
  if negb (List.length existing =? List.length updated)%nat then true
  else anyPartitionChanged (existingMap existing) updated.

(** The test of [updateMetadata] that decides whether a topic is pushed on
    [updatedTopics]. *)
Definition topicChanged (existingTopic : option TopicMetadata.t)
    (topic : TopicMetadata.t) : bool :=
  match existingTopic with
  | None => true
  | Some existingTopic =>
      negb (List.length (TopicMetadata.partitions existingTopic)
            =? List.length (TopicMetadata.partitions topic))%nat
      || hasPartitionChanges (TopicMetadata.partitions existingTopic)
                             (TopicMetadata.partitions topic)
  end.

(** One iteration of [for (const topic of topics)]. *)
Definition updateTopic (acc : gmap string TopicMetadata.t * list string)
    (topic : TopicMetadata.t) : gmap string TopicMetadata.t * list string :=
  let '(topics, updatedTopics) := acc in
  if negb (TopicMetadata.errorCode topic =? 0) then acc
  else
    let existingTopic := topics !! TopicMetadata.name topic in
    let updatedTopics :=
      if topicChanged existingTopic topic
      then updatedTopics ++ [TopicMetadata.name topic]
      else updatedTopics in
    (<[TopicMetadata.name topic := topic]> topics, updatedTopics).

(** [this.brokers.clear(); for (const broker of brokers) this.brokers.set(...)] *)
Definition setBrokers (brokers : list Broker.t) : gmap Z Broker.t :=
  fold_left (fun m broker => <[Broker.nodeId broker := broker]> m) brokers ∅.

Definition updateMetadata (this : t) (brokers : list Broker.t)
    (topics : list TopicMetadata.t) (clusterId : option string)
    (controllerId : Z) : t :=
  let brokers' := setBrokers brokers in
  let '(topics', updatedTopics) :=
    fold_left updateTopic topics (ClusterMetadata.topics this, []) in
  let wasInitialized := isMetadataInitialized this in
  let updates' :=
    if (0 <? List.length updatedTopics)%nat || negb wasInitialized
    then updates this ++ [updatedTopics]
    else updates this in
  mk topics' brokers' clusterId controllerId true updates'.

(** The list of names the last call pushed on [updatedTopics]. *)
Definition updatedTopics (this : t) (topics : list TopicMetadata.t)
  : list string :=
  snd (fold_left updateTopic topics (ClusterMetadata.topics this, [])).

(** The getters. *)
Definition hasTopicMetadata (this : t) (topic : string) : bool :=
  bool_decide (is_Some (topics this !! topic)).

Definition getTopicMetadata (this : t) (topic : string) : option TopicMetadata.t :=
  topics this !! topic.

Definition getBroker (this : t) (nodeId : Z) : option Broker.t :=
  brokers this !! nodeId.

Definition getClusterId (this : t) : option string := clusterId this.

Definition getControllerId (this : t) : Z := controllerId this.

Definition isInitialized (this : t) : bool := isMetadataInitialized this.

End ClusterMetadata.


(** ** Vocabulary for the metadata cache *)

(** The last element of [l] with key [k], if any: what a JavaScript [Map]
    holds for [k] after [set(key v, v)] for each [v] of [l], in order. *)
Definition last_with {K V : Type} `{EqDecision K} (key : V -> K) (k : K)
    (l : list V) : option V :=
  List.find (fun v => bool_decide (key v = k)) (rev l).

(** The topics of a response that [updateMetadata] does not skip. *)
Definition accepted (topics : list TopicMetadata.t) : list TopicMetadata.t :=
  List.filter (fun topic => TopicMetadata.errorCode topic =? 0) topics.

(** Partition indices are unique within a topic. *)
Definition unique_partitions (topic : TopicMetadata.t) : Prop :=
  NoDup (map PartitionMetadata.partitionIndex (TopicMetadata.partitions topic)).

(** A partition differs from its previous version: the leader id or the
    leader epoch differs, or one of the three replica lists differs as a
    collection, whatever the order. *)
Definition partition_differs (previous partition : PartitionMetadata.t) : Prop :=
  PartitionMetadata.leaderId previous <> PartitionMetadata.leaderId partition
  \/ PartitionMetadata.leaderEpoch previous <> PartitionMetadata.leaderEpoch partition
  \/ ~ PartitionMetadata.replicaNodes previous ≡ₚ PartitionMetadata.replicaNodes partition
  \/ ~ PartitionMetadata.isrNodes previous ≡ₚ PartitionMetadata.isrNodes partition
  \/ ~ PartitionMetadata.offlineReplicas previous
       ≡ₚ PartitionMetadata.offlineReplicas partition.

(** A topic differs from its previous version: the partition count
    differs, or some partition is new or differs from the previous
    partition of the same index. *)
Definition topic_differs (previous topic : TopicMetadata.t) : Prop :=
  List.length (TopicMetadata.partitions previous)
    <> List.length (TopicMetadata.partitions topic)
  \/ exists partition, In partition (TopicMetadata.partitions topic) /\
       ((forall p, In p (TopicMetadata.partitions previous) ->
           PartitionMetadata.partitionIndex p
           <> PartitionMetadata.partitionIndex partition)
        \/ exists p, In p (TopicMetadata.partitions previous) /\
             PartitionMetadata.partitionIndex p
             = PartitionMetadata.partitionIndex partition /\
             partition_differs p partition).

(** Two partitions (topics) that agree except for the order of the replica
    lists (and for fields the cache does not compare). *)
Definition partition_reordered (p p' : PartitionMetadata.t) : Prop :=
  PartitionMetadata.partitionIndex p = PartitionMetadata.partitionIndex p'
  /\ PartitionMetadata.leaderId p = PartitionMetadata.leaderId p'
  /\ PartitionMetadata.leaderEpoch p = PartitionMetadata.leaderEpoch p'
  /\ PartitionMetadata.replicaNodes p ≡ₚ PartitionMetadata.replicaNodes p'
  /\ PartitionMetadata.isrNodes p ≡ₚ PartitionMetadata.isrNodes p'
  /\ PartitionMetadata.offlineReplicas p ≡ₚ PartitionMetadata.offlineReplicas p'.

Definition topic_reordered (t t' : TopicMetadata.t) : Prop :=
  TopicMetadata.name t = TopicMetadata.name t'
  /\ TopicMetadata.errorCode t = TopicMetadata.errorCode t'
  /\ Forall2 partition_reordered (TopicMetadata.partitions t)
                                 (TopicMetadata.partitions t').

(** ** A two-broker cluster with one topic, used in the examples *)

Definition example_brokers : list Broker.t :=
  [Broker.mk 1 "kafka-1" 9092 None; Broker.mk 2 "kafka-2" 9092 (Some "rack-b")].

Definition example_orders : TopicMetadata.t :=
  TopicMetadata.mk 0 "orders" false
    [PartitionMetadata.mk 0 0 1 5 [1; 2] [1; 2] [];
     PartitionMetadata.mk 0 1 (-1) 5 [2; 1] [] [1; 2]] 0.

(** The same topic as a later response gives it: ISR reordered. *)
Definition example_orders_reordered : TopicMetadata.t :=
  TopicMetadata.mk 0 "orders" false
    [PartitionMetadata.mk 0 0 1 5 [1; 2] [2; 1] [];
     PartitionMetadata.mk 0 1 (-1) 5 [2; 1] [] [1; 2]] 0.

(** The same topic after partition 0 moved to broker 2. *)
Definition example_orders_moved : TopicMetadata.t :=
  TopicMetadata.mk 0 "orders" false
    [PartitionMetadata.mk 0 0 2 5 [1; 2] [1; 2] [];
     PartitionMetadata.mk 0 1 (-1) 5 [2; 1] [] [1; 2]] 0.

(** A topic the broker reports with an error code. *)
Definition example_orders_failed : TopicMetadata.t :=
  TopicMetadata.mk 3 "orders" false [] 0.

Definition example_cache : ClusterMetadata.t :=
  ClusterMetadata.updateMetadata ClusterMetadata.new example_brokers
    [example_orders] (Some "cluster-a") 1.

(** ** protocol/ApiKeys: the numeric enum and its reverse mapping *)

Module ApiKeys.

Definition METADATA : Z := 3.
Definition API_VERSIONS : Z := 18.

(** [ApiKeys[apiKey]]: the name of a member, [undefined] for other numbers. *)
Definition name (apiKey : Z) : option string :=
  match apiKey with
  | 0 => Some "PRODUCE"
  | 1 => Some "FETCH"
  | 2 => Some "LIST_OFFSETS"
  | 3 => Some "METADATA"
  | 4 => Some "LEADER_AND_ISR"
  | 5 => Some "STOP_REPLICA"
  | 6 => Some "UPDATE_METADATA"
  | 7 => Some "CONTROLLED_SHUTDOWN"
  | 8 => Some "OFFSET_COMMIT"
  | 9 => Some "OFFSET_FETCH"
  | 10 => Some "FIND_COORDINATOR"
  | 11 => Some "JOIN_GROUP"
  | 12 => Some "HEARTBEAT"
  | 13 => Some "LEAVE_GROUP"
  | 14 => Some "SYNC_GROUP"
  | 15 => Some "DESCRIBE_GROUPS"
  | 16 => Some "LIST_GROUPS"
  | 17 => Some "SASL_HANDSHAKE"
  | 18 => Some "API_VERSIONS"
  | 19 => Some "CREATE_TOPICS"
  | 20 => Some "DELETE_TOPICS"
  | 21 => Some "DELETE_RECORDS"
  | 22 => Some "INIT_PRODUCER_ID"
  | 23 => Some "OFFSET_FOR_LEADER_EPOCH"
  | 24 => Some "ADD_PARTITIONS_TO_TXN"
  | 25 => Some "ADD_OFFSETS_TO_TXN"
  | 26 => Some "END_TXN"
  | 27 => Some "WRITE_TXN_MARKERS"
  | 28 => Some "TXN_OFFSET_COMMIT"
  | 29 => Some "DESCRIBE_ACLS"
  | 30 => Some "CREATE_ACLS"
  | 31 => Some "DELETE_ACLS"
  | 32 => Some "DESCRIBE_CONFIGS"
  | 33 => Some "ALTER_CONFIGS"
  | 34 => Some "ALTER_REPLICA_LOG_DIRS"
  | 35 => Some "DESCRIBE_LOG_DIRS"
  | 36 => Some "SASL_AUTHENTICATE"
  | 37 => Some "CREATE_PARTITIONS"
  | 38 => Some "CREATE_DELEGATION_TOKEN"
  | 39 => Some "RENEW_DELEGATION_TOKEN"
  | 40 => Some "EXPIRE_DELEGATION_TOKEN"
  | 41 => Some "DESCRIBE_DELEGATION_TOKEN"
  | 42 => Some "DELETE_GROUPS"
  | 43 => Some "ELECT_LEADERS"
  | 44 => Some "INCREMENTAL_ALTER_CONFIGS"
  | 45 => Some "ALTER_PARTITION_REASSIGNMENTS"
  | 46 => Some "LIST_PARTITION_REASSIGNMENTS"
  | 47 => Some "OFFSET_DELETE"
  | 48 => Some "DESCRIBE_CLIENT_QUOTAS"
  | 49 => Some "ALTER_CLIENT_QUOTAS"
  | 50 => Some "DESCRIBE_USER_SCRAM_CREDENTIALS"
  | 51 => Some "ALTER_USER_SCRAM_CREDENTIALS"
  | 52 => Some "VOTE"
  | 53 => Some "BEGIN_QUORUM_EPOCH"
  | 54 => Some "END_QUORUM_EPOCH"
  | 55 => Some "DESCRIBE_QUORUM"
  | 56 => Some "ALTER_PARTITION"
  | 57 => Some "UPDATE_FEATURES"
  | 58 => Some "ENVELOPE"
  | 59 => Some "FETCH_SNAPSHOT"
  | 60 => Some "DESCRIBE_CLUSTER"
  | 61 => Some "DESCRIBE_PRODUCERS"
  | 62 => Some "BROKER_REGISTRATION"
  | 63 => Some "BROKER_HEARTBEAT"
  | 64 => Some "UNREGISTER_BROKER"
  | 65 => Some "DESCRIBE_TRANSACTIONS"
  | 66 => Some "LIST_TRANSACTIONS"
  | 67 => Some "ALLOCATE_PRODUCER_IDS"
  | 68 => Some "CONSUMER_GROUP_HEARTBEAT"
  | _ => None
  end%string.

(** The text a template literal gives [ApiKeys[apiKey]]. *)
Definition name_text (apiKey : Z) : string :=
  match name apiKey with
  | Some n => n
  | None => "undefined"
  end.

End ApiKeys.

(** ** network/BrokerConnection *)

Module BrokerConnection.

Inductive ConnectionState : Type :=
| DISCONNECTED | CONNECTING | CONNECTED | CLOSING.

Record BrokerConnectionConfig : Type := mkConfig {
  host : string;
  port : Z;
  clientId : string;
  connectionTimeout : Z;
  socketTimeout : Z;
  maxRequestSize : Z;
  requestTimeout : Z
}.

(** [x || d] on numbers: [0] is falsy. *)
Definition or_default (x d : Z) : Z := if x =? 0 then d else x.

(** The handle of the promise [send] returns: its index in [promises].
    [resolve] and [reject] of an InFlightRequest are the two functions of
    that promise. *)
Record InFlightRequest : Type := mkRequest {
  correlationId : Z;
  sentTime : Z;
  timeout : Z;
  apiKey : Z;
  apiVersion : Z;
  requestData : Buffer;
  promise : nat
}.

Inductive PromiseState : Type :=
| Pending
| Resolved (response : Buffer)
| Rejected (error : JsError).

(** The calls of [emit], in the order they are made.  The listeners of
    ['error'] are part of the state of the connection, since [emit] throws
    where there is none; the listeners of the other events are taken to
    return, and no listener calls back into the connection. *)
Inductive Emitted : Type :=
| EmitConnect
| EmitDisconnect (error : option JsError)
| EmitError (error : JsError)
| EmitRequest (apiKey apiVersion correlationId : Z)
| EmitResponse (apiKey apiVersion correlationId duration : Z)
| EmitThrottle (throttleTimeMs : Z)
| EmitBytesOut (bytes : Z)
| EmitBytesIn (bytes : Z).

(** A listener of ['error'] and what a call of it with the emitted error
    does: it returns, or it throws.  A [once] listener is removed before it
    is called.  (The listener NetworkClient registers on the connections it
    opens forwards the error to the client's own ['error'] event, and so
    throws it back when the client has no listener.) *)
Record Listener : Type := mkListener {
  once : bool;
  throws : JsError -> option JsError
}.

(** The field [connectionTimeout]: null, the handle of a timeout that is
    pending, or the handle of a timeout whose callback has run (nothing
    nulls the field when the timeout fires). *)
Inductive TimerHandle : Type := TimerNull | TimerArmed | TimerFired.

(** The state of a connection.  [inFlightRequests] is the Map, in insertion
    order; [socket] tells whether the field is non-null;
    [connectionTimeoutTimer] is the field [connectionTimeout] (the
    configuration has a field of that name too); [requestTimeoutInterval]
    tells whether the field holds the handle of an interval, which then
    runs; [leakedIntervals] counts the intervals that run without a handle,
    theirs having been overwritten by [startRequestTimeoutTimer];
    [errorListeners] are the listeners of ['error'], in the order of their
    registration; [promises] holds the state of every promise [send] has
    returned; [written] lists the calls of [socket.write]: the frame, and
    the correlation id and promise its callback closes over. *)
Record t : Type := mk {
  config : BrokerConnectionConfig;
  socket : bool;
  state : ConnectionState;
  connectionError : option JsError;
  correlationIdCounter : Z;
  inFlightRequests : list (Z * InFlightRequest);
  buffer : option Buffer;
  connectionTimeoutTimer : TimerHandle;
  requestTimeoutInterval : bool;
  leakedIntervals : nat;
  nodeId : Z;
  errorListeners : list Listener;
  promises : list PromiseState;
  written : list (Buffer * Z * nat)
}.

Definition new (config : BrokerConnectionConfig) : t :=
  mk (mkConfig (host config) (port config) (clientId config)
        (or_default (connectionTimeout config) 10000)
        (or_default (socketTimeout config) 30000)
        (or_default (maxRequestSize config) (100 * 1024 * 1024))
        (or_default (requestTimeout config) 30000))
     false DISCONNECTED None 0 [] None TimerNull false 0 (-1) [] [] [].

(** Field updates. *)
Definition set_socket (v : bool) (c : t) : t :=
  mk (config c) v (state c) (connectionError c) (correlationIdCounter c)
     (inFlightRequests c) (buffer c) (connectionTimeoutTimer c)
     (requestTimeoutInterval c) (leakedIntervals c) (nodeId c) (errorListeners c)
     (promises c) (written c).
Definition set_state (v : ConnectionState) (c : t) : t :=
  mk (config c) (socket c) v (connectionError c) (correlationIdCounter c)
     (inFlightRequests c) (buffer c) (connectionTimeoutTimer c)
     (requestTimeoutInterval c) (leakedIntervals c) (nodeId c) (errorListeners c)
     (promises c) (written c).
Definition set_connectionError (v : option JsError) (c : t) : t :=
  mk (config c) (socket c) (state c) v (correlationIdCounter c)
     (inFlightRequests c) (buffer c) (connectionTimeoutTimer c)
     (requestTimeoutInterval c) (leakedIntervals c) (nodeId c) (errorListeners c)
     (promises c) (written c).
Definition set_correlationIdCounter (v : Z) (c : t) : t :=
  mk (config c) (socket c) (state c) (connectionError c) v
     (inFlightRequests c) (buffer c) (connectionTimeoutTimer c)
     (requestTimeoutInterval c) (leakedIntervals c) (nodeId c) (errorListeners c)
     (promises c) (written c).
Definition set_inFlightRequests (v : list (Z * InFlightRequest)) (c : t) : t :=
  mk (config c) (socket c) (state c) (connectionError c) (correlationIdCounter c)
     v (buffer c) (connectionTimeoutTimer c)
     (requestTimeoutInterval c) (leakedIntervals c) (nodeId c) (errorListeners c)
     (promises c) (written c).
Definition set_buffer (v : option Buffer) (c : t) : t :=
  mk (config c) (socket c) (state c) (connectionError c) (correlationIdCounter c)
     (inFlightRequests c) v (connectionTimeoutTimer c)
     (requestTimeoutInterval c) (leakedIntervals c) (nodeId c) (errorListeners c)
     (promises c) (written c).
Definition set_connectionTimeoutTimer (v : TimerHandle) (c : t) : t :=
  mk (config c) (socket c) (state c) (connectionError c) (correlationIdCounter c)
     (inFlightRequests c) (buffer c) v
     (requestTimeoutInterval c) (leakedIntervals c) (nodeId c) (errorListeners c)
     (promises c) (written c).
Definition set_requestTimeoutInterval (v : bool) (c : t) : t :=
  mk (config c) (socket c) (state c) (connectionError c) (correlationIdCounter c)
     (inFlightRequests c) (buffer c) (connectionTimeoutTimer c)
     v (leakedIntervals c) (nodeId c) (errorListeners c)
     (promises c) (written c).
Definition set_leakedIntervals (v : nat) (c : t) : t :=
  mk (config c) (socket c) (state c) (connectionError c) (correlationIdCounter c)
     (inFlightRequests c) (buffer c) (connectionTimeoutTimer c)
     (requestTimeoutInterval c) v (nodeId c) (errorListeners c)
     (promises c) (written c).
Definition setNodeId (v : Z) (c : t) : t :=
  mk (config c) (socket c) (state c) (connectionError c) (correlationIdCounter c)
     (inFlightRequests c) (buffer c) (connectionTimeoutTimer c)
     (requestTimeoutInterval c) (leakedIntervals c) v (errorListeners c)
     (promises c) (written c).
Definition set_errorListeners (v : list Listener) (c : t) : t :=
  mk (config c) (socket c) (state c) (connectionError c) (correlationIdCounter c)
     (inFlightRequests c) (buffer c) (connectionTimeoutTimer c)
     (requestTimeoutInterval c) (leakedIntervals c) (nodeId c) v
     (promises c) (written c).
Definition set_promises (v : list PromiseState) (c : t) : t :=
  mk (config c) (socket c) (state c) (connectionError c) (correlationIdCounter c)
     (inFlightRequests c) (buffer c) (connectionTimeoutTimer c)
     (requestTimeoutInterval c) (leakedIntervals c) (nodeId c) (errorListeners c)
     v (written c).
Definition set_written (v : list (Buffer * Z * nat)) (c : t) : t :=
  mk (config c) (socket c) (state c) (connectionError c) (correlationIdCounter c)
     (inFlightRequests c) (buffer c) (connectionTimeoutTimer c)
     (requestTimeoutInterval c) (leakedIntervals c) (nodeId c) (errorListeners c)
     (promises c) v.

(** The Map of in-flight requests: [get], [set], [delete]. *)
Definition Map_get (k : Z) (m : list (Z * InFlightRequest))
  : option InFlightRequest :=
  option_map snd (List.find (fun e => fst e =? k) m).

Fixpoint Map_set (k : Z) (v : InFlightRequest) (m : list (Z * InFlightRequest))
  : list (Z * InFlightRequest) :=
  match m with
  | [] => [(k, v)]
  | e :: m' => if fst e =? k then (k, v) :: m' else e :: Map_set k v m'
  end.

Definition Map_delete (k : Z) (m : list (Z * InFlightRequest))
  : list (Z * InFlightRequest) :=
  List.filter (fun e => negb (fst e =? k)) m.

(** Calling [resolve] or [reject] of a promise: the first call settles it,
    later calls do nothing. *)
Definition settle (p : nat) (outcome : PromiseState) (ps : list PromiseState)
  : list PromiseState :=
  match ps !! p with
  | Some Pending => <[p := outcome]> ps
  | _ => ps
  end.

(** [for (const request of this.inFlightRequests.values()) request.reject(error)] *)
Definition rejectAll (error : JsError) (m : list (Z * InFlightRequest))
    (ps : list PromiseState) : list PromiseState :=
  fold_left (fun ps e => settle (promise (snd e)) (Rejected error) ps) m ps.

Definition isConnected (c : t) : bool :=
  match state c with
  | CONNECTED => socket c
  | _ => false
  end.

(** [stopRequestTimeoutTimer] clears the interval whose handle the field
    holds; the intervals that lost their handle go on. *)
Definition stopRequestTimeoutTimer (c : t) : t :=
  set_requestTimeoutInterval false c.

(** The [clearTimeout] and [stopRequestTimeoutTimer] of both teardown paths. *)
Definition clearTimers (c : t) : t :=
  stopRequestTimeoutTimer (set_connectionTimeoutTimer TimerNull c).

Definition disconnect (c : t) : t * list Emitted :=
  match state c with
  | DISCONNECTED => (c, [])
  | _ =>
      let c := set_state CLOSING c in
      let c := clearTimers c in
      let c := set_promises
                 (rejectAll (DisconnectedError "Connection closed")
                    (inFlightRequests c) (promises c)) c in
      let c := set_inFlightRequests [] c in
      let c := set_socket false c in
      let c := set_state DISCONNECTED c in
      (c, [EmitDisconnect None])
  end.

(** The outcome of an event handler: it returns, it throws (the state and
    the events are those at the throw), or it never returns. *)
Inductive Outcome : Type :=
| Done (c : t) (events : list Emitted)
| Uncaught (e : JsError) (c : t) (events : list Emitted)
| Forever.

(** The events emitted before those of an outcome. *)
Definition emitted (first : list Emitted) (o : Outcome) : Outcome :=
  match o with
  | Done c events => Done c (first ++ events)
  | Uncaught e c events => Uncaught e c (first ++ events)
  | Forever => Forever
  end.

(** Calling the listeners of an event in the order of their registration,
    until one of them throws: the listeners that stay registered, and what
    was thrown. *)
Fixpoint callListeners (error : JsError) (listeners : list Listener)
  : list Listener * option JsError :=
  match listeners with
  | [] => ([], None)
  | listener :: listeners' =>
      let kept := if once listener then [] else [listener] in
      match throws listener error with
      | Some thrown => (kept ++ listeners', Some thrown)
      | None =>
          let '(rest, thrown) := callListeners error listeners' in
          (kept ++ rest, thrown)
      end
  end.

(** [this.emit('error', error)]: with no listener of ['error'], [emit]
    throws the error itself. *)
Definition emitError (error : JsError) (c : t) : t * option JsError :=
  match errorListeners c with
  | [] => (c, Some error)
  | listeners =>
      let '(listeners, thrown) := callListeners error listeners in
      (set_errorListeners listeners c, thrown)
  end.

(** [onError(error)]: what [emit] throws leaves the method before
    [disconnect()] is called. *)
Definition onError (error : JsError) (c : t) : Outcome :=
  let c := set_connectionError (Some error) c in
  match emitError error c with
  | (c, Some thrown) => Uncaught thrown c [EmitError error]
  | (c, None) =>
      let '(c, events) := disconnect c in
      Done c (EmitError error :: events)
  end.

Definition onDisconnect (error : option JsError) (c : t) : t * list Emitted :=
  let wasConnected := match state c with CONNECTED => true | _ => false end in
  let c := set_state DISCONNECTED c in
  let c := clearTimers c in
  let reason := match error with
                | Some e => e
                | None => DisconnectedError "Connection closed"
                end in
  let c := set_promises (rejectAll reason (inFlightRequests c) (promises c)) c in
  let c := set_inFlightRequests [] c in
  let c := set_socket false c in
  (c, if wasConnected then [EmitDisconnect error] else []).

Definition nextCorrelationId (c : t) : t * Z :=
  let next := Z.rem (correlationIdCounter c + 1) 2147483647 in
  (set_correlationIdCounter next c, next).

(** [connect()]: a new dial only from DISCONNECTED (or CLOSING); while
    CONNECTING, the call registers [reject] as a [once] listener of
    ['error'].  The promise it returns is not part of the model. *)
Definition connect (c : t) : t :=
  match state c with
  | CONNECTED => c
  | CONNECTING =>
      set_errorListeners (errorListeners c ++ [mkListener true (fun _ => None)]) c
  | _ =>
      let c := set_state CONNECTING c in
      let c := set_connectionError None c in
      let c := set_socket true c in
      set_connectionTimeoutTimer TimerArmed c
  end.

(** [startRequestTimeoutTimer] puts the handle of a new interval in the
    field; an interval whose handle was there runs on without one. *)
Definition startRequestTimeoutTimer (c : t) : t :=
  let c := if requestTimeoutInterval c
           then set_leakedIntervals (S (leakedIntervals c)) c
           else c in
  set_requestTimeoutInterval true c.

(** The handler of the socket's ['connect'] event. *)
Definition onSocketConnect (c : t) : t * list Emitted :=
  let c := set_connectionTimeoutTimer TimerNull c in
  let c := set_state CONNECTED c in
  let c := startRequestTimeoutTimer c in
  (c, [EmitConnect]).

Definition connectTimeoutMessage (c : t) : string :=
  "Connection to " +:+ host (config c) +:+ ":" +:+ Number_toString (port (config c))
    +:+ " timed out after " +:+ Number_toString (connectionTimeout (config c))
    +:+ "ms".

Definition socketTimeoutMessage (c : t) : string :=
  "Socket timeout after " +:+ Number_toString (socketTimeout (config c)) +:+ "ms".

Definition requestTooLargeMessage (totalSize : Z) (c : t) : string :=
  "Request size " +:+ Number_toString totalSize +:+ " bytes exceeds max size "
    +:+ Number_toString (maxRequestSize (config c)) +:+ " bytes".

Definition requestTimeoutMessage (age correlationId apiKey : Z) : string :=
  "Request timed out after " +:+ Number_toString age +:+ "ms (correlationId: "
    +:+ Number_toString correlationId +:+ ", apiKey: "
    +:+ ApiKeys.name_text apiKey +:+ ")".

(** [send(apiKey, apiVersion, requestData, timeout)] at time [now].  The
    result is the handle of the promise registered for the request, or the
    exception with which the call is rejected before anything is registered. *)
Definition send (apiKey apiVersion : Z) (requestData : Buffer)
    (timeout : option Z) (now : Z) (c : t) : t * list Emitted * result nat :=
  if negb (isConnected c)
  then (c, [], Throw (DisconnectedError "Not connected to broker"))
  else
    let '(c, correlationId) := nextCorrelationId c in
    let header :=
      RequestHeader.mk apiKey apiVersion correlationId
        (Some (clientId (config c))) in
    match RequestHeader.encode header with
    | Throw e => (c, [], Throw e)
    | Ok headerBuffer =>
        let totalSize := 4 + blen headerBuffer + blen requestData in
        if maxRequestSize (config c) <? totalSize
        then (c, [], Throw (KafkaError (requestTooLargeMessage totalSize c)))
        else
          let request := Buf.alloc totalSize in
          match Buf.writeInt32BE request (totalSize - 4) 0 with
          | Throw e => (c, [], Throw e)
          | Ok request =>
              let request := Buf.copy headerBuffer request 4 in
              let request := Buf.copy requestData request (4 + blen headerBuffer) in
              let p := List.length (promises c) in
              let c := set_promises (promises c ++ [Pending]) c in
              let inFlightRequest :=
                mkRequest correlationId now
                  (match timeout with
                   | Some t => or_default t (requestTimeout (config c))
                   | None => requestTimeout (config c)
                   end)
                  apiKey apiVersion requestData p in
              let c := set_inFlightRequests
                         (Map_set correlationId inFlightRequest (inFlightRequests c))
                         c in
              let c := set_written (written c ++ [(request, correlationId, p)]) c in
              (c, [EmitBytesOut (blen request);
                   EmitRequest apiKey apiVersion correlationId], Ok p)
          end
    end.

(** The callback given to [socket.write] for the [i]-th written frame,
    called with an error. *)
Definition onWriteError (i : nat) (error : JsError) (c : t) : t :=
  match written c !! i with
  | None => c
  | Some (_, correlationId, p) =>
      let c := set_inFlightRequests
                 (Map_delete correlationId (inFlightRequests c)) c in
      set_promises (settle p (Rejected error) (promises c)) c
  end.

(** [handleResponse(responseBuffer)] at time [now].  What the body throws
    is caught and given to [onError]; what [onError] throws leaves the
    method. *)
Definition handleResponse (now : Z) (responseBuffer : Buffer) (c : t) : Outcome :=
  match ResponseHeader.decode responseBuffer with
  | Throw e => onError e c
  | Ok header =>
      match Map_get (ResponseHeader.correlationId header) (inFlightRequests c) with
      | None => Done c []
      | Some request =>
          let c := set_inFlightRequests
                     (Map_delete (ResponseHeader.correlationId header)
                        (inFlightRequests c)) c in
          let duration := now - sentTime request in
          let response :=
            EmitResponse (apiKey request) (apiVersion request)
              (ResponseHeader.correlationId header) duration in
          let throttle :=
            if ResponseHeader.size header + 4 <=? blen responseBuffer
            then match Buf.readInt32BE responseBuffer (ResponseHeader.size header) with
                 | Ok throttleTimeMs =>
                     Ok (if 0 <? throttleTimeMs
                         then [EmitThrottle throttleTimeMs] else [])
                 | Throw e => Throw e
                 end
            else Ok [] in
          match throttle with
          | Throw e => emitted [response] (onError e c)
          | Ok throttleEvents =>
              let body := Buf.slice_from responseBuffer (ResponseHeader.size header) in
              Done (set_promises (settle (promise request) (Resolved body) (promises c))
                      c)
                   (response :: throttleEvents)
          end
      end
  end.

(** How the [while (processed < this.buffer.length)] loop of
    [handleIncomingData] ends: normally, by an exception that leaves the
    handler, or never (a length field of -4 makes no progress). *)
Inductive LoopResult : Type :=
| LoopDone (c : t) (events : list Emitted) (processed : Z)
| LoopThrew (e : JsError) (c : t) (events : list Emitted)
| LoopForever.

(** The positions the loop visits depend on the buffer alone; visiting more
    of them than the buffer has bytes means visiting one twice, hence
    forever.  [fuel] counts the iterations left. *)
Fixpoint processMessages (fuel : nat) (now : Z) (buf : Buffer) (processed : Z)
    (c : t) (events : list Emitted) : LoopResult :=
  match fuel with
  | O => LoopForever
  | S fuel' =>
      if processed <? blen buf then
        if blen buf - processed <? 4 then LoopDone c events processed
        else
          match Buf.readInt32BE buf processed with
          | Throw e => LoopThrew e c events
          | Ok messageSize =>
              if blen buf - processed - 4 <? messageSize
              then LoopDone c events processed
              else
                let message :=
                  Buf.slice buf (processed + 4) (processed + 4 + messageSize) in
                match handleResponse now message c with
                | Done c ev =>
                    processMessages fuel' now buf (processed + 4 + messageSize) c
                      (events ++ ev)
                | Uncaught e c ev => LoopThrew e c (events ++ ev)
                | Forever => LoopForever
                end
          end
      else LoopDone c events processed
  end.

(** [handleIncomingData(data)] at time [now]. *)
Definition handleIncomingData (now : Z) (data : Buffer) (c : t) : Outcome :=
  let buf := match buffer c with
             | Some b => Buf.concat b data
             | None => data
             end in
  let c := set_buffer (Some buf) c in
  match processMessages (S (List.length buf)) now buf 0 c [EmitBytesIn (blen data)] with
  | LoopForever => Forever
  | LoopThrew e c events => Uncaught e c events
  | LoopDone c events processed =>
      if processed =? 0 then Done c events
      else if processed <? blen buf
      then Done (set_buffer (Some (Buf.slice_from buf processed)) c) events
      else Done (set_buffer None c) events
  end.

(** One tick of the interval armed by [startRequestTimeoutTimer], at [now]. *)
Definition sweepEntry (now : Z)
    (acc : list (Z * InFlightRequest) * list PromiseState)
    (entry : Z * InFlightRequest)
  : list (Z * InFlightRequest) * list PromiseState :=
  let '(correlationId, request) := entry in
  let age := now - sentTime request in
  if timeout request <? age
  then (Map_delete correlationId (fst acc),
        settle (promise request)
          (Rejected (TimeoutError
                       (requestTimeoutMessage age correlationId (apiKey request))))
          (snd acc))
  else acc.

Definition sweep (now : Z) (c : t) : t :=
  let '(requests, ps) :=
    fold_left (sweepEntry now) (inFlightRequests c)
      (inFlightRequests c, promises c) in
  set_promises ps (set_inFlightRequests requests c).

(** What can happen to a connection: the calls of its public methods
    (those of EventEmitter that concern ['error'] among them) and the
    callbacks the socket and the timers invoke.  [ConnectTimeout] is the
    callback of the timeout behind the handle [connectionTimeout];
    [SweepTick] is a tick of an interval started by
    [startRequestTimeoutTimer]. *)
Inductive Event : Type :=
| CallConnect
| CallDisconnect
| CallSend (apiKey apiVersion : Z) (requestData : Buffer) (timeout : option Z)
           (now : Z)
| CallOn (listener : Listener)
| CallRemoveAllListeners
| CallSetNodeId (nodeId : Z)
| SocketConnect
| SocketData (now : Z) (data : Buffer)
| SocketError (error : JsError)
| SocketEnd
| SocketClose (hadError : bool)
| SocketTimeout
| ConnectTimeout
| WriteError (i : nat) (error : JsError)
| SweepTick (now : Z).

Definition step (ev : Event) (c : t) : Outcome :=
  match ev with
  | CallConnect => Done (connect c) []
  | CallDisconnect => let '(c, events) := disconnect c in Done c events
  | CallSend k v data timeout now =>
      let '(c, events, _) := send k v data timeout now c in Done c events
  | CallOn listener =>
      Done (set_errorListeners (errorListeners c ++ [listener]) c) []
  | CallRemoveAllListeners => Done (set_errorListeners [] c) []
  | CallSetNodeId nodeId => Done (setNodeId nodeId c) []
  | SocketConnect => let '(c, events) := onSocketConnect c in Done c events
  | SocketData now data => handleIncomingData now data c
  | SocketError error => onError error c
  | SocketEnd =>
      let '(c, events) :=
        onDisconnect (Some (DisconnectedError "Broker closed connection")) c in
      Done c events
  | SocketClose hadError =>
      if hadError then Done c []
      else let '(c, events) := onDisconnect None c in Done c events
  | SocketTimeout => onError (TimeoutError (socketTimeoutMessage c)) c
  | ConnectTimeout =>
      match connectionTimeoutTimer c with
      | TimerArmed =>
          onError (TimeoutError (connectTimeoutMessage c))
            (set_connectionTimeoutTimer TimerFired c)
      | _ => Done c []
      end
  | WriteError i error => Done (onWriteError i error c) []
  | SweepTick now =>
      if requestTimeoutInterval c || (0 <? leakedIntervals c)%nat
      then Done (sweep now c) []
      else Done c []
  end.

(** The state a handler leaves behind, when it ends. *)
Definition after (o : Outcome) : option t :=
  match o with
  | Done c _ => Some c
  | Uncaught _ c _ => Some c
  | Forever => None
  end.

(** Running a sequence of events; [None] when a handler never returns.  An
    exception that leaves a handler is uncaught: the process ends there, or,
    where it handles uncaught exceptions, goes on with the connection as it
    was at the throw.  The run goes on, so that what holds after every run
    holds in both cases. *)
Fixpoint run (evs : list Event) (c : t) : option t :=
  match evs with
  | [] => Some c
  | ev :: evs' =>
      match after (step ev c) with
      | Some c' => run evs' c'
      | None => None
      end
  end.

(** Feeding the incoming-data handler a sequence of chunks at time [now],
    as long as it returns. *)
Fixpoint feed (now : Z) (chunks : list Buffer) (c : t) (events : list Emitted)
  : Outcome :=
  match chunks with
  | [] => Done c events
  | chunk :: chunks' =>
      match handleIncomingData now chunk c with
      | Done c' ev => feed now chunks' c' (events ++ ev)
      | other => emitted events other
      end
  end.

End BrokerConnection.


(** ** Vocabulary for the framing of responses *)

(** A response frame: the payload behind its 4-byte big-endian length. *)
Definition frame_of (payload : Buffer) : Buffer :=
  Z_to_be 4 (blen payload) ++ payload.

(** Bytes that do not yet hold a whole frame: fewer than four, or fewer
    than the length they announce. *)
Definition incomplete (bytes : Buffer) : Prop :=
  blen bytes < 4 \/
  exists size, Buf.readInt32BE bytes 0 = Ok size /\ blen bytes - 4 < size.

(** The pending bytes of a connection. *)
Definition pending (c : BrokerConnection.t) : Buffer :=
  match BrokerConnection.buffer c with
  | Some b => b
  | None => []
  end.

(** The [buffer] field that holds the pending bytes [b]. *)
Definition buffer_of (b : Buffer) : option Buffer :=
  match b with
  | [] => None
  | _ => Some b
  end.

(** The same outcome with the state changed by [f]. *)
Definition map_state (f : BrokerConnection.t -> BrokerConnection.t)
    (o : BrokerConnection.Outcome) : BrokerConnection.Outcome :=
  match o with
  | BrokerConnection.Done c events => BrokerConnection.Done (f c) events
  | BrokerConnection.Uncaught e c events => BrokerConnection.Uncaught e (f c) events
  | BrokerConnection.Forever => BrokerConnection.Forever
  end.

(** What [handleIncomingData] leaves of the outcome of a message handler
    called on the bytes [buf]: when the handler returns, the bytes [rest]
    behind the frames stay buffered; when it throws, the whole of [buf]
    does. *)
Definition buffered (buf rest : Buffer) (o : BrokerConnection.Outcome)
  : BrokerConnection.Outcome :=
  match o with
  | BrokerConnection.Done c events =>
      BrokerConnection.Done (BrokerConnection.set_buffer (buffer_of rest) c) events
  | BrokerConnection.Uncaught e c events =>
      BrokerConnection.Uncaught e (BrokerConnection.set_buffer (Some buf) c) events
  | BrokerConnection.Forever => BrokerConnection.Forever
  end.

(** The ['throttle'] event of a response: the int32 behind the correlation
    id, when the message has one and it is positive. *)
Definition throttle_of (responseBuffer : Buffer)
  : list BrokerConnection.Emitted :=
  match Buf.readInt32BE responseBuffer 4 with
  | Ok throttleTimeMs =>
      if 0 <? throttleTimeMs
      then [BrokerConnection.EmitThrottle throttleTimeMs] else []
  | Throw _ => []
  end.

(** The connection after the response [responseBuffer] to the request
    [request] in flight under [correlationId]: the entry is gone and the
    promise of the request is resolved with the message behind the four
    bytes of the header. *)
Definition resolved (correlationId : Z) (request : BrokerConnection.InFlightRequest)
    (responseBuffer : Buffer) (c : BrokerConnection.t) : BrokerConnection.t :=
  BrokerConnection.set_promises
    (BrokerConnection.settle (BrokerConnection.promise request)
       (BrokerConnection.Resolved (Buf.slice_from responseBuffer 4))
       (BrokerConnection.promises c))
    (BrokerConnection.set_inFlightRequests
       (BrokerConnection.Map_delete correlationId
          (BrokerConnection.inFlightRequests c)) c).

(** The ['response'] event of that response, received at time [now]. *)
Definition response_of (correlationId : Z) (request : BrokerConnection.InFlightRequest)
    (now : Z) : BrokerConnection.Emitted :=
  BrokerConnection.EmitResponse (BrokerConnection.apiKey request)
    (BrokerConnection.apiVersion request) correlationId
    (now - BrokerConnection.sentTime request).

(** The ['bytesIn'] events of a sequence of chunks. *)
Definition bytesIn_of (chunks : list Buffer) : list BrokerConnection.Emitted :=
  map (fun chunk => BrokerConnection.EmitBytesIn (blen chunk)) chunks.


(** ** A connection with one request in flight, used in the examples *)

Definition example_config : BrokerConnection.BrokerConnectionConfig :=
  BrokerConnection.mkConfig "kafka-1" 9092 "app" 0 0 0 0.

(** Connected, then one Metadata request sent at time 1000. *)
Definition example_trace : list BrokerConnection.Event :=
  [BrokerConnection.CallConnect; BrokerConnection.SocketConnect;
   BrokerConnection.CallSend ApiKeys.METADATA 1 [x0a; x0b] None 1000].

Definition example_connection : BrokerConnection.t :=
  match BrokerConnection.run example_trace (BrokerConnection.new example_config) with
  | Some c => c
  | None => BrokerConnection.new example_config
  end.

(** The entry of that request in the in-flight table. *)
Definition example_request : BrokerConnection.InFlightRequest :=
  BrokerConnection.mkRequest 1 1000 30000 ApiKeys.METADATA 1 [x0a; x0b] 0.

(** The response to that request: correlation id 1, then a two-byte body. *)
Definition example_response : Buffer := [x00; x00; x00; x01; x2a; x2b].

(** ** Vocabulary for the life of a promise *)

(** The terminal states a promise of [send] can reach: resolved with a
    response body, rejected with a TimeoutError or a DisconnectedError, or
    rejected with an error [e] that a write callback received
    ([from_write e]). *)
Definition terminal (from_write : JsError -> Prop)
    (s : BrokerConnection.PromiseState) : Prop :=
  match s with
  | BrokerConnection.Pending => False
  | BrokerConnection.Resolved _ => True
  | BrokerConnection.Rejected (TimeoutError _) => True
  | BrokerConnection.Rejected (DisconnectedError _) => True
  | BrokerConnection.Rejected e => from_write e
  end.

(** The three outcomes of a send: resolved, rejected with a TimeoutError,
    rejected with a DisconnectedError. *)
Definition three_outcomes (s : BrokerConnection.PromiseState) : Prop :=
  terminal (fun _ => False) s.

(** From [ps] to [ps']: a settled promise keeps its state, and a promise
    that was pending or did not exist is pending or in a state [P] allows. *)
Definition evolves (P : BrokerConnection.PromiseState -> Prop)
    (ps ps' : list BrokerConnection.PromiseState) : Prop :=
  forall q : nat,
    match ps !! q with
    | Some BrokerConnection.Pending | None =>
        forall s, ps' !! q = Some s -> s = BrokerConnection.Pending \/ P s
    | Some s => ps' !! q = Some s
    end.

(** The events that tear a connection down. *)
Definition teardown (ev : BrokerConnection.Event) : Prop :=
  match ev with
  | BrokerConnection.CallDisconnect
  | BrokerConnection.SocketEnd
  | BrokerConnection.SocketClose false
  | BrokerConnection.SocketError _
  | BrokerConnection.SocketTimeout => True
  | _ => False
  end.

(** Whether [emit('error', error)] returns on a connection: a listener of
    ['error'] is registered and none of the listeners throws. *)
Definition heard (error : JsError) (c : BrokerConnection.t) : bool :=
  match snd (BrokerConnection.emitError error c) with
  | None => true
  | Some _ => false
  end.

(** The connection after [emit('error', error)]: the [once] listeners that
    were called are gone. *)
Definition hearing (error : JsError) (c : BrokerConnection.t) : BrokerConnection.t :=
  fst (BrokerConnection.emitError error c).

(** The connection as [onError] has it once [emit('error', error)] is over:
    the error recorded, the [once] listeners that were called gone. *)
Definition noted (error : JsError) (c : BrokerConnection.t) : BrokerConnection.t :=
  hearing error (BrokerConnection.set_connectionError (Some error) c).

(** The error a teardown event hands to [onError], if it goes that way. *)
Definition error_of (ev : BrokerConnection.Event) (c : BrokerConnection.t)
  : option JsError :=
  match ev with
  | BrokerConnection.SocketError error => Some error
  | BrokerConnection.SocketTimeout =>
      Some (TimeoutError (BrokerConnection.socketTimeoutMessage c))
  | _ => None
  end.

(** Whether the handler of a teardown event gets as far as closing the
    connection: the socket's error and timeout go through [onError], which
    emits ['error'] first. *)
Definition closes (ev : BrokerConnection.Event) (c : BrokerConnection.t) : bool :=
  match error_of ev c with
  | Some error => heard error c
  | None => true
  end.

(** A listener that returns, as [on('error', ...)] registers it. *)
Definition quiet_listener : BrokerConnection.Listener :=
  BrokerConnection.mkListener false (fun _ => None).

(** A listener that throws the error back, as the one NetworkClient
    registers does when the client itself has no listener of ['error']. *)
Definition forwarding_listener : BrokerConnection.Listener :=
  BrokerConnection.mkListener false Some.

(** The test of the timeout sweep on one entry of the in-flight table at
    time [now], and the error it rejects the request with. *)
Definition expired (now : Z) (entry : Z * BrokerConnection.InFlightRequest) : bool :=
  BrokerConnection.timeout (snd entry)
  <? now - BrokerConnection.sentTime (snd entry).

Definition timeout_error (now : Z) (entry : Z * BrokerConnection.InFlightRequest)
  : JsError :=
  TimeoutError
    (BrokerConnection.requestTimeoutMessage
       (now - BrokerConnection.sentTime (snd entry)) (fst entry)
       (BrokerConnection.apiKey (snd entry))).

(** An error the socket hands to a write callback. *)
Definition example_write_error : JsError := SocketError "write EPIPE".

(** The number of [send] calls in a sequence of events. *)
Fixpoint sends (evs : list BrokerConnection.Event) : Z :=
  match evs with
  | [] => 0
  | BrokerConnection.CallSend _ _ _ _ _ :: evs' => 1 + sends evs'
  | _ :: evs' => sends evs'
  end.

(** The promise of an entry of the in-flight table. *)
Definition promise_of (entry : Z * BrokerConnection.InFlightRequest) : nat :=
  BrokerConnection.promise (snd entry).

(** The bookkeeping of a connection whose correlation counter has not
    wrapped: the in-flight table holds exactly the requests whose promise
    is pending, one entry per correlation id and per promise; every write
    callback closes over the id and the promise of the same request; and
    the table is empty unless the connection is CONNECTED. *)
Record registered (c : BrokerConnection.t) : Prop := {
  reg_keys :
    NoDup (map fst (BrokerConnection.inFlightRequests c));
  reg_promises :
    NoDup (map promise_of (BrokerConnection.inFlightRequests c));
  reg_pending :
    forall e, In e (BrokerConnection.inFlightRequests c) ->
      BrokerConnection.promises c !! promise_of e = Some BrokerConnection.Pending;
  reg_table :
    forall q, BrokerConnection.promises c !! q = Some BrokerConnection.Pending ->
      exists e, In e (BrokerConnection.inFlightRequests c) /\ promise_of e = q;
  reg_counter :
    0 <= BrokerConnection.correlationIdCounter c /\
    forall e, In e (BrokerConnection.inFlightRequests c) ->
      fst e <= BrokerConnection.correlationIdCounter c;
  reg_written :
    forall frame k p, In (frame, k, p) (BrokerConnection.written c) ->
      k <= BrokerConnection.correlationIdCounter c /\
      (p < List.length (BrokerConnection.promises c))%nat /\
      forall e, In e (BrokerConnection.inFlightRequests c) ->
        fst e = k <-> promise_of e = p;
  reg_state :
    BrokerConnection.inFlightRequests c = [] \/
    BrokerConnection.state c = BrokerConnection.CONNECTED
}.

(** ** protocol/ApiVersions: the version ranges a broker supports *)

Module ApiVersionRange.
Record t : Type := mk {
  apiKey : Z;
  minVersion : Z;
  maxVersion : Z
}.
End ApiVersionRange.

Module ApiVersions.

Record t : Type := mk {
  versionRanges : gmap Z ApiVersionRange.t;
  defaultMinVersion : Z;
  defaultMaxVersion : Z
}.

(** The constructor; [defaultMaxVersion] is 0 when the argument is left out. *)
Definition new (defaultMaxVersion : option Z) : t :=
  mk ∅ 0 (match defaultMaxVersion with Some v => v | None => 0 end).

(** [for (const range of versionRanges) this.versionRanges.set(range.apiKey, range)] *)
Definition update (versionRanges : list ApiVersionRange.t) (this : t) : t :=
  mk (fold_left (fun m range => <[ApiVersionRange.apiKey range := range]> m)
        versionRanges (ApiVersions.versionRanges this))
     (defaultMinVersion this) (defaultMaxVersion this).

Definition getVersionRange (apiKey : Z) (this : t) : ApiVersionRange.t :=
  match versionRanges this !! apiKey with
  | None => ApiVersionRange.mk apiKey (defaultMinVersion this) (defaultMaxVersion this)
  | Some range => range
  end.

Definition maxVersion (apiKey : Z) (this : t) : Z :=
  ApiVersionRange.maxVersion (getVersionRange apiKey this).

Definition minVersion (apiKey : Z) (this : t) : Z :=
  ApiVersionRange.minVersion (getVersionRange apiKey this).

Definition isVersionSupported (apiKey apiVersion : Z) (this : t) : bool :=
  let range := getVersionRange apiKey this in
  (ApiVersionRange.minVersion range <=? apiVersion)
  && (apiVersion <=? ApiVersionRange.maxVersion range).

(** [selectVersion(apiKey, preferredVersion?, fallbackVersion?)]: an
    argument left out is [None]. *)
Definition selectVersion (apiKey : Z) (preferredVersion fallbackVersion : option Z)
    (this : t) : Z :=
  let range := getVersionRange apiKey this in
  let supported (version : option Z) : bool :=
    match version with
    | Some version =>
        (ApiVersionRange.minVersion range <=? version)
        && (version <=? ApiVersionRange.maxVersion range)
    | None => false
    end in
  if supported preferredVersion
  then match preferredVersion with Some v => v | None => 0 end
  else if supported fallbackVersion
  then match fallbackVersion with Some v => v | None => 0 end
  else ApiVersionRange.maxVersion range.

End ApiVersions.

(** ** network/protocol/Protocol *)

Module Protocol.

(** [writeBoolean(buffer, value, offset)]: the buffer is written in place;
    the result carries the buffer as the call leaves it. *)
Definition writeBoolean (buffer : Buffer) (value : bool) (offset : Z)
  : result (Buffer * Z) :=
  let! buffer := Buf.writeInt8 buffer (if value then 1 else 0) offset in
  Ok (buffer, offset + 1).

Definition readBoolean (buffer : Buffer) (offset : Z) : result (bool * Z) :=
  let! value := Buf.readInt8 buffer offset in
  Ok (negb (value =? 0), offset + 1).

End Protocol.

(** ** network/protocol/requests/ApiVersionsRequest *)

Module ApiVersionsRequest.

Record t : Type := mk {
  clientSoftwareName : string;
  clientSoftwareVersion : string
}.

(** [create(clientSoftwareName = 'node-kafka-client',
            clientSoftwareVersion = '1.0.0')] *)
Definition create (clientSoftwareName clientSoftwareVersion : option string) : t :=
  mk (match clientSoftwareName with Some s => s | None => "node-kafka-client" end)
     (match clientSoftwareVersion with Some s => s | None => "1.0.0" end).

Definition encode (this : t) : result Buffer :=
  let nameLength := Buf.byteLength (clientSoftwareName this) in
  let versionLength := Buf.byteLength (clientSoftwareVersion this) in
  let size := 2 + nameLength + 2 + versionLength + 4 in
  let buffer := Buf.alloc size in
  let offset := 0 in
  let! buffer := Buf.writeInt16BE buffer nameLength offset in
  let offset := offset + 2 in
  let buffer := Buf.write buffer (clientSoftwareName this) offset in
  let offset := offset + nameLength in
  let! buffer := Buf.writeInt16BE buffer versionLength offset in
  let offset := offset + 2 in
  let buffer := Buf.write buffer (clientSoftwareVersion this) offset in
  let offset := offset + versionLength in
  Buf.writeUInt8 buffer 0 offset.

End ApiVersionsRequest.

(** ** network/protocol/requests/MetadataRequest *)

Module MetadataRequest.

Record t : Type := mk {
  topics : option (list string);
  allowAutoTopicCreation : bool;
  includeClusterAuthorizedOperations : bool;
  includeTopicAuthorizedOperations : bool
}.

Definition forAllTopics (allowAutoTopicCreation includeClusterAuthorizedOperations
                         includeTopicAuthorizedOperations : bool) : t :=
  mk None allowAutoTopicCreation includeClusterAuthorizedOperations
     includeTopicAuthorizedOperations.

Definition forTopics (topics : list string)
    (allowAutoTopicCreation includeClusterAuthorizedOperations
     includeTopicAuthorizedOperations : bool) : t :=
  mk (Some topics) allowAutoTopicCreation includeClusterAuthorizedOperations
     includeTopicAuthorizedOperations.

(** [for (const topic of this.topics) size += 2 + Buffer.byteLength(topic)] *)
Fixpoint sizeOfTopics (topics : list string) (size : Z) : Z :=
  match topics with
  | [] => size
  | topic :: topics' => sizeOfTopics topics' (size + (2 + Buf.byteLength topic))
  end.

(** The loop that writes the topics, each behind its 16-bit length. *)
Fixpoint writeTopics (topics : list string) (buffer : Buffer) (offset : Z)
  : result (Buffer * Z) :=
  match topics with
  | [] => Ok (buffer, offset)
  | topic :: topics' =>
      let topicLength := Buf.byteLength topic in
      let! buffer := Buf.writeInt16BE buffer topicLength offset in
      let offset := offset + 2 in
      let buffer := Buf.write buffer topic offset in
      let offset := offset + topicLength in
      writeTopics topics' buffer offset
  end.

Definition encode (this : t) : result Buffer :=
  let size := 4 in
  let size :=
    match topics this with
    | Some topics => sizeOfTopics topics size
    | None => size
    end in
  let size := size + 1 in
  let size := size + 1 in
  let size := size + 1 in
  let buffer := Buf.alloc size in
  let offset := 0 in
  let! (buffer, offset) :=
    match topics this with
    | None =>
        let! buffer := Buf.writeInt32BE buffer (-1) offset in
        Ok (buffer, offset + 4)
    | Some topics =>
        let! buffer :=
          Buf.writeInt32BE buffer (Z.of_nat (List.length topics)) offset in
        let offset := offset + 4 in
        writeTopics topics buffer offset
    end in
  let! (buffer, _) := Protocol.writeBoolean buffer (allowAutoTopicCreation this) offset in
  let offset := offset + 1 in
  let! (buffer, _) :=
    Protocol.writeBoolean buffer (includeClusterAuthorizedOperations this) offset in
  let offset := offset + 1 in
  let! (buffer, _) :=
    Protocol.writeBoolean buffer (includeTopicAuthorizedOperations this) offset in
  Ok buffer.

End MetadataRequest.

(** ** network/protocol/responses/ApiVersionsResponse *)

Module ApiVersionsResponse.

Record t : Type := mk {
  errorCode : Z;
  apiVersions : list ApiVersionRange.t;
  throttleTimeMs : Z
}.

(** [for (let i = 0; i < apiVersionsLength; i++)]: [count] iterations are
    left; a read past the end throws and ends the loop. *)
Fixpoint readApiVersions (count : nat) (buffer : Buffer) (offset : Z)
    (apiVersions : list ApiVersionRange.t)
  : result (list ApiVersionRange.t * Z) :=
  match count with
  | O => Ok (apiVersions, offset)
  | S count' =>
      let! apiKey := Buf.readInt16BE buffer offset in
      let offset := offset + 2 in
      let! minVersion := Buf.readInt16BE buffer offset in
      let offset := offset + 2 in
      let! maxVersion := Buf.readInt16BE buffer offset in
      let offset := offset + 2 in
      readApiVersions count' buffer offset
        (apiVersions ++ [ApiVersionRange.mk apiKey minVersion maxVersion])
  end.

Definition parse (buffer : Buffer) : result t :=
  let offset := 0 in
  let! errorCode := Buf.readInt16BE buffer offset in
  let offset := offset + 2 in
  let! throttleTimeMs := Buf.readInt32BE buffer offset in
  let offset := offset + 4 in
  let! apiVersionsLength := Buf.readInt32BE buffer offset in
  let offset := offset + 4 in
  let! (apiVersions, _) :=
    readApiVersions (Z.to_nat apiVersionsLength) buffer offset [] in
  Ok (mk errorCode apiVersions throttleTimeMs).

End ApiVersionsResponse.

(** ** network/protocol/responses/MetadataResponse *)

Module MetadataResponse.

Record t : Type := mk {
  throttleTimeMs : Z;
  brokers : list Broker.t;
  clusterId : option string;
  controllerId : Z;
  topics : list TopicMetadata.t;
  clusterAuthorizedOperations : Z
}.

(** [for (let k = 0; k < length; k++) { nodes.push(buffer.readInt32BE(offset)); offset += 4 }],
    the loop that reads the replica, ISR and offline-replica lists. *)
Fixpoint readNodes (count : nat) (buffer : Buffer) (offset : Z) (nodes : list Z)
  : result (list Z * Z) :=
  match count with
  | O => Ok (nodes, offset)
  | S count' =>
      let! node := Buf.readInt32BE buffer offset in
      let offset := offset + 4 in
      readNodes count' buffer offset (nodes ++ [node])
  end.

(** [for (let j = 0; j < partitionsLength; j++)] *)
Fixpoint readPartitions (count : nat) (buffer : Buffer) (offset : Z)
    (partitions : list PartitionMetadata.t)
  : result (list PartitionMetadata.t * Z) :=
  match count with
  | O => Ok (partitions, offset)
  | S count' =>
      let! partErrorCode := Buf.readInt16BE buffer offset in
      let offset := offset + 2 in
      let! partitionIndex := Buf.readInt32BE buffer offset in
      let offset := offset + 4 in
      let! leaderId := Buf.readInt32BE buffer offset in
      let offset := offset + 4 in
      let! leaderEpoch := Buf.readInt32BE buffer offset in
      let offset := offset + 4 in
      let! replicasLength := Buf.readInt32BE buffer offset in
      let offset := offset + 4 in
      let! (replicaNodes, offset) :=
        readNodes (Z.to_nat replicasLength) buffer offset [] in
      let! isrLength := Buf.readInt32BE buffer offset in
      let offset := offset + 4 in
      let! (isrNodes, offset) := readNodes (Z.to_nat isrLength) buffer offset [] in
      let! offlineLength := Buf.readInt32BE buffer offset in
      let offset := offset + 4 in
      let! (offlineReplicas, offset) :=
        readNodes (Z.to_nat offlineLength) buffer offset [] in
      readPartitions count' buffer offset
        (partitions
         ++ [PartitionMetadata.mk partErrorCode partitionIndex leaderId leaderEpoch
               replicaNodes isrNodes offlineReplicas])
  end.

(** [for (let i = 0; i < topicsLength; i++)] *)
Fixpoint readTopics (count : nat) (buffer : Buffer) (offset : Z)
    (topics : list TopicMetadata.t) : result (list TopicMetadata.t * Z) :=
  match count with
  | O => Ok (topics, offset)
  | S count' =>
      let! errorCode := Buf.readInt16BE buffer offset in
      let offset := offset + 2 in
      let! nameLength := Buf.readInt16BE buffer offset in
      let offset := offset + 2 in
      let name := Buf.toString buffer offset (offset + nameLength) in
      let offset := offset + nameLength in
      let! isInternal := Buf.readInt8 buffer offset in
      let isInternal := negb (isInternal =? 0) in
      let offset := offset + 1 in
      let! partitionsLength := Buf.readInt32BE buffer offset in
      let offset := offset + 4 in
      let! (partitions, offset) :=
        readPartitions (Z.to_nat partitionsLength) buffer offset [] in
      let! topicAuthorizedOperations := Buf.readInt32BE buffer offset in
      let offset := offset + 4 in
      readTopics count' buffer offset
        (topics
         ++ [TopicMetadata.mk errorCode name isInternal partitions
               topicAuthorizedOperations])
  end.

(** [for (let i = 0; i < brokersLength; i++)] *)
Fixpoint readBrokers (count : nat) (buffer : Buffer) (offset : Z)
    (brokers : list Broker.t) : result (list Broker.t * Z) :=
  match count with
  | O => Ok (brokers, offset)
  | S count' =>
      let! nodeId := Buf.readInt32BE buffer offset in
      let offset := offset + 4 in
      let! hostLength := Buf.readInt16BE buffer offset in
      let offset := offset + 2 in
      let host := Buf.toString buffer offset (offset + hostLength) in
      let offset := offset + hostLength in
      let! port := Buf.readInt32BE buffer offset in
      let offset := offset + 4 in
      let! rackLength := Buf.readInt16BE buffer offset in
      let offset := offset + 2 in
      let '(rack, offset) :=
        if 0 <=? rackLength
        then (Some (Buf.toString buffer offset (offset + rackLength)),
              offset + rackLength)
        else (None, offset) in
      readBrokers count' buffer offset (brokers ++ [Broker.mk nodeId host port rack])
  end.

Definition parse (buffer : Buffer) : result t :=
  let offset := 0 in
  let! throttleTimeMs := Buf.readInt32BE buffer offset in
  let offset := offset + 4 in
  let! brokersLength := Buf.readInt32BE buffer offset in
  let offset := offset + 4 in
  let! (brokers, offset) := readBrokers (Z.to_nat brokersLength) buffer offset [] in
  let! clusterIdLength := Buf.readInt16BE buffer offset in
  let offset := offset + 2 in
  let '(clusterId, offset) :=
    if 0 <=? clusterIdLength
    then (Some (Buf.toString buffer offset (offset + clusterIdLength)),
          offset + clusterIdLength)
    else (None, offset) in
  let! controllerId := Buf.readInt32BE buffer offset in
  let offset := offset + 4 in
  let! topicsLength := Buf.readInt32BE buffer offset in
  let offset := offset + 4 in
  let! (topics, offset) := readTopics (Z.to_nat topicsLength) buffer offset [] in
  let! clusterAuthorizedOperations := Buf.readInt32BE buffer offset in
  Ok (mk throttleTimeMs brokers clusterId controllerId topics
        clusterAuthorizedOperations).

End MetadataResponse.

(** ** network/NetworkClient: [sendRequest] and [sendToPartitionLeader] *)

Module NetworkClient.

(** What a call does that the outside can count: the calls of
    [refreshMetadata] and of [send] on a broker connection. *)
Inductive Action : Type :=
| RefreshMetadata (topics : option (list string))
| ConnectionSend (nodeId apiKey apiVersion : Z) (requestData : Buffer)
                 (timeout : option Z).

Definition isRefresh (a : Action) : bool :=
  match a with RefreshMetadata _ => true | _ => false end.

Definition isSend (a : Action) : bool :=
  match a with ConnectionSend _ _ _ _ _ => true | _ => false end.

Definition refreshCount (actions : list Action) : nat :=
  List.length (List.filter isRefresh actions).

Definition sendCount (actions : list Action) : nat :=
  List.length (List.filter isSend actions).

(** [error instanceof DisconnectedError] *)
Definition instanceofDisconnectedError (error : JsError) : bool :=
  match error with DisconnectedError _ => true | _ => false end.

Definition noConnectionError (nodeId : Z) : JsError :=
  DisconnectedError ("No connection to node " +:+ Number_toString nodeId).

(** The outcome of an async method: the state of the world when its promise
    settles, the actions it performed, and how the promise settled. *)
Definition Outcome (World : Type) : Type := World * list Action * result Buffer.

Definition actions {World : Type} (out : Outcome World) : list Action :=
  snd (fst out).

Section Client.

(** The client runs in a world that holds its fields and everything its
    awaits depend on (sockets, brokers, timers, other callers).  An awaited
    call is a transition of the world with its result; nothing is assumed
    about the two awaited calls. *)
Context {World : Type}.
Variable autoRefreshMetadata : bool.
Variable clusterMetadata : World -> ClusterMetadata.t.
Variable connections : World -> gmap Z BrokerConnection.t.
Variable refreshMetadata : option (list string) -> World -> World * result unit.
Variable connection_send :
  Z -> Z -> Z -> Buffer -> option Z -> World -> World * result Buffer.

(** [!connection || !connection.isConnected()] for [connections.get(nodeId)] *)
Definition noConnection (w : World) (nodeId : Z) : bool :=
  match connections w !! nodeId with
  | Some connection => negb (BrokerConnection.isConnected connection)
  | None => true
  end.

(** [sendRequest(nodeId, apiKey, apiVersion, requestData, timeout)].  [fuel]
    bounds the depth of the calls of the method to itself. *)
Fixpoint sendRequest (fuel : nat) (nodeId apiKey apiVersion : Z)
    (requestData : Buffer) (timeout : option Z) (w : World)
  : option (Outcome World) :=
  match fuel with
  | O => None
  | S fuel' =>
      if noConnection w nodeId then
        if autoRefreshMetadata then
          let '(w, refreshed) := refreshMetadata None w in
          match refreshed with
          | Throw e => Some (w, [RefreshMetadata None], Throw e)
          | Ok _ =>
              if noConnection w nodeId
              then Some (w, [RefreshMetadata None], Throw (noConnectionError nodeId))
              else
                match sendRequest fuel' nodeId apiKey apiVersion requestData
                        timeout w with
                | Some (w, actions, r) => Some (w, RefreshMetadata None :: actions, r)
                | None => None
                end
          end
        else Some (w, [], Throw (noConnectionError nodeId))
      else
        let sent := ConnectionSend nodeId apiKey apiVersion requestData timeout in
        let '(w, r) := connection_send nodeId apiKey apiVersion requestData timeout w in
        match r with
        | Ok response => Some (w, [sent], Ok response)
        | Throw error =>
            if instanceofDisconnectedError error && autoRefreshMetadata then
              let '(w, refreshed) := refreshMetadata None w in
              match refreshed with
              | Throw e => Some (w, [sent; RefreshMetadata None], Throw e)
              | Ok _ =>
                  if noConnection w nodeId
                  then Some (w, [sent; RefreshMetadata None], Throw error)
                  else
                    let '(w, r) :=
                      connection_send nodeId apiKey apiVersion requestData timeout w in
                    Some (w, [sent; RefreshMetadata None; sent], r)
              end
            else Some (w, [sent], Throw error)
        end
  end.

Definition findLeaderForPartition (w : World) (topic : string) (partition : Z)
  : result Z :=
  ClusterMetadata.findLeader (clusterMetadata w) topic partition.

(** The two statements of the [try] block and of the [catch] block of
    [sendToPartitionLeader]: look the leader up, send to it. *)
Definition sendToLeader (fuel : nat) (topic : string) (partition : Z)
    (apiKey apiVersion : Z) (requestData : Buffer) (timeout : option Z) (w : World)
  : option (Outcome World) :=
  match findLeaderForPartition w topic partition with
  | Throw e => Some (w, [], Throw e)
  | Ok leaderId => sendRequest fuel leaderId apiKey apiVersion requestData timeout w
  end.

(** [sendToPartitionLeader(topic, partition, apiKey, apiVersion, requestData,
    timeout)] *)
Definition sendToPartitionLeader (fuel : nat) (topic : string) (partition : Z)
    (apiKey apiVersion : Z) (requestData : Buffer) (timeout : option Z) (w : World)
  : option (Outcome World) :=
  match sendToLeader fuel topic partition apiKey apiVersion requestData timeout w with
  | None => None
  | Some (w, actions, Ok response) => Some (w, actions, Ok response)
  | Some (w, actions, Throw error) =>
      if autoRefreshMetadata then
        let '(w, refreshed) := refreshMetadata (Some [topic]) w in
        match refreshed with
        | Throw e => Some (w, actions ++ [RefreshMetadata (Some [topic])], Throw e)
        | Ok _ =>
            match sendToLeader fuel topic partition apiKey apiVersion requestData
                    timeout w with
            | Some (w, actions', r) =>
                Some (w, actions ++ RefreshMetadata (Some [topic]) :: actions', r)
            | None => None
            end
        end
      else Some (w, actions, Throw error)
  end.

End Client.

(** *** The API versions of the broker *)

(** [fetchApiVersions(broker)] from the point where the awaited
    [broker.send] has settled with [sent]: the value [this.apiVersions]
    holds when the method returns.  When it throws, the map has not been
    touched. *)
Definition fetchApiVersions (sent : result Buffer) : result (gmap Z ApiVersionRange.t) :=
  let! responseBuffer := sent in
  let! response := ApiVersionsResponse.parse responseBuffer in
  if negb (ApiVersionsResponse.errorCode response =? 0)
  then Throw (KafkaError ("Error fetching API versions: "
                            +:+ Number_toString (ApiVersionsResponse.errorCode response)))
  else
    Ok (fold_left (fun m version => <[ApiVersionRange.apiKey version := version]> m)
          (ApiVersionsResponse.apiVersions response) ∅).

(** [getApiVersion(apiKey)]: the pair of [minVersion] and [maxVersion]. *)
Definition getApiVersion (apiVersions : gmap Z ApiVersionRange.t) (apiKey : Z)
  : Z * Z :=
  match apiVersions !! apiKey with
  | None => (0, 0)
  | Some version =>
      (ApiVersionRange.minVersion version, ApiVersionRange.maxVersion version)
  end.

Definition supportsApiVersion (apiVersions : gmap Z ApiVersionRange.t)
    (apiKey apiVersion : Z) : bool :=
  match apiVersions !! apiKey with
  | None => false
  | Some version =>
      (ApiVersionRange.minVersion version <=? apiVersion)
      && (apiVersion <=? ApiVersionRange.maxVersion version)
  end.

(** The version [refreshMetadata] sends its request with. *)
Definition metadataVersion (apiVersions : gmap Z ApiVersionRange.t) : Z :=
  match apiVersions !! ApiKeys.METADATA with
  | Some metadataVersionInfo => ApiVersionRange.maxVersion metadataVersionInfo
  | None => 0
  end.

(** The part of [refreshMetadata] between its two awaited calls: the
    response of the broker is parsed and handed to the cluster metadata.
    When [parse] throws, the metadata has not been touched. *)
Definition refreshMetadata_update (responseBuffer : Buffer)
    (clusterMetadata : ClusterMetadata.t) : result ClusterMetadata.t :=
  let! response := MetadataResponse.parse responseBuffer in
  Ok (ClusterMetadata.updateMetadata clusterMetadata
        (MetadataResponse.brokers response) (MetadataResponse.topics response)
        (MetadataResponse.clusterId response)
        (MetadataResponse.controllerId response)).

End NetworkClient.

(** ** A world in which the leader of the partition cannot be reached *)


(** ** A world in which the connection to the leader comes and goes *)

(** The world counts the metadata refreshes.  The connection to broker 1 is
    down at the start and after the third refresh, up otherwise; every
    refresh succeeds; every send is rejected when the connection drops. *)
Definition example_flapping (topic : string) (partition : Z)
  : option (NetworkClient.Outcome nat) :=
  NetworkClient.sendToPartitionLeader (World := nat) true
    (fun _ => example_cache)
    (fun refreshes =>
       if (refreshes =? 0)%nat || (refreshes =? 3)%nat
       then ∅ else {[ 1 := example_connection ]})
    (fun _ refreshes => (S refreshes, Ok tt))
    (fun _ _ _ _ _ refreshes =>
       (refreshes, Throw (DisconnectedError "Connection closed")))
    2 topic partition ApiKeys.METADATA 1 [] None 0%nat.

(** ** More vocabulary for the broker connection *)

(** Handing a sequence of messages to [handleResponse], one after the other,
    as long as it returns: what the [while] loop of [handleIncomingData]
    does with the frames of one chunk. *)
Fixpoint handleResponses (now : Z) (payloads : list Buffer)
    (c : BrokerConnection.t) : BrokerConnection.Outcome :=
  match payloads with
  | [] => BrokerConnection.Done c []
  | payload :: payloads' =>
      match BrokerConnection.handleResponse now payload c with
      | BrokerConnection.Done c events =>
          BrokerConnection.emitted events (handleResponses now payloads' c)
      | other => other
      end
  end.

(** The state the loop of [handleIncomingData] ends in, when it ends. *)
Definition loop_end (r : BrokerConnection.LoopResult) : option BrokerConnection.t :=
  match r with
  | BrokerConnection.LoopDone c _ _ => Some c
  | BrokerConnection.LoopThrew _ c _ => Some c
  | BrokerConnection.LoopForever => None
  end.

(** The frames of a sequence of messages, back to back. *)
Definition frames_of (payloads : list Buffer) : Buffer :=
  List.concat (map frame_of payloads).

(** The states a connection can be in: those a new connection reaches by a
    sequence of events, each handler returning or throwing. *)
Definition reachable (c : BrokerConnection.t) : Prop :=
  exists config evs,
    BrokerConnection.run evs (BrokerConnection.new config) = Some c.

(** A chunk with two responses and the first two bytes of a third one: the
    response of the example, a response to a request that is not in flight. *)
Definition example_payloads : list Buffer :=
  [example_response; [x00; x00; x00; x09]].

Definition example_chunk : Buffer := frames_of example_payloads ++ [x00; x00].


(** What every state of a connection satisfies ([run_lifecycle]): the
    transient state CLOSING is never seen between two events; the field
    [requestTimeoutInterval] holds a handle exactly in state CONNECTED and
    the field [connectionTimeout] exactly in state CONNECTING; requests are
    in flight only in state CONNECTED; a socket is held only outside state
    DISCONNECTED; the correlation counter, and the key and id of every
    request in flight, lie between 0 and 2^31-2. *)
Record lifecycle (c : BrokerConnection.t) : Prop := {
  life_state :
    BrokerConnection.state c <> BrokerConnection.CLOSING;
  life_sweep :
    BrokerConnection.requestTimeoutInterval c = true
    <-> BrokerConnection.state c = BrokerConnection.CONNECTED;
  life_dial :
    BrokerConnection.connectionTimeoutTimer c <> BrokerConnection.TimerNull
    <-> BrokerConnection.state c = BrokerConnection.CONNECTING;
  life_table :
    forall e, In e (BrokerConnection.inFlightRequests c) ->
      BrokerConnection.state c = BrokerConnection.CONNECTED;
  life_socket :
    BrokerConnection.socket c = true ->
    BrokerConnection.state c <> BrokerConnection.DISCONNECTED;
  life_counter :
    0 <= BrokerConnection.correlationIdCounter c <= 2147483646;
  life_keys :
    forall e, In e (BrokerConnection.inFlightRequests c) ->
      BrokerConnection.correlationId (snd e) = fst e /\
      0 <= fst e <= 2147483646
}.

(** ** protocol/Encoder *)

(** [Buffer.concat(list, totalLength)]: the buffers of [list] one after the
    other, cut or zero-filled to [totalLength] bytes; a negative
    [totalLength] is rejected. *)
Definition Buffer_concat (list : list Buffer) (totalLength : Z) : result Buffer :=
  if totalLength <? 0 then Throw RangeError
  else Ok (take (Z.to_nat totalLength) (List.concat list ++ Buf.alloc totalLength)).

Module Encoder.

Record t : Type := mk {
  buffers : list Buffer;
  size : Z
}.

Definition new : t := mk [] 0.

(** [this.buffers.push(buffer); this.size += buffer.length] *)
Definition push (buffer : Buffer) (this : t) : t :=
  mk (buffers this ++ [buffer]) (size this + blen buffer).

(** The body shared by the write methods: encode, push, add to the size. *)
Definition write {A : Type} (encode : A -> result Buffer) (value : A) (this : t)
  : result t :=
  let! buffer := encode value in
  Ok (push buffer this).

Definition writeBoolean := write BasicTypes.encodeBoolean.
Definition writeInt8 := write BasicTypes.encodeInt8.
Definition writeInt16 := write BasicTypes.encodeInt16.
Definition writeInt32 := write BasicTypes.encodeInt32.
Definition writeInt64 := write BasicTypes.encodeInt64.
Definition writeUInt8 := write BasicTypes.encodeUInt8.
Definition writeUInt16 := write BasicTypes.encodeUInt16.
Definition writeUInt32 := write BasicTypes.encodeUInt32.
Definition writeUInt64 := write BasicTypes.encodeUInt64.
Definition writeFloat := write BasicTypes.encodeFloat.
Definition writeDouble := write BasicTypes.encodeDouble.
Definition writeString := write BasicTypes.encodeString.
Definition writeCompactString := write BasicTypes.encodeCompactString.
Definition writeBytes := write BasicTypes.encodeBytes.
Definition writeCompactBytes := write BasicTypes.encodeCompactBytes.

(** [for (const value of values) writeElement(this, value)]; the callback
    writes to the encoder it is given. *)
Fixpoint writeElements {T : Type} (writeElement : t -> T -> result t)
    (values : list T) (this : t) : result t :=
  match values with
  | [] => Ok this
  | value :: values' =>
      let! this := writeElement this value in
      writeElements writeElement values' this
  end.

Definition writeArray {T : Type} (values : option (list T))
    (writeElement : t -> T -> result t) (this : t) : result t :=
  match values with
  | None => writeInt32 (-1) this
  | Some values =>
      let! this := writeInt32 (Z.of_nat (List.length values)) this in
      writeElements writeElement values this
  end.

(** [while (len > 127) { this.writeUInt8((len & 0x7F) | 0x80); len = len >> 7; }]
    As in the compact encoders of BasicTypes, [len >> 7] is below 2^24
    after the first iteration, so five iterations are never exceeded
    ([writeCompactLength_exit]). *)
Fixpoint writeCompactLength (fuel : nat) (len : Z) (this : t) : result (Z * t) :=
  match fuel with
  | O => Ok (len, this)
  | S fuel' =>
      if 127 <? len
      then
        let! this := writeUInt8 (js_or (js_and len 127) 128) this in
        writeCompactLength fuel' (js_sar len 7) this
      else Ok (len, this)
  end.

Definition writeCompactArray {T : Type} (values : option (list T))
    (writeElement : t -> T -> result t) (this : t) : result t :=
  match values with
  | None => writeUInt8 0 this
  | Some values =>
      let encodedLength := Z.of_nat (List.length values) + 1 in
      let! (len, this) :=
        writeCompactLength BasicTypes.varint_fuel encodedLength this in
      let! this := writeUInt8 (js_and len 127) this in
      writeElements writeElement values this
  end.

Definition writeBuffer (buffer : Buffer) (this : t) : t := push buffer this.

Definition getSize (this : t) : Z := size this.

Definition build (this : t) : result Buffer :=
  Buffer_concat (buffers this) (size this).

End Encoder.

(** ** protocol/Decoder *)

Module Decoder.

Record t : Type := mk {
  buffer : Buffer;
  offset : Z
}.

Definition new (buffer : Buffer) : t := mk buffer 0.

Definition getOffset (this : t) : Z := offset this.

Definition remaining (this : t) : Z := blen (buffer this) - offset this.

(** The body shared by the read methods:
    [const [value, newOffset] = decode(this.buffer, this.offset);
     this.offset = newOffset; return value].  When the decoder throws, the
    offset has not been assigned. *)
Definition read {A : Type} (decode : Buffer -> Z -> result (A * Z)) (this : t)
  : result (A * t) :=
  let! (value, newOffset) := decode (buffer this) (offset this) in
  Ok (value, mk (buffer this) newOffset).

Definition readBoolean := read BasicTypes.decodeBoolean.
Definition readInt8 := read BasicTypes.decodeInt8.
Definition readInt16 := read BasicTypes.decodeInt16.
Definition readInt32 := read BasicTypes.decodeInt32.
Definition readInt64 := read BasicTypes.decodeInt64.
Definition readUInt8 := read BasicTypes.decodeUInt8.
Definition readUInt16 := read BasicTypes.decodeUInt16.
Definition readUInt32 := read BasicTypes.decodeUInt32.
Definition readUInt64 := read BasicTypes.decodeUInt64.
Definition readFloat := read BasicTypes.decodeFloat.
Definition readDouble := read BasicTypes.decodeDouble.
Definition readString := read BasicTypes.decodeString.
Definition readCompactString := read BasicTypes.decodeCompactString.
Definition readBytes := read BasicTypes.decodeBytes.
Definition readCompactBytes := read BasicTypes.decodeCompactBytes.

(** [for (let i = 0; i < length; i++) result.push(readElement(this))] *)
Fixpoint readElements {T : Type} (readElement : t -> result (T * t))
    (count : nat) (this : t) (result_ : list T) : result (list T * t) :=
  match count with
  | O => Ok (result_, this)
  | S count' =>
      let! (value, this) := readElement this in
      readElements readElement count' this (result_ ++ [value])
  end.

Definition readArray {T : Type} (readElement : t -> result (T * t)) (this : t)
  : result (option (list T) * t) :=
  let! (length, this) := readInt32 this in
  if length <? 0 then Ok (None, this)
  else
    let! (result_, this) := readElements readElement (Z.to_nat length) this [] in
    Ok (Some result_, this).

(** [do { byteRead = this.readUInt8(); length |= (byteRead & 0x7F) << shift;
         shift += 7; } while (byteRead & 0x80)].
    Every iteration moves the offset one byte on and [readUInt8] throws at
    the end of the buffer, so the loop runs at most once more than the
    buffer has bytes; [fuel] counts the iterations left
    ([readCompactLength_fuel]). *)
Fixpoint readCompactLength (fuel : nat) (length shift : Z) (this : t)
  : result (Z * t) :=
  match fuel with
  | O => Throw RangeError
  | S fuel' =>
      let! (byteRead, this) := readUInt8 this in
      let length := js_or length (js_shl (js_and byteRead 127) shift) in
      let shift := shift + 7 in
      if js_and byteRead 128 =? 0 then Ok (length, this)
      else readCompactLength fuel' length shift this
  end.

Definition readCompactArray {T : Type} (readElement : t -> result (T * t))
    (this : t) : result (option (list T) * t) :=
  let! (length, this) :=
    readCompactLength (S (List.length (buffer this))) 0 0 this in
  if length =? 0 then Ok (None, this)
  else
    let length := length - 1 in
    let! (result_, this) := readElements readElement (Z.to_nat length) this [] in
    Ok (Some result_, this).

Definition peek (length : Z) (this : t) : Buffer :=
  Buf.slice (buffer this) (offset this) (offset this + length).

Definition skip (length : Z) (this : t) : t :=
  mk (buffer this) (offset this + length).

Definition getBuffer (this : t) : Buffer := buffer this.

End Decoder.

(** ** protocol/RequestHeader and protocol/ResponseHeader: the headers of
    the Message classes, written with an Encoder and read with a Decoder *)

Module MessageRequestHeader.

Record t : Type := mk {
  apiKey : Z;
  apiVersion : Z;
  correlationId : Z;
  clientId : option string;
  tag : Z
}.

(** The constructor; [tag] is initialised to 0. *)
Definition new (apiKey apiVersion correlationId : Z) (clientId : option string)
  : t :=
  mk apiKey apiVersion correlationId clientId 0.

(** [encode(encoder?)]: writes to the encoder given, or to a new one, and
    returns what that encoder builds.  The result carries the encoder as
    the writes leave it. *)
Definition encode (encoder : option Encoder.t) (this : t)
  : result (Encoder.t * Buffer) :=
  let enc := match encoder with Some e => e | None => Encoder.new end in
  let! enc := Encoder.writeInt16 (apiKey this) enc in
  let! enc := Encoder.writeInt16 (apiVersion this) enc in
  let! enc := Encoder.writeInt32 (correlationId this) enc in
  let! enc := Encoder.writeString (clientId this) enc in
  let! enc :=
    if 2 <=? apiVersion this then Encoder.writeUInt16 (tag this) enc else Ok enc in
  let! buffer := Encoder.build enc in
  Ok (enc, buffer).

(** [decode(decoder)]: assigns the fields of [this] as they are read. *)
Definition decode (decoder : Decoder.t) (this : t) : result (t * Decoder.t) :=
  let! (apiKey, decoder) := Decoder.readInt16 decoder in
  let! (apiVersion, decoder) := Decoder.readInt16 decoder in
  let! (correlationId, decoder) := Decoder.readInt32 decoder in
  let! (clientId, decoder) := Decoder.readString decoder in
  if 2 <=? apiVersion then
    let! (tag, decoder) := Decoder.readUInt16 decoder in
    Ok (mk apiKey apiVersion correlationId clientId tag, decoder)
  else Ok (mk apiKey apiVersion correlationId clientId (tag this), decoder).

Definition size (this : t) : Z :=
  let size := 2 + 2 + 4 in
  let size := size + 2 in
  let size :=
    match clientId this with
    | Some clientId => size + Buf.byteLength clientId
    | None => size
    end in
  if 2 <=? apiVersion this then size + 2 else size.

End MessageRequestHeader.

Module MessageResponseHeader.

Record t : Type := mk { correlationId : Z }.

Definition new (correlationId : Z) : t := mk correlationId.

Definition getCorrelationId (this : t) : Z := correlationId this.

Definition encode (encoder : option Encoder.t) (this : t)
  : result (Encoder.t * Buffer) :=
  let enc := match encoder with Some e => e | None => Encoder.new end in
  let! enc := Encoder.writeInt32 (correlationId this) enc in
  let! buffer := Encoder.build enc in
  Ok (enc, buffer).

Definition decode (decoder : Decoder.t) (this : t) : result (t * Decoder.t) :=
  let! (correlationId, decoder) := Decoder.readInt32 decoder in
  Ok (mk correlationId, decoder).

Definition size (this : t) : Z := 4.

End MessageResponseHeader.

(** ** protocol/requests/Request and protocol/responses/Response *)

Module Request.
Section Request.

(** The abstract methods of a request: its API key, and [encode(encoder)],
    which writes the body to the encoder it is given. *)
Variable apiKey : Z.
Variable encode : Encoder.t -> result Encoder.t.

Definition toBuffer (apiVersion correlationId : Z) (clientId : option string)
  : result Buffer :=
  let header := MessageRequestHeader.new apiKey apiVersion correlationId clientId in
  let encoder := Encoder.new in
  let! encoder := Encoder.writeInt32 0 encoder in
  let! (encoder, _) := MessageRequestHeader.encode (Some encoder) header in
  let! encoder := encode encoder in
  let! buffer := Encoder.build encoder in
  Buf.writeInt32BE buffer (blen buffer - 4) 0.

End Request.
End Request.

Module Response.
Section Response.

(** The abstract [decode(decoder)] of a response: reads the body. *)
Context {Body : Type}.
Variable decode : Decoder.t -> result (Body * Decoder.t).

(** [Response.parse(responseType, buffer)]: the header and the body read,
    and the decoder as the body left it. *)
Definition parse (buffer : Buffer)
  : result (MessageResponseHeader.t * Body * Decoder.t) :=
  let decoder := Decoder.new (Buf.slice_from buffer 4) in
  let header := MessageResponseHeader.new 0 in
  let! (header, decoder) := MessageResponseHeader.decode decoder header in
  let! (body, decoder) := decode decoder in
  Ok (header, body, decoder).

End Response.

(** [correlationId()]: [-1] while no header is set. *)
Definition correlationId (header : option MessageResponseHeader.t) : Z :=
  match header with
  | Some header => MessageResponseHeader.getCorrelationId header
  | None => -1
  end.

End Response.

(** ** Scripts of encoder and decoder calls *)

(** One value written with the method of its kind. *)
Inductive Field : Type :=
| FBoolean (value : bool)
| FInt8 (value : Z)
| FInt16 (value : Z)
| FInt32 (value : Z)
| FInt64 (value : Z)
| FUInt8 (value : Z)
| FUInt16 (value : Z)
| FUInt32 (value : Z)
| FUInt64 (value : Z)
| FFloat (bits : Z)
| FDouble (bits : Z)
| FString (value : option string)
| FCompactString (value : option string)
| FBytes (value : option Buffer)
| FCompactBytes (value : option Buffer).

(** The [BasicTypes] encoding of a field. *)
Definition encodeField (f : Field) : result Buffer :=
  match f with
  | FBoolean v => BasicTypes.encodeBoolean v
  | FInt8 v => BasicTypes.encodeInt8 v
  | FInt16 v => BasicTypes.encodeInt16 v
  | FInt32 v => BasicTypes.encodeInt32 v
  | FInt64 v => BasicTypes.encodeInt64 v
  | FUInt8 v => BasicTypes.encodeUInt8 v
  | FUInt16 v => BasicTypes.encodeUInt16 v
  | FUInt32 v => BasicTypes.encodeUInt32 v
  | FUInt64 v => BasicTypes.encodeUInt64 v
  | FFloat v => BasicTypes.encodeFloat v
  | FDouble v => BasicTypes.encodeDouble v
  | FString v => BasicTypes.encodeString v
  | FCompactString v => BasicTypes.encodeCompactString v
  | FBytes v => BasicTypes.encodeBytes v
  | FCompactBytes v => BasicTypes.encodeCompactBytes v
  end.

(** Calling the write method of the kind of [f] with its value. *)
Definition writeField (f : Field) (e : Encoder.t) : result Encoder.t :=
  match f with
  | FBoolean v => Encoder.writeBoolean v e
  | FInt8 v => Encoder.writeInt8 v e
  | FInt16 v => Encoder.writeInt16 v e
  | FInt32 v => Encoder.writeInt32 v e
  | FInt64 v => Encoder.writeInt64 v e
  | FUInt8 v => Encoder.writeUInt8 v e
  | FUInt16 v => Encoder.writeUInt16 v e
  | FUInt32 v => Encoder.writeUInt32 v e
  | FUInt64 v => Encoder.writeUInt64 v e
  | FFloat v => Encoder.writeFloat v e
  | FDouble v => Encoder.writeDouble v e
  | FString v => Encoder.writeString v e
  | FCompactString v => Encoder.writeCompactString v e
  | FBytes v => Encoder.writeBytes v e
  | FCompactBytes v => Encoder.writeCompactBytes v e
  end.

(** Calling the read method of the kind of [f]; the value of [f] is not
    looked at. *)
Definition readField (f : Field) (d : Decoder.t) : result (Field * Decoder.t) :=
  match f with
  | FBoolean _ => let! (v, d) := Decoder.readBoolean d in Ok (FBoolean v, d)
  | FInt8 _ => let! (v, d) := Decoder.readInt8 d in Ok (FInt8 v, d)
  | FInt16 _ => let! (v, d) := Decoder.readInt16 d in Ok (FInt16 v, d)
  | FInt32 _ => let! (v, d) := Decoder.readInt32 d in Ok (FInt32 v, d)
  | FInt64 _ => let! (v, d) := Decoder.readInt64 d in Ok (FInt64 v, d)
  | FUInt8 _ => let! (v, d) := Decoder.readUInt8 d in Ok (FUInt8 v, d)
  | FUInt16 _ => let! (v, d) := Decoder.readUInt16 d in Ok (FUInt16 v, d)
  | FUInt32 _ => let! (v, d) := Decoder.readUInt32 d in Ok (FUInt32 v, d)
  | FUInt64 _ => let! (v, d) := Decoder.readUInt64 d in Ok (FUInt64 v, d)
  | FFloat _ => let! (v, d) := Decoder.readFloat d in Ok (FFloat v, d)
  | FDouble _ => let! (v, d) := Decoder.readDouble d in Ok (FDouble v, d)
  | FString _ => let! (v, d) := Decoder.readString d in Ok (FString v, d)
  | FCompactString _ =>
      let! (v, d) := Decoder.readCompactString d in Ok (FCompactString v, d)
  | FBytes _ => let! (v, d) := Decoder.readBytes d in Ok (FBytes v, d)
  | FCompactBytes _ =>
      let! (v, d) := Decoder.readCompactBytes d in Ok (FCompactBytes v, d)
  end.

(** The value of a field fits the width its encoder writes it with. *)
Definition fits_field (f : Field) : Prop :=
  match f with
  | FBoolean _ => True
  | FInt8 v => - 2 ^ 7 <= v <= 2 ^ 7 - 1
  | FInt16 v => - 2 ^ 15 <= v <= 2 ^ 15 - 1
  | FInt32 v => - 2 ^ 31 <= v <= 2 ^ 31 - 1
  | FInt64 v => - 2 ^ 63 <= v <= 2 ^ 63 - 1
  | FUInt8 v => 0 <= v <= 2 ^ 8 - 1
  | FUInt16 v => 0 <= v <= 2 ^ 16 - 1
  | FUInt32 v => 0 <= v <= 2 ^ 32 - 1
  | FUInt64 v => 0 <= v <= 2 ^ 64 - 1
  | FFloat v => 0 <= v <= 2 ^ 32 - 1
  | FDouble v => 0 <= v <= 2 ^ 64 - 1
  | FString (Some s) => Buf.byteLength s <= 2 ^ 15 - 1
  | FString None => True
  | FCompactString (Some s) => Buf.byteLength s + 1 < 2 ^ 31
  | FCompactString None => True
  | FBytes (Some b) => blen b <= 2 ^ 31 - 1
  | FBytes None => True
  | FCompactBytes (Some b) => blen b + 1 < 2 ^ 31
  | FCompactBytes None => True
  end.

Fixpoint writeFields (fields : list Field) (e : Encoder.t) : result Encoder.t :=
  match fields with
  | [] => Ok e
  | f :: fields' => let! e := writeField f e in writeFields fields' e
  end.

Fixpoint readFields (fields : list Field) (d : Decoder.t)
  : result (list Field * Decoder.t) :=
  match fields with
  | [] => Ok ([], d)
  | f :: fields' =>
      let! (v, d) := readField f d in
      let! (vs, d) := readFields fields' d in
      Ok (v :: vs, d)
  end.

(** The size an encoder keeps is the length of what it holds. *)
Definition sized (e : Encoder.t) : Prop :=
  Encoder.size e = blen (List.concat (Encoder.buffers e)).

(** A field of the same kind with a value that carries no information. *)
Definition blank (f : Field) : Field :=
  match f with
  | FBoolean _ => FBoolean false
  | FInt8 _ => FInt8 0
  | FInt16 _ => FInt16 0
  | FInt32 _ => FInt32 0
  | FInt64 _ => FInt64 0
  | FUInt8 _ => FUInt8 0
  | FUInt16 _ => FUInt16 0
  | FUInt32 _ => FUInt32 0
  | FUInt64 _ => FUInt64 0
  | FFloat _ => FFloat 0
  | FDouble _ => FDouble 0
  | FString _ => FString None
  | FCompactString _ => FCompactString None
  | FBytes _ => FBytes None
  | FCompactBytes _ => FCompactBytes None
  end.

(** A few fields of a message, used in the examples. *)
Definition example_fields : list Field :=
  [FInt16 3; FString (Some "app"%string); FBoolean true; FCompactBytes (Some [x07]);
   FInt64 (-1)].

Definition example_encoder : Encoder.t :=
  match writeFields example_fields Encoder.new with
  | Ok e => e
  | Throw _ => Encoder.new
  end.

(** The fields [MessageRequestHeader.encode] writes, in order. *)
Definition header_fields (h : MessageRequestHeader.t) : list Field :=
  [FInt16 (MessageRequestHeader.apiKey h);
   FInt16 (MessageRequestHeader.apiVersion h);
   FInt32 (MessageRequestHeader.correlationId h);
   FString (MessageRequestHeader.clientId h)]
  ++ (if 2 <=? MessageRequestHeader.apiVersion h
      then [FUInt16 (MessageRequestHeader.tag h)] else []).

(** A fixed-width read method: it returns exactly when [width] bytes remain
    at a non-negative offset, and then moves the offset by [width];
    otherwise it throws RangeError. *)
Definition reads_exactly {A : Type} (reader : Decoder.t -> result (A * Decoder.t))
    (width : Z) : Prop :=
  forall d : Decoder.t,
    if (0 <=? Decoder.offset d) && (width <=? Decoder.remaining d)
    then exists v,
           reader d = Ok (v, Decoder.mk (Decoder.buffer d) (Decoder.offset d + width))
    else reader d = Throw RangeError.

(** The bytes of a header whose fields fit. *)
Definition header_bytes (h : MessageRequestHeader.t) : Buffer :=
  Z_to_be 2 (MessageRequestHeader.apiKey h)
  ++ Z_to_be 2 (MessageRequestHeader.apiVersion h)
  ++ Z_to_be 4 (MessageRequestHeader.correlationId h)
  ++ match MessageRequestHeader.clientId h with
     | Some s => Z_to_be 2 (Buf.byteLength s) ++ Buf.bytes_of_string s
     | None => [xff; xff]
     end
  ++ (if 2 <=? MessageRequestHeader.apiVersion h
      then Z_to_be 2 (MessageRequestHeader.tag h) else []).

(** The bytes a sequence of fields is encoded to, one field after the other
    ([encodeField] returns for every field that fits its width). *)
Definition fields_bytes (fields : list Field) : Buffer :=
  List.concat
    (map (fun f => match encodeField f with
                   | Ok bytes => bytes
                   | Throw _ => []
                   end) fields).

(** The fields of a header fit the widths [encode] writes them with. *)
Definition header_fits (h : MessageRequestHeader.t) : Prop :=
  Forall fits_field (header_fields h).

(** A header as [decode] leaves it on an object whose tag was [tag0]: the
    tag is read only from version 2 on. *)
Definition header_read (h : MessageRequestHeader.t) (tag0 : Z)
  : MessageRequestHeader.t :=
  MessageRequestHeader.mk (MessageRequestHeader.apiKey h)
    (MessageRequestHeader.apiVersion h) (MessageRequestHeader.correlationId h)
    (MessageRequestHeader.clientId h)
    (if 2 <=? MessageRequestHeader.apiVersion h
     then MessageRequestHeader.tag h else tag0).

(** A header of API version 2, used in the examples. *)
Definition example_header : MessageRequestHeader.t :=
  MessageRequestHeader.mk 3 2 7 (Some "app"%string) 5.

(** ** Vocabulary for the requests and responses of the network client *)

(** The encoder calls that write a version range, and an ApiVersions
    response, in the order [ApiVersionsResponse.parse] reads them. *)
Definition range_fields (range : ApiVersionRange.t) : list Field :=
  [FInt16 (ApiVersionRange.apiKey range);
   FInt16 (ApiVersionRange.minVersion range);
   FInt16 (ApiVersionRange.maxVersion range)].

Definition ApiVersionsResponse_fields (response : ApiVersionsResponse.t)
  : list Field :=
  [FInt16 (ApiVersionsResponse.errorCode response);
   FInt32 (ApiVersionsResponse.throttleTimeMs response);
   FInt32 (Z.of_nat (List.length (ApiVersionsResponse.apiVersions response)))]
  ++ flat_map range_fields (ApiVersionsResponse.apiVersions response).

(** A version is inside a range. *)
Definition in_range (version : Z) (range : ApiVersionRange.t) : Prop :=
  ApiVersionRange.minVersion range <= version <= ApiVersionRange.maxVersion range.

(** A response of a broker that knows two APIs, one of them listed twice. *)
Definition example_versions : ApiVersionsResponse.t :=
  ApiVersionsResponse.mk 0
    [ApiVersionRange.mk 3 0 9; ApiVersionRange.mk 18 0 3; ApiVersionRange.mk 3 1 12]
    100.

(** The bytes of that response, written with the encoder. *)
Definition example_versions_bytes : Buffer :=
  match writeFields (ApiVersionsResponse_fields example_versions) Encoder.new with
  | Ok e => match Encoder.build e with Ok bytes => bytes | Throw _ => [] end
  | Throw _ => []
  end.

(** The table [fetchApiVersions] stores for it. *)
Definition example_versions_table : gmap Z ApiVersionRange.t :=
  match NetworkClient.fetchApiVersions (Ok example_versions_bytes) with
  | Ok apiVersions => apiVersions
  | Throw _ => ∅
  end.

(** The bytes of a string behind its 16-bit length. *)
Definition string_bytes (s : string) : Buffer :=
  Z_to_be 2 (Buf.byteLength s) ++ Buf.bytes_of_string s.

(** A request for two topics. *)
Definition example_metadata_request : MetadataRequest.t :=
  MetadataRequest.forTopics ["orders"%string; "payments"%string] true false false.

(** The encoder calls that write a Metadata response in the order
    [MetadataResponse.parse] reads it: counts as 32-bit numbers before the
    elements, strings behind 16-bit lengths. *)
Definition nodes_fields (nodes : list Z) : list Field :=
  FInt32 (Z.of_nat (List.length nodes)) :: map FInt32 nodes.

Definition partition_fields (p : PartitionMetadata.t) : list Field :=
  [FInt16 (PartitionMetadata.errorCode p);
   FInt32 (PartitionMetadata.partitionIndex p);
   FInt32 (PartitionMetadata.leaderId p);
   FInt32 (PartitionMetadata.leaderEpoch p)]
  ++ nodes_fields (PartitionMetadata.replicaNodes p)
  ++ nodes_fields (PartitionMetadata.isrNodes p)
  ++ nodes_fields (PartitionMetadata.offlineReplicas p).

Definition topic_fields (t : TopicMetadata.t) : list Field :=
  [FInt16 (TopicMetadata.errorCode t);
   FString (Some (TopicMetadata.name t));
   FBoolean (TopicMetadata.isInternal t);
   FInt32 (Z.of_nat (List.length (TopicMetadata.partitions t)))]
  ++ flat_map partition_fields (TopicMetadata.partitions t)
  ++ [FInt32 (TopicMetadata.topicAuthorizedOperations t)].

Definition broker_fields (b : Broker.t) : list Field :=
  [FInt32 (Broker.nodeId b);
   FString (Some (Broker.host b));
   FInt32 (Broker.port b);
   FString (Broker.rack b)].

Definition MetadataResponse_fields (r : MetadataResponse.t) : list Field :=
  [FInt32 (MetadataResponse.throttleTimeMs r);
   FInt32 (Z.of_nat (List.length (MetadataResponse.brokers r)))]
  ++ flat_map broker_fields (MetadataResponse.brokers r)
  ++ [FString (MetadataResponse.clusterId r);
      FInt32 (MetadataResponse.controllerId r);
      FInt32 (Z.of_nat (List.length (MetadataResponse.topics r)))]
  ++ flat_map topic_fields (MetadataResponse.topics r)
  ++ [FInt32 (MetadataResponse.clusterAuthorizedOperations r)].

(** Values that fit the widths they are written with. *)
Definition int16 (v : Z) : Prop := - 2 ^ 15 <= v <= 2 ^ 15 - 1.
Definition int32 (v : Z) : Prop := - 2 ^ 31 <= v <= 2 ^ 31 - 1.
Definition short_string (s : string) : Prop := Buf.byteLength s <= 2 ^ 15 - 1.
Definition countable {A : Type} (l : list A) : Prop :=
  Z.of_nat (List.length l) <= 2 ^ 31 - 1.

Definition fits_nodes (nodes : list Z) : Prop :=
  Forall int32 nodes /\ countable nodes.

Definition fits_partition (p : PartitionMetadata.t) : Prop :=
  int16 (PartitionMetadata.errorCode p)
  /\ int32 (PartitionMetadata.partitionIndex p)
  /\ int32 (PartitionMetadata.leaderId p)
  /\ int32 (PartitionMetadata.leaderEpoch p)
  /\ fits_nodes (PartitionMetadata.replicaNodes p)
  /\ fits_nodes (PartitionMetadata.isrNodes p)
  /\ fits_nodes (PartitionMetadata.offlineReplicas p).

Definition fits_topic (t : TopicMetadata.t) : Prop :=
  int16 (TopicMetadata.errorCode t)
  /\ short_string (TopicMetadata.name t)
  /\ Forall fits_partition (TopicMetadata.partitions t)
  /\ countable (TopicMetadata.partitions t)
  /\ int32 (TopicMetadata.topicAuthorizedOperations t).

Definition fits_broker (b : Broker.t) : Prop :=
  int32 (Broker.nodeId b)
  /\ short_string (Broker.host b)
  /\ int32 (Broker.port b)
  /\ match Broker.rack b with Some rack => short_string rack | None => True end.

Definition fits_response (r : MetadataResponse.t) : Prop :=
  int32 (MetadataResponse.throttleTimeMs r)
  /\ Forall fits_broker (MetadataResponse.brokers r)
  /\ countable (MetadataResponse.brokers r)
  /\ match MetadataResponse.clusterId r with
     | Some clusterId => short_string clusterId
     | None => True
     end
  /\ int32 (MetadataResponse.controllerId r)
  /\ Forall fits_topic (MetadataResponse.topics r)
  /\ countable (MetadataResponse.topics r)
  /\ int32 (MetadataResponse.clusterAuthorizedOperations r).

(** The bytes of such a response, field by field. *)
Definition nullable_string_bytes (s : option string) : Buffer :=
  match s with
  | Some s => string_bytes s
  | None => [xff; xff]
  end.

Definition nodes_bytes (nodes : list Z) : Buffer :=
  Z_to_be 4 (Z.of_nat (List.length nodes)) ++ List.concat (map (Z_to_be 4) nodes).

Definition partition_bytes (p : PartitionMetadata.t) : Buffer :=
  Z_to_be 2 (PartitionMetadata.errorCode p)
  ++ Z_to_be 4 (PartitionMetadata.partitionIndex p)
  ++ Z_to_be 4 (PartitionMetadata.leaderId p)
  ++ Z_to_be 4 (PartitionMetadata.leaderEpoch p)
  ++ nodes_bytes (PartitionMetadata.replicaNodes p)
  ++ nodes_bytes (PartitionMetadata.isrNodes p)
  ++ nodes_bytes (PartitionMetadata.offlineReplicas p).

Definition topic_bytes (t : TopicMetadata.t) : Buffer :=
  Z_to_be 2 (TopicMetadata.errorCode t)
  ++ string_bytes (TopicMetadata.name t)
  ++ Z_to_be 1 (if TopicMetadata.isInternal t then 1 else 0)
  ++ Z_to_be 4 (Z.of_nat (List.length (TopicMetadata.partitions t)))
  ++ List.concat (map partition_bytes (TopicMetadata.partitions t))
  ++ Z_to_be 4 (TopicMetadata.topicAuthorizedOperations t).

Definition broker_bytes (b : Broker.t) : Buffer :=
  Z_to_be 4 (Broker.nodeId b)
  ++ string_bytes (Broker.host b)
  ++ Z_to_be 4 (Broker.port b)
  ++ nullable_string_bytes (Broker.rack b).

Definition MetadataResponse_bytes (r : MetadataResponse.t) : Buffer :=
  Z_to_be 4 (MetadataResponse.throttleTimeMs r)
  ++ Z_to_be 4 (Z.of_nat (List.length (MetadataResponse.brokers r)))
  ++ List.concat (map broker_bytes (MetadataResponse.brokers r))
  ++ nullable_string_bytes (MetadataResponse.clusterId r)
  ++ Z_to_be 4 (MetadataResponse.controllerId r)
  ++ Z_to_be 4 (Z.of_nat (List.length (MetadataResponse.topics r)))
  ++ List.concat (map topic_bytes (MetadataResponse.topics r))
  ++ Z_to_be 4 (MetadataResponse.clusterAuthorizedOperations r).

(** The encoder accepts the fields and writes [bytes] for them. *)
Definition encodes (fields : list Field) (bytes : Buffer) : Prop :=
  exists chunks,
    Forall2 (fun f chunk => encodeField f = Ok chunk) fields chunks
    /\ List.concat chunks = bytes.

(** The response of the two-broker cluster of the examples. *)
Definition example_metadata : MetadataResponse.t :=
  MetadataResponse.mk 0 example_brokers (Some "cluster-a"%string) 1
    [example_orders] 0.

(** A sequence of Metadata responses handed to the cache, one after the
    other, as repeated calls of [refreshMetadata] do. *)
Definition updateAll (responses : list MetadataResponse.t)
    (this : ClusterMetadata.t) : ClusterMetadata.t :=
  fold_left (fun cache response =>
               ClusterMetadata.updateMetadata cache
                 (MetadataResponse.brokers response)
                 (MetadataResponse.topics response)
                 (MetadataResponse.clusterId response)
                 (MetadataResponse.controllerId response))
            responses this.
(** * Properties *)

(** ** Bytes and big-endian words *)

Lemma byte_to_Z_range (b : byte) : 0 <= byte_to_Z b < 256.
Proof. unfold byte_to_Z. pose proof (Byte.to_N_bounded b). lia. Qed.

Lemma byte_of_to_Z (b : byte) : byte_of_Z (byte_to_Z b) = b.
Proof.
  unfold byte_of_Z. rewrite Z.mod_small by apply byte_to_Z_range.
  unfold byte_to_Z. rewrite N2Z.id, Byte.of_to_N. reflexivity.
Qed.

Lemma byte_to_of_Z (z : Z) : byte_to_Z (byte_of_Z z) = z mod 256.
Proof.
  unfold byte_of_Z, byte_to_Z.
  pose proof (Z.mod_pos_bound z 256 ltac:(lia)) as Hb.
  destruct (Byte.of_N (Z.to_N (z mod 256))) as [b|] eqn:E.
  - apply Byte.to_of_N in E. rewrite E, Z2N.id; lia.
  - apply Byte.of_N_None_iff in E. lia.
Qed.

Lemma blen_nonneg (b : Buffer) : 0 <= blen b.
Proof. unfold blen. lia. Qed.

Lemma blen_app (a b : Buffer) : blen (a ++ b) = blen a + blen b.
Proof. unfold blen. rewrite List.length_app. lia. Qed.

Lemma blen_cons (x : byte) (b : Buffer) : blen (x :: b) = 1 + blen b.
Proof. unfold blen. simpl List.length. lia. Qed.

Lemma length_Z_to_be (n : nat) (z : Z) : List.length (Z_to_be n z) = n.
Proof. induction n; simpl; congruence. Qed.

Lemma blen_Z_to_be (n : nat) (z : Z) : blen (Z_to_be n z) = Z.of_nat n.
Proof. unfold blen. now rewrite length_Z_to_be. Qed.

Lemma be_to_Z_range (bs : Buffer) : 0 <= be_to_Z bs < 256 ^ blen bs.
Proof.
  induction bs as [|b bs IH]; simpl be_to_Z.
  - unfold blen; simpl. lia.
  - rewrite blen_cons. pose proof (byte_to_Z_range b). pose proof (blen_nonneg bs).
    rewrite Z.pow_add_r by lia. nia.
Qed.

Lemma be_to_Z_Z_to_be (n : nat) (z : Z) :
  be_to_Z (Z_to_be n z) = z mod 256 ^ Z.of_nat n.
Proof.
  induction n as [|k IH].
  - simpl. now rewrite Z.mod_1_r.
  - cbn [Z_to_be be_to_Z]. rewrite blen_Z_to_be, IH, byte_to_of_Z.
    rewrite Nat2Z.inj_succ, Z.pow_succ_r by lia.
    rewrite (Z.mul_comm 256), Z.rem_mul_r by lia. lia.
Qed.

Lemma to_signed_mod (w v : Z) :
  0 < w -> - 2 ^ (w - 1) <= v < 2 ^ (w - 1) -> to_signed w (v mod 2 ^ w) = v.
Proof.
  intros Hw Hv. unfold to_signed.
  assert (Hp : 2 ^ w = 2 * 2 ^ (w - 1)).
  { rewrite <- Z.pow_succ_r by lia. f_equal. lia. }
  destruct (Z.ltb_spec v 0) as [Hneg|Hpos].
  - rewrite <- (Z.mod_add v 1 (2 ^ w)) by lia.
    rewrite Z.mod_small by lia.
    destruct (Z.ltb_spec (v + 1 * 2 ^ w) (2 ^ (w - 1))); lia.
  - rewrite Z.mod_small by lia.
    destruct (Z.ltb_spec v (2 ^ (w - 1))); lia.
Qed.

(** ** Reading and writing inside a larger buffer *)

Lemma length_alloc (n : Z) : List.length (Buf.alloc n) = Z.to_nat n.
Proof. unfold Buf.alloc. apply repeat_length. Qed.

Lemma alloc_add (a b : Z) :
  0 <= a -> 0 <= b -> Buf.alloc (a + b) = Buf.alloc a ++ Buf.alloc b.
Proof.
  intros Ha Hb. unfold Buf.alloc. rewrite Z2Nat.inj_add by lia.
  apply repeat_app.
Qed.

Lemma blit_framed (pre old post data : Buffer) :
  List.length old = List.length data ->
  Buf.blit (pre ++ old ++ post) data (blen pre) = pre ++ data ++ post.
Proof.
  intros Hlen. unfold Buf.blit.
  rewrite !blen_app.
  pose proof (blen_nonneg pre). pose proof (blen_nonneg old).
  pose proof (blen_nonneg post).
  destruct (Z.ltb_spec (blen pre) 0); [lia|].
  destruct (Z.ltb_spec (blen pre + (blen old + blen post)) (blen pre)); [lia|].
  cbn [orb]. unfold blen. rewrite Nat2Z.id.
  rewrite take_app_length.
  rewrite (take_ge data) by (rewrite !List.length_app; lia).
  rewrite <- Hlen.
  rewrite drop_app_add, drop_app_length. reflexivity.
Qed.

Lemma blit_alloc (data : Buffer) :
  Buf.blit (Buf.alloc (blen data)) data 0 = data.
Proof.
  pose proof (blit_framed [] (Buf.alloc (blen data)) [] data) as H.
  rewrite !app_nil_r in H. simpl in H. apply H.
  rewrite length_alloc. unfold blen. now rewrite Nat2Z.id.
Qed.

Lemma in_bounds_framed (pre bs post : Buffer) (w : nat) :
  List.length bs = w ->
  Buf.in_bounds (pre ++ bs ++ post) (blen pre) w = true.
Proof.
  intros Hw. unfold Buf.in_bounds. rewrite !blen_app.
  pose proof (blen_nonneg pre). pose proof (blen_nonneg post).
  assert (blen bs = Z.of_nat w) by (unfold blen; now rewrite Hw).
  apply andb_true_intro; split; apply Z.leb_le; lia.
Qed.

Lemma readUIntBE_framed (w : nat) (pre bs post : Buffer) :
  List.length bs = w ->
  Buf.readUIntBE w (pre ++ bs ++ post) (blen pre) = Ok (be_to_Z bs).
Proof.
  intros Hw. unfold Buf.readUIntBE.
  rewrite in_bounds_framed by assumption.
  unfold blen. rewrite Nat2Z.id, drop_app_length, <- Hw, take_app_length.
  reflexivity.
Qed.

Lemma readUIntBE_Z_to_be (w : nat) (pre post : Buffer) (v : Z) :
  0 <= v < 256 ^ Z.of_nat w ->
  Buf.readUIntBE w (pre ++ Z_to_be w v ++ post) (blen pre) = Ok v.
Proof.
  intros Hv. rewrite readUIntBE_framed by apply length_Z_to_be.
  rewrite be_to_Z_Z_to_be, Z.mod_small by assumption. reflexivity.
Qed.

Lemma readIntBE_Z_to_be (w : nat) (pre post : Buffer) (v : Z) :
  (0 < w)%nat ->
  - 2 ^ (8 * Z.of_nat w - 1) <= v < 2 ^ (8 * Z.of_nat w - 1) ->
  Buf.readIntBE w (pre ++ Z_to_be w v ++ post) (blen pre) = Ok v.
Proof.
  intros Hw Hv. unfold Buf.readIntBE.
  rewrite readUIntBE_framed by apply length_Z_to_be.
  cbn [bind]. rewrite be_to_Z_Z_to_be.
  replace (256 ^ Z.of_nat w) with (2 ^ (8 * Z.of_nat w)).
  - rewrite to_signed_mod by lia. reflexivity.
  - change 256 with (2 ^ 8). rewrite <- Z.pow_mul_r by lia. reflexivity.
Qed.

Lemma writeBE_alloc (w : nat) (lo hi v : Z) :
  lo <= v <= hi ->
  Buf.writeBE w lo hi (Buf.alloc (Z.of_nat w)) v 0 = Ok (Z_to_be w v).
Proof.
  intros Hv. unfold Buf.writeBE.
  destruct (Z.ltb_spec v lo); [lia|]. destruct (Z.ltb_spec hi v); [lia|].
  cbn [orb].
  assert (Hin : Buf.in_bounds (Buf.alloc (Z.of_nat w)) 0 w = true).
  { unfold Buf.in_bounds, blen. rewrite length_alloc, Nat2Z.id.
    apply andb_true_intro; split; apply Z.leb_le; lia. }
  rewrite Hin. f_equal.
  rewrite <- (blen_Z_to_be w v) at 1. apply blit_alloc.
Qed.

Lemma round_trips_plain {T} (enc : T -> result Buffer) dec (v : T) :
  round_trips enc dec v ->
  exists bytes, enc v = Ok bytes /\ dec bytes 0 = Ok (v, blen bytes).
Proof.
  intros (bytes & He & Hd). exists bytes. split; [assumption|].
  specialize (Hd [] []). now rewrite app_nil_r in Hd.
Qed.

(** ** Fixed-width integers, booleans and IEEE bit patterns *)

Ltac fixed_width_round_trip w v :=
  exists (Z_to_be w v); split;
  [ change (Buf.alloc (Z.of_nat w)) with (Buf.alloc (Z.of_nat w));
    apply (writeBE_alloc w); lia
  | intros pre post;
    first [ rewrite (readIntBE_Z_to_be w) by (cbn; lia)
          | rewrite (readUIntBE_Z_to_be w) by (cbn; lia) ];
    cbn [bind]; rewrite blen_Z_to_be; reflexivity ].

Lemma encodeInt8_round_trips (v : Z) :
  - 2 ^ 7 <= v <= 2 ^ 7 - 1 ->
  round_trips BasicTypes.encodeInt8 BasicTypes.decodeInt8 v.
Proof.
  intros Hv. unfold round_trips, decodes_framed,
    BasicTypes.encodeInt8, BasicTypes.decodeInt8, Buf.writeInt8, Buf.readInt8.
  fixed_width_round_trip 1%nat v.
Qed.

Lemma encodeInt16_round_trips (v : Z) :
  - 2 ^ 15 <= v <= 2 ^ 15 - 1 ->
  round_trips BasicTypes.encodeInt16 BasicTypes.decodeInt16 v.
Proof.
  intros Hv. unfold round_trips, decodes_framed,
    BasicTypes.encodeInt16, BasicTypes.decodeInt16, Buf.writeInt16BE, Buf.readInt16BE.
  fixed_width_round_trip 2%nat v.
Qed.

Lemma encodeInt32_round_trips (v : Z) :
  - 2 ^ 31 <= v <= 2 ^ 31 - 1 ->
  round_trips BasicTypes.encodeInt32 BasicTypes.decodeInt32 v.
Proof.
  intros Hv. unfold round_trips, decodes_framed,
    BasicTypes.encodeInt32, BasicTypes.decodeInt32, Buf.writeInt32BE, Buf.readInt32BE.
  fixed_width_round_trip 4%nat v.
Qed.

Lemma encodeInt64_round_trips (v : Z) :
  - 2 ^ 63 <= v <= 2 ^ 63 - 1 ->
  round_trips BasicTypes.encodeInt64 BasicTypes.decodeInt64 v.
Proof.
  intros Hv. unfold round_trips, decodes_framed,
    BasicTypes.encodeInt64, BasicTypes.decodeInt64, Buf.writeBigInt64BE,
    Buf.readBigInt64BE.
  fixed_width_round_trip 8%nat v.
Qed.

Lemma encodeUInt8_round_trips (v : Z) :
  0 <= v <= 2 ^ 8 - 1 ->
  round_trips BasicTypes.encodeUInt8 BasicTypes.decodeUInt8 v.
Proof.
  intros Hv. unfold round_trips, decodes_framed,
    BasicTypes.encodeUInt8, BasicTypes.decodeUInt8, Buf.writeUInt8, Buf.readUInt8.
  fixed_width_round_trip 1%nat v.
Qed.

Lemma encodeUInt16_round_trips (v : Z) :
  0 <= v <= 2 ^ 16 - 1 ->
  round_trips BasicTypes.encodeUInt16 BasicTypes.decodeUInt16 v.
Proof.
  intros Hv. unfold round_trips, decodes_framed,
    BasicTypes.encodeUInt16, BasicTypes.decodeUInt16, Buf.writeUInt16BE,
    Buf.readUInt16BE.
  fixed_width_round_trip 2%nat v.
Qed.

Lemma encodeUInt32_round_trips (v : Z) :
  0 <= v <= 2 ^ 32 - 1 ->
  round_trips BasicTypes.encodeUInt32 BasicTypes.decodeUInt32 v.
Proof.
  intros Hv. unfold round_trips, decodes_framed,
    BasicTypes.encodeUInt32, BasicTypes.decodeUInt32, Buf.writeUInt32BE,
    Buf.readUInt32BE.
  fixed_width_round_trip 4%nat v.
Qed.

Lemma encodeUInt64_round_trips (v : Z) :
  0 <= v <= 2 ^ 64 - 1 ->
  round_trips BasicTypes.encodeUInt64 BasicTypes.decodeUInt64 v.
Proof.
  intros Hv. unfold round_trips, decodes_framed,
    BasicTypes.encodeUInt64, BasicTypes.decodeUInt64, Buf.writeBigUInt64BE,
    Buf.readBigUInt64BE.
  fixed_width_round_trip 8%nat v.
Qed.

Lemma encodeFloat_round_trips (bits : Z) :
  0 <= bits <= 2 ^ 32 - 1 ->
  round_trips BasicTypes.encodeFloat BasicTypes.decodeFloat bits.
Proof.
  intros Hv. exists (Z_to_be 4 bits). split.
  - unfold BasicTypes.encodeFloat, BasicTypes.writeFloatBE.
    change (Buf.in_bounds (Buf.alloc 4) 0 4) with true. cbv iota.
    rewrite <- (blit_alloc (Z_to_be 4 bits)) at 2. reflexivity.
  - intros pre post. unfold BasicTypes.decodeFloat, Buf.readUInt32BE.
    rewrite (readUIntBE_Z_to_be 4) by (cbn; lia).
    cbn [bind]. rewrite blen_Z_to_be. reflexivity.
Qed.

Lemma encodeDouble_round_trips (bits : Z) :
  0 <= bits <= 2 ^ 64 - 1 ->
  round_trips BasicTypes.encodeDouble BasicTypes.decodeDouble bits.
Proof.
  intros Hv. exists (Z_to_be 8 bits). split.
  - unfold BasicTypes.encodeDouble, BasicTypes.writeDoubleBE.
    change (Buf.in_bounds (Buf.alloc 8) 0 8) with true. cbv iota.
    rewrite <- (blit_alloc (Z_to_be 8 bits)) at 2. reflexivity.
  - intros pre post. unfold BasicTypes.decodeDouble, Buf.readBigUInt64BE.
    rewrite (readUIntBE_Z_to_be 8) by (cbn; lia).
    cbn [bind]. rewrite blen_Z_to_be. reflexivity.
Qed.

Lemma encodeBoolean_round_trips (b : bool) :
  round_trips BasicTypes.encodeBoolean BasicTypes.decodeBoolean b.
Proof.
  exists (Z_to_be 1 (if b then 1 else 0)). split.
  - unfold BasicTypes.encodeBoolean, Buf.writeInt8.
    apply (writeBE_alloc 1). destruct b; lia.
  - intros pre post. unfold BasicTypes.decodeBoolean, Buf.readInt8.
    rewrite (readIntBE_Z_to_be 1) by (destruct b; cbn; lia).
    cbn [bind]. rewrite blen_Z_to_be. destruct b; reflexivity.
Qed.

(** ** Nullable strings and byte arrays *)

Lemma length_bytes_of_string (s : string) :
  List.length (Buf.bytes_of_string s) = String.length s.
Proof.
  unfold Buf.bytes_of_string, list_byte_of_string.
  rewrite List.length_map.
  induction s as [|c s IH]; simpl; congruence.
Qed.

Lemma blen_bytes_of_string (s : string) :
  blen (Buf.bytes_of_string s) = Buf.byteLength s.
Proof. unfold blen, Buf.byteLength. now rewrite length_bytes_of_string. Qed.

Lemma string_of_bytes_of_string (s : string) :
  Buf.string_of_bytes (Buf.bytes_of_string s) = s.
Proof. apply string_of_list_byte_of_string. Qed.

Lemma byteLength_nonneg (s : string) : 0 <= Buf.byteLength s.
Proof. unfold Buf.byteLength. lia. Qed.

Lemma writeBE_framed (w : nat) (lo hi v : Z) (pre old post : Buffer) :
  lo <= v <= hi -> List.length old = w ->
  Buf.writeBE w lo hi (pre ++ old ++ post) v (blen pre)
  = Ok (pre ++ Z_to_be w v ++ post).
Proof.
  intros Hv Hw. unfold Buf.writeBE.
  destruct (Z.ltb_spec v lo); [lia|]. destruct (Z.ltb_spec hi v); [lia|].
  cbn [orb]. rewrite in_bounds_framed by assumption.
  rewrite blit_framed by (now rewrite length_Z_to_be). reflexivity.
Qed.

Lemma toString_framed (pre bs post : Buffer) :
  Buf.toString (pre ++ bs ++ post) (blen pre) (blen pre + blen bs)
  = Buf.string_of_bytes bs.
Proof.
  unfold Buf.toString. rewrite !blen_app.
  pose proof (blen_nonneg pre). pose proof (blen_nonneg bs).
  pose proof (blen_nonneg post).
  rewrite Z.max_r, Z.min_r by lia.
  destruct (Z.leb_spec (blen pre + blen bs) (blen pre)) as [Hle|Hlt].
  - assert (Hnil : bs = []).
    { destruct bs as [|b bs]; [reflexivity|].
      pose proof (blen_nonneg bs). rewrite blen_cons in *. lia. }
    subst bs. reflexivity.
  - replace (blen pre + blen bs - blen pre) with (blen bs) by lia.
    unfold blen. rewrite !Nat2Z.id, drop_app_length, take_app_length.
    reflexivity.
Qed.

Lemma slice_framed (pre bs post : Buffer) :
  Buf.slice (pre ++ bs ++ post) (blen pre) (blen pre + blen bs) = bs.
Proof.
  unfold Buf.slice, Buf.adjustOffset. rewrite !blen_app.
  pose proof (blen_nonneg pre). pose proof (blen_nonneg bs).
  pose proof (blen_nonneg post).
  destruct (Z.ltb_spec (blen pre) 0); [lia|].
  destruct (Z.ltb_spec (blen pre + blen bs) 0); [lia|].
  rewrite !Z.min_l by lia.
  destruct (Z.ltb_spec (blen pre) (blen pre + blen bs)) as [Hlt|Hle].
  - replace (blen pre + blen bs - blen pre) with (blen bs) by lia.
    unfold blen. rewrite !Nat2Z.id, drop_app_length, take_app_length.
    reflexivity.
  - destruct bs as [|b bs]; [reflexivity|].
    pose proof (blen_nonneg bs). rewrite blen_cons in *. lia.
Qed.

Lemma encodeString_bytes (s : string) :
  Buf.byteLength s <= 2 ^ 15 - 1 ->
  BasicTypes.encodeString (Some s)
  = Ok (Z_to_be 2 (Buf.byteLength s) ++ Buf.bytes_of_string s).
Proof.
  intros Hlen. pose proof (byteLength_nonneg s) as Hnn.
  unfold BasicTypes.encodeString, Buf.writeInt16BE.
  rewrite alloc_add by lia.
  rewrite (writeBE_framed 2 _ _ _ [] (Buf.alloc 2) (Buf.alloc (Buf.byteLength s)))
    by (try reflexivity; lia).
  cbn [bind app]. f_equal. unfold Buf.write.
  pose proof (blit_framed (Z_to_be 2 (Buf.byteLength s))
                (Buf.alloc (Buf.byteLength s)) [] (Buf.bytes_of_string s)) as Hb.
  rewrite !app_nil_r in Hb. apply Hb.
  rewrite length_alloc, length_bytes_of_string. unfold Buf.byteLength. lia.
Qed.

Lemma encodeString_round_trips (v : option string) :
  match v with Some s => Buf.byteLength s <= 2 ^ 15 - 1 | None => True end ->
  round_trips BasicTypes.encodeString BasicTypes.decodeString v.
Proof.
  intros Hv. destruct v as [s|].
  - eexists. split; [apply encodeString_bytes; assumption|].
    intros pre post. unfold BasicTypes.decodeString, Buf.readInt16BE.
    pose proof (byteLength_nonneg s) as Hnn.
    rewrite <- app_assoc.
    rewrite (readIntBE_Z_to_be 2) by (cbn; lia).
    cbn [bind]. destruct (Z.ltb_spec (Buf.byteLength s) 0); [lia|].
    rewrite (app_assoc pre), <- blen_bytes_of_string.
    replace (blen pre + 2) with (blen (pre ++ Z_to_be 2 (blen (Buf.bytes_of_string s))))
      by (rewrite blen_app, blen_Z_to_be; lia).
    rewrite toString_framed, string_of_bytes_of_string.
    rewrite !blen_app, blen_Z_to_be. do 2 f_equal. lia.
  - exists [xff; xff]. split; [reflexivity|].
    intros pre post. unfold BasicTypes.decodeString, Buf.readInt16BE, Buf.readIntBE.
    rewrite (readUIntBE_framed 2) by reflexivity. reflexivity.
Qed.

Lemma encodeBytes_bytes (b : Buffer) :
  blen b <= 2 ^ 31 - 1 ->
  BasicTypes.encodeBytes (Some b) = Ok (Z_to_be 4 (blen b) ++ b).
Proof.
  intros Hlen. pose proof (blen_nonneg b) as Hnn.
  unfold BasicTypes.encodeBytes, Buf.writeInt32BE.
  rewrite alloc_add by lia.
  rewrite (writeBE_framed 4 _ _ _ [] (Buf.alloc 4) (Buf.alloc (blen b)))
    by (try reflexivity; lia).
  cbn [bind app]. f_equal. unfold Buf.copy.
  pose proof (blit_framed (Z_to_be 4 (blen b)) (Buf.alloc (blen b)) [] b) as Hb.
  rewrite !app_nil_r in Hb. apply Hb.
  rewrite length_alloc. unfold blen. lia.
Qed.

Lemma encodeBytes_round_trips (v : option Buffer) :
  match v with Some b => blen b <= 2 ^ 31 - 1 | None => True end ->
  round_trips BasicTypes.encodeBytes BasicTypes.decodeBytes v.
Proof.
  intros Hv. destruct v as [b|].
  - eexists. split; [apply encodeBytes_bytes; assumption|].
    intros pre post. unfold BasicTypes.decodeBytes, Buf.readInt32BE.
    pose proof (blen_nonneg b) as Hnn.
    rewrite <- app_assoc.
    rewrite (readIntBE_Z_to_be 4) by (cbn; lia).
    cbn [bind]. destruct (Z.ltb_spec (blen b) 0); [lia|].
    rewrite (app_assoc pre).
    replace (blen pre + 4) with (blen (pre ++ Z_to_be 4 (blen b)))
      by (rewrite blen_app, blen_Z_to_be; lia).
    rewrite slice_framed.
    rewrite !blen_app, blen_Z_to_be. do 2 f_equal. lia.
  - exists [xff; xff; xff; xff]. split; [reflexivity|].
    intros pre post. unfold BasicTypes.decodeBytes, Buf.readInt32BE, Buf.readIntBE.
    rewrite (readUIntBE_framed 4) by reflexivity. reflexivity.
Qed.

(** ** The 32-bit operators on the values the varint loops meet *)

Lemma toInt32_small (z : Z) : - 2 ^ 31 <= z < 2 ^ 31 -> toInt32 z = z.
Proof. intros Hz. unfold toInt32. rewrite Z.mod_small; lia. Qed.

Lemma toInt32_range (z : Z) : - 2 ^ 31 <= toInt32 z < 2 ^ 31.
Proof.
  unfold toInt32. pose proof (Z.mod_pos_bound (z + 2 ^ 31) (2 ^ 32) ltac:(lia)).
  lia.
Qed.

Lemma js_sar_7 (len : Z) : 0 <= len < 2 ^ 31 -> js_sar len 7 = len / 128.
Proof.
  intros Hl. unfold js_sar. rewrite toInt32_small by lia.
  change (7 mod 32) with 7. now rewrite Z.shiftr_div_pow2 by lia.
Qed.

Lemma js_and_127 (len : Z) : 0 <= len < 2 ^ 31 -> js_and len 127 = len mod 128.
Proof.
  intros Hl. unfold js_and. rewrite !toInt32_small by lia.
  change 127 with (Z.ones 7). now rewrite Z.land_ones by lia.
Qed.

Lemma lor_disjoint (acc d shift : Z) :
  0 <= shift -> 0 <= acc < 2 ^ shift ->
  Z.lor acc (d * 2 ^ shift) = acc + d * 2 ^ shift.
Proof.
  intros Hs Ha.
  assert (Hland : Z.land acc (d * 2 ^ shift) = 0).
  { apply Z.bits_inj'. intros i Hi. rewrite Z.land_spec, Z.bits_0.
    destruct (Z.lt_ge_cases i shift) as [Hlt|Hge].
    - rewrite Z.mul_pow2_bits_low by lia. apply andb_false_r.
    - rewrite <- (Z.mod_small acc (2 ^ shift)) by lia.
      rewrite Z.mod_pow2_bits_high by lia. reflexivity. }
  rewrite <- Z.lxor_lor by assumption.
  symmetry. now apply Z.add_nocarry_lxor.
Qed.

Lemma js_or_128 (d : Z) : 0 <= d < 128 -> js_or d 128 = d + 128.
Proof.
  intros Hd. unfold js_or. rewrite !toInt32_small by lia.
  pose proof (lor_disjoint d 1 7 ltac:(lia) ltac:(lia)) as H.
  change (1 * 2 ^ 7) with 128 in H. exact H.
Qed.

Lemma js_and_byte_127 (y : Z) : 0 <= y < 256 -> js_and y 127 = y mod 128.
Proof. intros Hy. apply js_and_127. lia. Qed.

Lemma js_and_byte_128 (y : Z) :
  0 <= y < 256 -> (js_and y 128 =? 0) = (y <? 128).
Proof.
  intros Hy.
  assert (Hb : y = byte_to_Z (byte_of_Z y))
    by (rewrite byte_to_of_Z, Z.mod_small; lia).
  revert Hb. generalize (byte_of_Z y). intros b ->.
  destruct b; reflexivity.
Qed.

Lemma js_shl_small (d shift : Z) :
  0 <= d -> 0 <= shift -> d * 2 ^ shift < 2 ^ 31 ->
  js_shl d shift = d * 2 ^ shift.
Proof.
  intros Hd Hs Hb. unfold js_shl.
  assert (Hd31 : d < 2 ^ 31).
  { pose proof (Z.pow_pos_nonneg 2 shift ltac:(lia) Hs). nia. }
  rewrite (toInt32_small d) by lia.
  destruct (Z.eq_dec d 0) as [->|Hnz].
  - rewrite Z.shiftl_0_l. reflexivity.
  - assert (Hs31 : shift < 31).
    { destruct (Z.lt_ge_cases shift 31) as [|Hge]; [assumption|].
      pose proof (Z.pow_le_mono_r 2 31 shift ltac:(lia) Hge). nia. }
    rewrite Z.mod_small by lia.
    rewrite Z.shiftl_mul_pow2 by lia.
    apply toInt32_small.
    pose proof (Z.pow_pos_nonneg 2 shift ltac:(lia) Hs). nia.
Qed.

(** ** The varint loops compute [uvarint] *)

Lemma set_index_framed (pre : Buffer) (z : byte) (rest : Buffer) (v : Z) :
  Buf.set_index (pre ++ z :: rest) (blen pre) v = pre ++ byte_of_Z v :: rest.
Proof.
  unfold Buf.set_index. pose proof (blen_nonneg pre).
  destruct (Z.ltb_spec (blen pre) 0); [lia|].
  unfold blen. rewrite Nat2Z.id.
  rewrite <- (Nat.add_0_r (List.length pre)), insert_app_r. reflexivity.
Qed.

Lemma uvarint_not_nil (more : nat) (n : Z) : uvarint more n <> [].
Proof. destruct more; simpl; [|destruct (127 <? n)]; discriminate. Qed.

Lemma sizeOfLength_loop_uvarint (fuel : nat) :
  forall s n, 0 <= n < 2 ^ 31 ->
    fst (BasicTypes.sizeOfLength_loop fuel s n) = s + blen (uvarint fuel n) - 1.
Proof.
  induction fuel as [|fuel IH]; intros s n Hn; simpl.
  - unfold blen. simpl. lia.
  - destruct (Z.ltb_spec 127 n) as [Hgt|Hle].
    + rewrite js_sar_7 by assumption.
      rewrite IH by (split; [apply Z.div_pos; lia | apply Z.div_lt_upper_bound; lia]).
      rewrite blen_cons. lia.
    + unfold blen. simpl. lia.
Qed.

Lemma writeLength_loop_uvarint (fuel : nat) :
  forall n pre zeros post, 0 <= n < 2 ^ 31 ->
    List.length zeros = List.length (uvarint fuel n) ->
    (let '(b, i, l) :=
       BasicTypes.writeLength_loop fuel (pre ++ zeros ++ post) (blen pre) n in
     (Buf.set_index b i (js_and l 127), i + 1))
    = (pre ++ uvarint fuel n ++ post, blen pre + blen (uvarint fuel n)).
Proof.
  induction fuel as [|fuel IH]; intros n pre zeros post Hn Hlen.
  - simpl in *. destruct zeros as [|z [|? ?]]; try discriminate.
    cbn [app]. rewrite set_index_framed, js_and_127 by assumption.
    unfold blen at 3. simpl. reflexivity.
  - cbn [BasicTypes.writeLength_loop uvarint] in *.
    destruct (Z.ltb_spec 127 n) as [Hgt|Hle].
    + destruct zeros as [|z zeros]; [discriminate|].
      cbn [app]. rewrite set_index_framed.
      rewrite js_and_127 by assumption.
      rewrite js_or_128 by (apply Z.mod_pos_bound; lia).
      rewrite js_sar_7 by assumption.
      specialize (IH (n / 128) (pre ++ [byte_of_Z (n mod 128 + 128)]) zeros post).
      rewrite <- !app_assoc in IH. cbn [app] in IH.
      rewrite blen_app in IH. change (blen [_]) with 1 in IH.
      rewrite IH.
      * rewrite blen_cons. f_equal. lia.
      * split; [apply Z.div_pos; lia | apply Z.div_lt_upper_bound; lia].
      * simpl in Hlen. congruence.
    + simpl in Hlen. destruct zeros as [|z [|? ?]]; try discriminate.
      cbn [app]. rewrite set_index_framed, js_and_127 by assumption.
      unfold blen at 3. simpl. reflexivity.
Qed.

Lemma readLength_loop_uvarint (fuel : nat) :
  forall n acc shift off post,
    0 <= n < 128 ^ (Z.of_nat fuel + 1) -> 0 <= shift ->
    0 <= acc < 2 ^ shift -> acc + n * 2 ^ shift < 2 ^ 31 ->
    BasicTypes.readLength_loop (uvarint fuel n ++ post) acc shift off
    = Ok (acc + n * 2 ^ shift, off + blen (uvarint fuel n)).
Proof.
  assert (Hlast : forall n acc shift off post,
    0 <= n < 128 -> 0 <= shift -> 0 <= acc < 2 ^ shift ->
    acc + n * 2 ^ shift < 2 ^ 31 ->
    BasicTypes.readLength_loop ([byte_of_Z (n mod 128)] ++ post) acc shift off
    = Ok (acc + n * 2 ^ shift, off + blen [byte_of_Z (n mod 128)])).
  { intros n acc shift off post Hn Hs Ha Hb.
    pose proof (Z.pow_pos_nonneg 2 shift ltac:(lia) Hs) as Hp.
    cbn [app BasicTypes.readLength_loop].
    rewrite byte_to_of_Z, (Z.mod_small n 128) by lia.
    rewrite (Z.mod_small n 256) by lia.
    rewrite js_and_byte_128, js_and_byte_127 by lia.
    rewrite (Z.mod_small n 128) by lia.
    destruct (Z.ltb_spec n 128); [|lia].
    rewrite js_shl_small by nia.
    unfold js_or. rewrite !toInt32_small by nia.
    rewrite lor_disjoint by lia. reflexivity. }
  induction fuel as [|fuel IH]; intros n acc shift off post Hn Hs Ha Hb.
  - cbn [uvarint]. apply Hlast; assumption.
  - cbn [uvarint]. destruct (Z.ltb_spec 127 n) as [Hgt|Hle].
    + pose proof (Z.pow_pos_nonneg 2 shift ltac:(lia) Hs) as Hp.
      pose proof (Z.mod_pos_bound n 128 ltac:(lia)) as Hd.
      pose proof (Z.div_mod n 128 ltac:(lia)) as Hdm.
      assert (Hq : 0 <= n / 128) by (apply Z.div_pos; lia).
      cbn [app BasicTypes.readLength_loop].
      rewrite byte_to_of_Z, (Z.mod_small (n mod 128 + 128) 256) by lia.
      rewrite js_and_byte_128, js_and_byte_127 by lia.
      replace ((n mod 128 + 128) mod 128) with (n mod 128)
        by (replace (n mod 128 + 128) with (n mod 128 + 1 * 128) by lia;
            rewrite Z.mod_add, Z.mod_mod by lia; reflexivity).
      destruct (Z.ltb_spec (n mod 128 + 128) 128); [lia|].
      rewrite js_shl_small by nia.
      unfold js_or. rewrite !toInt32_small by nia.
      rewrite lor_disjoint by lia.
      rewrite IH.
      * rewrite blen_cons, Z.pow_add_r by lia. do 2 f_equal; [|lia].
        change (2 ^ 7) with 128. nia.
      * split; [assumption|]. apply Z.div_lt_upper_bound; [lia|].
        rewrite Nat2Z.inj_succ in Hn.
        replace (Z.succ (Z.of_nat fuel) + 1) with (Z.succ (Z.of_nat fuel + 1)) in Hn by lia.
        rewrite Z.pow_succ_r in Hn by lia. lia.
      * lia.
      * rewrite Z.pow_add_r by lia. change (2 ^ 7) with 128. nia.
      * rewrite Z.pow_add_r by lia. change (2 ^ 7) with 128. nia.
    + apply Hlast; try assumption. lia.
Qed.

Lemma sizeOfLength_uvarint (n : Z) :
  0 <= n < 2 ^ 31 ->
  BasicTypes.sizeOfLength n = blen (uvarint BasicTypes.varint_fuel n).
Proof.
  intros Hn. unfold BasicTypes.sizeOfLength.
  rewrite sizeOfLength_loop_uvarint by assumption. lia.
Qed.

Lemma writeLength_uvarint (n : Z) (post : Buffer) :
  0 <= n < 2 ^ 31 ->
  BasicTypes.writeLength
    (Buf.alloc (blen (uvarint BasicTypes.varint_fuel n)) ++ post) n
  = (uvarint BasicTypes.varint_fuel n ++ post,
     blen (uvarint BasicTypes.varint_fuel n)).
Proof.
  intros Hn. unfold BasicTypes.writeLength.
  pose proof (writeLength_loop_uvarint BasicTypes.varint_fuel n []
                (Buf.alloc (blen (uvarint BasicTypes.varint_fuel n))) post Hn) as H.
  cbn [app] in H. change (blen []) with 0 in H.
  destruct (BasicTypes.writeLength_loop _ _ 0 n) as [[b i] l].
  rewrite H; [reflexivity|].
  rewrite length_alloc. unfold blen. now rewrite Nat2Z.id.
Qed.

Lemma readLength_uvarint (n : Z) (pre post : Buffer) :
  0 <= n < 2 ^ 31 ->
  BasicTypes.readLength (pre ++ uvarint BasicTypes.varint_fuel n ++ post) (blen pre)
  = Ok (n, blen pre + blen (uvarint BasicTypes.varint_fuel n)).
Proof.
  intros Hn. unfold BasicTypes.readLength. pose proof (blen_nonneg pre).
  destruct (Z.ltb_spec (blen pre) 0); [lia|].
  unfold blen at 1. rewrite Nat2Z.id, drop_app_length.
  rewrite readLength_loop_uvarint.
  - do 2 f_equal. lia.
  - unfold BasicTypes.varint_fuel. cbn. lia.
  - lia.
  - cbn. lia.
  - lia.
Qed.

Lemma encodeCompactString_bytes (s : string) :
  Buf.byteLength s + 1 < 2 ^ 31 ->
  BasicTypes.encodeCompactString (Some s)
  = Ok (uvarint BasicTypes.varint_fuel (Buf.byteLength s + 1)
          ++ Buf.bytes_of_string s).
Proof.
  intros Hlen. pose proof (byteLength_nonneg s) as Hnn.
  unfold BasicTypes.encodeCompactString.
  rewrite sizeOfLength_uvarint by lia.
  rewrite alloc_add by (apply blen_nonneg || lia).
  rewrite writeLength_uvarint by lia. f_equal. unfold Buf.write.
  pose proof (blit_framed (uvarint BasicTypes.varint_fuel (Buf.byteLength s + 1))
                (Buf.alloc (Buf.byteLength s)) [] (Buf.bytes_of_string s)) as Hb.
  rewrite !app_nil_r in Hb. apply Hb.
  rewrite length_alloc, length_bytes_of_string. unfold Buf.byteLength. lia.
Qed.

Lemma encodeCompactString_round_trips (v : option string) :
  match v with Some s => Buf.byteLength s + 1 < 2 ^ 31 | None => True end ->
  round_trips BasicTypes.encodeCompactString BasicTypes.decodeCompactString v.
Proof.
  intros Hv. destruct v as [s|].
  - eexists. split; [apply encodeCompactString_bytes; assumption|].
    intros pre post. unfold BasicTypes.decodeCompactString.
    pose proof (byteLength_nonneg s) as Hnn.
    rewrite <- app_assoc, readLength_uvarint by lia.
    cbn [bind]. destruct (Z.eqb_spec (Buf.byteLength s + 1) 0); [lia|].
    rewrite (app_assoc pre).
    replace (Buf.byteLength s + 1 - 1) with (blen (Buf.bytes_of_string s))
      by (rewrite blen_bytes_of_string; lia).
    rewrite <- blen_app, toString_framed, string_of_bytes_of_string.
    rewrite !blen_app. do 2 f_equal. lia.
  - exists [x00]. split; [reflexivity|].
    intros pre post. unfold BasicTypes.decodeCompactString.
    pose proof (readLength_uvarint 0 pre post ltac:(lia)) as H.
    change (uvarint BasicTypes.varint_fuel 0) with [x00] in H.
    rewrite H. reflexivity.
Qed.

Lemma encodeCompactBytes_bytes (b : Buffer) :
  blen b + 1 < 2 ^ 31 ->
  BasicTypes.encodeCompactBytes (Some b)
  = Ok (uvarint BasicTypes.varint_fuel (blen b + 1) ++ b).
Proof.
  intros Hlen. pose proof (blen_nonneg b) as Hnn.
  unfold BasicTypes.encodeCompactBytes.
  rewrite sizeOfLength_uvarint by lia.
  rewrite alloc_add by (apply blen_nonneg || lia).
  rewrite writeLength_uvarint by lia. f_equal. unfold Buf.copy.
  pose proof (blit_framed (uvarint BasicTypes.varint_fuel (blen b + 1))
                (Buf.alloc (blen b)) [] b) as Hb.
  rewrite !app_nil_r in Hb. apply Hb.
  rewrite length_alloc. unfold blen. lia.
Qed.

Lemma encodeCompactBytes_round_trips (v : option Buffer) :
  match v with Some b => blen b + 1 < 2 ^ 31 | None => True end ->
  round_trips BasicTypes.encodeCompactBytes BasicTypes.decodeCompactBytes v.
Proof.
  intros Hv. destruct v as [b|].
  - eexists. split; [apply encodeCompactBytes_bytes; assumption|].
    intros pre post. unfold BasicTypes.decodeCompactBytes.
    pose proof (blen_nonneg b) as Hnn.
    rewrite <- app_assoc, readLength_uvarint by lia.
    cbn [bind]. destruct (Z.eqb_spec (blen b + 1) 0); [lia|].
    rewrite (app_assoc pre).
    replace (blen b + 1 - 1) with (blen b) by lia.
    rewrite <- blen_app, slice_framed.
    rewrite !blen_app. do 2 f_equal. lia.
  - exists [x00]. split; [reflexivity|].
    intros pre post. unfold BasicTypes.decodeCompactBytes.
    pose proof (readLength_uvarint 0 pre post ltac:(lia)) as H.
    change (uvarint BasicTypes.varint_fuel 0) with [x00] in H.
    rewrite H. reflexivity.
Qed.

(** ** Arrays *)

Section ArrayRoundTrip.
Context {T : Type}.
Variable enc : T -> result Buffer.
Variable dec : Buffer -> Z -> result (T * Z).

Lemma round_trips_encoded_as (vs : list T) :
  Forall (round_trips enc dec) vs -> exists chunks, encoded_as enc dec vs chunks.
Proof.
  induction 1 as [|v vs (c & He & Hd) _ (chunks & IH)].
  - exists []. constructor.
  - exists (c :: chunks). constructor; auto.
Qed.

Lemma encodeValues_chunks (vs : list T) (chunks : list Buffer) :
  encoded_as enc dec vs chunks ->
  forall total acc,
    BasicTypes.encodeValues enc vs total acc
    = Ok (total + blen (List.concat chunks), acc ++ chunks).
Proof.
  induction 1 as [|v c vs chunks [He Hd] _ IH]; intros total acc; simpl.
  - change (blen []) with 0. rewrite app_nil_r. do 2 f_equal. lia.
  - rewrite He. cbn [bind]. rewrite IH, blen_app, <- app_assoc.
    do 2 f_equal. lia.
Qed.

Lemma copyValues_chunks (chunks : list Buffer) :
  forall pre post,
    BasicTypes.copyValues chunks
      (pre ++ Buf.alloc (blen (List.concat chunks)) ++ post) (blen pre)
    = (pre ++ List.concat chunks ++ post, blen pre + blen (List.concat chunks)).
Proof.
  induction chunks as [|c chunks IH]; intros pre post; simpl.
  - change (blen []) with 0. f_equal. lia.
  - rewrite blen_app, alloc_add by apply blen_nonneg.
    unfold Buf.copy. rewrite <- (app_assoc (Buf.alloc (blen c))).
    rewrite blit_framed
      by (rewrite length_alloc; unfold blen; now rewrite Nat2Z.id).
    rewrite (app_assoc pre c), <- blen_app, IH.
    rewrite <- !app_assoc, blen_app. f_equal. lia.
Qed.

Lemma decodeValues_chunks (vs : list T) (chunks : list Buffer) :
  encoded_as enc dec vs chunks ->
  forall pre post acc,
    BasicTypes.decodeValues dec (List.length vs)
      (pre ++ List.concat chunks ++ post) (blen pre) acc
    = Ok (acc ++ vs, blen pre + blen (List.concat chunks)).
Proof.
  induction 1 as [|v c vs chunks [He Hd] _ IH]; intros pre post acc; simpl.
  - change (blen []) with 0. rewrite app_nil_r. do 2 f_equal. lia.
  - rewrite <- (app_assoc c), Hd. cbn [bind].
    rewrite (app_assoc pre c), <- blen_app, IH.
    rewrite <- app_assoc, !blen_app. do 2 f_equal. lia.
Qed.

Lemma encodeArray_round_trips (v : option (list T)) :
  match v with
  | Some vs => Forall (round_trips enc dec) vs /\
               Z.of_nat (List.length vs) <= 2 ^ 31 - 1
  | None => True
  end ->
  round_trips (BasicTypes.encodeArray enc) (BasicTypes.decodeArray dec) v.
Proof.
  intros Hv. destruct v as [vs|].
  - destruct Hv as [Hall Hlen].
    destruct (round_trips_encoded_as vs Hall) as [chunks Hch].
    exists (Z_to_be 4 (Z.of_nat (List.length vs)) ++ List.concat chunks). split.
    + unfold BasicTypes.encodeArray.
      rewrite (encodeValues_chunks vs chunks Hch). cbn [bind app].
      rewrite alloc_add by (apply blen_nonneg || lia).
      unfold Buf.writeInt32BE.
      rewrite (writeBE_framed 4 _ _ _ [] (Buf.alloc 4)
                 (Buf.alloc (blen (List.concat chunks))))
        by (try reflexivity; lia).
      cbn [bind app].
      pose proof (copyValues_chunks chunks
                    (Z_to_be 4 (Z.of_nat (List.length vs))) []) as Hc.
      rewrite !app_nil_r in Hc. rewrite blen_Z_to_be in Hc.
      change (Z.of_nat 4) with 4 in Hc. rewrite Hc. reflexivity.
    + intros pre post. unfold BasicTypes.decodeArray, Buf.readInt32BE.
      rewrite <- app_assoc.
      rewrite (readIntBE_Z_to_be 4) by (cbn; lia).
      cbn [bind]. destruct (Z.ltb_spec (Z.of_nat (List.length vs)) 0); [lia|].
      rewrite Nat2Z.id, (app_assoc pre).
      replace (blen pre + 4)
        with (blen (pre ++ Z_to_be 4 (Z.of_nat (List.length vs))))
        by (rewrite blen_app, blen_Z_to_be; lia).
      rewrite (decodeValues_chunks vs chunks Hch). cbn [bind app].
      rewrite !blen_app, blen_Z_to_be. do 2 f_equal. lia.
  - exists [xff; xff; xff; xff]. split; [reflexivity|].
    intros pre post. unfold BasicTypes.decodeArray, Buf.readInt32BE, Buf.readIntBE.
    rewrite (readUIntBE_framed 4) by reflexivity. reflexivity.
Qed.

Lemma encodeCompactArray_round_trips (v : option (list T)) :
  match v with
  | Some vs => Forall (round_trips enc dec) vs /\
               Z.of_nat (List.length vs) + 1 < 2 ^ 31
  | None => True
  end ->
  round_trips (BasicTypes.encodeCompactArray enc)
              (BasicTypes.decodeCompactArray dec) v.
Proof.
  intros Hv. destruct v as [vs|].
  - destruct Hv as [Hall Hlen].
    destruct (round_trips_encoded_as vs Hall) as [chunks Hch].
    set (n := Z.of_nat (List.length vs) + 1) in *.
    exists (uvarint BasicTypes.varint_fuel n ++ List.concat chunks). split.
    + unfold BasicTypes.encodeCompactArray. fold n.
      rewrite sizeOfLength_uvarint by lia.
      rewrite (encodeValues_chunks vs chunks Hch). cbn [bind app].
      rewrite alloc_add by apply blen_nonneg.
      rewrite writeLength_uvarint by lia.
      pose proof (copyValues_chunks chunks (uvarint BasicTypes.varint_fuel n) [])
        as Hc.
      rewrite !app_nil_r in Hc. rewrite Hc. reflexivity.
    + intros pre post. unfold BasicTypes.decodeCompactArray.
      rewrite <- app_assoc, readLength_uvarint by lia.
      cbn [bind]. destruct (Z.eqb_spec n 0); [lia|].
      replace (Z.to_nat (n - 1)) with (List.length vs) by lia.
      rewrite (app_assoc pre), <- blen_app.
      rewrite (decodeValues_chunks vs chunks Hch). cbn [bind app].
      rewrite !blen_app. do 2 f_equal. lia.
  - exists [x00]. split; [reflexivity|].
    intros pre post. unfold BasicTypes.decodeCompactArray.
    pose proof (readLength_uvarint 0 pre post ltac:(lia)) as H.
    change (uvarint BasicTypes.varint_fuel 0) with [x00] in H.
    rewrite H. reflexivity.
Qed.
End ArrayRoundTrip.


(** C1.  Round trip of the wire codec.  For every value that fits the width
    it is written with, the encoder returns bytes from which the decoder,
    started at their first byte (inside any larger buffer, in particular in
    the bytes alone at offset 0), returns the value and the offset just after
    them: booleans; signed and unsigned integers of 8, 16, 32 and 64 bits;
    float32 and float64 (as IEEE bit patterns); nullable strings and byte
    arrays, standard and compact, null and empty included; standard and
    compact arrays over any element codec that itself round-trips, null and
    empty included; and compact arrays of 127, 128 and 16384 elements, whose
    length prefixes take 2, 2 and 3 bytes. *)
Theorem BasicTypes_round_trip :
  (forall b : bool,
      round_trips BasicTypes.encodeBoolean BasicTypes.decodeBoolean b)
  /\ (forall v, - 2 ^ 7 <= v <= 2 ^ 7 - 1 ->
        round_trips BasicTypes.encodeInt8 BasicTypes.decodeInt8 v)
  /\ (forall v, - 2 ^ 15 <= v <= 2 ^ 15 - 1 ->
        round_trips BasicTypes.encodeInt16 BasicTypes.decodeInt16 v)
  /\ (forall v, - 2 ^ 31 <= v <= 2 ^ 31 - 1 ->
        round_trips BasicTypes.encodeInt32 BasicTypes.decodeInt32 v)
  /\ (forall v, - 2 ^ 63 <= v <= 2 ^ 63 - 1 ->
        round_trips BasicTypes.encodeInt64 BasicTypes.decodeInt64 v)
  /\ (forall v, 0 <= v <= 2 ^ 8 - 1 ->
        round_trips BasicTypes.encodeUInt8 BasicTypes.decodeUInt8 v)
  /\ (forall v, 0 <= v <= 2 ^ 16 - 1 ->
        round_trips BasicTypes.encodeUInt16 BasicTypes.decodeUInt16 v)
  /\ (forall v, 0 <= v <= 2 ^ 32 - 1 ->
        round_trips BasicTypes.encodeUInt32 BasicTypes.decodeUInt32 v)
  /\ (forall v, 0 <= v <= 2 ^ 64 - 1 ->
        round_trips BasicTypes.encodeUInt64 BasicTypes.decodeUInt64 v)
  /\ (forall bits, 0 <= bits <= 2 ^ 32 - 1 ->
        round_trips BasicTypes.encodeFloat BasicTypes.decodeFloat bits)
  /\ (forall bits, 0 <= bits <= 2 ^ 64 - 1 ->
        round_trips BasicTypes.encodeDouble BasicTypes.decodeDouble bits)
  /\ (forall v : option string,
        match v with Some s => Buf.byteLength s <= 2 ^ 15 - 1 | None => True end ->
        round_trips BasicTypes.encodeString BasicTypes.decodeString v)
  /\ (forall v : option string,
        match v with Some s => Buf.byteLength s + 1 < 2 ^ 31 | None => True end ->
        round_trips BasicTypes.encodeCompactString BasicTypes.decodeCompactString v)
  /\ (forall v : option Buffer,
        match v with Some b => blen b <= 2 ^ 31 - 1 | None => True end ->
        round_trips BasicTypes.encodeBytes BasicTypes.decodeBytes v)
  /\ (forall v : option Buffer,
        match v with Some b => blen b + 1 < 2 ^ 31 | None => True end ->
        round_trips BasicTypes.encodeCompactBytes BasicTypes.decodeCompactBytes v)
  /\ (forall (T : Type) (enc : T -> result Buffer)
             (dec : Buffer -> Z -> result (T * Z)) (v : option (list T)),
        match v with
        | Some vs => Forall (round_trips enc dec) vs /\
                     Z.of_nat (List.length vs) <= 2 ^ 31 - 1
        | None => True
        end ->
        round_trips (BasicTypes.encodeArray enc) (BasicTypes.decodeArray dec) v)
  /\ (forall (T : Type) (enc : T -> result Buffer)
             (dec : Buffer -> Z -> result (T * Z)) (v : option (list T)),
        match v with
        | Some vs => Forall (round_trips enc dec) vs /\
                     Z.of_nat (List.length vs) + 1 < 2 ^ 31
        | None => True
        end ->
        round_trips (BasicTypes.encodeCompactArray enc)
                    (BasicTypes.decodeCompactArray dec) v)
  /\ (forall (T : Type) (enc : T -> result Buffer)
             (dec : Buffer -> Z -> result (T * Z)) (vs : list T),
        Forall (round_trips enc dec) vs ->
        Z.of_nat (List.length vs) = 127 \/ Z.of_nat (List.length vs) = 128 \/ Z.of_nat (List.length vs) = 16384 ->
        round_trips (BasicTypes.encodeCompactArray enc)
                    (BasicTypes.decodeCompactArray dec) (Some vs))
  /\ BasicTypes.sizeOfLength (127 + 1) = 2
  /\ BasicTypes.sizeOfLength (128 + 1) = 2
  /\ BasicTypes.sizeOfLength (16384 + 1) = 3.
Proof.
  repeat match goal with |- _ /\ _ => split end.
  - apply encodeBoolean_round_trips.
  - apply encodeInt8_round_trips.
  - apply encodeInt16_round_trips.
  - apply encodeInt32_round_trips.
  - apply encodeInt64_round_trips.
  - apply encodeUInt8_round_trips.
  - apply encodeUInt16_round_trips.
  - apply encodeUInt32_round_trips.
  - apply encodeUInt64_round_trips.
  - apply encodeFloat_round_trips.
  - apply encodeDouble_round_trips.
  - apply encodeString_round_trips.
  - apply encodeCompactString_round_trips.
  - apply encodeBytes_round_trips.
  - apply encodeCompactBytes_round_trips.
  - intros T enc dec. apply encodeArray_round_trips.
  - intros T enc dec. apply encodeCompactArray_round_trips.
  - intros T enc dec vs Hall Hlen. apply encodeCompactArray_round_trips.
    split; [assumption|]. lia.
  - reflexivity.
  - reflexivity.
  - reflexivity.
Qed.

Lemma BasicTypes_round_trip_witness :
  (- 2 ^ 7 <= -5 <= 2 ^ 7 - 1 /\
   round_trips BasicTypes.encodeInt8 BasicTypes.decodeInt8 (-5))
  /\ (- 2 ^ 15 <= 300 <= 2 ^ 15 - 1 /\
      round_trips BasicTypes.encodeInt16 BasicTypes.decodeInt16 300)
  /\ (- 2 ^ 31 <= -70000 <= 2 ^ 31 - 1 /\
      round_trips BasicTypes.encodeInt32 BasicTypes.decodeInt32 (-70000))
  /\ (- 2 ^ 63 <= 2 ^ 40 <= 2 ^ 63 - 1 /\
      round_trips BasicTypes.encodeInt64 BasicTypes.decodeInt64 (2 ^ 40))
  /\ (0 <= 200 <= 2 ^ 8 - 1 /\
      round_trips BasicTypes.encodeUInt8 BasicTypes.decodeUInt8 200)
  /\ (0 <= 40000 <= 2 ^ 16 - 1 /\
      round_trips BasicTypes.encodeUInt16 BasicTypes.decodeUInt16 40000)
  /\ (0 <= 2 ^ 31 <= 2 ^ 32 - 1 /\
      round_trips BasicTypes.encodeUInt32 BasicTypes.decodeUInt32 (2 ^ 31))
  /\ (0 <= 2 ^ 63 <= 2 ^ 64 - 1 /\
      round_trips BasicTypes.encodeUInt64 BasicTypes.decodeUInt64 (2 ^ 63))
  /\ (0 <= 1065353216 <= 2 ^ 32 - 1 /\
      round_trips BasicTypes.encodeFloat BasicTypes.decodeFloat 1065353216)
  /\ (0 <= 4607182418800017408 <= 2 ^ 64 - 1 /\
      round_trips BasicTypes.encodeDouble BasicTypes.decodeDouble
        4607182418800017408)
  /\ (Buf.byteLength "orders" <= 2 ^ 15 - 1 /\
      round_trips BasicTypes.encodeString BasicTypes.decodeString
        (Some "orders"%string))
  /\ (Buf.byteLength "" + 1 < 2 ^ 31 /\
      round_trips BasicTypes.encodeCompactString BasicTypes.decodeCompactString
        (Some ""%string))
  /\ (blen [x01; x02; x03] <= 2 ^ 31 - 1 /\
      round_trips BasicTypes.encodeBytes BasicTypes.decodeBytes
        (Some [x01; x02; x03]))
  /\ (blen [] + 1 < 2 ^ 31 /\
      round_trips BasicTypes.encodeCompactBytes BasicTypes.decodeCompactBytes
        (Some []))
  /\ ((Forall (round_trips BasicTypes.encodeString BasicTypes.decodeString)
         [Some "a"%string; None; Some ""%string] /\
       Z.of_nat (List.length [Some "a"%string; None; Some ""%string]) <= 2 ^ 31 - 1) /\
      round_trips (BasicTypes.encodeArray BasicTypes.encodeString)
        (BasicTypes.decodeArray BasicTypes.decodeString)
        (Some [Some "a"%string; None; Some ""%string]))
  /\ ((Forall (round_trips BasicTypes.encodeInt32 BasicTypes.decodeInt32) [] /\
       Z.of_nat (List.length (@nil Z)) + 1 < 2 ^ 31) /\
      round_trips (BasicTypes.encodeCompactArray BasicTypes.encodeInt32)
        (BasicTypes.decodeCompactArray BasicTypes.decodeInt32) (Some []))
  /\ (Forall (round_trips BasicTypes.encodeInt32 BasicTypes.decodeInt32)
        (repeat 7 128) /\
      (Z.of_nat (List.length (repeat 7 128)) = 127 \/
       Z.of_nat (List.length (repeat 7 128)) = 128 \/
       Z.of_nat (List.length (repeat 7 128)) = 16384) /\
      round_trips (BasicTypes.encodeCompactArray BasicTypes.encodeInt32)
        (BasicTypes.decodeCompactArray BasicTypes.decodeInt32)
        (Some (repeat 7 128))).
Proof.
  destruct BasicTypes_round_trip as
    (_ & Hi8 & Hi16 & Hi32 & Hi64 & Hu8 & Hu16 & Hu32 & Hu64 & Hf & Hd
       & Hs & Hcs & Hb & Hcb & Ha & Hca & Hbd & _).
  assert (Hstr : Forall
            (round_trips BasicTypes.encodeString BasicTypes.decodeString)
            [Some "a"%string; None; Some ""%string]).
  { apply Forall_cons_2; [apply Hs; unfold Buf.byteLength, blen; simpl; lia|].
    apply Forall_cons_2; [apply Hs; exact I|].
    apply Forall_cons_2; [apply Hs; unfold Buf.byteLength, blen; simpl; lia|]. apply Forall_nil_2. }
  assert (H7 : Forall (round_trips BasicTypes.encodeInt32 BasicTypes.decodeInt32)
                 (repeat 7 128)).
  { apply List.Forall_forall. intros x Hx. apply repeat_spec in Hx. subst x.
    apply Hi32. lia. }
  split; [split; [lia | apply Hi8; lia]|].
  split; [split; [lia | apply Hi16; lia]|].
  split; [split; [lia | apply Hi32; lia]|].
  split; [split; [lia | apply Hi64; lia]|].
  split; [split; [lia | apply Hu8; lia]|].
  split; [split; [lia | apply Hu16; lia]|].
  split; [split; [lia | apply Hu32; lia]|].
  split; [split; [lia | apply Hu64; lia]|].
  split; [split; [lia | apply Hf; lia]|].
  split; [split; [lia | apply Hd; lia]|].
  split; [split; [unfold Buf.byteLength, blen; simpl; lia | apply Hs; unfold Buf.byteLength, blen; simpl; lia]|].
  split; [split; [unfold Buf.byteLength, blen; simpl; lia | apply Hcs; unfold Buf.byteLength, blen; simpl; lia]|].
  split; [split; [unfold Buf.byteLength, blen; simpl; lia | apply Hb; unfold Buf.byteLength, blen; simpl; lia]|].
  split; [split; [unfold Buf.byteLength, blen; simpl; lia | apply Hcb; unfold Buf.byteLength, blen; simpl; lia]|].
  split; [split; [split; [exact Hstr | unfold Buf.byteLength, blen; simpl; lia]
                 | apply Ha; split; [exact Hstr | unfold Buf.byteLength, blen; simpl; lia]]|].
  split; [split; [split; [apply Forall_nil_2 | unfold Buf.byteLength, blen; simpl; lia]
                 | apply Hca; split; [apply Forall_nil_2 | unfold Buf.byteLength, blen; simpl; lia]]|].
  split; [exact H7|].
  split; [right; left; reflexivity|].
  apply Hbd; [exact H7 | right; left; reflexivity].
Defined.

(** ** The request header *)

Lemma readIntBE_at (w : nat) (pre post buf : Buffer) (v off : Z) :
  buf = pre ++ Z_to_be w v ++ post -> off = blen pre -> (0 < w)%nat ->
  - 2 ^ (8 * Z.of_nat w - 1) <= v < 2 ^ (8 * Z.of_nat w - 1) ->
  Buf.readIntBE w buf off = Ok v.
Proof. intros -> -> Hw Hv. now apply readIntBE_Z_to_be. Qed.

Lemma writeBE_at (w : nat) (lo hi v off : Z) (pre old post buf : Buffer) :
  buf = pre ++ old ++ post -> off = blen pre ->
  lo <= v <= hi -> List.length old = w ->
  Buf.writeBE w lo hi buf v off = Ok (pre ++ Z_to_be w v ++ post).
Proof. intros -> -> Hv Hw. now apply writeBE_framed. Qed.

Lemma blit_at (buf pre old post data : Buffer) (off : Z) :
  buf = pre ++ old ++ post -> off = blen pre ->
  List.length old = List.length data ->
  Buf.blit buf data off = pre ++ data ++ post.
Proof. intros -> -> Hlen. now apply blit_framed. Qed.

Lemma truthy_byteLength (c : option string) (s : string) :
  RequestHeader.truthy c = Some s -> c = Some s /\ 0 < Buf.byteLength s.
Proof.
  destruct c as [[|a r]|]; simpl; intros H; inversion H; subst.
  split; [reflexivity|]. unfold Buf.byteLength. simpl. lia.
Qed.

Lemma truthy_None_collapsed (c : option string) :
  RequestHeader.truthy c = None -> RequestHeader.collapsed c = EmptyString.
Proof. destruct c as [[|a r]|]; simpl; intros H; try discriminate; reflexivity. Qed.

(** The bytes [encode] returns: three fixed-width fields, then either the
    length-prefixed client id or the null marker ff ff. *)
Lemma RequestHeader_encode_bytes (h : RequestHeader.t) :
  RequestHeader.fits h ->
  RequestHeader.encode h
  = Ok (Z_to_be 2 (RequestHeader.apiKey h)
        ++ Z_to_be 2 (RequestHeader.apiVersion h)
        ++ Z_to_be 4 (RequestHeader.correlationId h)
        ++ match RequestHeader.truthy (RequestHeader.clientId h) with
           | Some s => Z_to_be 2 (Buf.byteLength s) ++ Buf.bytes_of_string s
           | None => [xff; xff]
           end).
Proof.
  intros (Hk & Hv & Hc & Hs). unfold RequestHeader.encode.
  set (k := RequestHeader.apiKey h) in *.
  set (v := RequestHeader.apiVersion h) in *.
  set (c := RequestHeader.correlationId h) in *.
  set (tail := match RequestHeader.truthy (RequestHeader.clientId h) with
               | Some s => Buf.byteLength s
               | None => -1
               end).
  set (extra := if 0 <? tail then tail else 0).
  assert (Hextra : 0 <= extra) by (unfold extra; destruct (Z.ltb_spec 0 tail); lia).
  replace (2 + 2 + 4 + 2 + extra) with (2 + (2 + (4 + (2 + extra)))) by lia.
  rewrite !alloc_add by lia.
  unfold Buf.writeInt16BE, Buf.writeInt32BE.
  rewrite (writeBE_at 2 _ _ k _ [] (Buf.alloc 2)
             (Buf.alloc 2 ++ Buf.alloc 4 ++ Buf.alloc 2 ++ Buf.alloc extra))
    by (reflexivity || lia).
  cbn [bind app].
  rewrite (writeBE_at 2 _ _ v _ (Z_to_be 2 k) (Buf.alloc 2)
             (Buf.alloc 4 ++ Buf.alloc 2 ++ Buf.alloc extra))
    by (reflexivity || lia).
  cbn [bind].
  rewrite (writeBE_at 4 _ _ c _ (Z_to_be 2 k ++ Z_to_be 2 v) (Buf.alloc 4)
             (Buf.alloc 2 ++ Buf.alloc extra))
    by (try reflexivity; try lia; now rewrite <- app_assoc).
  cbn [bind].
  destruct (RequestHeader.truthy (RequestHeader.clientId h)) as [s|] eqn:Ht.
  - apply truthy_byteLength in Ht as [Hcid Hpos].
    rewrite Hcid in Hs. cbn [RequestHeader.collapsed] in Hs.
    subst tail. unfold extra. destruct (Z.ltb_spec 0 (Buf.byteLength s)); [|lia].
    rewrite (writeBE_at 2 _ _ (Buf.byteLength s) _
               ((Z_to_be 2 k ++ Z_to_be 2 v) ++ Z_to_be 4 c) (Buf.alloc 2)
               (Buf.alloc (Buf.byteLength s)))
      by (try reflexivity; try lia; now rewrite <- !app_assoc).
    cbn [bind]. unfold Buf.write.
    rewrite (blit_at _ (((Z_to_be 2 k ++ Z_to_be 2 v) ++ Z_to_be 4 c)
                          ++ Z_to_be 2 (Buf.byteLength s))
               (Buf.alloc (Buf.byteLength s)) [] (Buf.bytes_of_string s)).
    + rewrite <- !app_assoc, app_nil_r. reflexivity.
    + rewrite <- !app_assoc, app_nil_r. reflexivity.
    + rewrite !blen_app, !blen_Z_to_be. reflexivity.
    + rewrite length_alloc, length_bytes_of_string. unfold Buf.byteLength. lia.
  - subst tail. unfold extra. cbn.
    rewrite (writeBE_at 2 _ _ (-1) _
               ((Z_to_be 2 k ++ Z_to_be 2 v) ++ Z_to_be 4 c) (Buf.alloc 2) [])
      by (try reflexivity; try lia).
    rewrite <- !app_assoc. reflexivity.
Qed.

Lemma toString_at (buf pre bs post : Buffer) (start end_ : Z) :
  buf = pre ++ bs ++ post -> start = blen pre -> end_ = start + blen bs ->
  Buf.toString buf start end_ = Buf.string_of_bytes bs.
Proof. intros -> -> ->. apply toString_framed. Qed.

Lemma RequestHeader_decode_encoded (k v c : Z) (tail : Buffer) :
  - 2 ^ 15 <= k <= 2 ^ 15 - 1 -> - 2 ^ 15 <= v <= 2 ^ 15 - 1 ->
  - 2 ^ 31 <= c <= 2 ^ 31 - 1 ->
  forall (len : Z) (body rest : Buffer),
    tail = Z_to_be 2 len ++ body ++ rest ->
    - 2 ^ 15 <= len <= 2 ^ 15 - 1 ->
    (0 <= len -> len = blen body) ->
    RequestHeader.decode (Z_to_be 2 k ++ Z_to_be 2 v ++ Z_to_be 4 c ++ tail)
    = Ok (RequestHeader.mk k v c
            (Some (if 0 <=? len then Buf.string_of_bytes body else EmptyString))).
Proof.
  intros Hk Hv Hc len body rest -> Hlen Hbody.
  unfold RequestHeader.decode, Buf.readInt16BE, Buf.readInt32BE.
  rewrite (readIntBE_at 2 [] (Z_to_be 2 v ++ Z_to_be 4 c
                                ++ Z_to_be 2 len ++ body ++ rest) _ k)
    by (cbn; reflexivity || lia).
  cbn [bind].
  rewrite (readIntBE_at 2 (Z_to_be 2 k)
             (Z_to_be 4 c ++ Z_to_be 2 len ++ body ++ rest) _ v)
    by (cbn; reflexivity || lia).
  cbn [bind].
  rewrite (readIntBE_at 4 (Z_to_be 2 k ++ Z_to_be 2 v)
             (Z_to_be 2 len ++ body ++ rest) _ c)
    by (try (cbn; lia); try reflexivity; now rewrite <- !app_assoc).
  cbn [bind].
  rewrite (readIntBE_at 2 ((Z_to_be 2 k ++ Z_to_be 2 v) ++ Z_to_be 4 c)
             (body ++ rest) _ len)
    by (try (cbn; lia); try reflexivity; now rewrite <- !app_assoc).
  cbn [bind]. do 3 f_equal.
  destruct (Z.leb_spec 0 len) as [Hnn|Hneg]; [|reflexivity].
  apply (toString_at _ (((Z_to_be 2 k ++ Z_to_be 2 v) ++ Z_to_be 4 c)
                          ++ Z_to_be 2 len) body rest).
  - now rewrite <- !app_assoc.
  - rewrite !blen_app, !blen_Z_to_be. reflexivity.
  - rewrite Hbody by assumption. reflexivity.
Qed.

(** C10.  Through the request-header codec a null and an empty client id
    are the same: [decode] always returns a string, the wire-level null
    (length -1) reads as the empty string, [encode] writes the null marker
    ff ff (and no length-0 prefix) for an empty or null client id, and
    [decode (encode h)] is [h] with its client id collapsed, for every
    header whose fields fit the widths they are written with. *)
Theorem RequestHeader_clientId_collapse :
  (forall (buffer : Buffer) (h : RequestHeader.t),
      RequestHeader.decode buffer = Ok h ->
      exists s, RequestHeader.clientId h = Some s)
  /\ (forall (k v c : Z) (rest : Buffer),
      - 2 ^ 15 <= k <= 2 ^ 15 - 1 -> - 2 ^ 15 <= v <= 2 ^ 15 - 1 ->
      - 2 ^ 31 <= c <= 2 ^ 31 - 1 ->
      RequestHeader.decode
        (Z_to_be 2 k ++ Z_to_be 2 v ++ Z_to_be 4 c ++ Z_to_be 2 (-1) ++ rest)
      = Ok (RequestHeader.mk k v c (Some EmptyString)))
  /\ (forall h : RequestHeader.t,
      RequestHeader.fits h ->
      RequestHeader.collapsed (RequestHeader.clientId h) = EmptyString ->
      RequestHeader.encode h
      = Ok (Z_to_be 2 (RequestHeader.apiKey h)
            ++ Z_to_be 2 (RequestHeader.apiVersion h)
            ++ Z_to_be 4 (RequestHeader.correlationId h) ++ Z_to_be 2 (-1)))
  /\ (forall h : RequestHeader.t,
      RequestHeader.fits h ->
      exists bytes,
        RequestHeader.encode h = Ok bytes /\
        RequestHeader.decode bytes
        = Ok (RequestHeader.mk (RequestHeader.apiKey h)
                (RequestHeader.apiVersion h) (RequestHeader.correlationId h)
                (Some (RequestHeader.collapsed (RequestHeader.clientId h))))).
Proof.
  split; [|split; [|split]].
  - intros buffer h. unfold RequestHeader.decode.
    destruct (Buf.readInt16BE buffer 0); [|discriminate]. cbn [bind].
    destruct (Buf.readInt16BE buffer (0 + 2)); [|discriminate]. cbn [bind].
    destruct (Buf.readInt32BE buffer (0 + 2 + 2)); [|discriminate]. cbn [bind].
    destruct (Buf.readInt16BE buffer (0 + 2 + 2 + 4)); [|discriminate]. cbn [bind].
    intros [= <-]. eexists. reflexivity.
  - intros k v c rest Hk Hv Hc.
    rewrite (RequestHeader_decode_encoded k v c _ Hk Hv Hc (-1) [] rest);
      [reflexivity | reflexivity | lia | lia].
  - intros h Hfits Hempty. rewrite RequestHeader_encode_bytes by assumption.
    destruct (RequestHeader.truthy (RequestHeader.clientId h)) as [s|] eqn:Ht;
      [|reflexivity].
    apply truthy_byteLength in Ht as [Hcid Hpos].
    rewrite Hcid in Hempty. cbn in Hempty. subst s.
    unfold Buf.byteLength in Hpos. simpl in Hpos. lia.
  - intros h Hfits. eexists. split; [now apply RequestHeader_encode_bytes|].
    destruct Hfits as (Hk & Hv & Hc & Hs).
    destruct (RequestHeader.truthy (RequestHeader.clientId h)) as [s|] eqn:Ht.
    + apply truthy_byteLength in Ht as [Hcid Hpos].
      rewrite Hcid in *. cbn [RequestHeader.collapsed] in *.
      rewrite (RequestHeader_decode_encoded _ _ _ _ Hk Hv Hc
                 (Buf.byteLength s) (Buf.bytes_of_string s) []).
      * destruct (Z.leb_spec 0 (Buf.byteLength s)); [|lia].
        now rewrite string_of_bytes_of_string.
      * now rewrite app_nil_r.
      * lia.
      * intros _. now rewrite blen_bytes_of_string.
    + rewrite (truthy_None_collapsed _ Ht).
      rewrite (RequestHeader_decode_encoded _ _ _ _ Hk Hv Hc (-1) [] []);
        [reflexivity | reflexivity | lia | lia].
Qed.

Lemma RequestHeader_clientId_collapse_witness :
  RequestHeader.fits (RequestHeader.mk 3 12 7 (Some EmptyString)) /\
  exists bytes,
    RequestHeader.encode (RequestHeader.mk 3 12 7 (Some EmptyString)) = Ok bytes /\
    RequestHeader.decode bytes = Ok (RequestHeader.mk 3 12 7 (Some EmptyString)).
Proof.
  assert (Hfits : RequestHeader.fits (RequestHeader.mk 3 12 7 (Some EmptyString))).
  { unfold RequestHeader.fits. repeat split; vm_compute; discriminate. }
  split; [exact Hfits|].
  exact (proj2 (proj2 (proj2 RequestHeader_clientId_collapse)) _ Hfits).
Defined.

(** ** Decoding past the end of the buffer *)

Lemma readUIntBE_out_of_bounds (w : nat) (buf : Buffer) (offset : Z) :
  offset < 0 \/ blen buf < offset + Z.of_nat w ->
  Buf.readUIntBE w buf offset = Throw RangeError.
Proof.
  intros H. unfold Buf.readUIntBE, Buf.in_bounds.
  destruct (Z.leb_spec 0 offset); cbn [andb]; [|reflexivity].
  destruct (Z.leb_spec (offset + Z.of_nat w) (blen buf)); [lia|reflexivity].
Qed.

Lemma readIntBE_out_of_bounds (w : nat) (buf : Buffer) (offset : Z) :
  offset < 0 \/ blen buf < offset + Z.of_nat w ->
  Buf.readIntBE w buf offset = Throw RangeError.
Proof.
  intros H. unfold Buf.readIntBE.
  now rewrite readUIntBE_out_of_bounds.
Qed.

Lemma readIntBE_Ok_bounds (w : nat) (buf : Buffer) (offset v : Z) :
  Buf.readIntBE w buf offset = Ok v ->
  0 <= offset /\ offset + Z.of_nat w <= blen buf.
Proof.
  unfold Buf.readIntBE, Buf.readUIntBE, Buf.in_bounds.
  destruct (Z.leb_spec 0 offset); cbn [andb]; [|discriminate].
  destruct (Z.leb_spec (offset + Z.of_nat w) (blen buf)); [|discriminate].
  intros _. lia.
Qed.

Lemma readLength_loop_bounds (rest : Buffer) :
  forall len shift off n off',
    BasicTypes.readLength_loop rest len shift off = Ok (n, off') ->
    off < off' <= off + blen rest.
Proof.
  induction rest as [|b rest IH]; intros len shift off n off' H; simpl in H.
  - discriminate.
  - rewrite blen_cons. pose proof (blen_nonneg rest).
    destruct (js_and (byte_to_Z b) 128 =? 0).
    + inversion H; subst. lia.
    + apply IH in H. lia.
Qed.

Lemma readLength_bounds (buf : Buffer) (offset n off' : Z) :
  BasicTypes.readLength buf offset = Ok (n, off') ->
  0 <= offset /\ offset < off' <= blen buf.
Proof.
  unfold BasicTypes.readLength.
  destruct (Z.ltb_spec offset 0); [discriminate|].
  intros Hr. apply readLength_loop_bounds in Hr.
  assert (Hd : blen (drop (Z.to_nat offset) buf)
               = Z.max 0 (blen buf - offset)).
  { unfold blen. rewrite length_drop. lia. }
  lia.
Qed.

Lemma readLength_past_end (buf : Buffer) (offset : Z) :
  offset < 0 \/ blen buf <= offset ->
  BasicTypes.readLength buf offset = Throw RangeError.
Proof.
  intros H. unfold BasicTypes.readLength.
  destruct (Z.ltb_spec offset 0); [reflexivity|].
  rewrite drop_ge by (unfold blen in H; lia). reflexivity.
Qed.

(** What [toString] and [slice] return when the end lies past the buffer. *)
Lemma toString_past_end (buf : Buffer) (start end_ : Z) :
  0 <= start <= blen buf -> blen buf <= end_ ->
  Buf.toString buf start end_
  = Buf.string_of_bytes (drop (Z.to_nat start) buf).
Proof.
  intros Hs He. unfold Buf.toString.
  rewrite Z.max_r, Z.min_l by lia.
  destruct (Z.leb_spec (blen buf) start).
  - rewrite drop_ge by (unfold blen in *; lia). reflexivity.
  - rewrite take_ge; [reflexivity|].
    rewrite length_drop. unfold blen in *. lia.
Qed.

Lemma slice_past_end (buf : Buffer) (start end_ : Z) :
  0 <= start <= blen buf -> blen buf <= end_ ->
  Buf.slice buf start end_ = drop (Z.to_nat start) buf.
Proof.
  intros Hs He. unfold Buf.slice, Buf.adjustOffset.
  destruct (Z.ltb_spec start 0); [lia|].
  destruct (Z.ltb_spec end_ 0); [lia|].
  rewrite Z.min_l, Z.min_r by lia.
  destruct (Z.ltb_spec start (blen buf)).
  - rewrite take_ge; [reflexivity|].
    rewrite length_drop. unfold blen in *. lia.
  - rewrite drop_ge by (unfold blen in *; lia). reflexivity.
Qed.

Lemma decodeValues_Int32_runs_out (buf : Buffer) (count : nat) :
  forall offset acc,
    0 <= offset <= blen buf -> blen buf < offset + 4 * Z.of_nat count ->
    BasicTypes.decodeValues BasicTypes.decodeInt32 count buf offset acc
    = Throw RangeError.
Proof.
  induction count as [|count IH]; intros offset acc Ho Hlen; [lia|].
  cbn [BasicTypes.decodeValues]. unfold BasicTypes.decodeInt32 at 1.
  destruct (Buf.readInt32BE buf offset) as [v|e] eqn:Hr.
  - apply readIntBE_Ok_bounds in Hr. cbn [bind]. apply IH; lia.
  - unfold Buf.readInt32BE, Buf.readIntBE, Buf.readUIntBE in Hr.
    destruct (Buf.in_bounds buf offset 4); cbn in Hr; [discriminate|].
    inversion Hr. reflexivity.
Qed.

(** C9, as the code has it.  The codec has no check of its own against the
    end of the buffer.  A fixed-width decode whose field does not fit, the
    int16/int32 length prefix of a string, byte array or array that does not
    fit, and a varint prefix that starts at the end, throw the RangeError of
    the Buffer read; an array of int32 whose declared count extends past the
    end throws it when the elements run out.  A string or byte array
    (standard or compact) whose prefix is readable and whose declared length
    extends past the end is not an error: the decoder returns a value and
    the offset advanced by the declared length.  For a byte array the value
    is the bytes that are left; for a string it is the text of the bytes
    that are left whenever these are well-formed UTF-8 (for other bytes
    nothing is said about the text). *)
Theorem decode_past_end :
  (forall (buf : Buffer) (offset : Z),
      offset < 0 \/ blen buf < offset + 1 ->
      BasicTypes.decodeBoolean buf offset = Throw RangeError /\
      BasicTypes.decodeInt8 buf offset = Throw RangeError /\
      BasicTypes.decodeUInt8 buf offset = Throw RangeError)
  /\ (forall (buf : Buffer) (offset : Z),
      offset < 0 \/ blen buf < offset + 2 ->
      BasicTypes.decodeInt16 buf offset = Throw RangeError /\
      BasicTypes.decodeUInt16 buf offset = Throw RangeError /\
      BasicTypes.decodeString buf offset = Throw RangeError)
  /\ (forall (buf : Buffer) (offset : Z),
      offset < 0 \/ blen buf < offset + 4 ->
      BasicTypes.decodeInt32 buf offset = Throw RangeError /\
      BasicTypes.decodeUInt32 buf offset = Throw RangeError /\
      BasicTypes.decodeFloat buf offset = Throw RangeError /\
      BasicTypes.decodeBytes buf offset = Throw RangeError /\
      (forall (T : Type) (dec : Buffer -> Z -> result (T * Z)),
          BasicTypes.decodeArray dec buf offset = Throw RangeError))
  /\ (forall (buf : Buffer) (offset : Z),
      offset < 0 \/ blen buf < offset + 8 ->
      BasicTypes.decodeInt64 buf offset = Throw RangeError /\
      BasicTypes.decodeUInt64 buf offset = Throw RangeError /\
      BasicTypes.decodeDouble buf offset = Throw RangeError)
  /\ (forall (buf : Buffer) (offset : Z),
      offset < 0 \/ blen buf <= offset ->
      BasicTypes.decodeCompactString buf offset = Throw RangeError /\
      BasicTypes.decodeCompactBytes buf offset = Throw RangeError /\
      (forall (T : Type) (dec : Buffer -> Z -> result (T * Z)),
          BasicTypes.decodeCompactArray dec buf offset = Throw RangeError))
  /\ (forall (buf : Buffer) (offset count : Z),
      Buf.readInt32BE buf offset = Ok count -> 0 <= count ->
      blen buf < offset + 4 + 4 * count ->
      BasicTypes.decodeArray BasicTypes.decodeInt32 buf offset = Throw RangeError)
  /\ (forall (buf : Buffer) (offset length : Z),
      Buf.readInt16BE buf offset = Ok length -> 0 <= length ->
      blen buf < offset + 2 + length ->
      exists value : string,
        BasicTypes.decodeString buf offset = Ok (Some value, offset + 2 + length)
        /\ (utf8 (drop (Z.to_nat (offset + 2)) buf) = true ->
            value = Buf.string_of_bytes (drop (Z.to_nat (offset + 2)) buf)))
  /\ (forall (buf : Buffer) (offset length : Z),
      Buf.readInt32BE buf offset = Ok length -> 0 <= length ->
      blen buf < offset + 4 + length ->
      BasicTypes.decodeBytes buf offset
      = Ok (Some (drop (Z.to_nat (offset + 4)) buf), offset + 4 + length))
  /\ (forall (buf : Buffer) (offset n offset' : Z),
      BasicTypes.readLength buf offset = Ok (n, offset') -> 1 <= n ->
      blen buf < offset' + (n - 1) ->
      (exists value : string,
          BasicTypes.decodeCompactString buf offset
          = Ok (Some value, offset' + (n - 1))
          /\ (utf8 (drop (Z.to_nat offset') buf) = true ->
              value = Buf.string_of_bytes (drop (Z.to_nat offset') buf))) /\
      BasicTypes.decodeCompactBytes buf offset
      = Ok (Some (drop (Z.to_nat offset') buf), offset' + (n - 1))).
Proof.
  repeat match goal with |- _ /\ _ => split end.
  - unfold BasicTypes.decodeBoolean, BasicTypes.decodeInt8, BasicTypes.decodeUInt8,
      Buf.readInt8, Buf.readUInt8. intros buf offset H.
    rewrite (readIntBE_out_of_bounds 1), (readUIntBE_out_of_bounds 1) by assumption.
    repeat split.
  - unfold BasicTypes.decodeInt16, BasicTypes.decodeUInt16, BasicTypes.decodeString,
      Buf.readInt16BE, Buf.readUInt16BE. intros buf offset H.
    rewrite (readIntBE_out_of_bounds 2), (readUIntBE_out_of_bounds 2) by assumption.
    repeat split.
  - unfold BasicTypes.decodeInt32, BasicTypes.decodeUInt32, BasicTypes.decodeFloat,
      BasicTypes.decodeBytes, BasicTypes.decodeArray,
      Buf.readInt32BE, Buf.readUInt32BE. intros buf offset H.
    rewrite (readIntBE_out_of_bounds 4), (readUIntBE_out_of_bounds 4) by assumption.
    repeat split.
  - unfold BasicTypes.decodeInt64, BasicTypes.decodeUInt64, BasicTypes.decodeDouble,
      Buf.readBigInt64BE, Buf.readBigUInt64BE. intros buf offset H.
    rewrite (readIntBE_out_of_bounds 8), (readUIntBE_out_of_bounds 8) by assumption.
    repeat split.
  - unfold BasicTypes.decodeCompactString, BasicTypes.decodeCompactBytes,
      BasicTypes.decodeCompactArray. intros buf offset H.
    rewrite readLength_past_end by assumption. repeat split.
  - intros buf offset count Hr Hc Hlen. unfold BasicTypes.decodeArray.
    rewrite Hr. cbn [bind]. apply readIntBE_Ok_bounds in Hr.
    destruct (Z.ltb_spec count 0); [lia|].
    rewrite decodeValues_Int32_runs_out by lia. reflexivity.
  - intros buf offset length Hr Hl Hlen. unfold BasicTypes.decodeString.
    rewrite Hr. cbn [bind]. apply readIntBE_Ok_bounds in Hr.
    destruct (Z.ltb_spec length 0); [lia|].
    rewrite toString_past_end by lia. eexists. split; [reflexivity|].
    intros _. reflexivity.
  - intros buf offset length Hr Hl Hlen. unfold BasicTypes.decodeBytes.
    rewrite Hr. cbn [bind]. apply readIntBE_Ok_bounds in Hr.
    destruct (Z.ltb_spec length 0); [lia|].
    rewrite slice_past_end by lia. reflexivity.
  - intros buf offset n offset' H Hn Hlen.
    unfold BasicTypes.decodeCompactString, BasicTypes.decodeCompactBytes.
    rewrite H. cbn [bind]. apply readLength_bounds in H.
    destruct (Z.eqb_spec n 0); [lia|].
    rewrite toString_past_end, slice_past_end by lia.
    split; [|reflexivity]. eexists. split; [reflexivity|]. intros _. reflexivity.
Qed.

Lemma decode_past_end_witness :
  (blen [x00; x01] < 0 + 4 /\
   BasicTypes.decodeInt32 [x00; x01] 0 = Throw RangeError)
  /\ (Buf.readInt32BE [x00; x00; x00; x02; x00; x00; x00; x07; x00] 0 = Ok 2 /\
      0 <= 2 /\
      blen [x00; x00; x00; x02; x00; x00; x00; x07; x00] < 0 + 4 + 4 * 2 /\
      BasicTypes.decodeArray BasicTypes.decodeInt32
        [x00; x00; x00; x02; x00; x00; x00; x07; x00] 0 = Throw RangeError)
  /\ (Buf.readInt16BE [x00; x05; x68] 0 = Ok 5 /\ 0 <= 5 /\
      blen [x00; x05; x68] < 0 + 2 + 5 /\
      utf8 (drop (Z.to_nat (0 + 2)) [x00; x05; x68]) = true /\
      exists value : string,
        BasicTypes.decodeString [x00; x05; x68] 0 = Ok (Some value, 0 + 2 + 5)
        /\ value = "h"%string).
Proof.
  destruct decode_past_end as (_ & _ & H4 & _ & _ & Harr & Hstr & _).
  split; [split; [reflexivity | apply (H4 [x00; x01] 0); right; reflexivity]|].
  split.
  - split; [reflexivity|]. split; [discriminate|]. split; [reflexivity|].
    apply (Harr _ 0 2); [reflexivity | discriminate | reflexivity].
  - split; [reflexivity|]. split; [discriminate|]. split; [reflexivity|].
    split; [reflexivity|].
    destruct (Hstr [x00; x05; x68] 0 5) as (value & Hdec & Hvalue);
      [reflexivity | discriminate | reflexivity |].
    exists value. split; [exact Hdec|]. now rewrite Hvalue.
Defined.

(** The euro sign is well-formed; cut after its second byte it is not, nor
    is an overlong or a surrogate encoding. *)
Lemma utf8_examples :
  utf8 [xe2; x82; xac] = true /\ utf8 [x68; xe2; x82] = false
  /\ utf8 [xc0; x80] = false /\ utf8 [xed; xa0; x80] = false
  /\ utf8 [xf0; x9f; x98; x80] = true /\ utf8 [xf4; x90; x80; x80] = false.
Proof. repeat split; reflexivity. Qed.

(** C9 as stated fails: the declared length 5 extends past the end of a
    three-byte buffer and [decodeString] returns the one byte that is there. *)
Lemma decodeString_truncated_is_not_an_error :
  blen [x00; x05; x68] < 0 + 2 + 5 /\
  BasicTypes.decodeString [x00; x05; x68] 0 = Ok (Some "h"%string, 7) /\
  (forall e, BasicTypes.decodeString [x00; x05; x68] 0 <> Throw e).
Proof.
  split; [reflexivity|]. split; [reflexivity|].
  intros e H. discriminate H.
Qed.

(** ** The default sort order *)

Lemma Number_toString_inj (x y : Z) :
  Number_toString x = Number_toString y -> x = y.
Proof.
  assert (Hnn : forall z, Z.to_int z <> Decimal.Pos Decimal.Nil /\
                          Z.to_int z <> Decimal.Neg Decimal.Nil).
  { intros [|p|p]; simpl; split; try discriminate;
      intros [= E]; now apply DecimalPos.Unsigned.to_uint_nonnil in E. }
  unfold Number_toString. intros E.
  pose proof (NilZero.isi (Z.to_int x) (proj1 (Hnn x)) (proj2 (Hnn x))) as Hx.
  pose proof (NilZero.isi (Z.to_int y) (proj1 (Hnn y)) (proj2 (Hnn y))) as Hy.
  rewrite E, Hy in Hx. inversion Hx as [Hxy].
  rewrite <- (DecimalZ.of_to x), <- (DecimalZ.of_to y). now f_equal.
Qed.

Lemma Ascii_compare_refl (c : Ascii.ascii) : Ascii.compare c c = Eq.
Proof. unfold Ascii.compare. apply N.compare_refl. Qed.

Lemma Ascii_compare_lt_trans (a b c : Ascii.ascii) :
  Ascii.compare a b = Lt -> Ascii.compare b c = Lt -> Ascii.compare a c = Lt.
Proof.
  unfold Ascii.compare. rewrite !N.compare_lt_iff. apply N.lt_trans.
Qed.

Lemma String_leb_trans (s1 s2 s3 : string) :
  String.leb s1 s2 = true -> String.leb s2 s3 = true -> String.leb s1 s3 = true.
Proof.
  unfold String.leb. revert s2 s3.
  induction s1 as [|c1 s1 IH]; intros [|c2 s2] [|c3 s3]; simpl;
    try reflexivity; try discriminate.
  destruct (Ascii.compare c1 c2) eqn:E12; try discriminate;
    destruct (Ascii.compare c2 c3) eqn:E23; try discriminate.
  - apply Ascii.compare_eq_iff in E12, E23. subst.
    rewrite Ascii_compare_refl. apply IH.
  - apply Ascii.compare_eq_iff in E12. subst. now rewrite E23.
  - apply Ascii.compare_eq_iff in E23. subst. now rewrite E12.
  - now rewrite (Ascii_compare_lt_trans _ _ _ E12 E23).
Qed.

#[global] Instance sort_le_total : Total sort_le.
Proof. intros x y. unfold sort_le. apply String.leb_total. Qed.

#[global] Instance sort_le_trans : Transitive sort_le.
Proof. intros x y z. unfold sort_le. apply String_leb_trans. Qed.

#[global] Instance sort_le_antisym : AntiSymm (=) sort_le.
Proof.
  intros x y Hxy Hyx. apply Number_toString_inj.
  now apply String.leb_antisym.
Qed.

Lemma Array_sort_Permutation (a : list Z) : Array_sort a ≡ₚ a.
Proof. apply merge_sort_Permutation. Qed.

Lemma Array_sort_unique (a b : list Z) : a ≡ₚ b -> Array_sort a = Array_sort b.
Proof.
  intros Hab. apply (StronglySorted_unique sort_le).
  - apply StronglySorted_merge_sort; apply _.
  - apply StronglySorted_merge_sort; apply _.
  - unfold Array_sort. now rewrite !merge_sort_Permutation.
Qed.

Lemma differs_at_some_index_false (l1 l2 : list Z) :
  List.length l1 = List.length l2 ->
  ClusterMetadata.differs_at_some_index l1 l2 = false <-> l1 = l2.
Proof.
  revert l2. induction l1 as [|x l1 IH]; intros [|y l2] Hlen;
    simpl in *; try discriminate.
  - split; reflexivity.
  - destruct (Z.eqb_spec x y) as [->|Hne].
    + rewrite IH by congruence. split; congruence.
    + split; [discriminate | congruence].
Qed.

(** [hasArrayChanged] compares its arguments up to order. *)
Lemma hasArrayChanged_false (a b : list Z) :
  ClusterMetadata.hasArrayChanged a b = false <-> a ≡ₚ b.
Proof.
  unfold ClusterMetadata.hasArrayChanged.
  destruct (Nat.eqb_spec (List.length a) (List.length b)) as [Hlen|Hlen];
    cbn [negb].
  - rewrite differs_at_some_index_false
      by (rewrite !(Permutation_length (Array_sort_Permutation _)); exact Hlen).
    split.
    + intros Hs. rewrite <- (Array_sort_Permutation a), Hs.
      apply Array_sort_Permutation.
    + apply Array_sort_unique.
  - split; [discriminate|]. intros Hp. apply Permutation_length in Hp.
    contradiction.
Qed.

Lemma hasArrayChanged_true (a b : list Z) :
  ClusterMetadata.hasArrayChanged a b = true <-> ~ a ≡ₚ b.
Proof.
  rewrite <- hasArrayChanged_false.
  destruct (ClusterMetadata.hasArrayChanged a b); split; congruence.
Qed.

(** ** Maps filled by a loop of [set] *)

Lemma fold_left_insert_lookup {K V : Type} `{Countable K}
    (key : V -> K) (l : list V) (m : gmap K V) (k : K) :
  fold_left (fun m v => <[key v := v]> m) l m !! k
  = match last_with key k l with
    | Some v => Some v
    | None => m !! k
    end.
Proof.
  unfold last_with. induction l as [|v l IH] using rev_ind; [reflexivity|].
  rewrite fold_left_app, rev_app_distr. simpl.
  destruct (bool_decide_reflect (key v = k)) as [->|Hne].
  - apply lookup_insert_eq.
  - rewrite lookup_insert_ne by assumption. apply IH.
Qed.

Lemma last_with_Some {K V : Type} `{EqDecision K} (key : V -> K) (k : K)
    (l : list V) (v : V) :
  last_with key k l = Some v -> In v l /\ key v = k.
Proof.
  unfold last_with. intros Hf. apply find_some in Hf as [Hin Hk].
  apply in_rev in Hin. split; [assumption|].
  now apply bool_decide_eq_true in Hk.
Qed.

Lemma last_with_None {K V : Type} `{EqDecision K} (key : V -> K) (k : K)
    (l : list V) :
  last_with key k l = None <-> forall v, In v l -> key v <> k.
Proof.
  unfold last_with. split.
  - intros Hf v Hin Hk. apply in_rev in Hin.
    pose proof (find_none _ _ Hf v Hin) as Hb. cbn in Hb.
    apply bool_decide_eq_false in Hb. contradiction.
  - intros Hall. destruct (List.find _ (rev l)) as [v|] eqn:Hf; [|reflexivity].
    apply find_some in Hf as [Hin Hk]. apply in_rev in Hin.
    apply bool_decide_eq_true in Hk. now destruct (Hall v Hin).
Qed.

(** With unique keys the last element with key [k] is the element with key [k]. *)
Lemma last_with_unique {K V : Type} `{EqDecision K} (key : V -> K) (l : list V)
    (v : V) :
  NoDup (map key l) -> In v l -> last_with key (key v) l = Some v.
Proof.
  intros Hnd Hin.
  destruct (last_with key (key v) l) as [w|] eqn:Hl.
  - apply last_with_Some in Hl as [Hw Hk]. f_equal.
    clear -Hnd Hin Hw Hk. induction l as [|x l IH]; [contradiction|].
    simpl in Hnd. apply NoDup_cons in Hnd as [Hx Hnd].
    destruct Hin as [->|Hin], Hw as [->|Hw]; try reflexivity.
    + exfalso. apply Hx. rewrite <- Hk. apply list_elem_of_In, in_map, Hw.
    + exfalso. apply Hx. rewrite Hk. apply list_elem_of_In, in_map, Hin.
    + now apply IH.
  - rewrite last_with_None in Hl. now destruct (Hl v Hin).
Qed.

(** ** Leader lookup *)

Lemma find_first_match (partition : Z) (before after : list PartitionMetadata.t)
    (p : PartitionMetadata.t) :
  (forall q, In q before -> PartitionMetadata.partitionIndex q <> partition) ->
  PartitionMetadata.partitionIndex p = partition ->
  List.find (fun p => PartitionMetadata.partitionIndex p =? partition)
            (before ++ p :: after) = Some p.
Proof.
  intros Hb Hp. induction before as [|q before IH]; simpl.
  - apply Z.eqb_eq in Hp. now rewrite Hp.
  - destruct (Z.eqb_spec (PartitionMetadata.partitionIndex q) partition) as [E|_].
    + now destruct (Hb q (or_introl eq_refl)).
    + apply IH. intros q' Hq'. apply Hb. now right.
Qed.

Lemma find_no_match (partition : Z) (l : list PartitionMetadata.t) :
  (forall q, In q l -> PartitionMetadata.partitionIndex q <> partition) ->
  List.find (fun p => PartitionMetadata.partitionIndex p =? partition) l = None.
Proof.
  intros Hl. destruct (List.find _ l) as [p|] eqn:Hf; [|reflexivity].
  apply find_some in Hf as [Hin Hp]. apply Z.eqb_eq in Hp.
  now destruct (Hl p Hin).
Qed.

(** C8.  [findLeader] fails with the topic-not-found KafkaError when the
    topic is not cached, with the partition-not-found KafkaError when the
    topic is cached without a partition of that index, with
    LeaderNotAvailableError when the partition of that index has a negative
    leader id, and returns that leader id otherwise;
    [getPartitionsForTopic] returns the empty list for a topic that is not
    cached, and the cached partitions otherwise. *)
Theorem findLeader_results (this : ClusterMetadata.t) (topic : string)
    (partition : Z) :
  (ClusterMetadata.topics this !! topic = None ->
     ClusterMetadata.findLeader this topic partition
     = Throw (KafkaError ("Topic " +:+ topic +:+ " not found in metadata"))
     /\ ClusterMetadata.getPartitionsForTopic this topic = [])
  /\ (forall topicMetadata,
        ClusterMetadata.topics this !! topic = Some topicMetadata ->
        ((forall p, In p (TopicMetadata.partitions topicMetadata) ->
            PartitionMetadata.partitionIndex p <> partition) ->
         ClusterMetadata.findLeader this topic partition
         = Throw (KafkaError ("Partition " +:+ Number_toString partition
                                +:+ " not found for topic " +:+ topic)))
        /\ (forall before p after,
              TopicMetadata.partitions topicMetadata = before ++ p :: after ->
              (forall q, In q before ->
                 PartitionMetadata.partitionIndex q <> partition) ->
              PartitionMetadata.partitionIndex p = partition ->
              (PartitionMetadata.leaderId p < 0 ->
               ClusterMetadata.findLeader this topic partition
               = Throw (LeaderNotAvailableError
                          ("No leader for topic " +:+ topic +:+ " partition "
                             +:+ Number_toString partition)))
              /\ (0 <= PartitionMetadata.leaderId p ->
                  ClusterMetadata.findLeader this topic partition
                  = Ok (PartitionMetadata.leaderId p)))
        /\ ClusterMetadata.getPartitionsForTopic this topic
           = TopicMetadata.partitions topicMetadata).
Proof.
  unfold ClusterMetadata.findLeader, ClusterMetadata.getPartitionsForTopic.
  split.
  - intros ->. split; reflexivity.
  - intros topicMetadata ->. split; [|split].
    + intros Hnone. now rewrite find_no_match.
    + intros before p after -> Hbefore Hp.
      rewrite (find_first_match partition before after p Hbefore Hp).
      split; intros Hl.
      * destruct (Z.ltb_spec (PartitionMetadata.leaderId p) 0); [reflexivity|lia].
      * destruct (Z.ltb_spec (PartitionMetadata.leaderId p) 0); [lia|reflexivity].
    + reflexivity.
Qed.

Lemma example_cache_orders :
  ClusterMetadata.topics example_cache !! "orders"%string = Some example_orders.
Proof. vm_compute. reflexivity. Qed.

Lemma findLeader_results_witness :
  ClusterMetadata.topics example_cache !! "orders"%string = Some example_orders
  /\ ClusterMetadata.findLeader example_cache "orders" 0 = Ok 1
  /\ ClusterMetadata.findLeader example_cache "orders" 1
     = Throw (LeaderNotAvailableError "No leader for topic orders partition 1")
  /\ ClusterMetadata.findLeader example_cache "orders" 2
     = Throw (KafkaError "Partition 2 not found for topic orders")
  /\ ClusterMetadata.topics example_cache !! "payments"%string = None
  /\ ClusterMetadata.findLeader example_cache "payments" 0
     = Throw (KafkaError "Topic payments not found in metadata")
  /\ ClusterMetadata.getPartitionsForTopic example_cache "payments" = [].
Proof.
  assert (Hnone : ClusterMetadata.topics example_cache !! "payments"%string = None)
    by (vm_compute; reflexivity).
  split; [exact example_cache_orders|].
  split.
  { destruct (findLeader_results example_cache "orders" 0) as [_ Hk].
    destruct (Hk _ example_cache_orders) as (_ & Hp & _).
    destruct (Hp [] (PartitionMetadata.mk 0 0 1 5 [1; 2] [1; 2] [])
                [PartitionMetadata.mk 0 1 (-1) 5 [2; 1] [] [1; 2]]
                eq_refl ltac:(intros q []) eq_refl) as [_ Hok].
    apply Hok. simpl. lia. }
  split.
  { destruct (findLeader_results example_cache "orders" 1) as [_ Hk].
    destruct (Hk _ example_cache_orders) as (_ & Hp & _).
    destruct (Hp [PartitionMetadata.mk 0 0 1 5 [1; 2] [1; 2] []]
                (PartitionMetadata.mk 0 1 (-1) 5 [2; 1] [] [1; 2]) []
                eq_refl) as [Hneg _].
    - intros q [<-|[]]. simpl. lia.
    - reflexivity.
    - apply Hneg. simpl. lia. }
  split.
  { destruct (findLeader_results example_cache "orders" 2) as [_ Hk].
    destruct (Hk _ example_cache_orders) as (Hmiss & _).
    apply Hmiss. intros p [<-|[<-|[]]]; simpl; lia. }
  split; [exact Hnone|].
  exact (proj1 (findLeader_results example_cache "payments" 0) Hnone).
Defined.

(** ** The merge performed by [updateMetadata] *)

Lemma fold_updateTopic_fst (topics : list TopicMetadata.t) :
  forall (m : gmap string TopicMetadata.t) (u : list string),
    fst (fold_left ClusterMetadata.updateTopic topics (m, u))
    = fold_left (fun m t => <[TopicMetadata.name t := t]> m) (accepted topics) m.
Proof.
  induction topics as [|t topics IH]; intros m u; [reflexivity|].
  cbn [fold_left accepted List.filter]. unfold ClusterMetadata.updateTopic at 2.
  destruct (TopicMetadata.errorCode t =? 0); cbn [negb]; apply IH.
Qed.

Lemma updateMetadata_topics (this : ClusterMetadata.t) brokers topics cid ctl :
  ClusterMetadata.topics (ClusterMetadata.updateMetadata this brokers topics cid ctl)
  = fst (fold_left ClusterMetadata.updateTopic topics
           (ClusterMetadata.topics this, [])).
Proof.
  unfold ClusterMetadata.updateMetadata.
  now destruct (fold_left ClusterMetadata.updateTopic topics _).
Qed.

Lemma updateMetadata_brokers (this : ClusterMetadata.t) brokers topics cid ctl :
  ClusterMetadata.brokers (ClusterMetadata.updateMetadata this brokers topics cid ctl)
  = ClusterMetadata.setBrokers brokers.
Proof.
  unfold ClusterMetadata.updateMetadata.
  now destruct (fold_left ClusterMetadata.updateTopic topics _).
Qed.

Lemma accepted_In (topics : list TopicMetadata.t) (t : TopicMetadata.t) :
  In t (accepted topics) <-> In t topics /\ TopicMetadata.errorCode t = 0.
Proof. unfold accepted. rewrite filter_In, Z.eqb_eq. reflexivity. Qed.

Lemma updateMetadata_topic_lookup (this : ClusterMetadata.t) brokers topics
    cid ctl (name : string) :
  ClusterMetadata.topics
    (ClusterMetadata.updateMetadata this brokers topics cid ctl) !! name
  = match last_with TopicMetadata.name name (accepted topics) with
    | Some topic => Some topic
    | None => ClusterMetadata.topics this !! name
    end.
Proof.
  rewrite updateMetadata_topics, fold_updateTopic_fst.
  apply fold_left_insert_lookup.
Qed.

Lemma updateMetadata_stores (this : ClusterMetadata.t) brokers topics cid ctl
    (topic : TopicMetadata.t) :
  In topic topics -> TopicMetadata.errorCode topic = 0 ->
  NoDup (map TopicMetadata.name (accepted topics)) ->
  ClusterMetadata.topics
    (ClusterMetadata.updateMetadata this brokers topics cid ctl)
    !! TopicMetadata.name topic = Some topic.
Proof.
  intros Hin Herr Hnd. rewrite updateMetadata_topic_lookup.
  rewrite (last_with_unique TopicMetadata.name); [reflexivity|assumption|].
  apply accepted_In. now split.
Qed.

(** C7.  A full update replaces the broker map by the brokers of the
    response, whatever it held before, and merges the topics entry by
    entry: a name keeps its previous entry (or absence) when every topic of
    that name in the response carries a non-zero error code, and otherwise
    gets the last topic of that name with error code zero. *)
Theorem updateMetadata_merge (this : ClusterMetadata.t)
    (brokers : list Broker.t) (topics : list TopicMetadata.t)
    (clusterId : option string) (controllerId : Z) :
  let this' :=
    ClusterMetadata.updateMetadata this brokers topics clusterId controllerId in
  ClusterMetadata.brokers this' = ClusterMetadata.setBrokers brokers
  /\ (forall id : Z,
        ClusterMetadata.brokers this' !! id = last_with Broker.nodeId id brokers)
  /\ (forall name : string,
        ClusterMetadata.topics this' !! name
        = match last_with TopicMetadata.name name (accepted topics) with
          | Some topic => Some topic
          | None => ClusterMetadata.topics this !! name
          end)
  /\ (forall name : string,
        (forall topic, In topic topics -> TopicMetadata.name topic = name ->
           TopicMetadata.errorCode topic <> 0) ->
        ClusterMetadata.topics this' !! name = ClusterMetadata.topics this !! name)
  /\ (forall topic : TopicMetadata.t,
        In topic topics -> TopicMetadata.errorCode topic = 0 ->
        NoDup (map TopicMetadata.name (accepted topics)) ->
        ClusterMetadata.topics this' !! TopicMetadata.name topic = Some topic).
Proof.
  cbv zeta.
  assert (Htopics : forall name : string,
    ClusterMetadata.topics
      (ClusterMetadata.updateMetadata this brokers topics clusterId controllerId)
      !! name
    = match last_with TopicMetadata.name name (accepted topics) with
      | Some topic => Some topic
      | None => ClusterMetadata.topics this !! name
      end).
  { intros name. apply updateMetadata_topic_lookup. }
  split; [apply updateMetadata_brokers|]. split; [|split; [exact Htopics|split]].
  - intros id. rewrite updateMetadata_brokers.
    unfold ClusterMetadata.setBrokers.
    rewrite (fold_left_insert_lookup Broker.nodeId), lookup_empty.
    now destruct (last_with Broker.nodeId id brokers).
  - intros name Hskip. rewrite Htopics.
    destruct (last_with TopicMetadata.name name (accepted topics)) as [t|] eqn:Hl;
      [|reflexivity].
    apply last_with_Some in Hl as [Hin Hname].
    apply accepted_In in Hin as [Hin Herr].
    now destruct (Hskip t Hin Hname).
  - intros topic. apply updateMetadata_stores.
Qed.

Lemma updateMetadata_merge_witness :
  (forall topic, In topic [example_orders_failed] ->
     TopicMetadata.name topic = "orders"%string ->
     TopicMetadata.errorCode topic <> 0)
  /\ ClusterMetadata.topics
       (ClusterMetadata.updateMetadata example_cache [] [example_orders_failed]
          None 2) !! "orders"%string
     = ClusterMetadata.topics example_cache !! "orders"%string
  /\ In example_orders_moved [example_orders_failed; example_orders_moved]
  /\ TopicMetadata.errorCode example_orders_moved = 0
  /\ NoDup (map TopicMetadata.name
              (accepted [example_orders_failed; example_orders_moved]))
  /\ ClusterMetadata.topics
       (ClusterMetadata.updateMetadata example_cache []
          [example_orders_failed; example_orders_moved] None 2)
       !! TopicMetadata.name example_orders_moved
     = Some example_orders_moved.
Proof.
  assert (Hskip : forall topic, In topic [example_orders_failed] ->
            TopicMetadata.name topic = "orders"%string ->
            TopicMetadata.errorCode topic <> 0).
  { intros topic [<-|[]] _. discriminate. }
  assert (Hnd : NoDup (map TopicMetadata.name
                         (accepted [example_orders_failed; example_orders_moved]))).
  { cbn. apply NoDup_singleton. }
  split; [exact Hskip|].
  split.
  { exact (proj1 (proj2 (proj2 (proj2
       (updateMetadata_merge example_cache [] [example_orders_failed] None 2))))
       "orders"%string Hskip). }
  split; [right; left; reflexivity|].
  split; [reflexivity|].
  split; [exact Hnd|].
  exact (proj2 (proj2 (proj2 (proj2
    (updateMetadata_merge example_cache []
       [example_orders_failed; example_orders_moved] None 2))))
    example_orders_moved (or_intror (or_introl eq_refl)) eq_refl Hnd).
Defined.

(** ** Change detection *)

Lemma partitionChanged_true (previous partition : PartitionMetadata.t) :
  ClusterMetadata.partitionChanged (Some previous) partition = true
  <-> partition_differs previous partition.
Proof.
  unfold ClusterMetadata.partitionChanged, partition_differs.
  rewrite <- !hasArrayChanged_true.
  destruct (Z.eqb_spec (PartitionMetadata.leaderId previous)
                       (PartitionMetadata.leaderId partition)) as [El|Nl];
    cbn [negb orb]; [|tauto].
  destruct (Z.eqb_spec (PartitionMetadata.leaderEpoch previous)
                       (PartitionMetadata.leaderEpoch partition)) as [Ee|Ne];
    cbn [negb orb]; [|tauto].
  destruct (ClusterMetadata.hasArrayChanged
              (PartitionMetadata.replicaNodes previous) _); [tauto|].
  destruct (ClusterMetadata.hasArrayChanged
              (PartitionMetadata.isrNodes previous) _); [tauto|].
  destruct (ClusterMetadata.hasArrayChanged
              (PartitionMetadata.offlineReplicas previous) _);
    intuition congruence.
Qed.

Lemma existingMap_lookup (existing : list PartitionMetadata.t) (i : Z) :
  ClusterMetadata.existingMap existing !! i
  = last_with PartitionMetadata.partitionIndex i existing.
Proof.
  unfold ClusterMetadata.existingMap.
  rewrite (fold_left_insert_lookup PartitionMetadata.partitionIndex), lookup_empty.
  now destruct (last_with _ i existing).
Qed.

Lemma anyPartitionChanged_true (m : gmap Z PartitionMetadata.t)
    (updated : list PartitionMetadata.t) :
  ClusterMetadata.anyPartitionChanged m updated = true
  <-> exists p, In p updated /\
        ClusterMetadata.partitionChanged
          (m !! PartitionMetadata.partitionIndex p) p = true.
Proof.
  induction updated as [|q updated IH]; simpl.
  - split; [discriminate | intros (p & [] & _)].
  - destruct (ClusterMetadata.partitionChanged
                (m !! PartitionMetadata.partitionIndex q) q) eqn:Hq.
    + split; [|reflexivity]. intros _. exists q. auto.
    + rewrite IH. split.
      * intros (p & Hin & Hp). exists p. auto.
      * intros (p & [->|Hin] & Hp); [congruence|]. exists p. auto.
Qed.

(** The test of [updateMetadata] on a topic that is already cached. *)
Lemma topicChanged_true (previous topic : TopicMetadata.t) :
  unique_partitions previous ->
  ClusterMetadata.topicChanged (Some previous) topic = true
  <-> topic_differs previous topic.
Proof.
  intros Hu. unfold ClusterMetadata.topicChanged,
    ClusterMetadata.hasPartitionChanges, topic_differs.
  destruct (Nat.eqb_spec (List.length (TopicMetadata.partitions previous))
                         (List.length (TopicMetadata.partitions topic)))
    as [Hlen|Hlen]; cbn [negb orb]; [|tauto].
  rewrite anyPartitionChanged_true. split.
  - intros (p & Hin & Hp). right. exists p. split; [assumption|].
    rewrite existingMap_lookup in Hp.
    destruct (last_with PartitionMetadata.partitionIndex
                (PartitionMetadata.partitionIndex p)
                (TopicMetadata.partitions previous)) as [ep|] eqn:Hl.
    + right. exists ep. apply last_with_Some in Hl as [Hep Hidx].
      repeat split; try assumption. now apply partitionChanged_true.
    + left. now apply last_with_None.
  - intros [Hne|(p & Hin & Hp)]; [contradiction|].
    exists p. split; [assumption|]. rewrite existingMap_lookup.
    destruct Hp as [Hnew|(ep & Hep & Hidx & Hd)].
    + apply last_with_None in Hnew. now rewrite Hnew.
    + rewrite <- Hidx, (last_with_unique _ _ ep Hu Hep).
      now apply partitionChanged_true.
Qed.

Lemma fold_updateTopic_snd (topics : list TopicMetadata.t) :
  forall (m : gmap string TopicMetadata.t) (u : list string),
    NoDup (map TopicMetadata.name (accepted topics)) ->
    snd (fold_left ClusterMetadata.updateTopic topics (m, u))
    = u ++ map TopicMetadata.name
             (List.filter
                (fun t => ClusterMetadata.topicChanged (m !! TopicMetadata.name t) t)
                (accepted topics)).
Proof.
  induction topics as [|t topics IH]; intros m u Hnd.
  - simpl. now rewrite app_nil_r.
  - cbn [fold_left accepted List.filter] in *.
    unfold ClusterMetadata.updateTopic at 2.
    destruct (TopicMetadata.errorCode t =? 0) eqn:Herr; cbn [negb].
    + fold (accepted topics) in *. cbn [map] in Hnd.
      apply NoDup_cons in Hnd as [Hfresh Hnd].
      rewrite IH by assumption. cbn [List.filter].
      assert (Hext : List.filter
                (fun t' => ClusterMetadata.topicChanged
                   (<[TopicMetadata.name t := t]> m !! TopicMetadata.name t') t')
                (accepted topics)
              = List.filter
                  (fun t' => ClusterMetadata.topicChanged
                     (m !! TopicMetadata.name t') t')
                  (accepted topics)).
      { apply filter_ext_in. intros t' Hin.
        rewrite lookup_insert_ne; [reflexivity|].
        intros E. apply Hfresh. rewrite E.
        apply list_elem_of_In, in_map, Hin. }
      rewrite Hext.
      destruct (ClusterMetadata.topicChanged (m !! TopicMetadata.name t) t);
        cbn [map]; [now rewrite <- app_assoc | reflexivity].
    + fold (accepted topics) in *. now apply IH.
Qed.

Lemma updatedTopics_spec (this : ClusterMetadata.t)
    (topics : list TopicMetadata.t) :
  NoDup (map TopicMetadata.name (accepted topics)) ->
  ClusterMetadata.updatedTopics this topics
  = map TopicMetadata.name
      (List.filter
         (fun t => ClusterMetadata.topicChanged
                     (ClusterMetadata.topics this !! TopicMetadata.name t) t)
         (accepted topics)).
Proof.
  intros Hnd. unfold ClusterMetadata.updatedTopics.
  now rewrite fold_updateTopic_snd.
Qed.

Lemma updateMetadata_updates (this : ClusterMetadata.t) brokers topics cid ctl :
  ClusterMetadata.updates
    (ClusterMetadata.updateMetadata this brokers topics cid ctl)
  = if (0 <? List.length (ClusterMetadata.updatedTopics this topics))%nat
       || negb (ClusterMetadata.isMetadataInitialized this)
    then ClusterMetadata.updates this ++ [ClusterMetadata.updatedTopics this topics]
    else ClusterMetadata.updates this.
Proof.
  unfold ClusterMetadata.updateMetadata, ClusterMetadata.updatedTopics.
  now destruct (fold_left ClusterMetadata.updateTopic topics _).
Qed.

Lemma updateMetadata_initialized (this : ClusterMetadata.t) brokers topics cid ctl :
  ClusterMetadata.isMetadataInitialized
    (ClusterMetadata.updateMetadata this brokers topics cid ctl) = true.
Proof.
  unfold ClusterMetadata.updateMetadata.
  now destruct (fold_left ClusterMetadata.updateTopic topics _).
Qed.

Lemma NoDup_map_In_inj {K V : Type} `{EqDecision K} (key : V -> K) (l : list V)
    (x y : V) :
  NoDup (map key l) -> In x l -> In y l -> key x = key y -> x = y.
Proof.
  intros Hnd Hx Hy Hk.
  pose proof (last_with_unique key l x Hnd Hx) as Lx.
  pose proof (last_with_unique key l y Hnd Hy) as Ly.
  rewrite Hk, Ly in Lx. congruence.
Qed.

Lemma Forall2_In_right {A B : Type} (R : A -> B -> Prop) (l : list A)
    (l' : list B) (y : B) :
  Forall2 R l l' -> In y l' -> exists x, In x l /\ R x y.
Proof.
  induction 1 as [|x y' l l' Hxy _ IH]; intros Hin; [contradiction|].
  destruct Hin as [->|Hin].
  - exists x. split; [now left | assumption].
  - destruct (IH Hin) as (x' & Hx' & HR). exists x'. split; [now right | assumption].
Qed.

Lemma filter_none {A : Type} (f : A -> bool) (l : list A) :
  (forall x, In x l -> f x = false) -> List.filter f l = [].
Proof.
  induction l as [|x l IH]; intros Hall; [reflexivity|]. simpl.
  rewrite (Hall x (or_introl eq_refl)). apply IH. intros y Hy. apply Hall. now right.
Qed.

Lemma topic_reordered_unchanged (t t' : TopicMetadata.t) :
  unique_partitions t -> topic_reordered t t' ->
  ClusterMetadata.topicChanged (Some t) t' = false.
Proof.
  intros Hu (_ & _ & Hparts).
  destruct (ClusterMetadata.topicChanged (Some t) t') eqn:Hc; [|reflexivity].
  exfalso. apply (topicChanged_true t t' Hu) in Hc.
  destruct Hc as [Hlen|(p' & Hin' & Hp')].
  - apply Hlen. exact (Forall2_length _ _ _ Hparts).
  - destruct (Forall2_In_right _ _ _ _ Hparts Hin')
      as (p & Hin & Hidx & Hl & He & Hr & Hi & Ho).
    destruct Hp' as [Hnew|(ep & Hep & Hepidx & Hd)].
    + exact (Hnew p Hin Hidx).
    + assert (ep = p) as ->.
      { apply (NoDup_map_In_inj PartitionMetadata.partitionIndex
                 (TopicMetadata.partitions t)); try assumption. congruence. }
      unfold partition_differs in Hd. tauto.
Qed.

Lemma accepted_reordered (topics topics' : list TopicMetadata.t) :
  Forall2 topic_reordered topics topics' ->
  Forall2 topic_reordered (accepted topics) (accepted topics').
Proof.
  induction 1 as [|t t' topics topics' Ht _ IH]; [constructor|].
  cbn [accepted List.filter]. destruct Ht as (Hn & He & Hp).
  rewrite <- He. destruct (TopicMetadata.errorCode t =? 0); [|exact IH].
  constructor; [now repeat split | exact IH].
Qed.

Lemma reordered_names (topics topics' : list TopicMetadata.t) :
  Forall2 topic_reordered topics topics' ->
  map TopicMetadata.name topics' = map TopicMetadata.name topics.
Proof.
  induction 1 as [|t t' topics topics' (Hn & _) _ IH]; [reflexivity|].
  cbn [map]. now rewrite Hn, IH.
Qed.

(** Feeding the cache a response that repeats the previous one up to the
    order of the replica lists reports no topic. *)
Lemma second_update_quiet (this : ClusterMetadata.t) brokers topics cid ctl
    (topics' : list TopicMetadata.t) :
  NoDup (map TopicMetadata.name (accepted topics)) ->
  (forall t, In t (accepted topics) -> unique_partitions t) ->
  Forall2 topic_reordered topics topics' ->
  ClusterMetadata.updatedTopics
    (ClusterMetadata.updateMetadata this brokers topics cid ctl) topics' = [].
Proof.
  intros Hnd Hu Hre.
  pose proof (accepted_reordered _ _ Hre) as Hacc.
  rewrite updatedTopics_spec by (now rewrite (reordered_names _ _ Hacc)).
  rewrite filter_none; [reflexivity|].
  intros t' Hin'.
  destruct (Forall2_In_right _ _ _ _ Hacc Hin') as (t & Hin & Ht).
  destruct Ht as (Hn & He & Hp). rewrite <- Hn.
  apply accepted_In in Hin as Hin2. destruct Hin2 as [Hint Herr].
  rewrite updateMetadata_stores by assumption.
  apply topic_reordered_unchanged; [now apply Hu | now repeat split].
Qed.

Lemma updatedTopics_In (this : ClusterMetadata.t)
    (topics : list TopicMetadata.t) (name : string) :
  NoDup (map TopicMetadata.name (accepted topics)) ->
  (forall previous, ClusterMetadata.topics this !! name = Some previous ->
     unique_partitions previous) ->
  In name (ClusterMetadata.updatedTopics this topics)
  <-> exists topic,
        In topic topics /\ TopicMetadata.errorCode topic = 0 /\
        TopicMetadata.name topic = name /\
        (ClusterMetadata.topics this !! name = None \/
         exists previous,
           ClusterMetadata.topics this !! name = Some previous /\
           topic_differs previous topic).
Proof.
  intros Hnd Hu. rewrite updatedTopics_spec by assumption.
  rewrite in_map_iff. split.
  - intros (t & Hname & Hin). apply filter_In in Hin as [Hin Hc].
    apply accepted_In in Hin as [Hin Herr]. subst name.
    exists t. repeat split; try assumption.
    destruct (ClusterMetadata.topics this !! TopicMetadata.name t)
      as [previous|] eqn:Hl; [right|now left].
    exists previous. split; [reflexivity|].
    apply topicChanged_true; [now apply Hu | assumption].
  - intros (t & Hin & Herr & Hname & Hd). exists t. split; [assumption|].
    apply filter_In. split; [apply accepted_In; now split|]. subst name.
    destruct Hd as [Hnone|(previous & Hsome & Hd)].
    + now rewrite Hnone.
    + rewrite Hsome. apply topicChanged_true; [now apply Hu | assumption].
Qed.

Lemma hasArrayChanged_as_sets (a b : list Z) :
  NoDup a -> NoDup b ->
  ClusterMetadata.hasArrayChanged a b = false <-> (forall x, In x a <-> In x b).
Proof.
  intros Ha Hb. rewrite hasArrayChanged_false. split.
  - intros Hp x. split; apply Permutation_in; [assumption | now symmetry].
  - intros Hx. apply NoDup_Permutation; try assumption.
    intros x. rewrite !list_elem_of_In. apply Hx.
Qed.

(** C6.  Which topics an update reports, for a response that names each
    accepted topic once and a cache whose topics have unique partition
    indices.  (1) A name is reported exactly when the response holds an
    accepted topic of that name that is new to the cache, or whose partition
    count differs from the cached one, or one of whose partitions is new or
    differs from the cached partition of the same index in leader id, leader
    epoch or one of the replica, ISR and offline-replica lists compared up to
    order.  (2) That comparison is order-insensitive, and on duplicate-free
    lists it is the comparison of their sets of elements.  (3) A second
    update that repeats the first up to the order of the replica lists
    reports no topic and emits no notification.  (4) A topic with a partition
    whose leader id differs from the cached one is reported.  (5) The first
    update of a cache emits a notification with its list of changed topics,
    empty or not; a later one emits only when the list is not empty. *)
Theorem topology_change_detection :
  (forall (this : ClusterMetadata.t) (topics : list TopicMetadata.t)
          (name : string),
      NoDup (map TopicMetadata.name (accepted topics)) ->
      (forall previous, ClusterMetadata.topics this !! name = Some previous ->
         unique_partitions previous) ->
      In name (ClusterMetadata.updatedTopics this topics)
      <-> exists topic,
            In topic topics /\ TopicMetadata.errorCode topic = 0 /\
            TopicMetadata.name topic = name /\
            (ClusterMetadata.topics this !! name = None \/
             exists previous,
               ClusterMetadata.topics this !! name = Some previous /\
               topic_differs previous topic))
  /\ (forall a b : list Z,
        (ClusterMetadata.hasArrayChanged a b = false <-> a ≡ₚ b) /\
        (NoDup a -> NoDup b ->
         ClusterMetadata.hasArrayChanged a b = false
         <-> (forall x, In x a <-> In x b)))
  /\ (forall (this : ClusterMetadata.t) brokers topics clusterId controllerId
             brokers' topics' clusterId' controllerId',
        NoDup (map TopicMetadata.name (accepted topics)) ->
        (forall t, In t (accepted topics) -> unique_partitions t) ->
        Forall2 topic_reordered topics topics' ->
        let first :=
          ClusterMetadata.updateMetadata this brokers topics clusterId controllerId in
        ClusterMetadata.updatedTopics first topics' = [] /\
        ClusterMetadata.updates
          (ClusterMetadata.updateMetadata first brokers' topics' clusterId'
             controllerId')
        = ClusterMetadata.updates first)
  /\ (forall (this : ClusterMetadata.t) (topics : list TopicMetadata.t)
             (topic previous : TopicMetadata.t) (p ep : PartitionMetadata.t),
        NoDup (map TopicMetadata.name (accepted topics)) ->
        In topic topics -> TopicMetadata.errorCode topic = 0 ->
        ClusterMetadata.topics this !! TopicMetadata.name topic = Some previous ->
        unique_partitions previous ->
        In p (TopicMetadata.partitions topic) ->
        In ep (TopicMetadata.partitions previous) ->
        PartitionMetadata.partitionIndex ep = PartitionMetadata.partitionIndex p ->
        PartitionMetadata.leaderId ep <> PartitionMetadata.leaderId p ->
        In (TopicMetadata.name topic) (ClusterMetadata.updatedTopics this topics))
  /\ (forall (this : ClusterMetadata.t) brokers topics clusterId controllerId,
        ClusterMetadata.updates
          (ClusterMetadata.updateMetadata this brokers topics clusterId controllerId)
        = if negb (ClusterMetadata.isMetadataInitialized this)
          then ClusterMetadata.updates this
                 ++ [ClusterMetadata.updatedTopics this topics]
          else match ClusterMetadata.updatedTopics this topics with
               | [] => ClusterMetadata.updates this
               | names => ClusterMetadata.updates this ++ [names]
               end).
Proof.
  split; [exact updatedTopics_In|].
  split; [intros a b; split; [apply hasArrayChanged_false
                             | apply hasArrayChanged_as_sets]|].
  split; [|split].
  - intros this brokers topics cid ctl brokers' topics' cid' ctl' Hnd Hu Hre first.
    pose proof (second_update_quiet this brokers topics cid ctl topics' Hnd Hu Hre)
      as Hq. fold first in Hq.
    split; [exact Hq|].
    rewrite updateMetadata_updates, Hq. unfold first.
    now rewrite updateMetadata_initialized.
  - intros this topics topic previous p ep Hnd Hin Herr Hprev Hu Hp Hep Hidx Hl.
    apply updatedTopics_In; [assumption | congruence |].
    exists topic. repeat split; try assumption. right.
    exists previous. split; [assumption|]. right.
    exists p. split; [assumption|]. right.
    exists ep. repeat split; try assumption. now left.
  - intros this brokers topics cid ctl. rewrite updateMetadata_updates.
    destruct (ClusterMetadata.isMetadataInitialized this); cbn [negb];
      [|now rewrite orb_true_r].
    rewrite orb_false_r.
    now destruct (ClusterMetadata.updatedTopics this topics).
Qed.

Lemma example_orders_accepted_NoDup (t : TopicMetadata.t) :
  TopicMetadata.errorCode t = 0 ->
  NoDup (map TopicMetadata.name (accepted [t])).
Proof.
  intros He. cbn [accepted List.filter]. rewrite He. cbn. apply NoDup_singleton.
Qed.

Lemma example_orders_unique : unique_partitions example_orders.
Proof.
  unfold unique_partitions. cbn.
  apply NoDup_cons. split; [|apply NoDup_singleton].
  intros H. apply list_elem_of_In in H. destruct H as [H|[]]. discriminate.
Qed.

Lemma example_orders_is_reordered :
  Forall2 topic_reordered [example_orders] [example_orders_reordered].
Proof.
  constructor; [|constructor].
  repeat split; cbn. constructor; [|constructor; [|constructor]].
  - repeat split; cbn; try reflexivity. apply perm_swap.
  - repeat split; cbn; reflexivity.
Qed.

Lemma topology_change_detection_witness :
  (NoDup (map TopicMetadata.name (accepted [example_orders]))
   /\ (forall t, In t (accepted [example_orders]) -> unique_partitions t)
   /\ Forall2 topic_reordered [example_orders] [example_orders_reordered]
   /\ ClusterMetadata.updatedTopics example_cache [example_orders_reordered] = []
   /\ ClusterMetadata.updates
        (ClusterMetadata.updateMetadata example_cache example_brokers
           [example_orders_reordered] (Some "cluster-a"%string) 1)
      = ClusterMetadata.updates example_cache)
  /\ (NoDup (map TopicMetadata.name (accepted [example_orders_moved]))
      /\ In example_orders_moved [example_orders_moved]
      /\ ClusterMetadata.topics example_cache
           !! TopicMetadata.name example_orders_moved = Some example_orders
      /\ unique_partitions example_orders
      /\ In (TopicMetadata.name example_orders_moved)
            (ClusterMetadata.updatedTopics example_cache [example_orders_moved]))
  /\ (NoDup [1; 2] /\ NoDup [2; 1]
      /\ (ClusterMetadata.hasArrayChanged [1; 2] [2; 1] = false
          <-> (forall x, In x [1; 2] <-> In x [2; 1]))).
Proof.
  destruct topology_change_detection as (_ & Hsets & Hquiet & Hleader & _).
  assert (Hnd1 := example_orders_accepted_NoDup example_orders eq_refl).
  assert (Hnd2 := example_orders_accepted_NoDup example_orders_moved eq_refl).
  assert (Hu : forall t, In t (accepted [example_orders]) -> unique_partitions t).
  { intros t [<-|[]]. exact example_orders_unique. }
  assert (Ha : NoDup [1; 2]).
  { apply NoDup_cons. split; [|apply NoDup_singleton].
    intros H. apply list_elem_of_In in H. destruct H as [H|[]]. discriminate. }
  assert (Hb : NoDup [2; 1]).
  { apply NoDup_cons. split; [|apply NoDup_singleton].
    intros H. apply list_elem_of_In in H. destruct H as [H|[]]. discriminate. }
  split; [|split].
  - split; [exact Hnd1|]. split; [exact Hu|].
    split; [exact example_orders_is_reordered|].
    exact (Hquiet ClusterMetadata.new example_brokers [example_orders]
             (Some "cluster-a"%string) 1 example_brokers
             [example_orders_reordered] (Some "cluster-a"%string) 1
             Hnd1 Hu example_orders_is_reordered).
  - split; [exact Hnd2|]. split; [now left|].
    split; [exact example_cache_orders|]. split; [exact example_orders_unique|].
    exact (Hleader example_cache [example_orders_moved] example_orders_moved
             example_orders
             (PartitionMetadata.mk 0 0 2 5 [1; 2] [1; 2] [])
             (PartitionMetadata.mk 0 0 1 5 [1; 2] [1; 2] [])
             Hnd2 (or_introl eq_refl) eq_refl example_cache_orders
             example_orders_unique (or_introl eq_refl) (or_introl eq_refl)
             eq_refl ltac:(cbn; discriminate)).
  - split; [exact Ha|]. split; [exact Hb|].
    exact (proj2 (Hsets [1; 2] [2; 1]) Ha Hb).
Defined.
(** ** Emitting ['error'] *)

Import BrokerConnection.

Lemma heard_set_connectionError (error : JsError) (e : option JsError) (c : t) :
  heard error (set_connectionError e c) = heard error c.
Proof.
  unfold heard, emitError. cbn [errorListeners set_connectionError].
  destruct (errorListeners c) as [|l ls]; [reflexivity|].
  now destruct (callListeners error (l :: ls)).
Qed.

(** [emit('error', ...)] touches the listeners and nothing else. *)
Lemma hearing_fields (error : JsError) (c : t) :
  exists listeners, hearing error c = set_errorListeners listeners c.
Proof.
  unfold hearing, emitError. destruct (errorListeners c) as [|l ls] eqn:E.
  - exists []. cbn [fst]. destruct c. cbn in *. now subst.
  - destruct (callListeners error (l :: ls)) as [ls' thrown]. now exists ls'.
Qed.

Lemma noted_fields (error : JsError) (c : t) :
  exists listeners,
    noted error c = set_errorListeners listeners (set_connectionError (Some error) c).
Proof. apply hearing_fields. Qed.

(** With no listener, the error itself is thrown. *)
Lemma heard_no_listener (error : JsError) (c : t) :
  errorListeners c = [] ->
  heard error c = false /\ snd (emitError error c) = Some error.
Proof. intros H. unfold heard, emitError. rewrite H. now split. Qed.

Lemma onError_heard (error : JsError) (c : t) :
  heard error c = true ->
  onError error c
  = Done (fst (disconnect (noted error c)))
         (EmitError error :: snd (disconnect (noted error c))).
Proof.
  intros H. rewrite <- (heard_set_connectionError error (Some error)) in H.
  unfold onError, noted, hearing. unfold heard in H.
  destruct (emitError error (set_connectionError (Some error) c)) as [c1 [thrown|]];
    [discriminate|].
  cbn [fst]. now destruct (disconnect c1).
Qed.

Lemma onError_unheard (error : JsError) (c : t) :
  heard error c = false ->
  exists thrown,
    snd (emitError error c) = Some thrown
    /\ onError error c = Uncaught thrown (noted error c) [EmitError error].
Proof.
  intros H. pose proof H as H'.
  rewrite <- (heard_set_connectionError error (Some error)) in H'.
  unfold onError, noted, hearing. unfold heard in H, H'.
  destruct (snd (emitError error c)) as [thrown|] eqn:Ht; [|discriminate].
  assert (Hsame : snd (emitError error (set_connectionError (Some error) c))
                  = snd (emitError error c)).
  { unfold emitError. cbn [errorListeners set_connectionError].
    destruct (errorListeners c) as [|l ls]; [reflexivity|].
    now destruct (callListeners error (l :: ls)). }
  rewrite Ht in Hsame.
  destruct (emitError error (set_connectionError (Some error) c)) as [c1 [thrown'|]];
    cbn [snd fst] in *; [|discriminate].
  injection Hsame as ->. now exists thrown.
Qed.

(** The two ways [onError] ends. *)
Lemma onError_cases (error : JsError) (c : t) :
  (heard error c = true /\
   onError error c
   = Done (fst (disconnect (noted error c)))
          (EmitError error :: snd (disconnect (noted error c))))
  \/ (heard error c = false /\
      exists thrown, onError error c = Uncaught thrown (noted error c) [EmitError error]).
Proof.
  destruct (heard error c) eqn:H.
  - left. split; [reflexivity|]. now apply onError_heard.
  - right. split; [reflexivity|].
    destruct (onError_unheard error c H) as (thrown & _ & Ho). now exists thrown.
Qed.

Lemma emitError_set_buffer (error : JsError) (b : option Buffer) (c : t) :
  emitError error (set_buffer b c)
  = (set_buffer b (fst (emitError error c)), snd (emitError error c)).
Proof.
  unfold emitError. cbn [errorListeners set_buffer].
  destruct (errorListeners c) as [|l ls]; [reflexivity|].
  now destruct (callListeners error (l :: ls)).
Qed.

Lemma onError_set_buffer (error : JsError) (b : option Buffer) (c : t) :
  onError error (set_buffer b c) = map_state (set_buffer b) (onError error c).
Proof.
  unfold onError.
  change (set_connectionError (Some error) (set_buffer b c))
    with (set_buffer b (set_connectionError (Some error) c)).
  rewrite emitError_set_buffer.
  destruct (emitError error (set_connectionError (Some error) c)) as [c1 [thrown|]];
    cbn [fst snd]; [reflexivity|].
  unfold disconnect. cbn [state set_buffer]. destruct (state c1); reflexivity.
Qed.

Lemma onError_buffer (error : JsError) (c c' : t) :
  after (onError error c) = Some c' -> buffer c' = buffer c.
Proof.
  destruct (noted_fields error c) as [ls Hn].
  destruct (onError_cases error c) as [[_ ->]|[_ [thrown ->]]]; cbn [after];
    intros [= <-]; rewrite Hn.
  - unfold disconnect. cbn [state set_errorListeners set_connectionError].
    destruct (state c); reflexivity.
  - reflexivity.
Qed.

(** ** The three ways [handleResponse] goes *)

Lemma ResponseHeader_decode_Ok (m : Buffer) (header : ResponseHeader.t) :
  ResponseHeader.decode m = Ok header ->
  ResponseHeader.size header = 4 /\ 4 <= blen m
  /\ Buf.readInt32BE m 0 = Ok (ResponseHeader.correlationId header).
Proof.
  unfold ResponseHeader.decode.
  destruct (Buf.readInt32BE m 0) as [k|e] eqn:Hr; [|discriminate].
  cbn [bind]. intros [= <-]. cbn [ResponseHeader.size ResponseHeader.correlationId].
  split; [reflexivity|]. split; [|reflexivity].
  unfold Buf.readInt32BE, Buf.readIntBE, Buf.readUIntBE, Buf.in_bounds in Hr.
  destruct (Z.leb_spec (0 + Z.of_nat 4) (blen m)); [lia|].
  rewrite andb_false_r in Hr. discriminate.
Qed.

Lemma ResponseHeader_decode_Throw (m : Buffer) (e : JsError) :
  ResponseHeader.decode m = Throw e -> e = RangeError /\ blen m < 4.
Proof.
  unfold ResponseHeader.decode, Buf.readInt32BE, Buf.readIntBE, Buf.readUIntBE,
    Buf.in_bounds.
  destruct (Z.leb_spec (0 + Z.of_nat 4) (blen m)); cbn; [discriminate|].
  intros [= <-]. split; [reflexivity|lia].
Qed.

Lemma ResponseHeader_decode_short (m : Buffer) :
  blen m < 4 -> ResponseHeader.decode m = Throw RangeError.
Proof.
  intros H. unfold ResponseHeader.decode, Buf.readInt32BE, Buf.readIntBE,
    Buf.readUIntBE, Buf.in_bounds.
  destruct (Z.leb_spec (0 + Z.of_nat 4) (blen m)); [lia|]. reflexivity.
Qed.

(** A response to a request in flight resolves it. *)
Lemma handleResponse_matched (now : Z) (m : Buffer) (header : ResponseHeader.t)
    (request : InFlightRequest) (c : t) :
  ResponseHeader.decode m = Ok header ->
  Map_get (ResponseHeader.correlationId header) (inFlightRequests c) = Some request ->
  handleResponse now m c
  = Done (resolved (ResponseHeader.correlationId header) request m c)
         (response_of (ResponseHeader.correlationId header) request now
            :: throttle_of m).
Proof.
  intros Hdec Hget. unfold handleResponse. rewrite Hdec, Hget.
  destruct (ResponseHeader_decode_Ok m header Hdec) as (-> & Hlen & _).
  unfold throttle_of, resolved, response_of.
  unfold Buf.readInt32BE, Buf.readIntBE, Buf.readUIntBE, Buf.in_bounds.
  change (Z.of_nat 4) with 4. change (0 <=? 4) with true. cbn [andb].
  destruct (4 + 4 <=? blen m); reflexivity.
Qed.

(** A response to no request in flight is dropped. *)
Lemma handleResponse_unmatched (now : Z) (m : Buffer) (header : ResponseHeader.t)
    (c : t) :
  ResponseHeader.decode m = Ok header ->
  Map_get (ResponseHeader.correlationId header) (inFlightRequests c) = None ->
  handleResponse now m c = Done c [].
Proof. intros Hdec Hget. unfold handleResponse. now rewrite Hdec, Hget. Qed.

(** A message too short for a header goes to [onError]. *)
Lemma handleResponse_undecodable (now : Z) (m : Buffer) (e : JsError) (c : t) :
  ResponseHeader.decode m = Throw e ->
  handleResponse now m c = onError e c.
Proof. intros Hdec. unfold handleResponse. now rewrite Hdec. Qed.

Lemma handleResponse_cases (now : Z) (m : Buffer) (c : t) :
  (exists header request,
      ResponseHeader.decode m = Ok header
      /\ Map_get (ResponseHeader.correlationId header) (inFlightRequests c)
         = Some request
      /\ handleResponse now m c
         = Done (resolved (ResponseHeader.correlationId header) request m c)
                (response_of (ResponseHeader.correlationId header) request now
                   :: throttle_of m))
  \/ (exists header,
         ResponseHeader.decode m = Ok header
         /\ Map_get (ResponseHeader.correlationId header) (inFlightRequests c) = None
         /\ handleResponse now m c = Done c [])
  \/ (blen m < 4 /\ handleResponse now m c = onError RangeError c).
Proof.
  destruct (ResponseHeader.decode m) as [header|e] eqn:Hdec.
  - destruct (Map_get (ResponseHeader.correlationId header) (inFlightRequests c))
      as [request|] eqn:Hget.
    + left. exists header, request. split; [reflexivity|]. split; [assumption|].
      now apply handleResponse_matched.
    + right; left. exists header. split; [reflexivity|]. split; [assumption|].
      now apply (handleResponse_unmatched now m header).
  - right; right. destruct (ResponseHeader_decode_Throw m e Hdec) as [-> Hlen].
    split; [assumption|]. now apply handleResponse_undecodable.
Qed.

Lemma handleResponse_set_buffer (now : Z) (m : Buffer) (b : option Buffer) (c : t) :
  handleResponse now m (set_buffer b c)
  = map_state (set_buffer b) (handleResponse now m c).
Proof.
  destruct (handleResponse_cases now m c)
    as [(header & request & Hdec & Hget & ->)|[(header & Hdec & Hget & ->)|[Hlen ->]]].
  - now rewrite (handleResponse_matched now m header request).
  - now rewrite (handleResponse_unmatched now m header).
  - rewrite (handleResponse_undecodable now m RangeError)
      by now apply ResponseHeader_decode_short.
    apply onError_set_buffer.
Qed.

Lemma handleResponse_buffer (now : Z) (m : Buffer) (c c' : t) :
  after (handleResponse now m c) = Some c' -> buffer c' = buffer c.
Proof.
  destruct (handleResponse_cases now m c)
    as [(header & request & Hdec & Hget & ->)|[(header & Hdec & Hget & ->)|[Hlen ->]]].
  - now intros [= <-].
  - now intros [= <-].
  - apply onError_buffer.
Qed.

(** ** Frame reassembly *)

Lemma set_buffer_set_buffer (b1 b2 : option Buffer) (c : t) :
  set_buffer b2 (set_buffer b1 c) = set_buffer b2 c.
Proof. reflexivity. Qed.

Lemma set_buffer_same (c : t) : set_buffer (buffer c) c = c.
Proof. now destruct c. Qed.

Lemma readInt32BE_frame (payload rest : Buffer) :
  blen payload <= 2 ^ 31 - 1 ->
  Buf.readInt32BE (frame_of payload ++ rest) 0 = Ok (blen payload).
Proof.
  intros Hs. unfold frame_of, Buf.readInt32BE. rewrite <- app_assoc.
  apply (readIntBE_at 4 [] (payload ++ rest)); try reflexivity; [lia|].
  pose proof (blen_nonneg payload). cbn. lia.
Qed.

Lemma blen_frame_of (payload : Buffer) : blen (frame_of payload) = 4 + blen payload.
Proof. unfold frame_of. now rewrite blen_app, blen_Z_to_be. Qed.

Lemma slice_frame (payload rest : Buffer) :
  Buf.slice (frame_of payload ++ rest) (0 + 4) (0 + 4 + blen payload) = payload.
Proof.
  unfold frame_of. rewrite <- app_assoc.
  pose proof (slice_framed (Z_to_be 4 (blen payload)) payload rest) as H.
  rewrite blen_Z_to_be in H. exact H.
Qed.

(** Reading at the first byte after a prefix is reading the rest at 0. *)
Lemma readInt32BE_after (pre rest : Buffer) :
  Buf.readInt32BE (pre ++ rest) (blen pre) = Buf.readInt32BE rest 0.
Proof.
  unfold Buf.readInt32BE, Buf.readIntBE, Buf.readUIntBE, Buf.in_bounds.
  rewrite blen_app. pose proof (blen_nonneg pre).
  replace (0 <=? blen pre) with true by (symmetry; apply Z.leb_le; lia).
  replace (blen pre + Z.of_nat 4 <=? blen pre + blen rest)
    with (0 + Z.of_nat 4 <=? blen rest)
    by (destruct (Z.leb_spec (0 + Z.of_nat 4) (blen rest));
        destruct (Z.leb_spec (blen pre + Z.of_nat 4) (blen pre + blen rest)); lia).
  cbn [andb Z.leb]. unfold blen at 2. rewrite Nat2Z.id, drop_app_length.
  reflexivity.
Qed.

Lemma processMessages_S (fuel : nat) (now : Z) (buf : Buffer) (processed : Z)
    (c : t) (events : list Emitted) :
  processMessages (S fuel) now buf processed c events
  = if processed <? blen buf then
      if blen buf - processed <? 4 then LoopDone c events processed
      else
        match Buf.readInt32BE buf processed with
        | Throw e => LoopThrew e c events
        | Ok messageSize =>
            if blen buf - processed - 4 <? messageSize
            then LoopDone c events processed
            else
              match handleResponse now
                      (Buf.slice buf (processed + 4) (processed + 4 + messageSize))
                      c with
              | Done c1 ev =>
                  processMessages fuel now buf (processed + 4 + messageSize) c1
                    (events ++ ev)
              | Uncaught e c1 ev => LoopThrew e c1 (events ++ ev)
              | Forever => LoopForever
              end
        end
    else LoopDone c events processed.
Proof. reflexivity. Qed.

(** The loop stops at bytes that do not hold a whole frame. *)
Lemma processMessages_incomplete (fuel : nat) (now : Z) (pre rest : Buffer)
    (c : t) (events : list Emitted) :
  incomplete rest ->
  processMessages (S fuel) now (pre ++ rest) (blen pre) c events
  = LoopDone c events (blen pre).
Proof.
  intros Hinc. rewrite processMessages_S, blen_app.
  pose proof (blen_nonneg rest).
  destruct (Z.ltb_spec (blen pre) (blen pre + blen rest)); [|reflexivity].
  replace (blen pre + blen rest - blen pre) with (blen rest) by lia.
  destruct (Z.ltb_spec (blen rest) 4) as [|Hge]; [reflexivity|].
  destruct Hinc as [Hlt|(size & Hr & Hsz)]; [lia|].
  rewrite readInt32BE_after, Hr.
  replace (blen rest - 4 <? size) with true by (symmetry; apply Z.ltb_lt; lia).
  reflexivity.
Qed.

(** One whole frame followed by bytes that do not hold another: the loop
    hands the payload to [handleResponse] once and, when that returns,
    stops after the frame. *)
Lemma processMessages_frame (fuel : nat) (now : Z) (payload rest : Buffer)
    (c : t) (events : list Emitted) :
  blen payload <= 2 ^ 31 - 1 -> incomplete rest ->
  processMessages (S (S fuel)) now (frame_of payload ++ rest) 0 c events
  = match handleResponse now payload c with
    | Done c1 ev => LoopDone c1 (events ++ ev) (blen (frame_of payload))
    | Uncaught e c1 ev => LoopThrew e c1 (events ++ ev)
    | Forever => LoopForever
    end.
Proof.
  intros Hs Hinc. rewrite processMessages_S.
  pose proof (blen_nonneg payload). pose proof (blen_nonneg rest).
  pose proof (blen_frame_of payload) as Hf.
  assert (Hb : blen (frame_of payload ++ rest) = 4 + blen payload + blen rest)
    by (rewrite blen_app; lia).
  destruct (Z.ltb_spec 0 (blen (frame_of payload ++ rest))); [|lia].
  destruct (Z.ltb_spec (blen (frame_of payload ++ rest) - 0) 4); [lia|].
  rewrite readInt32BE_frame by assumption.
  destruct (Z.ltb_spec (blen (frame_of payload ++ rest) - 0 - 4) (blen payload));
    [lia|].
  rewrite slice_frame.
  destruct (handleResponse now payload c) as [c1 ev| |]; try reflexivity.
  replace (0 + 4 + blen payload) with (blen (frame_of payload)) by lia.
  apply processMessages_incomplete. exact Hinc.
Qed.

Lemma readInt32BE_prefix (a b : Buffer) :
  4 <= blen a -> Buf.readInt32BE (a ++ b) 0 = Buf.readInt32BE a 0.
Proof.
  intros Ha. unfold Buf.readInt32BE, Buf.readIntBE, Buf.readUIntBE, Buf.in_bounds.
  rewrite blen_app. pose proof (blen_nonneg b).
  replace (0 + Z.of_nat 4 <=? blen a + blen b) with true
    by (symmetry; apply Z.leb_le; lia).
  replace (0 + Z.of_nat 4 <=? blen a) with true
    by (symmetry; apply Z.leb_le; lia).
  cbn [andb Z.leb]. change (Z.to_nat 0) with 0%nat. rewrite !drop_0.
  rewrite take_app_le by (unfold blen in Ha; lia). reflexivity.
Qed.

Lemma incomplete_nil : incomplete [].
Proof. left. reflexivity. Qed.

Lemma strict_prefix_incomplete (p q payload : Buffer) :
  p ++ q = frame_of payload -> q <> [] -> blen payload <= 2 ^ 31 - 1 ->
  incomplete p.
Proof.
  intros Hpq Hq Hs. destruct (Z.lt_ge_cases (blen p) 4) as [|Hge]; [now left|].
  right. exists (blen payload). split.
  - rewrite <- (readInt32BE_prefix p q Hge), Hpq.
    rewrite <- (app_nil_r (frame_of payload)). now apply readInt32BE_frame.
  - assert (Hlen : blen p + blen q = 4 + blen payload)
      by (rewrite <- blen_app, Hpq; apply blen_frame_of).
    assert (0 < blen q).
    { destruct q as [|x q]; [contradiction|]. rewrite blen_cons.
      pose proof (blen_nonneg q). lia. }
    lia.
Qed.

Lemma pending_set_buffer (b : Buffer) (c : t) :
  pending (set_buffer (Some b) c) = b.
Proof. reflexivity. Qed.

Lemma concat_pending (data : Buffer) (c : t) :
  match buffer c with
  | Some b => Buf.concat b data
  | None => data
  end = pending c ++ data.
Proof. unfold pending, Buf.concat. now destruct (buffer c). Qed.

(** A chunk that does not complete a frame is buffered, nothing else. *)
Lemma handleIncomingData_incomplete (now : Z) (data : Buffer) (c : t) :
  incomplete (pending c ++ data) ->
  handleIncomingData now data c
  = Done (set_buffer (Some (pending c ++ data)) c) [EmitBytesIn (blen data)].
Proof.
  intros Hinc. unfold handleIncomingData. rewrite concat_pending.
  pose proof (processMessages_incomplete (List.length (pending c ++ data)) now
                [] (pending c ++ data)
                (set_buffer (Some (pending c ++ data)) c)
                [EmitBytesIn (blen data)] Hinc) as Hp.
  cbn [app] in Hp. change (blen []) with 0 in Hp. rewrite Hp. reflexivity.
Qed.

(** A chunk that completes a frame: the payload goes to [handleResponse]
    once.  When that returns, the bytes after the frame are what stays
    buffered; when it throws, the handler is left with the frame still in
    the buffer. *)
Lemma handleIncomingData_frame (now : Z) (data payload rest : Buffer) (c : t) :
  pending c ++ data = frame_of payload ++ rest ->
  blen payload <= 2 ^ 31 - 1 -> incomplete rest ->
  handleIncomingData now data c
  = buffered (frame_of payload ++ rest) rest
      (emitted [EmitBytesIn (blen data)] (handleResponse now payload c)).
Proof.
  intros Hbuf Hs Hinc. unfold handleIncomingData.
  rewrite concat_pending, Hbuf.
  pose proof (blen_frame_of payload) as Hf. pose proof (blen_nonneg payload).
  assert (Hlen : exists k, List.length (frame_of payload ++ rest) = S k).
  { destruct (frame_of payload ++ rest) eqn:E; [|eauto].
    apply (f_equal blen) in E. rewrite blen_app, Hf in E.
    pose proof (blen_nonneg rest). change (blen []) with 0 in E. lia. }
  destruct Hlen as [k ->].
  rewrite processMessages_frame by assumption.
  rewrite handleResponse_set_buffer.
  destruct (handleResponse now payload c) as [c1 ev|e c1 ev|];
    cbn [map_state emitted buffered app]; [|reflexivity|reflexivity].
  destruct (Z.eqb_spec (blen (frame_of payload)) 0); [lia|].
  rewrite blen_app. pose proof (blen_nonneg rest).
  destruct (Z.ltb_spec (blen (frame_of payload)) (blen (frame_of payload) + blen rest))
    as [Hlt|Hge].
  - rewrite set_buffer_set_buffer. do 2 f_equal.
    destruct rest as [|x rest]; [change (blen []) with 0 in Hlt; lia|].
    cbn [buffer_of]. f_equal. unfold Buf.slice_from.
    pose proof (slice_framed (frame_of payload) (x :: rest) []) as Hsl.
    rewrite !app_nil_r in Hsl. rewrite blen_app. exact Hsl.
  - rewrite set_buffer_set_buffer.
    destruct rest as [|x rest]; [reflexivity|].
    rewrite blen_cons in Hge. pose proof (blen_nonneg rest). lia.
Qed.

Lemma emitted_emitted (ev1 ev2 : list Emitted) (o : Outcome) :
  emitted ev1 (emitted ev2 o) = emitted (ev1 ++ ev2) o.
Proof. destruct o; cbn [emitted]; now rewrite ?app_assoc. Qed.

Lemma emitted_buffered (ev : list Emitted) (buf rest : Buffer) (o : Outcome) :
  emitted ev (buffered buf rest o) = buffered buf rest (emitted ev o).
Proof. now destruct o. Qed.

Lemma buffered_map_state (buf rest : Buffer) (b : option Buffer) (o : Outcome) :
  buffered buf rest (map_state (set_buffer b) o) = buffered buf rest o.
Proof. now destruct o. Qed.

Lemma emitted_map_state (ev : list Emitted) (f : t -> t) (o : Outcome) :
  emitted ev (map_state f o) = map_state f (emitted ev o).
Proof. now destruct o. Qed.

(** The chunks of one frame, fed one after the other, end as the call of
    [handleResponse] on the payload ends. *)
Lemma feed_frame (now : Z) (payload : Buffer) (chunks : list Buffer) :
  blen payload <= 2 ^ 31 - 1 -> Forall (fun chunk => chunk <> []) chunks ->
  chunks <> [] ->
  forall (c : t) (events : list Emitted),
    pending c ++ List.concat chunks = frame_of payload ->
    feed now chunks c events
    = buffered (frame_of payload) []
        (emitted (events ++ bytesIn_of chunks) (handleResponse now payload c)).
Proof.
  intros Hs Hne. induction Hne as [|chunk chunks Hchunk Hne IH]; [contradiction|].
  intros _ c events Hbuf. cbn [feed List.concat bytesIn_of map] in *.
  destruct chunks as [|chunk' chunks].
  - cbn [List.concat] in Hbuf. rewrite app_nil_r in Hbuf.
    rewrite (handleIncomingData_frame now chunk payload [] c)
      by (rewrite ?app_nil_r; auto using incomplete_nil).
    rewrite app_nil_r.
    destruct (handleResponse now payload c) as [c1 ev|e c1 ev|];
      cbn [emitted buffered bytesIn_of map feed app]; try reflexivity.
    + now rewrite <- app_assoc.
    + now rewrite <- app_assoc.
  - rewrite handleIncomingData_incomplete.
    + rewrite IH; [|discriminate|].
      * rewrite handleResponse_set_buffer, emitted_map_state, buffered_map_state.
        now rewrite <- app_assoc.
      * rewrite pending_set_buffer, <- app_assoc. exact Hbuf.
    + apply (strict_prefix_incomplete _ (List.concat (chunk' :: chunks)) payload);
        [now rewrite <- app_assoc | | assumption].
      apply Forall_cons in Hne as [Hc' _]. cbn [List.concat].
      destruct chunk'; [contradiction | discriminate].
Qed.

Lemma feed_incomplete (now : Z) (chunks : list Buffer) :
  chunks <> [] ->
  forall (c : t) (events : list Emitted),
    incomplete (pending c ++ List.concat chunks) ->
    feed now chunks c events
    = Done (set_buffer (Some (pending c ++ List.concat chunks)) c)
           (events ++ bytesIn_of chunks).
Proof.
  induction chunks as [|chunk chunks IH]; [contradiction|].
  intros _ c events Hinc. cbn [feed List.concat bytesIn_of map] in *.
  assert (Hfirst : incomplete (pending c ++ chunk)).
  { rewrite app_assoc in Hinc.
    destruct Hinc as [Hlt|(size & Hr & Hsz)].
    - left. rewrite blen_app in Hlt. pose proof (blen_nonneg (List.concat chunks)). lia.
    - destruct (Z.lt_ge_cases (blen (pending c ++ chunk)) 4) as [|Hge]; [now left|].
      right. exists size. rewrite readInt32BE_prefix in Hr by assumption.
      split; [assumption|]. rewrite blen_app in Hsz.
      pose proof (blen_nonneg (List.concat chunks)). lia. }
  rewrite handleIncomingData_incomplete by assumption.
  destruct chunks as [|chunk' chunks].
  - cbn [feed List.concat map]. now rewrite !app_nil_r.
  - rewrite IH; [|discriminate|].
    + rewrite pending_set_buffer, set_buffer_set_buffer, <- !app_assoc. reflexivity.
    + now rewrite pending_set_buffer, <- app_assoc.
Qed.

Lemma Map_get_Map_delete (k : Z) (m : list (Z * InFlightRequest)) :
  Map_get k (Map_delete k m) = None.
Proof.
  unfold Map_get, Map_delete. induction m as [|e m IH]; [reflexivity|].
  cbn [List.filter]. destruct (Z.eqb_spec (fst e) k) as [E|E]; cbn [negb].
  - exact IH.
  - cbn [List.find]. destruct (Z.eqb_spec (fst e) k); [contradiction|]. exact IH.
Qed.

(** C2.  Frame reassembly, for a connection with nothing buffered and a
    frame of at most 2^31-1 payload bytes, cut into non-empty chunks in any
    way.  (1) When the payload carries the correlation id of a request in
    flight, feeding the chunks ends with that entry removed, the promise of
    the request (pending before) resolved with the payload behind its four
    header bytes, and one ['response'] event (followed by ['throttle'] if
    the next int32 is positive) after one ['bytesIn'] per chunk: one decoded
    response, the same for every split.  (2) When the id is that of no
    request in flight, the frame is consumed and the connection is as
    before: no response.  (3) When the payload is too short for a header,
    no response is decoded either: the RangeError goes to [onError], which
    closes the connection if ['error'] is listened to, and otherwise throws
    out of the handler with the frame still buffered; the same for every
    split.  (4) While the chunks fed so far stop short of the frame, the
    connection has only buffered them and emitted ['bytesIn'].  (5) When
    the frame arrives with bytes behind it that do not hold another frame,
    what one handler call does is what it does with the frame alone, and
    exactly those bytes stay buffered: the frame is consumed once. *)
Theorem frame_reassembly (now : Z) (payload : Buffer) (c : BrokerConnection.t) :
  blen payload <= 2 ^ 31 - 1 ->
  BrokerConnection.buffer c = None ->
  (forall (header : ResponseHeader.t) (request : InFlightRequest),
      ResponseHeader.decode payload = Ok header ->
      Map_get (ResponseHeader.correlationId header) (inFlightRequests c)
      = Some request ->
      (forall chunks : list Buffer,
          Forall (fun chunk => chunk <> []) chunks ->
          List.concat chunks = frame_of payload ->
          feed now chunks c []
          = Done (resolved (ResponseHeader.correlationId header) request payload c)
                 (bytesIn_of chunks
                  ++ response_of (ResponseHeader.correlationId header) request now
                     :: throttle_of payload))
      /\ Map_get (ResponseHeader.correlationId header)
           (inFlightRequests
              (resolved (ResponseHeader.correlationId header) request payload c))
         = None
      /\ (promises c !! promise request = Some Pending ->
          promises (resolved (ResponseHeader.correlationId header) request payload c)
            !! promise request
          = Some (Resolved (Buf.slice_from payload 4))))
  /\ (forall header : ResponseHeader.t,
        ResponseHeader.decode payload = Ok header ->
        Map_get (ResponseHeader.correlationId header) (inFlightRequests c) = None ->
        forall chunks : list Buffer,
          Forall (fun chunk => chunk <> []) chunks ->
          List.concat chunks = frame_of payload ->
          feed now chunks c [] = Done c (bytesIn_of chunks))
  /\ (blen payload < 4 ->
      forall chunks : list Buffer,
        Forall (fun chunk => chunk <> []) chunks ->
        List.concat chunks = frame_of payload ->
        (heard RangeError c = true ->
         feed now chunks c []
         = Done (fst (disconnect (noted RangeError c)))
                (bytesIn_of chunks
                 ++ EmitError RangeError :: snd (disconnect (noted RangeError c))))
        /\ (heard RangeError c = false ->
            exists thrown : JsError,
              feed now chunks c []
              = Uncaught thrown
                  (set_buffer (Some (frame_of payload)) (noted RangeError c))
                  (bytesIn_of chunks ++ [EmitError RangeError])))
  /\ (forall (chunks : list Buffer) (rest : Buffer),
        chunks <> [] -> rest <> [] ->
        List.concat chunks ++ rest = frame_of payload ->
        feed now chunks c []
        = Done (set_buffer (Some (List.concat chunks)) c) (bytesIn_of chunks))
  /\ (forall (rest : Buffer) (c' : BrokerConnection.t) (events : list Emitted),
        incomplete rest ->
        handleIncomingData now (frame_of payload) c
        = Done c' (EmitBytesIn (blen (frame_of payload)) :: events) ->
        handleIncomingData now (frame_of payload ++ rest) c
        = Done (set_buffer (buffer_of rest) c')
               (EmitBytesIn (blen (frame_of payload ++ rest)) :: events)).
Proof.
  intros Hs Hbuf.
  assert (Hp : pending c = []) by (unfold pending; now rewrite Hbuf).
  assert (Hfeed : forall chunks : list Buffer,
             Forall (fun chunk => chunk <> []) chunks ->
             List.concat chunks = frame_of payload ->
             feed now chunks c []
             = buffered (frame_of payload) []
                 (emitted (bytesIn_of chunks) (handleResponse now payload c))).
  { intros chunks Hne Hcat.
    assert (Hnn : chunks <> []).
    { intros ->. apply (f_equal blen) in Hcat. rewrite blen_frame_of in Hcat.
      pose proof (blen_nonneg payload). change (blen (List.concat [])) with 0 in Hcat.
      lia. }
    now rewrite (feed_frame now payload chunks Hs Hne Hnn c []) by (now rewrite Hp). }
  split; [|split; [|split; [|split]]].
  - intros header request Hdec Hget. split; [|split].
    + intros chunks Hne Hcat. rewrite (Hfeed chunks Hne Hcat).
      rewrite (handleResponse_matched now payload header request c Hdec Hget).
      cbn [emitted buffered buffer_of]. f_equal.
      change None with (buffer_of []). cbn [buffer_of]. rewrite <- Hbuf.
      change (buffer c)
        with (buffer (resolved (ResponseHeader.correlationId header) request payload c)).
      apply set_buffer_same.
    + apply Map_get_Map_delete.
    + intros Hpending. unfold resolved. cbn [promises set_promises].
      unfold settle. rewrite Hpending. apply list_lookup_insert_eq.
      now apply lookup_lt_Some in Hpending.
  - intros header Hdec Hget chunks Hne Hcat. rewrite (Hfeed chunks Hne Hcat).
    rewrite (handleResponse_unmatched now payload header c Hdec Hget).
    cbn [emitted buffered buffer_of]. rewrite app_nil_r. f_equal.
    rewrite <- Hbuf. apply set_buffer_same.
  - intros Hshort chunks Hne Hcat. rewrite (Hfeed chunks Hne Hcat).
    rewrite (handleResponse_undecodable now payload RangeError c)
      by now apply ResponseHeader_decode_short.
    split.
    + intros Hheard. pose proof (onError_buffer RangeError c) as Hb.
      rewrite (onError_heard RangeError c Hheard) in *.
      cbn [emitted buffered buffer_of]. f_equal.
      specialize (Hb _ eq_refl). rewrite Hbuf in Hb. rewrite <- Hb.
      apply set_buffer_same.
    + intros Hheard.
      destruct (onError_unheard RangeError c Hheard) as (thrown & _ & ->).
      exists thrown. reflexivity.
  - intros chunks rest Hnn Hrest Hcat.
    rewrite (feed_incomplete now chunks Hnn c []).
    + now rewrite Hp.
    + rewrite Hp. cbn [app].
      exact (strict_prefix_incomplete _ rest payload Hcat Hrest Hs).
  - intros rest c' events Hinc Hframe.
    rewrite (handleIncomingData_frame now (frame_of payload) payload [] c) in Hframe
      by (rewrite ?Hp, ?app_nil_r; auto using incomplete_nil).
    rewrite (handleIncomingData_frame now (frame_of payload ++ rest) payload rest c)
      by (rewrite ?Hp; auto).
    destruct (handleResponse now payload c) as [c1 ev|e c1 ev|];
      cbn [emitted buffered app buffer_of] in *; try discriminate.
    injection Hframe as <- <-. reflexivity.
Qed.

Lemma frame_reassembly_witness :
  blen example_response <= 2 ^ 31 - 1
  /\ BrokerConnection.buffer example_connection = None
  /\ feed 1500 [[x00]; [x00; x00; x06]; [x00; x00; x00]; [x01; x2a]; [x2b]]
       example_connection []
     = Done (resolved 1 example_request example_response example_connection)
         (bytesIn_of [[x00]; [x00; x00; x06]; [x00; x00; x00]; [x01; x2a]; [x2b]]
            ++ [EmitResponse ApiKeys.METADATA 1 1 500])
  /\ promises (resolved 1 example_request example_response example_connection)
       !! 0%nat
     = Some (Resolved [x2a; x2b])
  /\ feed 1500 [[x00; x00; x00]; [x06; x00]] example_connection []
     = Done (set_buffer (Some [x00; x00; x00; x06; x00]) example_connection)
            (bytesIn_of [[x00; x00; x00]; [x06; x00]]).
Proof.
  assert (Hs : blen example_response <= 2 ^ 31 - 1) by (vm_compute; discriminate).
  assert (Hb : BrokerConnection.buffer example_connection = None)
    by (vm_compute; reflexivity).
  destruct (frame_reassembly 1500 example_response example_connection Hs Hb)
    as (Hmatched & _ & _ & Hshort & _).
  destruct (Hmatched (ResponseHeader.mk 1 4) example_request)
    as (Hsplit & _ & Hresolved); [vm_compute; reflexivity..|].
  split; [exact Hs|]. split; [exact Hb|]. split; [|split].
  - apply Hsplit; [|vm_compute; reflexivity].
    repeat (apply Forall_cons_2; [discriminate|]). apply Forall_nil_2.
  - apply Hresolved. vm_compute. reflexivity.
  - apply (Hshort [[x00; x00; x00]; [x06; x00]] [x00; x00; x01; x2a; x2b]);
      [discriminate | discriminate | vm_compute; reflexivity].
Defined.

(** A complete frame whose payload is too short for a header, on the
    connection of the example, where nothing listens to ['error']: the
    handler throws, the state is CONNECTED as before, the request stays in
    flight and the frame stays in the buffer.  With a listener registered
    first, the connection is closed and the request rejected. *)
Lemma short_frame_example :
  handleIncomingData 1500 (frame_of [x2a; x2b]) example_connection
  = Uncaught RangeError
      (set_buffer (Some (frame_of [x2a; x2b]))
         (set_connectionError (Some RangeError) example_connection))
      [EmitBytesIn 6; EmitError RangeError]
  /\ option_map
       (fun c => (state c, promises c !! 0%nat, buffer c))
       (run [CallOn quiet_listener; SocketData 1500 (frame_of [x2a; x2b])]
          example_connection)
     = Some (DISCONNECTED,
             Some (Rejected (DisconnectedError "Connection closed")), None).
Proof. split; vm_compute; reflexivity. Qed.


(** ** Promises settle once *)

Lemma settle_lookup (p q : nat) (o : PromiseState) (ps : list PromiseState) :
  settle p o ps !! q
  = if decide (p = q)
    then match ps !! q with
         | Some Pending => Some o
         | other => other
         end
    else ps !! q.
Proof.
  unfold settle. destruct (decide (p = q)) as [->|Hne].
  - destruct (ps !! q) as [[| |]|] eqn:Hq; try assumption.
    apply list_lookup_insert_eq. now apply lookup_lt_Some in Hq.
  - destruct (ps !! p) as [[| |]|]; try reflexivity.
    now apply list_lookup_insert_ne.
Qed.

Lemma settle_length (p : nat) (o : PromiseState) (ps : list PromiseState) :
  List.length (settle p o ps) = List.length ps.
Proof.
  unfold settle. destruct (ps !! p) as [[| |]|]; try reflexivity.
  apply length_insert.
Qed.

Lemma evolves_refl (P : PromiseState -> Prop) (ps : list PromiseState) :
  evolves P ps ps.
Proof.
  intros q. destruct (ps !! q) as [[| |]|]; try reflexivity.
  - intros s [= <-]. now left.
  - discriminate.
Qed.

Lemma evolves_trans (P : PromiseState -> Prop) (ps1 ps2 ps3 : list PromiseState) :
  evolves P ps1 ps2 -> evolves P ps2 ps3 -> evolves P ps1 ps3.
Proof.
  intros H12 H23 q. specialize (H12 q). specialize (H23 q).
  destruct (ps1 !! q) as [[| |]|].
  - intros s Hs. destruct (ps2 !! q) as [[| |]|] eqn:H2.
    + now apply H23.
    + rewrite H23 in Hs. injection Hs as <-. now apply H12.
    + rewrite H23 in Hs. injection Hs as <-. now apply H12.
    + now apply H23.
  - now rewrite H12 in H23.
  - now rewrite H12 in H23.
  - intros s Hs. destruct (ps2 !! q) as [[| |]|] eqn:H2.
    + now apply H23.
    + rewrite H23 in Hs. injection Hs as <-. now apply H12.
    + rewrite H23 in Hs. injection Hs as <-. now apply H12.
    + now apply H23.
Qed.

Lemma evolves_weaken (P Q : PromiseState -> Prop) (ps ps' : list PromiseState) :
  (forall s, P s -> Q s) -> evolves P ps ps' -> evolves Q ps ps'.
Proof.
  intros HPQ H q. specialize (H q).
  destruct (ps !! q) as [[| |]|]; try assumption;
    intros s Hs; destruct (H s Hs); auto.
Qed.

Lemma evolves_settle (P : PromiseState -> Prop) (p : nat) (o : PromiseState)
    (ps : list PromiseState) :
  P o -> evolves P ps (settle p o ps).
Proof.
  intros Ho q. rewrite settle_lookup.
  destruct (decide (p = q)) as [->|Hne]; destruct (ps !! q) as [[| |]|];
    try reflexivity; try discriminate; intros s [= <-]; auto.
Qed.

Lemma evolves_app_Pending (P : PromiseState -> Prop) (ps : list PromiseState) :
  evolves P ps (ps ++ [Pending]).
Proof.
  intros q. destruct (ps !! q) as [s|] eqn:Hq.
  - rewrite (lookup_app_l_Some _ _ _ _ Hq).
    destruct s; try reflexivity. intros s [= <-]. now left.
  - intros s Hs. apply lookup_ge_None in Hq.
    rewrite lookup_app_r in Hs by assumption.
    destruct (q - List.length ps)%nat; [|discriminate].
    injection Hs as <-. now left.
Qed.

Lemma evolves_rejectAll (P : PromiseState -> Prop) (error : JsError)
    (m : list (Z * InFlightRequest)) (ps : list PromiseState) :
  P (Rejected error) -> evolves P ps (rejectAll error m ps).
Proof.
  intros HP. unfold rejectAll. revert ps.
  induction m as [|e m IH]; intros ps; [apply evolves_refl|].
  cbn [fold_left]. eapply evolves_trans; [|apply IH].
  now apply evolves_settle.
Qed.

Lemma terminal_from_write (fw : JsError -> Prop) (e : JsError) :
  fw e -> terminal fw (Rejected e).
Proof. intros H. destruct e; simpl; auto. Qed.

Lemma terminal_weaken (fw fw' : JsError -> Prop) (s : PromiseState) :
  (forall e, fw e -> fw' e) -> terminal fw s -> terminal fw' s.
Proof. intros H. destruct s as [| |[]]; simpl; auto. Qed.

Section HandlersEvolve.
Variable fw : JsError -> Prop.

Lemma disconnect_evolves (c : t) :
  evolves (terminal fw) (promises c) (promises (fst (disconnect c))).
Proof.
  unfold disconnect. destruct (state c); cbn; try apply evolves_refl;
    now apply evolves_rejectAll.
Qed.

Lemma onError_evolves (e : JsError) (c c' : t) :
  after (onError e c) = Some c' ->
  evolves (terminal fw) (promises c) (promises c').
Proof.
  destruct (noted_fields e c) as [ls Hn].
  destruct (onError_cases e c) as [[_ ->]|[_ [thrown ->]]]; cbn [after];
    intros [= <-].
  - pose proof (disconnect_evolves (noted e c)) as H. rewrite Hn in H at 1. exact H.
  - rewrite Hn. apply evolves_refl.
Qed.

Lemma onDisconnect_evolves (error : option JsError) (c : t) :
  match error with
  | Some (DisconnectedError _) | None => True
  | _ => False
  end ->
  evolves (terminal fw) (promises c) (promises (fst (onDisconnect error c))).
Proof.
  intros He. unfold onDisconnect. cbn. apply evolves_rejectAll.
  destruct error as [[]|]; try contradiction; exact I.
Qed.

Lemma handleResponse_evolves (now : Z) (m : Buffer) (c c' : t) :
  after (handleResponse now m c) = Some c' ->
  evolves (terminal fw) (promises c) (promises c').
Proof.
  destruct (handleResponse_cases now m c)
    as [(header & request & Hdec & Hget & ->)|[(header & Hdec & Hget & ->)|[Hlen ->]]].
  - intros [= <-]. unfold resolved. cbn [promises set_promises set_inFlightRequests].
    now apply evolves_settle.
  - intros [= <-]. apply evolves_refl.
  - apply onError_evolves.
Qed.

Lemma processMessages_evolves (fuel : nat) (now : Z) (buf : Buffer) :
  forall processed c events c',
    loop_end (processMessages fuel now buf processed c events) = Some c' ->
    evolves (terminal fw) (promises c) (promises c').
Proof.
  induction fuel as [|fuel IH]; intros processed c events c' H; [discriminate|].
  rewrite processMessages_S in H.
  destruct (processed <? blen buf); [|injection H as <-; apply evolves_refl].
  destruct (blen buf - processed <? 4); [injection H as <-; apply evolves_refl|].
  destruct (Buf.readInt32BE buf processed) as [messageSize|e];
    [|injection H as <-; apply evolves_refl].
  destruct (_ <? messageSize); [injection H as <-; apply evolves_refl|].
  pose proof (handleResponse_evolves now
                (Buf.slice buf (processed + 4) (processed + 4 + messageSize)) c) as Hh.
  destruct (handleResponse now _ c) as [c1 ev1|e c1 ev1|]; [| |discriminate].
  - apply IH in H. eapply evolves_trans; [now apply Hh | exact H].
  - injection H as <-. now apply Hh.
Qed.

Lemma handleIncomingData_evolves (now : Z) (data : Buffer) (c c' : t) :
  after (handleIncomingData now data c) = Some c' ->
  evolves (terminal fw) (promises c) (promises c').
Proof.
  unfold handleIncomingData. intros H.
  pose proof (processMessages_evolves
                (S (List.length
                      match buffer c with
                      | Some b => Buf.concat b data
                      | None => data
                      end)) now
                match buffer c with
                | Some b => Buf.concat b data
                | None => data
                end 0
                (set_buffer (Some match buffer c with
                                  | Some b => Buf.concat b data
                                  | None => data
                                  end) c)
                [EmitBytesIn (blen data)]) as Hp.
  destruct (processMessages _ now _ 0 _ _) as [c1 ev1 processed|e c1 ev1|];
    [| |discriminate].
  - specialize (Hp c1 eq_refl). cbn in Hp.
    destruct (processed =? 0); [|destruct (processed <? _)];
      injection H as <-; exact Hp.
  - injection H as <-. exact (Hp c1 eq_refl).
Qed.

Lemma send_evolves (k v : Z) (data : Buffer) (timeout : option Z) (now : Z) (c : t) :
  evolves (terminal fw) (promises c)
    (promises (fst (fst (send k v data timeout now c)))).
Proof.
  unfold send. destruct (isConnected c); cbn [negb]; [|apply evolves_refl].
  cbn [nextCorrelationId].
  destruct (RequestHeader.encode _) as [headerBuffer|e]; [|apply evolves_refl].
  destruct (_ <? _); [apply evolves_refl|].
  destruct (Buf.writeInt32BE _ _ 0) as [request|e]; [|apply evolves_refl].
  cbn. apply evolves_app_Pending.
Qed.

Lemma sweep_fold_evolves (now : Z) (l : list (Z * InFlightRequest)) :
  forall acc,
    evolves (terminal fw) (snd acc) (snd (fold_left (sweepEntry now) l acc)).
Proof.
  induction l as [|[k r] l IH]; intros acc; [apply evolves_refl|].
  cbn [fold_left]. eapply evolves_trans; [|apply IH].
  unfold sweepEntry. destruct (_ <? _); [|apply evolves_refl].
  cbn [snd]. now apply evolves_settle.
Qed.

Lemma sweep_evolves (now : Z) (c : t) :
  evolves (terminal fw) (promises c) (promises (sweep now c)).
Proof.
  unfold sweep.
  pose proof (sweep_fold_evolves now (inFlightRequests c)
                (inFlightRequests c, promises c)) as H.
  destruct (fold_left _ _ _). exact H.
Qed.

Lemma onWriteError_evolves (i : nat) (e : JsError) (c : t) :
  fw e -> evolves (terminal fw) (promises c) (promises (onWriteError i e c)).
Proof.
  intros He. unfold onWriteError.
  destruct (written c !! i) as [[[frame k] p]|]; [|apply evolves_refl].
  cbn. apply evolves_settle. now apply terminal_from_write.
Qed.

End HandlersEvolve.

Lemma step_evolves (ev : Event) (c c' : t) :
  after (step ev c) = Some c' ->
  evolves (terminal (fun e => exists i, ev = WriteError i e))
          (promises c) (promises c').
Proof.
  destruct ev; cbn [step]; intros H.
  - injection H as <-. unfold connect.
    destruct (state c); apply evolves_refl.
  - pose proof (disconnect_evolves (fun e => exists i, CallDisconnect = WriteError i e) c)
      as Hd. destruct (disconnect c). now injection H as <-.
  - pose proof (send_evolves
                  (fun e => exists i,
                     CallSend apiKey0 apiVersion0 requestData0 timeout0 now
                     = WriteError i e)
                  apiKey0 apiVersion0 requestData0 timeout0 now c) as Hs.
    destruct (send _ _ _ _ _ c) as [[c1 ev1] r]. now injection H as <-.
  - injection H as <-. apply evolves_refl.
  - injection H as <-. apply evolves_refl.
  - injection H as <-. apply evolves_refl.
  - unfold onSocketConnect, startRequestTimeoutTimer in H. injection H as <-.
    cbn. destruct (requestTimeoutInterval c); apply evolves_refl.
  - eapply handleIncomingData_evolves. exact H.
  - eapply onError_evolves. exact H.
  - pose proof (onDisconnect_evolves (fun e => exists i, SocketEnd = WriteError i e)
                  (Some (DisconnectedError "Broker closed connection")) c I) as Hd.
    destruct (onDisconnect _ c). now injection H as <-.
  - destruct hadError.
    + injection H as <-. apply evolves_refl.
    + pose proof (onDisconnect_evolves
                    (fun e => exists i, SocketClose false = WriteError i e) None c I)
        as Hd.
      destruct (onDisconnect None c). now injection H as <-.
  - eapply onError_evolves. exact H.
  - destruct (connectionTimeoutTimer c).
    + injection H as <-. apply evolves_refl.
    + apply (onError_evolves _ _ _ _ H).
    + injection H as <-. apply evolves_refl.
  - injection H as <-. apply onWriteError_evolves. eauto.
  - destruct (_ || _); injection H as <-;
      [apply sweep_evolves | apply evolves_refl].
Qed.

Lemma run_evolves (evs : list Event) :
  forall c c',
    run evs c = Some c' ->
    evolves (terminal (fun e => exists i, In (WriteError i e) evs))
            (promises c) (promises c').
Proof.
  induction evs as [|ev evs IH]; intros c c' H; cbn [run] in H.
  - injection H as <-. apply evolves_refl.
  - destruct (after (step ev c)) as [c1|] eqn:Hs; try discriminate.
    eapply evolves_trans.
    + eapply evolves_weaken; [|apply (step_evolves _ _ _ Hs)].
      intros s. apply terminal_weaken. intros e [i ->]. exists i. now left.
    + eapply evolves_weaken; [|apply (IH _ _ H)].
      intros s. apply terminal_weaken. intros e [i Hi]. exists i. now right.
Qed.

(** ** Requests stay registered until they settle *)

Lemma NoDup_map_filter {A B : Type} (g : A -> B) (f : A -> bool) (l : list A) :
  NoDup (map g l) -> NoDup (map g (List.filter f l)).
Proof.
  induction l as [|x l IH]; intros Hnd; [constructor|].
  cbn [map] in Hnd. apply NoDup_cons in Hnd as [Hx Hnd]. cbn [List.filter].
  destruct (f x); [|now apply IH].
  cbn [map]. apply NoDup_cons. split; [|now apply IH].
  intros Hin. apply Hx. apply list_elem_of_In in Hin. apply list_elem_of_In.
  apply in_map_iff in Hin as (y & Hy & Hiny). apply filter_In in Hiny as [Hiny _].
  apply in_map_iff. eauto.
Qed.

Lemma Map_delete_In (k : Z) (m : list (Z * InFlightRequest)) (e : Z * InFlightRequest) :
  In e (Map_delete k m) <-> In e m /\ fst e <> k.
Proof.
  unfold Map_delete. rewrite filter_In.
  destruct (Z.eqb_spec (fst e) k); cbn [negb]; intuition congruence.
Qed.

Lemma Map_get_Some (k : Z) (m : list (Z * InFlightRequest)) (r : InFlightRequest) :
  Map_get k m = Some r -> In (k, r) m.
Proof.
  unfold Map_get. destruct (List.find _ m) as [[k' r']|] eqn:Hf; [|discriminate].
  intros [= <-]. apply find_some in Hf as [Hin Hk]. cbn in Hk.
  apply Z.eqb_eq in Hk. now subst.
Qed.

Lemma Map_get_None (k : Z) (m : list (Z * InFlightRequest)) :
  Map_get k m = None <-> forall e, In e m -> fst e <> k.
Proof.
  unfold Map_get. split.
  - destruct (List.find _ m) eqn:Hf; [discriminate|]. intros _ e Hin Hk.
    pose proof (find_none _ _ Hf e Hin) as Hb. cbn in Hb.
    apply Z.eqb_neq in Hb. contradiction.
  - intros Hall. destruct (List.find _ m) as [e|] eqn:Hf; [|reflexivity].
    apply find_some in Hf as [Hin Hk]. apply Z.eqb_eq in Hk.
    now destruct (Hall e Hin).
Qed.

Lemma Map_get_In (k : Z) (m : list (Z * InFlightRequest)) (r : InFlightRequest) :
  NoDup (map fst m) -> In (k, r) m -> Map_get k m = Some r.
Proof.
  intros Hnd Hin. destruct (Map_get k m) as [r'|] eqn:Hg.
  - apply Map_get_Some in Hg. f_equal.
    assert (Heq : (k, r') = (k, r))
      by (apply (NoDup_map_In_inj fst m); auto).
    congruence.
  - rewrite Map_get_None in Hg. now destruct (Hg _ Hin).
Qed.

Lemma Map_set_fresh (k : Z) (r : InFlightRequest) (m : list (Z * InFlightRequest)) :
  (forall e, In e m -> fst e <> k) -> Map_set k r m = m ++ [(k, r)].
Proof.
  induction m as [|e m IH]; intros Hfresh; [reflexivity|]. cbn [Map_set].
  destruct (Z.eqb_spec (fst e) k) as [E|_].
  - now destruct (Hfresh e (or_introl eq_refl)).
  - cbn [app]. f_equal. apply IH. intros e' He'. apply Hfresh. now right.
Qed.

Lemma rejectAll_length (error : JsError) (m : list (Z * InFlightRequest)) :
  forall ps, List.length (rejectAll error m ps) = List.length ps.
Proof.
  unfold rejectAll. induction m as [|e m IH]; intros ps; [reflexivity|].
  cbn [fold_left]. now rewrite IH, settle_length.
Qed.

Lemma rejectAll_not_pending (error : JsError) (m : list (Z * InFlightRequest)) :
  forall ps e, In e m -> rejectAll error m ps !! promise_of e <> Some Pending.
Proof.
  unfold rejectAll. induction m as [|x m IH]; intros ps e Hin; [contradiction|].
  cbn [fold_left]. destruct Hin as [->|Hin]; [|now apply IH].
  pose proof (evolves_rejectAll (fun _ => True) error m
                (settle (promise_of e) (Rejected error) ps) I (promise_of e)) as He.
  rewrite settle_lookup in He. unfold rejectAll, promise_of in *.
  destruct (decide (promise (snd e) = promise (snd e))) as [_|]; [|congruence].
  destruct (ps !! promise (snd e)) as [[| |]|] eqn:Hp.
  - rewrite He. discriminate.
  - rewrite He. discriminate.
  - rewrite He. discriminate.
  - intros Hs. pose proof (lookup_lt_Some _ _ _ Hs) as Hlt.
    pose proof (rejectAll_length error m (settle (promise (snd e)) (Rejected error) ps))
      as Hl. unfold rejectAll in Hl. rewrite Hl, settle_length in Hlt.
    apply lookup_ge_None in Hp. lia.
Qed.

Lemma registered_delete_settle (c c' : t) (k : Z) (p : nat) (o : PromiseState) :
  registered c ->
  inFlightRequests c' = Map_delete k (inFlightRequests c) ->
  promises c' = settle p o (promises c) ->
  correlationIdCounter c' = correlationIdCounter c ->
  written c' = written c -> state c' = state c ->
  (forall e, In e (inFlightRequests c) -> fst e = k <-> promise_of e = p) ->
  o <> Pending ->
  registered c'.
Proof.
  intros [Hk Hp Hpend Htab [Hc0 Hc] Hw Hst] Et Ep Ec Ew Es Hiff Ho.
  constructor; rewrite ?Et, ?Ep, ?Ec, ?Ew, ?Es.
  - now apply NoDup_map_filter.
  - now apply NoDup_map_filter.
  - intros e He. apply Map_delete_In in He as [He Hne].
    rewrite settle_lookup.
    destruct (decide (p = promise_of e)) as [E|_]; [|now apply Hpend].
    symmetry in E. apply (Hiff e He) in E. contradiction.
  - intros q Hq. rewrite settle_lookup in Hq.
    destruct (decide (p = q)) as [->|Hne].
    + destruct (promises c !! q) as [[| |]|]; congruence.
    + destruct (Htab q Hq) as (e & He & Hpe). exists e. split; [|assumption].
      apply Map_delete_In. split; [assumption|].
      intros Hke. apply (Hiff e He) in Hke. congruence.
  - split; [assumption|]. intros e He. apply Map_delete_In in He as [He _]. auto.
  - intros frame k' p' Hin. destruct (Hw frame k' p' Hin) as (Hk' & Hp' & Hi).
    split; [assumption|]. split; [now rewrite settle_length|].
    intros e He. apply Map_delete_In in He as [He _]. auto.
  - destruct Hst as [Hnil|Hcon]; [left; now rewrite Hnil | now right].
Qed.

Lemma registered_clear (c c' : t) (error : JsError) :
  registered c ->
  inFlightRequests c' = [] ->
  promises c' = rejectAll error (inFlightRequests c) (promises c) ->
  correlationIdCounter c' = correlationIdCounter c ->
  written c' = written c ->
  registered c'.
Proof.
  intros [Hk Hp Hpend Htab [Hc0 Hc] Hw Hst] Et Ep Ec Ew.
  constructor; rewrite ?Et, ?Ep, ?Ec, ?Ew; cbn [map].
  - constructor.
  - constructor.
  - intros e [].
  - intros q Hq. exfalso.
    pose proof (evolves_rejectAll (fun _ => True) error (inFlightRequests c)
                  (promises c) I q) as He.
    destruct (promises c !! q) as [[| |]|] eqn:Hq0.
    + destruct (Htab q Hq0) as (e & Hin & <-).
      exact (rejectAll_not_pending error _ (promises c) e Hin Hq).
    + congruence.
    + congruence.
    + apply lookup_lt_Some in Hq. rewrite rejectAll_length in Hq.
      apply lookup_ge_None in Hq0. lia.
  - split; [assumption|]. intros e [].
  - intros frame k' p' Hin. destruct (Hw frame k' p' Hin) as (Hk' & Hp' & Hi).
    split; [assumption|]. split; [now rewrite rejectAll_length|]. intros e [].
  - now left.
Qed.

Lemma registered_same (c c' : t) :
  registered c ->
  inFlightRequests c' = inFlightRequests c ->
  promises c' = promises c ->
  correlationIdCounter c <= correlationIdCounter c' ->
  written c' = written c ->
  (inFlightRequests c = [] \/ state c' = CONNECTED) ->
  registered c'.
Proof.
  intros [Hk Hp Hpend Htab [Hc0 Hc] Hw Hst] Et Ep Ec Ew Es.
  constructor; rewrite ?Et, ?Ep, ?Ew; try assumption.
  - split; [lia|]. intros e He. specialize (Hc e He). lia.
  - intros frame k' p' Hin. destruct (Hw frame k' p' Hin) as (Hk' & Hp' & Hi).
    split; [lia|]. now split.
Qed.

Lemma registered_add (c c' : t) (k : Z) (r : InFlightRequest) (frame : Buffer) :
  registered c ->
  correlationIdCounter c < k ->
  promise r = List.length (promises c) ->
  inFlightRequests c' = Map_set k r (inFlightRequests c) ->
  promises c' = promises c ++ [Pending] ->
  correlationIdCounter c' = k ->
  written c' = written c ++ [(frame, k, promise r)] ->
  state c' = CONNECTED ->
  registered c'.
Proof.
  intros [Hk Hp Hpend Htab [Hc0 Hc] Hw Hst] Hfresh Hpr Et Ep Ec Ew Es.
  assert (Hkfresh : forall e, In e (inFlightRequests c) -> fst e <> k).
  { intros e He. specialize (Hc e He). lia. }
  assert (Hpfresh : forall e, In e (inFlightRequests c) ->
                      (promise_of e < List.length (promises c))%nat).
  { intros e He. exact (lookup_lt_Some _ _ _ (Hpend e He)). }
  rewrite (Map_set_fresh k r _ Hkfresh) in Et.
  constructor; rewrite ?Et, ?Ep, ?Ec, ?Ew, ?map_app; cbn [map].
  - apply NoDup_app. split; [assumption|]. split; [|apply NoDup_singleton].
    intros x Hx Hx'. apply list_elem_of_In in Hx. apply list_elem_of_In in Hx'.
    destruct Hx' as [<-|[]]. apply in_map_iff in Hx as (e & He & Hin).
    now apply (Hkfresh e Hin).
  - apply NoDup_app. split; [assumption|]. split; [|apply NoDup_singleton].
    intros x Hx Hx'. apply list_elem_of_In in Hx. apply list_elem_of_In in Hx'.
    destruct Hx' as [<-|[]]. apply in_map_iff in Hx as (e & He & Hin).
    specialize (Hpfresh e Hin). unfold promise_of in *. cbn [snd] in He. lia.
  - intros e He. apply in_app_iff in He as [He|[<-|[]]].
    + rewrite lookup_app_l by now apply Hpfresh. now apply Hpend.
    + unfold promise_of. cbn [snd]. rewrite Hpr.
      rewrite lookup_app_r by lia. now rewrite Nat.sub_diag.
  - intros q Hq. destruct (Nat.lt_ge_cases q (List.length (promises c))) as [Hlt|Hge].
    + rewrite lookup_app_l in Hq by assumption.
      destruct (Htab q Hq) as (e & He & Hpe). exists e. split; [|assumption].
      apply in_app_iff. now left.
    + exists (k, r). split; [apply in_app_iff; right; now left|].
      unfold promise_of. cbn [snd]. rewrite Hpr.
      apply lookup_lt_Some in Hq. rewrite length_app in Hq. cbn in Hq. lia.
  - split; [lia|]. intros e He. apply in_app_iff in He as [He|[<-|[]]].
    + specialize (Hc e He). lia.
    + cbn. lia.
  - intros frame' k' p' Hin. rewrite length_app. cbn [List.length].
    apply in_app_iff in Hin as [Hin|[[= <- <- <-]|[]]].
    + destruct (Hw frame' k' p' Hin) as (Hk' & Hp' & Hi).
      split; [lia|]. split; [lia|].
      intros e He. apply in_app_iff in He as [He|[<-|[]]]; [now apply Hi|].
      unfold promise_of. cbn [fst snd]. rewrite Hpr. split; lia.
    + split; [lia|]. split; [lia|].
      intros e He. apply in_app_iff in He as [He|[<-|[]]].
      * specialize (Hkfresh e He). specialize (Hpfresh e He). split; [contradiction|].
        unfold promise_of in *. lia.
      * unfold promise_of. cbn [fst snd]. tauto.
  - now right.
Qed.

Lemma registered_entries_agree (c : t) (e e' : Z * InFlightRequest) :
  registered c -> In e (inFlightRequests c) -> In e' (inFlightRequests c) ->
  fst e' = fst e <-> promise_of e' = promise_of e.
Proof.
  intros Hreg He He'. split; intros E.
  - now rewrite (NoDup_map_In_inj fst _ e' e (reg_keys c Hreg) He' He E).
  - now rewrite (NoDup_map_In_inj promise_of _ e' e (reg_promises c Hreg) He' He E).
Qed.

Lemma disconnect_registered (c : t) :
  registered c ->
  registered (fst (disconnect c)) /\
  correlationIdCounter (fst (disconnect c)) = correlationIdCounter c.
Proof.
  intros Hreg. unfold disconnect.
  destruct (state c) eqn:Hs; cbn [fst]; (split; [|reflexivity]); try assumption;
    now apply (registered_clear c _ (DisconnectedError "Connection closed")).
Qed.

Lemma registered_set_buffer (b : option Buffer) (c : t) :
  registered c -> registered (set_buffer b c).
Proof.
  intros Hreg.
  apply (registered_same c _ Hreg);
    [reflexivity | reflexivity | apply Z.le_refl | reflexivity | ].
  destruct (reg_state c Hreg); [now left | now right].
Qed.

Lemma registered_noted (error : JsError) (c : t) :
  registered c -> registered (noted error c).
Proof.
  intros Hreg. destruct (noted_fields error c) as [ls ->].
  apply (registered_same c _ Hreg);
    [reflexivity | reflexivity | apply Z.le_refl | reflexivity | ].
  destruct (reg_state c Hreg); [now left | now right].
Qed.

Lemma noted_correlationIdCounter (error : JsError) (c : t) :
  correlationIdCounter (noted error c) = correlationIdCounter c.
Proof. now destruct (noted_fields error c) as [ls ->]. Qed.

Lemma onError_registered (error : JsError) (c c' : t) :
  after (onError error c) = Some c' ->
  registered c ->
  registered c' /\ correlationIdCounter c' = correlationIdCounter c.
Proof.
  intros H Hreg. pose proof (registered_noted error c Hreg) as Hn.
  pose proof (noted_correlationIdCounter error c) as Hc.
  destruct (onError_cases error c) as [[_ Ho]|[_ [thrown Ho]]]; rewrite Ho in H;
    injection H as <-.
  - destruct (disconnect_registered _ Hn) as [Hd Hcd]. split; [assumption|congruence].
  - now split.
Qed.

Lemma onDisconnect_registered (error : option JsError) (c : t) :
  registered c ->
  registered (fst (onDisconnect error c)) /\
  correlationIdCounter (fst (onDisconnect error c)) = correlationIdCounter c.
Proof.
  intros Hreg. unfold onDisconnect. cbn [fst]. split; [|reflexivity].
  now eapply (registered_clear c).
Qed.

(** The throttle read of [handleResponse] is guarded by the length check. *)
Lemma throttle_read_in_bounds (m : Buffer) (header : ResponseHeader.t) :
  ResponseHeader.decode m = Ok header ->
  (ResponseHeader.size header + 4 <=? blen m) = true ->
  exists throttle, Buf.readInt32BE m (ResponseHeader.size header) = Ok throttle.
Proof.
  unfold ResponseHeader.decode. intros Hd Hlen.
  destruct (Buf.readInt32BE m 0); [|discriminate]. cbn in Hd.
  injection Hd as <-. cbn [ResponseHeader.size] in *.
  unfold Buf.readInt32BE, Buf.readIntBE, Buf.readUIntBE, Buf.in_bounds.
  replace (0 <=? 0 + 4) with true by reflexivity. cbn [andb].
  change (Z.of_nat 4) with 4. rewrite Hlen. cbn [bind]. eauto.
Qed.

Lemma handleResponse_registered (now : Z) (m : Buffer) (c c' : t) :
  after (handleResponse now m c) = Some c' ->
  registered c ->
  registered c' /\ correlationIdCounter c' = correlationIdCounter c.
Proof.
  intros H Hreg.
  destruct (handleResponse_cases now m c)
    as [(header & request & Hdec & Hget & Ho)|[(header & Hdec & Hget & Ho)|[Hlen Ho]]];
    rewrite Ho in H.
  - injection H as <-. split; [|reflexivity].
    apply Map_get_Some in Hget.
    eapply (registered_delete_settle c); try reflexivity; [assumption| |discriminate].
    intros e He.
    exact (registered_entries_agree c
             (ResponseHeader.correlationId header, request) e Hreg Hget He).
  - injection H as <-. now split.
  - now apply (onError_registered RangeError c).
Qed.

Lemma processMessages_registered (fuel : nat) (now : Z) (buf : Buffer) :
  forall processed c events c',
    loop_end (processMessages fuel now buf processed c events) = Some c' ->
    registered c ->
    registered c' /\ correlationIdCounter c' = correlationIdCounter c.
Proof.
  induction fuel as [|fuel IH]; intros processed c events c' H Hreg; [discriminate|].
  rewrite processMessages_S in H.
  destruct (processed <? blen buf); [|injection H as <-; now split].
  destruct (blen buf - processed <? 4); [injection H as <-; now split|].
  destruct (Buf.readInt32BE buf processed) as [messageSize|e];
    [|injection H as <-; now split].
  destruct (_ <? messageSize); [injection H as <-; now split|].
  pose proof (handleResponse_registered now
                (Buf.slice buf (processed + 4) (processed + 4 + messageSize)) c) as Hh.
  destruct (handleResponse now _ c) as [c1 ev1|e c1 ev1|]; [| |discriminate].
  - destruct (Hh c1 eq_refl Hreg) as [Hreg1 Hc1].
    destruct (IH _ _ _ _ H Hreg1) as [Hreg' Hc']. split; [assumption | congruence].
  - injection H as <-. now apply Hh.
Qed.

Lemma handleIncomingData_registered (now : Z) (data : Buffer) (c c' : t) :
  after (handleIncomingData now data c) = Some c' ->
  registered c ->
  registered c' /\ correlationIdCounter c' = correlationIdCounter c.
Proof.
  unfold handleIncomingData. intros H Hreg.
  pose proof (fun buf => processMessages_registered (S (List.length buf)) now buf 0
                (set_buffer (Some buf) c) [EmitBytesIn (blen data)]) as Hp.
  specialize (Hp match buffer c with
                 | Some b => Buf.concat b data
                 | None => data
                 end).
  destruct (processMessages _ now _ 0 _ _) as [c1 ev1 processed|e c1 ev1|];
    [| |discriminate].
  - destruct (Hp c1 eq_refl (registered_set_buffer _ c Hreg)) as [Hreg1 Hc1].
    cbn in Hc1.
    destruct (processed =? 0); [|destruct (processed <? _)];
      injection H as <-; (split; [|exact Hc1]); try assumption;
      now apply registered_set_buffer.
  - injection H as <-.
    exact (Hp c1 eq_refl (registered_set_buffer _ c Hreg)).
Qed.

Lemma sweep_fold_registered (now : Z) (c : t) (l : list (Z * InFlightRequest)) :
  forall tbl ps,
    registered (set_promises ps (set_inFlightRequests tbl c)) ->
    (forall e e', In e l -> In e' tbl -> fst e' = fst e <-> promise_of e' = promise_of e) ->
    registered
      (set_promises (snd (fold_left (sweepEntry now) l (tbl, ps)))
         (set_inFlightRequests (fst (fold_left (sweepEntry now) l (tbl, ps))) c)).
Proof.
  induction l as [|[k r] l IH]; intros tbl ps Hreg Hagree; [exact Hreg|].
  cbn [fold_left]. unfold sweepEntry at 2 4. cbn [fst snd].
  destruct (timeout r <? now - sentTime r).
  - apply IH.
    + apply (registered_delete_settle
               (set_promises ps (set_inFlightRequests tbl c)) _ k (promise r)
               (Rejected (TimeoutError
                            (requestTimeoutMessage (now - sentTime r) k (apiKey r))))
               Hreg);
        [reflexivity | reflexivity | reflexivity | reflexivity | reflexivity
        | | discriminate].
      intros e He. exact (Hagree (k, r) e (or_introl eq_refl) He).
    + intros e e' He He'. apply Map_delete_In in He' as [He' _].
      apply Hagree; [now right | assumption].
  - apply IH; [assumption|]. intros e e' He He'. apply Hagree; [now right | assumption].
Qed.

Lemma sweep_registered (now : Z) (c : t) :
  registered c ->
  registered (sweep now c) /\
  correlationIdCounter (sweep now c) = correlationIdCounter c.
Proof.
  intros Hreg. unfold sweep.
  pose proof (sweep_fold_registered now c (inFlightRequests c)
                (inFlightRequests c) (promises c)) as H.
  destruct (fold_left (sweepEntry now) (inFlightRequests c) _) as [tbl ps].
  cbn [fst snd] in H. split; [|reflexivity]. apply H.
  - destruct c. exact Hreg.
  - intros e e' He He'. now apply (registered_entries_agree c).
Qed.

Lemma onWriteError_registered (i : nat) (error : JsError) (c : t) :
  registered c ->
  registered (onWriteError i error c) /\
  correlationIdCounter (onWriteError i error c) = correlationIdCounter c.
Proof.
  intros Hreg. unfold onWriteError.
  destruct (written c !! i) as [[[frame k] p]|] eqn:Hw; [|now split].
  split; [|reflexivity].
  eapply (registered_delete_settle c _ k p); try reflexivity;
    [assumption | | discriminate].
  apply list_elem_of_lookup_2, list_elem_of_In in Hw.
  exact (proj2 (proj2 (reg_written c Hreg frame k p Hw))).
Qed.

Lemma connect_registered (c : t) :
  registered c ->
  registered (connect c) /\ correlationIdCounter (connect c) = correlationIdCounter c.
Proof.
  intros Hreg. unfold connect.
  destruct (state c) eqn:Hs; (split; [|reflexivity]); try assumption;
    (apply (registered_same c _ Hreg);
     [reflexivity | reflexivity | apply Z.le_refl | reflexivity | ]);
    destruct (reg_state c Hreg) as [Hnil|Hcon]; try (now left); congruence.
Qed.

Lemma onSocketConnect_registered (c : t) :
  registered c ->
  registered (fst (onSocketConnect c)) /\
  correlationIdCounter (fst (onSocketConnect c)) = correlationIdCounter c.
Proof.
  intros Hreg. unfold onSocketConnect, startRequestTimeoutTimer. cbn [fst].
  cbn [requestTimeoutInterval set_state set_connectionTimeoutTimer].
  destruct (requestTimeoutInterval c); (split; [|reflexivity]);
    (apply (registered_same c _ Hreg);
     [reflexivity | reflexivity | apply Z.le_refl | reflexivity | now right]).
Qed.

Lemma send_registered (k v : Z) (data : Buffer) (timeout : option Z) (now : Z)
    (c : t) :
  registered c -> correlationIdCounter c + 1 < 2147483647 ->
  registered (fst (fst (send k v data timeout now c))) /\
  correlationIdCounter (fst (fst (send k v data timeout now c)))
  <= correlationIdCounter c + 1.
Proof.
  intros Hreg Hwrap. pose proof (proj1 (reg_counter c Hreg)) as Hc0.
  unfold send. destruct (isConnected c) eqn:Hcon; cbn [negb fst];
    [|split; [assumption | lia]].
  assert (Hstate : state c = CONNECTED)
    by (unfold isConnected in Hcon; destruct (state c); congruence).
  cbn [nextCorrelationId].
  rewrite Z.rem_small by lia.
  assert (Hbump : registered
                    (set_correlationIdCounter (correlationIdCounter c + 1) c)).
  { apply (registered_same c _ Hreg);
      [reflexivity | reflexivity | cbn; lia | reflexivity | now right]. }
  destruct (RequestHeader.encode _) as [headerBuffer|e]; [|split; [assumption|cbn; lia]].
  cbn [config set_correlationIdCounter].
  destruct (_ <? _); [split; [assumption|cbn; lia]|].
  destruct (Buf.writeInt32BE _ _ 0) as [request|e]; [|split; [assumption|cbn; lia]].
  cbn [fst]. split; [|cbn; lia].
  eapply (registered_add c _ (correlationIdCounter c + 1)); try reflexivity;
    try assumption; try lia.
  destruct c; reflexivity.
Qed.

Lemma new_registered (config : BrokerConnectionConfig) : registered (new config).
Proof.
  constructor; cbn.
  - constructor.
  - constructor.
  - intros e [].
  - intros q Hq. now rewrite lookup_nil in Hq.
  - split; [lia|]. intros e [].
  - intros frame k p [].
  - now left.
Qed.

Lemma sends_nonneg (evs : list Event) : 0 <= sends evs.
Proof. induction evs as [|[] evs IH]; cbn [sends]; lia. Qed.

Lemma sends_app (evs evs' : list Event) : sends (evs ++ evs') = sends evs + sends evs'.
Proof. induction evs as [|[] evs IH]; cbn [sends app]; lia. Qed.

Lemma step_registered (ev : Event) (c c' : t) :
  after (step ev c) = Some c' ->
  registered c ->
  correlationIdCounter c + sends [ev] < 2147483647 ->
  registered c' /\ correlationIdCounter c' <= correlationIdCounter c + sends [ev].
Proof.
  intros H Hreg Hwrap.
  assert (Hsame : forall c1, registered c1 /\ correlationIdCounter c1 = correlationIdCounter c ->
                    c1 = c' ->
                    registered c' /\
                    correlationIdCounter c' <= correlationIdCounter c + sends [ev]).
  { intros c1 [Hr Hc] <-. split; [assumption|].
    pose proof (sends_nonneg [ev]). lia. }
  assert (Hfield : forall c1,
             inFlightRequests c1 = inFlightRequests c -> promises c1 = promises c ->
             correlationIdCounter c1 = correlationIdCounter c ->
             written c1 = written c -> state c1 = state c ->
             registered c1 /\ correlationIdCounter c1 = correlationIdCounter c).
  { intros c1 Ei Ep Ec Ew Es. split; [|assumption].
    apply (registered_same c _ Hreg); try assumption; [lia|].
    rewrite Es. destruct (reg_state c Hreg); [now left | now right]. }
  destruct ev; cbn [step after] in H.
  - injection H as <-. apply (Hsame (connect c)); [now apply connect_registered|reflexivity].
  - pose proof (disconnect_registered c Hreg) as Hd.
    destruct (disconnect c) as [c1 e1]. injection H as <-. now apply (Hsame c1).
  - cbn [sends] in *.
    pose proof (send_registered apiKey0 apiVersion0 requestData0 timeout0 now c Hreg
                  ltac:(lia)) as Hd.
    destruct (send _ _ _ _ _ c) as [[c1 e1] r]. injection H as <-.
    cbn [fst] in Hd. destruct Hd. split; [assumption|lia].
  - injection H as <-.
    apply (Hsame (set_errorListeners (errorListeners c ++ [listener]) c));
      [now apply Hfield | reflexivity].
  - injection H as <-.
    apply (Hsame (set_errorListeners [] c)); [now apply Hfield | reflexivity].
  - injection H as <-.
    apply (Hsame (setNodeId nodeId0 c)); [now apply Hfield | reflexivity].
  - pose proof (onSocketConnect_registered c Hreg) as Hd.
    destruct (onSocketConnect c) as [c1 e1]. injection H as <-. now apply (Hsame c1).
  - apply (Hsame c'); [|reflexivity].
    exact (handleIncomingData_registered now data c c' H Hreg).
  - apply (Hsame c'); [|reflexivity].
    exact (onError_registered error c c' H Hreg).
  - pose proof (onDisconnect_registered
                  (Some (DisconnectedError "Broker closed connection")) c Hreg) as Hd.
    destruct (onDisconnect _ c) as [c1 e1]. injection H as <-. now apply (Hsame c1).
  - destruct hadError.
    + injection H as <-. now apply (Hsame c).
    + pose proof (onDisconnect_registered None c Hreg) as Hd.
      destruct (onDisconnect _ c) as [c1 e1]. injection H as <-. now apply (Hsame c1).
  - apply (Hsame c'); [|reflexivity].
    exact (onError_registered _ c c' H Hreg).
  - destruct (connectionTimeoutTimer c).
    + injection H as <-. now apply (Hsame c).
    + apply (Hsame c'); [|reflexivity].
      destruct (Hfield (set_connectionTimeoutTimer TimerFired c)
                  eq_refl eq_refl eq_refl eq_refl eq_refl) as [Hr Hc].
      destruct (onError_registered _ _ c' H Hr) as [Hr' Hc']. split; [assumption|].
      rewrite Hc'. exact Hc.
    + injection H as <-. now apply (Hsame c).
  - injection H as <-. apply (Hsame (onWriteError i error c)); [|reflexivity].
    now apply onWriteError_registered.
  - destruct (_ || _); injection H as <-.
    + apply (Hsame (sweep now c)); [|reflexivity]. now apply sweep_registered.
    + now apply (Hsame c).
Qed.

Lemma run_registered (evs : list Event) :
  forall c c',
    run evs c = Some c' ->
    registered c ->
    correlationIdCounter c + sends evs < 2147483647 ->
    registered c' /\ correlationIdCounter c' <= correlationIdCounter c + sends evs.
Proof.
  induction evs as [|ev evs IH]; intros c c' H Hreg Hwrap; cbn [run] in H.
  - injection H as <-. cbn [sends]. split; [assumption|lia].
  - destruct (after (step ev c)) as [c1|] eqn:Hs; try discriminate.
    change (ev :: evs) with ([ev] ++ evs) in *. rewrite sends_app in *.
    pose proof (sends_nonneg evs). pose proof (sends_nonneg [ev]).
    destruct (step_registered ev c c1 Hs Hreg ltac:(lia)) as [Hr1 Hc1].
    destruct (IH c1 c' H Hr1 ltac:(lia)) as [Hr' Hc']. split; [assumption|lia].
Qed.

(** ** The timeout sweep *)

Lemma sweepEntry_unfold (now : Z) (acc : list (Z * InFlightRequest) * list PromiseState)
    (e : Z * InFlightRequest) :
  sweepEntry now acc e
  = if expired now e
    then (Map_delete (fst e) (fst acc),
          settle (promise_of e) (Rejected (timeout_error now e)) (snd acc))
    else acc.
Proof. destruct e as [k r]. reflexivity. Qed.

Lemma sweep_fold_table (now : Z) (l : list (Z * InFlightRequest)) :
  forall tbl ps e',
    In e' (fst (fold_left (sweepEntry now) l (tbl, ps))) <->
    In e' tbl /\ forall e, In e l -> expired now e = true -> fst e' <> fst e.
Proof.
  induction l as [|e l IH]; intros tbl ps e'; cbn [fold_left].
  - cbn [fst]. split; [intros H; split; [assumption|intros e []]|tauto].
  - rewrite sweepEntry_unfold. cbn [fst snd].
    destruct (expired now e) eqn:He.
    + rewrite IH, Map_delete_In. split.
      * intros [[Hin Hne] Hl]. split; [assumption|].
        intros e0 [<-|H0] Hx; [assumption|now apply Hl].
      * intros [Hin Hl]. split; [split; [assumption|]|].
        -- apply Hl; [now left|assumption].
        -- intros e0 H0. apply Hl. now right.
    + rewrite IH. split.
      * intros [Hin Hl]. split; [assumption|].
        intros e0 [<-|H0] Hx; [congruence|now apply Hl].
      * intros [Hin Hl]. split; [assumption|]. intros e0 H0. apply Hl. now right.
Qed.

Lemma sweep_fold_filter (now : Z) (l : list (Z * InFlightRequest)) :
  forall tbl ps,
    fst (fold_left (sweepEntry now) l (tbl, ps))
    = List.filter
        (fun e' => forallb (fun e => negb (expired now e && (fst e' =? fst e))) l)
        tbl.
Proof.
  induction l as [|e l IH]; intros tbl ps; cbn [fold_left forallb].
  - cbn [fst]. induction tbl as [|x tbl IHt]; [reflexivity|].
    cbn [List.filter]. now rewrite <- IHt.
  - rewrite sweepEntry_unfold. cbn [fst snd].
    destruct (expired now e) eqn:He; rewrite IH; cbn [andb negb].
    + unfold Map_delete. clear IH.
      induction tbl as [|x tbl IHt]; [reflexivity|].
      cbn [List.filter]. destruct (fst x =? fst e); cbn [negb andb].
      * exact IHt.
      * cbn [List.filter]. now rewrite IHt.
    + reflexivity.
Qed.

Lemma sweep_table (now : Z) (c : t) :
  NoDup (map fst (inFlightRequests c)) ->
  inFlightRequests (sweep now c)
  = List.filter (fun e => negb (expired now e)) (inFlightRequests c).
Proof.
  intros Hnd. unfold sweep.
  pose proof (sweep_fold_filter now (inFlightRequests c) (inFlightRequests c)
                (promises c)) as Hf.
  destruct (fold_left _ _ _) as [requests ps]. cbn [fst] in Hf.
  change (inFlightRequests (set_promises ps (set_inFlightRequests requests c)))
    with requests.
  rewrite Hf. apply filter_ext_in. intros e' Hin.
  destruct (expired now e') eqn:He; cbn [negb].
  - apply not_true_is_false. intros Hall.
    rewrite forallb_forall in Hall. specialize (Hall e' Hin).
    rewrite He, Z.eqb_refl in Hall. discriminate.
  - apply forallb_forall. intros e He'.
    destruct (Z.eqb_spec (fst e') (fst e)) as [E|_]; [|now rewrite andb_false_r].
    rewrite (NoDup_map_In_inj fst _ e' e Hnd Hin He' E) in He. now rewrite He.
Qed.

Lemma sweep_fold_promises_other (now : Z) (l : list (Z * InFlightRequest)) (q : nat) :
  forall tbl ps,
    (forall e, In e l -> expired now e = true -> promise_of e <> q) ->
    snd (fold_left (sweepEntry now) l (tbl, ps)) !! q = ps !! q.
Proof.
  induction l as [|e l IH]; intros tbl ps Hq; cbn [fold_left]; [reflexivity|].
  rewrite sweepEntry_unfold. cbn [fst snd].
  destruct (expired now e) eqn:He.
  - rewrite IH by (intros e0 H0; apply Hq; now right).
    rewrite settle_lookup. destruct (decide (promise_of e = q)) as [E|_]; [|reflexivity].
    exfalso. apply (Hq e); [now left|assumption|assumption].
  - apply IH. intros e0 H0. apply Hq. now right.
Qed.

Lemma sweep_fold_promises_expired (now : Z) (l : list (Z * InFlightRequest))
    (e : Z * InFlightRequest) :
  forall tbl ps,
    NoDup (map promise_of l) ->
    In e l -> expired now e = true ->
    ps !! promise_of e = Some Pending ->
    snd (fold_left (sweepEntry now) l (tbl, ps)) !! promise_of e
    = Some (Rejected (timeout_error now e)).
Proof.
  induction l as [|x l IH]; intros tbl ps Hnd Hin He Hp; [contradiction|].
  cbn [fold_left]. rewrite sweepEntry_unfold. cbn [fst snd map] in *.
  apply NoDup_cons in Hnd as [Hx Hnd].
  destruct Hin as [->|Hin].
  - rewrite He. rewrite sweep_fold_promises_other.
    + rewrite settle_lookup, Hp. now destruct (decide _).
    + intros e0 H0 _ E. apply Hx. rewrite <- E. apply list_elem_of_In.
      now apply in_map.
  - assert (Hne : promise_of x <> promise_of e).
    { intros E. apply Hx. rewrite E. apply list_elem_of_In. now apply in_map. }
    destruct (expired now x).
    + apply IH; try assumption. rewrite settle_lookup.
      now destruct (decide (promise_of x = promise_of e)).
    + now apply IH.
Qed.

Lemma sweep_promises (now : Z) (c : t) (q : nat) :
  snd (fold_left (sweepEntry now) (inFlightRequests c)
         (inFlightRequests c, promises c)) !! q
  = promises (sweep now c) !! q.
Proof. unfold sweep. now destruct (fold_left _ _ _). Qed.

(** ** The ways a pending request settles *)

Lemma rejectAll_pending (error : JsError) (m : list (Z * InFlightRequest))
    (ps : list PromiseState) (e : Z * InFlightRequest) :
  In e m -> ps !! promise_of e = Some Pending ->
  rejectAll error m ps !! promise_of e = Some (Rejected error).
Proof.
  intros Hin Hp.
  pose proof (evolves_rejectAll (fun s => s = Rejected error) error m ps eq_refl
                (promise_of e)) as Hev.
  rewrite Hp in Hev.
  pose proof (rejectAll_not_pending error m ps e Hin) as Hnp.
  destruct (rejectAll error m ps !! promise_of e) as [s|] eqn:Hs.
  - destruct (Hev s eq_refl) as [->| ->]; [contradiction|reflexivity].
  - apply lookup_ge_None in Hs. rewrite rejectAll_length in Hs.
    apply lookup_lt_Some in Hp. lia.
Qed.

Lemma disconnect_rejects (c : t) (e : Z * InFlightRequest) :
  registered c -> In e (inFlightRequests c) ->
  promises (fst (disconnect c)) !! promise_of e
  = Some (Rejected (DisconnectedError "Connection closed")).
Proof.
  intros Hreg Hin. unfold disconnect.
  destruct (reg_state c Hreg) as [Hnil|Hst]; [rewrite Hnil in Hin; contradiction|].
  rewrite Hst. cbn. apply rejectAll_pending; [assumption|].
  now apply (reg_pending c Hreg).
Qed.

Lemma onDisconnect_rejects (error : option JsError) (c : t) (e : Z * InFlightRequest) :
  registered c -> In e (inFlightRequests c) ->
  promises (fst (onDisconnect error c)) !! promise_of e
  = Some (Rejected (match error with
                    | Some e => e
                    | None => DisconnectedError "Connection closed"
                    end)).
Proof.
  intros Hreg Hin. unfold onDisconnect. cbn.
  apply rejectAll_pending; [assumption|]. now apply (reg_pending c Hreg).
Qed.

Lemma noted_table (error : JsError) (c : t) :
  inFlightRequests (noted error c) = inFlightRequests c
  /\ promises (noted error c) = promises c
  /\ state (noted error c) = state c
  /\ socket (noted error c) = socket c
  /\ connectionTimeoutTimer (noted error c) = connectionTimeoutTimer c
  /\ requestTimeoutInterval (noted error c) = requestTimeoutInterval c
  /\ leakedIntervals (noted error c) = leakedIntervals c
  /\ correlationIdCounter (noted error c) = correlationIdCounter c
  /\ written (noted error c) = written c
  /\ connectionError (noted error c) = Some error.
Proof. destruct (noted_fields error c) as [ls ->]. now repeat split. Qed.

(** [onError] with the error listened to rejects what is in flight. *)
Lemma onError_rejects (error : JsError) (c : t) (e : Z * InFlightRequest) :
  registered c -> In e (inFlightRequests c) -> heard error c = true ->
  exists c' events,
    onError error c = Done c' events
    /\ promises c' !! promise_of e
       = Some (Rejected (DisconnectedError "Connection closed")).
Proof.
  intros Hreg Hin Hheard. rewrite (onError_heard error c Hheard).
  eexists _, _. split; [reflexivity|].
  apply disconnect_rejects; [now apply registered_noted|].
  now rewrite (proj1 (noted_table error c)).
Qed.

(** [onError] with the error not listened to, or a listener that throws,
    throws before anything is closed. *)
Lemma onError_thrown (error : JsError) (c : t) :
  heard error c = false ->
  exists thrown,
    snd (emitError error c) = Some thrown
    /\ onError error c = Uncaught thrown (noted error c) [EmitError error].
Proof. apply onError_unheard. Qed.

Lemma teardown_rejects (ev : Event) (c : t) (e : Z * InFlightRequest) :
  registered c -> In e (inFlightRequests c) -> teardown ev -> closes ev c = true ->
  exists c' events message,
    step ev c = Done c' events /\
    promises c' !! promise_of e = Some (Rejected (DisconnectedError message)).
Proof.
  intros Hreg Hin Htd Hcl.
  destruct ev as [| | | | | | | | | |[]| | | |]; try contradiction;
    cbn [step]; cbn [closes error_of] in Hcl.
  - pose proof (disconnect_rejects c e Hreg Hin) as H.
    destruct (disconnect c) as [c1 ev1]. eauto.
  - destruct (onError_rejects error c e Hreg Hin Hcl) as (c1 & ev1 & Ho & Hp). eauto.
  - pose proof (onDisconnect_rejects
                  (Some (DisconnectedError "Broker closed connection")) c e Hreg Hin)
      as H.
    destruct (onDisconnect _ c) as [c1 ev1]. eauto.
  - pose proof (onDisconnect_rejects None c e Hreg Hin) as H.
    destruct (onDisconnect _ c) as [c1 ev1]. eauto.
  - destruct (onError_rejects _ c e Hreg Hin Hcl) as (c1 & ev1 & Ho & Hp). eauto.
Qed.

(** A teardown that does not get as far as closing leaves everything but
    the recorded error (and the [once] listeners that were called) as it
    was. *)
Lemma teardown_thrown (ev : Event) (c : t) :
  teardown ev -> closes ev c = false ->
  exists error thrown,
    error_of ev c = Some error
    /\ step ev c = Uncaught thrown (noted error c) [EmitError error].
Proof.
  intros Htd Hcl.
  destruct ev as [| | | | | | | | | |[]| | | |]; try contradiction;
    cbn [step]; cbn [closes error_of] in *; try discriminate.
  - destruct (onError_unheard error c Hcl) as (thrown & _ & ->). eauto.
  - destruct (onError_unheard _ c Hcl) as (thrown & _ & ->). eauto.
Qed.

Lemma handleResponse_resolves (now : Z) (m : Buffer) (header : ResponseHeader.t)
    (c : t) (r : InFlightRequest) :
  registered c ->
  ResponseHeader.decode m = Ok header ->
  Map_get (ResponseHeader.correlationId header) (inFlightRequests c) = Some r ->
  exists c' events,
    handleResponse now m c = Done c' events
    /\ promises c' !! promise r
       = Some (Resolved (Buf.slice_from m (ResponseHeader.size header)))
    /\ Map_get (ResponseHeader.correlationId header) (inFlightRequests c') = None.
Proof.
  intros Hreg Hdec Hget.
  rewrite (handleResponse_matched now m header r c Hdec Hget).
  eexists _, _. split; [reflexivity|].
  pose proof (Map_get_Some _ _ _ Hget) as Hin.
  pose proof (reg_pending c Hreg _ Hin) as Hp. unfold promise_of in Hp. cbn [snd] in Hp.
  destruct (ResponseHeader_decode_Ok m header Hdec) as (-> & _ & _).
  split; [|apply Map_get_Map_delete].
  unfold resolved. cbn [promises set_promises].
  rewrite settle_lookup, Hp. now destruct (decide _).
Qed.

(** ** The outcome of a send *)

Lemma example_trace_runs :
  run example_trace (new example_config) = Some example_connection.
Proof. vm_compute. reflexivity. Qed.

Lemma example_connection_registered : registered example_connection.
Proof.
  apply (run_registered example_trace (new example_config) example_connection
           example_trace_runs (new_registered example_config)).
  vm_compute. reflexivity.
Qed.

Lemma example_request_in_flight :
  Map_get 1 (inFlightRequests example_connection) = Some example_request.
Proof. vm_compute. reflexivity. Qed.

(** C3 as stated fails: after a send, the error the socket gives to the
    write callback is the rejection reason of the promise, and it is neither
    a TimeoutError nor a DisconnectedError. *)
Lemma write_error_is_a_fourth_outcome :
  option_map (fun c => (promises c !! 0%nat, Map_get 1 (inFlightRequests c)))
    (run (example_trace ++ [WriteError 0 example_write_error]) (new example_config))
  = Some (Some (Rejected example_write_error), None)
  /\ ~ three_outcomes (Rejected example_write_error).
Proof. split; [vm_compute; reflexivity | intros H; exact H]. Qed.

(** C3, as the code has it.  Take a connection reached from a new one by
    any sequence of events (calls of connect, disconnect, send and of the
    registration of ['error'] listeners, socket callbacks, write callbacks
    with an error, timer callbacks), and a promise [q] that [send] has
    returned.  (1) The promise is pending, resolved, rejected with a
    TimeoutError, rejected with a DisconnectedError, or rejected with the
    error of a write callback of the sequence: a fourth outcome.  (2) Once
    settled it keeps its outcome under any further events: never more than
    one.  (3) While it is pending, and the correlation counter has not
    wrapped, its request is in the in-flight table under some correlation id
    [k], and: a response whose header carries [k] resolves it with the
    message behind the header; a sweep after its timeout rejects it with the
    TimeoutError of that request; a teardown event whose handler gets as far
    as closing the connection rejects it with a DisconnectedError, which is
    always so for a call of disconnect and for the socket's end and close,
    and for the socket's error and timeout when ['error'] is listened to and
    no listener throws; otherwise the handler of the socket's error or
    timeout throws before anything is closed, and the promise stays pending
    with its request in flight; a write callback of its frame called with
    an error rejects it with that error. *)
Theorem send_outcomes (config : BrokerConnectionConfig) (evs evs' : list Event)
    (c c' : t) (q : nat) (s : PromiseState) :
  run evs (new config) = Some c ->
  run evs' c = Some c' ->
  promises c !! q = Some s ->
  (s = Pending \/ terminal (fun e => exists i, In (WriteError i e) evs) s)
  /\ (s <> Pending -> promises c' !! q = Some s)
  /\ (s = Pending -> sends evs < 2147483647 ->
      exists (k : Z) (r : InFlightRequest),
        Map_get k (inFlightRequests c) = Some r /\ promise r = q
        /\ (forall now m header,
               ResponseHeader.decode m = Ok header ->
               ResponseHeader.correlationId header = k ->
               exists c1 events,
                 handleResponse now m c = Done c1 events /\
                 promises c1 !! q
                 = Some (Resolved (Buf.slice_from m (ResponseHeader.size header))))
        /\ (forall now,
               timeout r < now - sentTime r ->
               promises (sweep now c) !! q
               = Some (Rejected (timeout_error now (k, r))))
        /\ (forall ev,
               teardown ev -> closes ev c = true ->
               exists c1 events message,
                 step ev c = Done c1 events /\
                 promises c1 !! q = Some (Rejected (DisconnectedError message)))
        /\ (forall ev,
               teardown ev -> closes ev c = false ->
               exists thrown c1 events,
                 step ev c = Uncaught thrown c1 events /\
                 promises c1 !! q = Some Pending /\
                 Map_get k (inFlightRequests c1) = Some r /\
                 state c1 = state c)
        /\ (forall ev,
               ev = CallDisconnect \/ ev = SocketEnd \/ ev = SocketClose false ->
               closes ev c = true)
        /\ (forall ev error,
               error_of ev c = Some error ->
               (errorListeners c = [] -> closes ev c = false) /\
               (errorListeners c = [quiet_listener] -> closes ev c = true))
        /\ (forall i frame error,
               written c !! i = Some (frame, k, q) ->
               promises (onWriteError i error c) !! q = Some (Rejected error))).
Proof.
  intros Hrun Hrun' Hq. split; [|split].
  - pose proof (run_evolves evs _ _ Hrun q) as Hev. cbn in Hev.
    rewrite lookup_nil in Hev. exact (Hev s Hq).
  - intros Hs. pose proof (run_evolves evs' _ _ Hrun' q) as Hev.
    rewrite Hq in Hev. destruct s; [congruence|exact Hev..].
  - intros -> Hwrap.
    destruct (run_registered evs _ _ Hrun (new_registered config)) as [Hreg _];
      [exact Hwrap|].
    destruct (reg_table c Hreg q Hq) as ([k r] & Hin & Hpr).
    unfold promise_of in Hpr. cbn [snd] in Hpr.
    pose proof (Map_get_In k _ r (reg_keys c Hreg) Hin) as Hget.
    exists k, r. split; [assumption|]. split; [assumption|].
    split; [|split; [|split; [|split; [|split; [|split]]]]].
    + intros now m header Hdec Hk. subst k q.
      destruct (handleResponse_resolves now m header c r Hreg Hdec Hget)
        as (c1 & events & Ho & Hp & _).
      now exists c1, events.
    + intros now Hexp. subst q. rewrite <- sweep_promises.
      apply (sweep_fold_promises_expired now _ (k, r));
        [exact (reg_promises c Hreg) | assumption | | assumption].
      unfold expired. cbn [snd]. now apply Z.ltb_lt.
    + intros ev Htd Hcl. subst q. exact (teardown_rejects ev c (k, r) Hreg Hin Htd Hcl).
    + intros ev Htd Hcl.
      destruct (teardown_thrown ev c Htd Hcl) as (error & thrown & _ & Hs).
      destruct (noted_table error c) as (Ht & Hp & Hst & _).
      exists thrown, (noted error c), [EmitError error].
      split; [exact Hs|]. rewrite Hp, Ht. now repeat split.
    + intros ev [->|[->| ->]]; reflexivity.
    + intros ev error He. unfold closes. rewrite He. unfold heard, emitError.
      split; intros ->; reflexivity.
    + intros i frame error Hw. unfold onWriteError. rewrite Hw. cbn.
      rewrite settle_lookup, Hq. now destruct (decide (q = q)).
Qed.

Lemma send_outcomes_witness :
  run example_trace (new example_config) = Some example_connection
  /\ run [SocketEnd] example_connection
     = Some (fst (onDisconnect (Some (DisconnectedError "Broker closed connection"))
                    example_connection))
  /\ promises example_connection !! 0%nat = Some Pending
  /\ exists (k : Z) (r : InFlightRequest),
       Map_get k (inFlightRequests example_connection) = Some r
       /\ promise r = 0%nat.
Proof.
  assert (H1 : run example_trace (new example_config) = Some example_connection)
    by (vm_compute; reflexivity).
  assert (H2 : run [SocketEnd] example_connection
               = Some (fst (onDisconnect
                              (Some (DisconnectedError "Broker closed connection"))
                              example_connection)))
    by (vm_compute; reflexivity).
  assert (H3 : promises example_connection !! 0%nat = Some Pending)
    by (vm_compute; reflexivity).
  split; [exact H1|]. split; [exact H2|]. split; [exact H3|].
  destruct (send_outcomes example_config example_trace [SocketEnd] example_connection
              _ 0%nat Pending H1 H2 H3) as (_ & _ & Hpending).
  destruct (Hpending eq_refl) as (k & r & Hget & Hpr & _).
  - vm_compute. reflexivity.
  - exists k, r. now split.
Defined.

(** The socket's error on the connection of the example.  With nothing
    listening to ['error'] the handler throws: the connection stays
    CONNECTED and the promise of the request pending.  With a listener
    registered, the connection is closed and the promise rejected.  With
    the forwarding listener of a client that has no listener of its own,
    the handler throws again. *)
Lemma socket_error_example :
  step (SocketError example_write_error) example_connection
  = Uncaught example_write_error
      (set_connectionError (Some example_write_error) example_connection)
      [EmitError example_write_error]
  /\ option_map (fun c => (state c, promises c !! 0%nat))
       (after (step (SocketError example_write_error) example_connection))
     = Some (CONNECTED, Some Pending)
  /\ option_map (fun c => (state c, promises c !! 0%nat))
       (run [CallOn quiet_listener; SocketError example_write_error]
          example_connection)
     = Some (DISCONNECTED, Some (Rejected (DisconnectedError "Connection closed")))
  /\ option_map (fun c => (state c, promises c !! 0%nat))
       (run [CallOn forwarding_listener; SocketError example_write_error]
          example_connection)
     = Some (CONNECTED, Some Pending).
Proof. repeat split; vm_compute; reflexivity. Qed.

(** ** Timeouts *)

Lemma sweep_keeps (now : Z) (c : t) (k : Z) (r : InFlightRequest) :
  registered c ->
  Map_get k (inFlightRequests c) = Some r ->
  expired now (k, r) = false ->
  Map_get k (inFlightRequests (sweep now c)) = Some r
  /\ promises (sweep now c) !! promise r = Some Pending.
Proof.
  intros Hreg Hget Hexp. pose proof (Map_get_Some _ _ _ Hget) as Hin. split.
  - rewrite (sweep_table now c (reg_keys c Hreg)). apply Map_get_In.
    + apply NoDup_map_filter. exact (reg_keys c Hreg).
    + apply filter_In. split; [assumption|]. now rewrite Hexp.
  - rewrite <- sweep_promises.
    rewrite sweep_fold_promises_other; [exact (reg_pending c Hreg _ Hin)|].
    intros e He Hx E.
    rewrite (NoDup_map_In_inj promise_of _ e (k, r) (reg_promises c Hreg) He Hin E)
      in Hx. congruence.
Qed.

Lemma sweep_removes (now : Z) (c : t) (k : Z) (r : InFlightRequest) :
  registered c ->
  Map_get k (inFlightRequests c) = Some r ->
  expired now (k, r) = true ->
  Map_get k (inFlightRequests (sweep now c)) = None
  /\ promises (sweep now c) !! promise r = Some (Rejected (timeout_error now (k, r))).
Proof.
  intros Hreg Hget Hexp. pose proof (Map_get_Some _ _ _ Hget) as Hin. split.
  - rewrite (sweep_table now c (reg_keys c Hreg)). apply Map_get_None.
    intros e He Hk. apply filter_In in He as [He Hne].
    rewrite (NoDup_map_In_inj fst _ e (k, r) (reg_keys c Hreg) He Hin Hk) in Hne.
    rewrite Hexp in Hne. discriminate.
  - rewrite <- sweep_promises.
    apply (sweep_fold_promises_expired now _ (k, r));
      [exact (reg_promises c Hreg) | assumption | assumption |].
    exact (reg_pending c Hreg _ Hin).
Qed.

Lemma late_frame_dropped (now : Z) (m : Buffer) (header : ResponseHeader.t) (c : t) :
  ResponseHeader.decode m = Ok header ->
  Map_get (ResponseHeader.correlationId header) (inFlightRequests c) = None ->
  buffer c = None -> blen m <= 2 ^ 31 - 1 ->
  handleIncomingData now (frame_of m) c = Done c [EmitBytesIn (blen (frame_of m))].
Proof.
  intros Hdec Hget Hbuf Hlen.
  rewrite (handleIncomingData_frame now (frame_of m) m [] c).
  - rewrite (handleResponse_unmatched now m header c Hdec Hget).
    cbn [emitted buffered buffer_of app].
    rewrite <- Hbuf. now rewrite set_buffer_same.
  - unfold pending. rewrite Hbuf. now rewrite app_nil_r.
  - assumption.
  - apply incomplete_nil.
Qed.

(** C4.  Timeout isolation, for a connection whose bookkeeping is that of
    a counter that has not wrapped (every reachable one, see
    [run_registered]), and a request [r] in flight under correlation id [k]
    whose age at [now] exceeds its own timeout.  (1) The sweep at [now]
    removes the entry and rejects the promise of the request with the
    TimeoutError that names the age, the id and the API key.  (2) Every
    request whose age does not exceed its timeout stays in the table as it
    was, its promise pending.  (3) In the state after the sweep, and in any
    later state in which [k] has no entry, a response whose header carries
    [k] changes nothing and emits nothing; arriving as a frame on a
    connection with nothing buffered, it is consumed, the handler returns
    normally and only ['bytesIn'] is emitted. *)
Theorem timeout_isolation (now : Z) (c : t) (k : Z) (r : InFlightRequest) :
  registered c ->
  Map_get k (inFlightRequests c) = Some r ->
  timeout r < now - sentTime r ->
  (Map_get k (inFlightRequests (sweep now c)) = None
   /\ promises (sweep now c) !! promise r
      = Some (Rejected
                (TimeoutError
                   (requestTimeoutMessage (now - sentTime r) k (apiKey r)))))
  /\ (forall (k' : Z) (r' : InFlightRequest),
         Map_get k' (inFlightRequests c) = Some r' ->
         now - sentTime r' <= timeout r' ->
         Map_get k' (inFlightRequests (sweep now c)) = Some r'
         /\ promises (sweep now c) !! promise r' = Some Pending)
  /\ (forall (later : Z) (m : Buffer) (header : ResponseHeader.t),
         ResponseHeader.decode m = Ok header ->
         ResponseHeader.correlationId header = k ->
         handleResponse later m (sweep now c) = Done (sweep now c) []
         /\ forall c' : t,
              Map_get k (inFlightRequests c') = None ->
              handleResponse later m c' = Done c' []
              /\ (buffer c' = None -> blen m <= 2 ^ 31 - 1 ->
                  handleIncomingData later (frame_of m) c'
                  = Done c' [EmitBytesIn (blen (frame_of m))])).
Proof.
  intros Hreg Hget Hage.
  assert (Hexp : expired now (k, r) = true) by (now apply Z.ltb_lt).
  destruct (sweep_removes now c k r Hreg Hget Hexp) as [Hgone Hrej].
  split; [split; assumption|]. split.
  - intros k' r' Hget' Hage'. apply sweep_keeps; try assumption.
    apply Z.ltb_ge. exact Hage'.
  - intros later m header Hdec Hk. subst k. split.
    + now apply (handleResponse_unmatched later m header).
    + intros c' Hnone. split.
      * now apply (handleResponse_unmatched later m header).
      * intros Hbuf Hlen. now apply (late_frame_dropped later m header).
Qed.

Lemma timeout_isolation_witness :
  registered example_connection
  /\ Map_get 1 (inFlightRequests example_connection) = Some example_request
  /\ timeout example_request < 31001 - sentTime example_request
  /\ Map_get 1 (inFlightRequests (sweep 31001 example_connection)) = None
  /\ promises (sweep 31001 example_connection) !! 0%nat
     = Some (Rejected
               (TimeoutError
                  "Request timed out after 30001ms (correlationId: 1, apiKey: METADATA)"))
  /\ handleResponse 31002 example_response (sweep 31001 example_connection)
     = Done (sweep 31001 example_connection) [].
Proof.
  assert (H3 : timeout example_request < 31001 - sentTime example_request)
    by (vm_compute; reflexivity).
  destruct (timeout_isolation 31001 example_connection 1 example_request
              example_connection_registered example_request_in_flight H3)
    as ((Hgone & Hrej) & _ & Hlate).
  split; [exact example_connection_registered|].
  split; [exact example_request_in_flight|].
  split; [exact H3|]. split; [exact Hgone|]. split; [exact Hrej|].
  apply (Hlate 31002 example_response (ResponseHeader.mk 1 4));
    vm_compute; reflexivity.
Defined.

(** ** Retries of the network client *)

Section ClientRetries.

Import NetworkClient.

Context {World : Type}.
Variable autoRefreshMetadata : bool.
Variable clusterMetadata : World -> ClusterMetadata.t.
Variable connections : World -> gmap Z BrokerConnection.t.
Variable refreshMetadata : option (list string) -> World -> World * result unit.
Variable connection_send :
  Z -> Z -> Z -> Buffer -> option Z -> World -> World * result Buffer.

Abbreviation noConnection := (NetworkClient.noConnection connections).
Abbreviation sendRequest :=
  (NetworkClient.sendRequest autoRefreshMetadata connections refreshMetadata
     connection_send).
Abbreviation findLeaderForPartition :=
  (NetworkClient.findLeaderForPartition clusterMetadata).
Abbreviation sendToLeader :=
  (NetworkClient.sendToLeader autoRefreshMetadata clusterMetadata connections
     refreshMetadata connection_send).
Abbreviation sendToPartitionLeader :=
  (NetworkClient.sendToPartitionLeader autoRefreshMetadata clusterMetadata
     connections refreshMetadata connection_send).









End ClientRetries.



(** The bounds of [sendToPartitionLeader] are attained: five refreshes and
    four sends in one call. *)
Lemma flapping_connection_attains_the_bounds :
  exists out,
    example_flapping "orders" 0 = Some out
    /\ NetworkClient.refreshCount (NetworkClient.actions out) = 5%nat
    /\ NetworkClient.sendCount (NetworkClient.actions out) = 4%nat
    /\ snd out = Throw (DisconnectedError "Connection closed").
Proof.
  eexists. split; [vm_compute; reflexivity|]. now vm_compute.
Qed.

(** ** More about incoming data *)

Lemma slice_frame_after (pre payload rest : Buffer) :
  Buf.slice (pre ++ frame_of payload ++ rest) (blen pre + 4)
    (blen pre + 4 + blen payload) = payload.
Proof.
  unfold frame_of. rewrite <- app_assoc.
  pose proof (slice_framed (pre ++ Z_to_be 4 (blen payload)) payload rest) as H.
  rewrite blen_app, blen_Z_to_be in H. rewrite <- app_assoc in H. exact H.
Qed.

Lemma blen_frames_of_cons (payload : Buffer) (payloads : list Buffer) :
  blen (frames_of (payload :: payloads))
  = 4 + blen payload + blen (frames_of payloads).
Proof.
  unfold frames_of. cbn [map List.concat]. now rewrite blen_app, blen_frame_of.
Qed.

Lemma blen_frames_of (payloads : list Buffer) :
  4 * Z.of_nat (List.length payloads) <= blen (frames_of payloads).
Proof.
  induction payloads as [|p ps IH]; [reflexivity|].
  rewrite blen_frames_of_cons. pose proof (blen_nonneg p).
  cbn [List.length]. lia.
Qed.

Lemma handleResponse_returns (now : Z) (m : Buffer) (c : t) :
  4 <= blen m -> exists c' events, handleResponse now m c = Done c' events.
Proof.
  intros Hlen.
  destruct (handleResponse_cases now m c)
    as [(header & request & _ & _ & ->)|[(header & _ & _ & ->)|[Hshort _]]];
    [eauto | eauto | lia].
Qed.

(** The loop on a run of whole frames followed by bytes that do not hold
    another one. *)
Lemma processMessages_frames (now : Z) (payloads : list Buffer) :
  forall (fuel : nat) (pre rest : Buffer) (c : t) (events : list Emitted),
    Forall (fun payload => blen payload <= 2 ^ 31 - 1) payloads ->
    incomplete rest ->
    (List.length payloads < fuel)%nat ->
    processMessages fuel now (pre ++ frames_of payloads ++ rest) (blen pre) c events
    = match handleResponses now payloads c with
      | Done c' ev =>
          LoopDone c' (events ++ ev) (blen pre + blen (frames_of payloads))
      | Uncaught e c' ev => LoopThrew e c' (events ++ ev)
      | Forever => LoopForever
      end.
Proof.
  induction payloads as [|p ps IH]; intros fuel pre rest c events Hfit Hinc Hfuel.
  - destruct fuel as [|fuel]; [cbn in Hfuel; lia|].
    cbn [frames_of map List.concat app handleResponses].
    rewrite processMessages_incomplete by assumption.
    change (blen []) with 0. now rewrite app_nil_r, Z.add_0_r.
  - destruct fuel as [|fuel]; [cbn in Hfuel; lia|].
    apply Forall_cons in Hfit as [Hp Hfit].
    rewrite processMessages_S.
    assert (Hbuf : pre ++ frames_of (p :: ps) ++ rest
                   = pre ++ frame_of p ++ (frames_of ps ++ rest)).
    { unfold frames_of. cbn [map List.concat]. now rewrite <- app_assoc. }
    rewrite Hbuf.
    pose proof (blen_nonneg p). pose proof (blen_nonneg pre).
    pose proof (blen_nonneg (frames_of ps ++ rest)).
    assert (Hlen : blen (pre ++ frame_of p ++ frames_of ps ++ rest)
                   = blen pre + (4 + blen p) + blen (frames_of ps ++ rest))
      by (rewrite !blen_app, blen_frame_of; lia).
    rewrite Hlen.
    destruct (Z.ltb_spec (blen pre)
                (blen pre + (4 + blen p) + blen (frames_of ps ++ rest))); [|lia].
    destruct (Z.ltb_spec (blen pre + (4 + blen p) + blen (frames_of ps ++ rest)
                          - blen pre) 4); [lia|].
    rewrite readInt32BE_after, readInt32BE_frame by assumption.
    destruct (Z.ltb_spec (blen pre + (4 + blen p) + blen (frames_of ps ++ rest)
                          - blen pre - 4) (blen p)); [lia|].
    rewrite slice_frame_after. cbn [handleResponses].
    destruct (handleResponse now p c) as [c1 ev1|e c1 ev1|]; try reflexivity.
    replace (blen pre + 4 + blen p) with (blen (pre ++ frame_of p))
      by (rewrite blen_app, blen_frame_of; lia).
    replace (pre ++ frame_of p ++ frames_of ps ++ rest)
      with ((pre ++ frame_of p) ++ frames_of ps ++ rest)
      by (now rewrite <- app_assoc).
    rewrite IH; [|assumption|assumption|cbn [List.length] in Hfuel; lia].
    destruct (handleResponses now ps c1) as [c2 ev2|e c2 ev2|]; cbn [emitted];
      rewrite ?app_assoc; try reflexivity.
    rewrite blen_frames_of_cons, blen_app, blen_frame_of. f_equal. lia.
Qed.

Lemma handleResponses_set_buffer (now : Z) (payloads : list Buffer)
    (b : option Buffer) :
  forall c,
    handleResponses now payloads (set_buffer b c)
    = map_state (set_buffer b) (handleResponses now payloads c).
Proof.
  induction payloads as [|p ps IH]; intros c; [reflexivity|].
  cbn [handleResponses]. rewrite handleResponse_set_buffer.
  destruct (handleResponse now p c) as [c1 ev1|e c1 ev1|]; cbn [map_state];
    try reflexivity.
  rewrite IH. now destruct (handleResponses now ps c1).
Qed.

Lemma handleResponses_app (now : Z) (before behind : list Buffer) :
  forall c,
    handleResponses now (before ++ behind) c
    = match handleResponses now before c with
      | Done c1 ev1 => emitted ev1 (handleResponses now behind c1)
      | other => other
      end.
Proof.
  induction before as [|p ps IH]; intros c; cbn [app handleResponses].
  - now destruct (handleResponses now behind c).
  - destruct (handleResponse now p c) as [c1 ev1|e c1 ev1|]; try reflexivity.
    rewrite IH. destruct (handleResponses now ps c1) as [c2 ev2|e c2 ev2|];
      cbn [emitted]; try reflexivity.
    now rewrite emitted_emitted.
Qed.

Lemma handleResponses_return (now : Z) (payloads : list Buffer) :
  Forall (fun payload => 4 <= blen payload) payloads ->
  forall c, exists c' events, handleResponses now payloads c = Done c' events.
Proof.
  induction 1 as [|p ps Hp Hps IH]; intros c; cbn [handleResponses]; [eauto|].
  destruct (handleResponse_returns now p c Hp) as (c1 & ev1 & ->).
  destruct (IH c1) as (c2 & ev2 & ->). cbn [emitted]. eauto.
Qed.

(** X1.  Several responses in one chunk.  When the bytes buffered so far
    followed by the chunk are one or more whole frames (each payload at
    most 2^31-1 bytes) followed by bytes that do not hold another frame,
    [handleIncomingData] emits ['bytesIn'] and hands the payloads to
    [handleResponse] in order, each once, as long as that returns.  (1)
    When it returns for all of them, as it does when every payload has the
    four bytes of a header, the handler returns and keeps exactly the bytes
    after the last frame.  (2) When it throws on one of them ([onError]
    found nothing listening to ['error']), the handler is left at once: the
    payloads behind are not handed over, and the whole input is still in
    the buffer. *)
Theorem frames_in_one_chunk (now : Z) (data : Buffer) (payloads : list Buffer)
    (rest : Buffer) (c : BrokerConnection.t) :
  payloads <> [] ->
  Forall (fun payload => blen payload <= 2 ^ 31 - 1) payloads ->
  incomplete rest ->
  pending c ++ data = frames_of payloads ++ rest ->
  (forall (c' : BrokerConnection.t) (events : list Emitted),
      handleResponses now payloads c = Done c' events ->
      handleIncomingData now data c
      = Done (set_buffer (buffer_of rest) c') (EmitBytesIn (blen data) :: events))
  /\ (Forall (fun payload => 4 <= blen payload) payloads ->
      exists (c' : BrokerConnection.t) (events : list Emitted),
        handleResponses now payloads c = Done c' events)
  /\ (forall (before behind : list Buffer) (payload : Buffer) (e : JsError)
        (c1 c2 : BrokerConnection.t) (ev1 ev2 : list Emitted),
        payloads = before ++ payload :: behind ->
        handleResponses now before c = Done c1 ev1 ->
        handleResponse now payload c1 = Uncaught e c2 ev2 ->
        handleIncomingData now data c
        = Uncaught e (set_buffer (Some (pending c ++ data)) c2)
            (EmitBytesIn (blen data) :: ev1 ++ ev2)).
Proof.
  intros Hne Hfit Hinc Hbuf.
  assert (Hmain : handleIncomingData now data c
                  = buffered (frames_of payloads ++ rest) rest
                      (emitted [EmitBytesIn (blen data)]
                         (handleResponses now payloads c))).
  { unfold handleIncomingData.
    rewrite concat_pending, Hbuf.
    pose proof (blen_frames_of payloads) as Hlen. pose proof (blen_nonneg rest).
    pose proof (processMessages_frames now payloads
                  (S (List.length (frames_of payloads ++ rest))) [] rest
                  (set_buffer (Some (frames_of payloads ++ rest)) c)
                  [EmitBytesIn (blen data)] Hfit Hinc) as Hloop.
    cbn [app] in Hloop. change (blen []) with 0 in Hloop. rewrite Hloop.
    2:{ assert (blen (frames_of payloads ++ rest)
                = Z.of_nat (List.length (frames_of payloads ++ rest))) by reflexivity.
        rewrite blen_app in *. lia. }
    rewrite handleResponses_set_buffer.
    destruct (handleResponses now payloads c) as [c1 ev1|e c1 ev1|];
      cbn [map_state emitted buffered app]; [|reflexivity|reflexivity].
    rewrite Z.add_0_l.
    assert (Hpos : 0 < blen (frames_of payloads)).
    { destruct payloads as [|p ps]; [contradiction|]. cbn [List.length] in Hlen. lia. }
    destruct (Z.eqb_spec (blen (frames_of payloads)) 0); [lia|].
    rewrite blen_app.
    destruct (Z.ltb_spec (blen (frames_of payloads))
                (blen (frames_of payloads) + blen rest)) as [Hlt|Hge].
    - rewrite set_buffer_set_buffer. do 2 f_equal.
      destruct rest as [|x rest]; [change (blen []) with 0 in Hlt; lia|].
      cbn [buffer_of]. f_equal. unfold Buf.slice_from.
      pose proof (slice_framed (frames_of payloads) (x :: rest) []) as Hsl.
      rewrite !app_nil_r in Hsl. rewrite blen_app. exact Hsl.
    - rewrite set_buffer_set_buffer.
      destruct rest as [|x rest]; [reflexivity|].
      rewrite blen_cons in Hge. pose proof (blen_nonneg rest). lia. }
  split; [|split].
  - intros c' events Hall. rewrite Hmain, Hall. reflexivity.
  - intros Hlong. now apply handleResponses_return.
  - intros before behind payload e c1 c2 ev1 ev2 -> Hbefore Hthrow.
    rewrite Hmain, handleResponses_app, Hbefore. cbn [handleResponses].
    rewrite Hthrow, Hbuf. reflexivity.
Qed.

Lemma frames_in_one_chunk_witness :
  exists (c' : BrokerConnection.t) (events : list Emitted),
    handleResponses 1500 example_payloads example_connection = Done c' events
    /\ handleIncomingData 1500 example_chunk example_connection
       = Done (set_buffer (buffer_of [x00; x00]) c')
              (EmitBytesIn (blen example_chunk) :: events).
Proof.
  destruct (frames_in_one_chunk 1500 example_chunk example_payloads [x00; x00]
              example_connection) as (Hdone & Hreturn & _).
  - discriminate.
  - repeat (apply Forall_cons_2; [vm_compute; discriminate|]). apply Forall_nil_2.
  - left. vm_compute. reflexivity.
  - vm_compute. reflexivity.
  - destruct Hreturn as (c' & events & Hall).
    + repeat (apply Forall_cons_2; [vm_compute; discriminate|]). apply Forall_nil_2.
    + exists c', events. split; [exact Hall|]. now apply Hdone.
Defined.

(** Where the loop stops: at the end of the buffer, or at bytes that do not
    hold a whole frame. *)
Lemma processMessages_stops (now : Z) (buf : Buffer) (fuel : nat) :
  forall processed c events c' events' processed',
    0 <= processed ->
    processMessages fuel now buf processed c events = LoopDone c' events' processed' ->
    0 <= processed' /\
    (blen buf <= processed' \/
     blen buf - processed' < 4 \/
     exists size, Buf.readInt32BE buf processed' = Ok size /\
                  blen buf - processed' - 4 < size).
Proof.
  induction fuel as [|fuel IH]; intros processed c events c' events' processed' H0 H;
    [discriminate|].
  rewrite processMessages_S in H.
  destruct (Z.ltb_spec processed (blen buf)) as [Hlt|Hge].
  - destruct (Z.ltb_spec (blen buf - processed) 4) as [Hshort|Hlong].
    + injection H as <- <- <-. split; [assumption|]. now right; left.
    + destruct (Buf.readInt32BE buf processed) as [messageSize|e] eqn:Hr;
        [|discriminate].
      destruct (Z.ltb_spec (blen buf - processed - 4) messageSize) as [Hs|Hs].
      * injection H as <- <- <-. split; [assumption|]. right; right. eauto.
      * destruct (handleResponse now _ c) as [c1 ev1|e c1 ev1|]; try discriminate.
        destruct (Z.lt_ge_cases (processed + 4 + messageSize) 0) as [Hneg|Hpos].
        -- exfalso. destruct fuel as [|fuel]; [discriminate|].
           rewrite processMessages_S in H.
           destruct (Z.ltb_spec (processed + 4 + messageSize) (blen buf)); [|lia].
           destruct (Z.ltb_spec (blen buf - (processed + 4 + messageSize)) 4); [lia|].
           unfold Buf.readInt32BE, Buf.readIntBE, Buf.readUIntBE, Buf.in_bounds in H.
           destruct (Z.leb_spec 0 (processed + 4 + messageSize)); [lia|].
           discriminate.
        -- exact (IH _ _ _ _ _ _ Hpos H).
  - injection H as <- <- <-. split; [assumption|]. now left.
Qed.

Lemma readInt32BE_drop (buf : Buffer) (processed : Z) :
  0 <= processed <= blen buf ->
  Buf.readInt32BE (drop (Z.to_nat processed) buf) 0 = Buf.readInt32BE buf processed.
Proof.
  intros Hp.
  assert (Hlen : blen (take (Z.to_nat processed) buf) = processed).
  { unfold blen in *. rewrite length_take. lia. }
  rewrite <- (readInt32BE_after (take (Z.to_nat processed) buf)
                (drop (Z.to_nat processed) buf)).
  now rewrite take_drop, Hlen.
Qed.

Lemma slice_from_drop (buf : Buffer) (processed : Z) :
  0 <= processed < blen buf ->
  Buf.slice_from buf processed = drop (Z.to_nat processed) buf.
Proof.
  intros Hp. unfold Buf.slice_from, Buf.slice, Buf.adjustOffset.
  destruct (Z.ltb_spec processed 0); [lia|].
  destruct (Z.ltb_spec (blen buf) 0); [lia|].
  rewrite Z.min_l by lia. rewrite Z.min_id.
  destruct (Z.ltb_spec processed (blen buf)); [|lia].
  apply take_ge. rewrite length_drop. unfold blen in *. lia.
Qed.

(** X2.  After [handleIncomingData] returns, the bytes it keeps never hold
    a whole frame: they are fewer than four, or fewer than the length they
    announce.  Every complete frame of the input has been handled. *)
Theorem pending_never_holds_a_frame (now : Z) (data : Buffer)
    (c c' : BrokerConnection.t) (events : list BrokerConnection.Emitted) :
  handleIncomingData now data c = Done c' events ->
  incomplete (pending c').
Proof.
  unfold handleIncomingData. rewrite concat_pending.
  set (buf := pending c ++ data).
  destruct (processMessages _ now buf 0 _ _) as [c1 ev1 processed| |] eqn:Hloop;
    try discriminate.
  destruct (processMessages_stops now buf _ _ _ _ _ _ _ (Z.le_refl 0) Hloop)
    as [Hp0 Hstop].
  assert (Hbuf : buffer c1 = Some buf).
  { clear Hstop. revert Hloop.
    generalize (S (List.length buf)) at 1. intros fuel.
    assert (Hgen : forall processed0 c0 ev0,
               buffer c0 = Some buf ->
               processMessages fuel now buf processed0 c0 ev0
               = LoopDone c1 ev1 processed -> buffer c1 = Some buf).
    { induction fuel as [|fuel IH]; intros processed0 c0 ev0 Hb H; [discriminate|].
      rewrite processMessages_S in H.
      destruct (processed0 <? blen buf).
      - destruct (blen buf - processed0 <? 4); [now injection H as <- _ _|].
        destruct (Buf.readInt32BE buf processed0) as [z|]; [|discriminate].
        destruct (_ <? _); [now injection H as <- _ _|].
        pose proof (handleResponse_buffer now
                      (Buf.slice buf (processed0 + 4) (processed0 + 4 + z)) c0) as Hh.
        destruct (handleResponse now _ c0) as [c2 ev2|e c2 ev2|]; try discriminate.
        eapply IH; [|exact H]. rewrite (Hh c2 eq_refl). exact Hb.
      - now injection H as <- _ _. }
    apply Hgen. reflexivity. }
  pose proof (blen_nonneg buf).
  destruct (Z.eqb_spec processed 0) as [->|Hnz].
  - intros [= <- _]. unfold pending. rewrite Hbuf.
    destruct Hstop as [Hend|[Hshort|(size & Hr & Hs)]].
    + left. lia.
    + left. lia.
    + right. exists size. split; [assumption|lia].
  - destruct (Z.ltb_spec processed (blen buf)) as [Hlt|Hge].
    + intros [= <- _]. unfold pending. cbn [buffer set_buffer].
      rewrite slice_from_drop by lia.
      assert (Hd : blen (drop (Z.to_nat processed) buf) = blen buf - processed).
      { unfold blen in *. rewrite length_drop. lia. }
      destruct Hstop as [Hend|[Hshort|(size & Hr & Hs)]].
      * lia.
      * left. lia.
      * right. exists size. rewrite readInt32BE_drop by lia.
        split; [assumption|lia].
    + intros [= <- _]. left. reflexivity.
Qed.

Lemma example_chunk_handled :
  handleIncomingData 1500 example_chunk example_connection
  = Done (set_buffer (Some [x00; x00])
            (resolved 1 example_request example_response example_connection))
         [EmitBytesIn 20; EmitResponse ApiKeys.METADATA 1 1 500].
Proof. vm_compute. reflexivity. Qed.

Lemma pending_never_holds_a_frame_witness :
  incomplete
    (pending (set_buffer (Some [x00; x00])
                (resolved 1 example_request example_response example_connection))).
Proof.
  exact (pending_never_holds_a_frame 1500 example_chunk example_connection _ _
           example_chunk_handled).
Defined.

(** ** What [send] writes *)

Lemma writeBE_Ok (w : nat) (lo hi v off : Z) (buf out : Buffer) :
  Buf.writeBE w lo hi buf v off = Ok out ->
  lo <= v <= hi /\ Buf.in_bounds buf off w = true
  /\ out = Buf.blit buf (Z_to_be w v) off.
Proof.
  unfold Buf.writeBE.
  destruct (Z.ltb_spec v lo); [discriminate|].
  destruct (Z.ltb_spec hi v); [discriminate|]. cbn [orb].
  destruct (Buf.in_bounds buf off w); [|discriminate].
  intros [= <-]. repeat split; lia.
Qed.

Lemma RequestHeader_encode_Ok (h : RequestHeader.t) (bytes : Buffer) :
  RequestHeader.encode h = Ok bytes -> RequestHeader.fits h.
Proof.
  unfold RequestHeader.encode, RequestHeader.fits, Buf.writeInt16BE, Buf.writeInt32BE.
  destruct (Buf.writeBE 2 _ _ _ (RequestHeader.apiKey h) _) as [b1|] eqn:H1;
    [|discriminate].
  apply writeBE_Ok in H1 as (Hk & _ & _). cbn [bind].
  destruct (Buf.writeBE 2 _ _ b1 (RequestHeader.apiVersion h) _) as [b2|] eqn:H2;
    [|discriminate].
  apply writeBE_Ok in H2 as (Hv & _ & _). cbn [bind].
  destruct (Buf.writeBE 4 _ _ b2 (RequestHeader.correlationId h) _) as [b3|] eqn:H3;
    [|discriminate].
  apply writeBE_Ok in H3 as (Hc & _ & _). cbn [bind].
  intros H. repeat split; try lia.
  destruct (RequestHeader.truthy (RequestHeader.clientId h)) as [s|] eqn:Ht.
  - apply truthy_byteLength in Ht as [-> _]. cbn [RequestHeader.collapsed].
    destruct (Buf.writeBE 2 _ _ b3 (Buf.byteLength s) _) as [b4|] eqn:H4;
      [|discriminate].
    apply writeBE_Ok in H4 as (Hl & _ & _). lia.
  - rewrite (truthy_None_collapsed _ Ht).
    change (Buf.byteLength EmptyString) with 0. lia.
Qed.

Lemma blen_RequestHeader_encode (h : RequestHeader.t) (bytes : Buffer) :
  RequestHeader.encode h = Ok bytes ->
  blen bytes
  = 10 + Buf.byteLength (RequestHeader.collapsed (RequestHeader.clientId h)).
Proof.
  intros H. pose proof (RequestHeader_encode_Ok h bytes H) as Hfit.
  rewrite (RequestHeader_encode_bytes h Hfit) in H.
  apply (f_equal (fun r => match r with Ok b => blen b | Throw _ => 0 end)) in H.
  rewrite <- H. rewrite !blen_app, !blen_Z_to_be.
  destruct (RequestHeader.truthy (RequestHeader.clientId h)) as [s|] eqn:Ht.
  - apply truthy_byteLength in Ht as [-> _]. cbn [RequestHeader.collapsed].
    rewrite blen_app, blen_Z_to_be, blen_bytes_of_string. lia.
  - rewrite (truthy_None_collapsed _ Ht). reflexivity.
Qed.

Lemma RequestHeader_decode_encode (h : RequestHeader.t) (bytes rest : Buffer) :
  RequestHeader.encode h = Ok bytes ->
  RequestHeader.decode (bytes ++ rest)
  = Ok (RequestHeader.mk (RequestHeader.apiKey h) (RequestHeader.apiVersion h)
          (RequestHeader.correlationId h)
          (Some (RequestHeader.collapsed (RequestHeader.clientId h)))).
Proof.
  intros H. pose proof (RequestHeader_encode_Ok h bytes H) as Hfit.
  rewrite (RequestHeader_encode_bytes h Hfit) in H.
  assert (E : bytes
              = Z_to_be 2 (RequestHeader.apiKey h)
                ++ Z_to_be 2 (RequestHeader.apiVersion h)
                ++ Z_to_be 4 (RequestHeader.correlationId h)
                ++ match RequestHeader.truthy (RequestHeader.clientId h) with
                   | Some s => Z_to_be 2 (Buf.byteLength s) ++ Buf.bytes_of_string s
                   | None => [xff; xff]
                   end) by congruence.
  rewrite E. clear E H.
  destruct Hfit as (Hk & Hv & Hc & Hl).
  rewrite <- !app_assoc.
  destruct (RequestHeader.truthy (RequestHeader.clientId h)) as [s|] eqn:Ht.
  - apply truthy_byteLength in Ht as [Hs Hpos]. rewrite Hs in *.
    cbn [RequestHeader.collapsed] in *.
    rewrite (RequestHeader_decode_encoded _ _ _ _ Hk Hv Hc (Buf.byteLength s)
               (Buf.bytes_of_string s) rest).
    + destruct (Z.leb_spec 0 (Buf.byteLength s)); [|lia].
      now rewrite string_of_bytes_of_string.
    + now rewrite <- app_assoc.
    + lia.
    + intros _. now rewrite blen_bytes_of_string.
  - rewrite (truthy_None_collapsed _ Ht).
    rewrite (RequestHeader_decode_encoded _ _ _ _ Hk Hv Hc (-1) [] rest);
      [reflexivity | reflexivity | lia | lia].
Qed.

(** The three writes of [send] into the zero-filled buffer give the frame. *)
Lemma send_frame (header data request : Buffer) :
  Buf.writeInt32BE (Buf.alloc (4 + blen header + blen data))
    (4 + blen header + blen data - 4) 0 = Ok request ->
  Buf.copy data (Buf.copy header request 4) (4 + blen header)
  = frame_of (header ++ data)
  /\ blen header + blen data <= 2 ^ 31 - 1.
Proof.
  intros H. apply writeBE_Ok in H as (Hr & _ & ->).
  pose proof (blen_nonneg header). pose proof (blen_nonneg data).
  split; [|lia].
  rewrite <- Z.add_assoc, alloc_add, alloc_add by lia.
  unfold Buf.copy, frame_of.
  rewrite (blit_at _ [] (Buf.alloc 4) (Buf.alloc (blen header) ++ Buf.alloc (blen data))
             (Z_to_be 4 (4 + (blen header + blen data) - 4)) 0);
    [|reflexivity|reflexivity|now rewrite length_Z_to_be].
  cbn [app].
  rewrite (blit_at _ (Z_to_be 4 (4 + (blen header + blen data) - 4))
             (Buf.alloc (blen header)) (Buf.alloc (blen data)) header 4);
    [|reflexivity|now rewrite blen_Z_to_be
     |rewrite length_alloc; unfold blen; lia].
  rewrite (blit_at _ (Z_to_be 4 (4 + (blen header + blen data) - 4) ++ header)
             (Buf.alloc (blen data)) [] data (4 + blen header));
    [|now rewrite <- app_assoc, !app_nil_r
     |now rewrite blen_app, blen_Z_to_be
     |rewrite length_alloc; unfold blen; lia].
  rewrite app_nil_r, <- app_assoc, blen_app. do 2 f_equal. lia.
Qed.

(** What an accepted [send] did. *)
Lemma send_Ok (k v : Z) (data : Buffer) (timeout : option Z) (now : Z)
    (c c' : t) (events : list Emitted) (p : nat) :
  send k v data timeout now c = (c', events, Ok p) ->
  let cid := Z.rem (correlationIdCounter c + 1) 2147483647 in
  exists header,
    isConnected c = true
    /\ RequestHeader.encode
         (RequestHeader.mk k v cid (Some (clientId (config c)))) = Ok header
    /\ 4 + blen header + blen data <= maxRequestSize (config c)
    /\ blen header + blen data <= 2 ^ 31 - 1
    /\ p = List.length (promises c)
    /\ events = [EmitBytesOut (blen (frame_of (header ++ data)));
                 EmitRequest k v cid]
    /\ c' = set_written
              (written c ++ [(frame_of (header ++ data), cid, p)])
              (set_inFlightRequests
                 (Map_set cid
                    (mkRequest cid now
                       (match timeout with
                        | Some t => or_default t (requestTimeout (config c))
                        | None => requestTimeout (config c)
                        end) k v data p)
                    (inFlightRequests c))
                 (set_promises (promises c ++ [Pending])
                    (set_correlationIdCounter cid c))).
Proof.
  unfold send. destruct (isConnected c) eqn:Hcon; cbn [negb]; [|discriminate].
  cbn [nextCorrelationId config set_correlationIdCounter].
  destruct (RequestHeader.encode _) as [header|e] eqn:Henc; [|discriminate].
  destruct (Z.ltb_spec (maxRequestSize (config c)) (4 + blen header + blen data));
    [discriminate|].
  destruct (Buf.writeInt32BE _ _ 0) as [request|e] eqn:Hw; [|discriminate].
  destruct (send_frame header data request Hw) as [Hframe Hlen].
  rewrite Hframe. intros [= <- <- <-]. cbv zeta. exists header.
  repeat split; try assumption; try reflexivity.
Qed.

Lemma Map_get_Map_set (k : Z) (r : InFlightRequest) (m : list (Z * InFlightRequest)) :
  Map_get k (Map_set k r m) = Some r.
Proof.
  unfold Map_get. induction m as [|[k' r'] m IH]; cbn [Map_set List.find fst snd].
  - now rewrite Z.eqb_refl.
  - destruct (Z.eqb_spec k' k) as [->|Hne]; cbn [List.find fst snd].
    + now rewrite Z.eqb_refl.
    + destruct (Z.eqb_spec k' k); [contradiction|]. exact IH.
Qed.

Lemma slice_from_framed (pre bs : Buffer) :
  Buf.slice_from (pre ++ bs) (blen pre) = bs.
Proof.
  unfold Buf.slice_from. rewrite blen_app.
  pose proof (slice_framed pre bs []) as H. now rewrite app_nil_r in H.
Qed.

(** X3.  An accepted [send] writes one well-formed frame.  The frame is
    14 bytes longer than the client id and the request data together and no
    longer than [maxRequestSize]; its first four bytes hold the length of
    what follows; what follows parses back, with [RequestHeader.decode], to
    the API key, API version, the new correlation id and the client id of
    the call, and the bytes after the header are the request data.  The
    request is in the in-flight table under that correlation id, with a
    pending promise, and ['bytesOut'] announces the length of the frame. *)
Theorem send_writes_a_frame (apiKey apiVersion : Z) (requestData : Buffer)
    (timeout : option Z) (now : Z) (c c' : BrokerConnection.t)
    (events : list BrokerConnection.Emitted) (p : nat) :
  send apiKey apiVersion requestData timeout now c = (c', events, Ok p) ->
  exists frame : Buffer,
    written c' = written c ++ [(frame, correlationIdCounter c', p)]
    /\ events = [EmitBytesOut (blen frame);
                 EmitRequest apiKey apiVersion (correlationIdCounter c')]
    /\ blen frame = 14 + Buf.byteLength (clientId (config c)) + blen requestData
    /\ blen frame <= maxRequestSize (config c)
    /\ Buf.readInt32BE frame 0 = Ok (blen frame - 4)
    /\ RequestHeader.decode (Buf.slice_from frame 4)
       = Ok (RequestHeader.mk apiKey apiVersion (correlationIdCounter c')
               (Some (clientId (config c))))
    /\ Buf.slice_from frame (14 + Buf.byteLength (clientId (config c)))
       = requestData
    /\ (exists request,
          Map_get (correlationIdCounter c') (inFlightRequests c') = Some request
          /\ sentTime request = now /\ promise request = p
          /\ BrokerConnection.requestData request = requestData)
    /\ promises c' !! p = Some Pending.
Proof.
  intros H. destruct (send_Ok _ _ _ _ _ _ _ _ _ H)
    as (header & Hcon & Henc & Hmax & Hlen & Hp & Hev & Hc').
  pose proof (blen_RequestHeader_encode _ _ Henc) as Hh.
  cbn [RequestHeader.clientId RequestHeader.collapsed] in Hh.
  pose proof (blen_nonneg requestData). pose proof (blen_nonneg header).
  exists (frame_of (header ++ requestData)).
  assert (Hf : blen (frame_of (header ++ requestData))
               = 4 + blen header + blen requestData)
    by (rewrite blen_frame_of, blen_app; lia).
  rewrite Hc'. cbn [written correlationIdCounter inFlightRequests promises
                     set_written set_inFlightRequests set_promises
                     set_correlationIdCounter].
  split; [reflexivity|]. split; [exact Hev|]. split; [lia|]. split; [lia|].
  split; [|split; [|split; [|split]]].
  - rewrite <- (app_nil_r (frame_of (header ++ requestData))) at 1.
    rewrite readInt32BE_frame by (rewrite blen_app; lia).
    f_equal. rewrite blen_app in *. lia.
  - unfold frame_of at 1.
    replace 4 with (blen (Z_to_be 4 (blen (header ++ requestData))))
      by apply blen_Z_to_be.
    rewrite slice_from_framed.
    now rewrite (RequestHeader_decode_encode _ _ requestData Henc).
  - unfold frame_of. rewrite app_assoc.
    replace (14 + Buf.byteLength (clientId (config c)))
      with (blen (Z_to_be 4 (blen (header ++ requestData)) ++ header))
      by (rewrite blen_app, blen_Z_to_be; lia).
    apply slice_from_framed.
  - eexists. split; [apply Map_get_Map_set|]. now repeat split.
  - rewrite Hp, lookup_app_r by lia. now rewrite Nat.sub_diag.
Qed.

Lemma send_writes_a_frame_witness :
  exists frame : Buffer,
    written (fst (fst (send ApiKeys.API_VERSIONS 0 [x07] None 2000 example_connection)))
    = written example_connection ++ [(frame, 2, 1%nat)]
    /\ blen frame = 18
    /\ Buf.readInt32BE frame 0 = Ok 14.
Proof.
  destruct (send_writes_a_frame ApiKeys.API_VERSIONS 0 [x07] None 2000
              example_connection
              (fst (fst (send ApiKeys.API_VERSIONS 0 [x07] None 2000
                           example_connection)))
              (snd (fst (send ApiKeys.API_VERSIONS 0 [x07] None 2000
                           example_connection)))
              1%nat)
    as (frame & Hw & _ & Hlen & _ & Hr & _).
  - vm_compute. reflexivity.
  - exists frame. split; [exact Hw|]. split; [exact Hlen|].
    rewrite Hr. f_equal. rewrite Hlen. reflexivity.
Defined.

Lemma in_bounds_alloc (n : Z) (w : nat) :
  Z.of_nat w <= n -> Buf.in_bounds (Buf.alloc n) 0 w = true.
Proof.
  intros H. unfold Buf.in_bounds, blen. rewrite length_alloc.
  apply andb_true_intro. split; [reflexivity|]. apply Z.leb_le. lia.
Qed.

Lemma send_refused (k v : Z) (data : Buffer) (timeout : option Z) (now : Z)
    (c : t) (e : JsError) :
  isConnected c = true ->
  snd (send k v data timeout now c) = Throw e ->
  fst (send k v data timeout now c)
  = (set_correlationIdCounter (Z.rem (correlationIdCounter c + 1) 2147483647) c, [])
  /\ (e = RangeError
      \/ e = KafkaError
               (requestTooLargeMessage
                  (14 + Buf.byteLength (clientId (config c)) + blen data) c)).
Proof.
  intros Hcon. unfold send. rewrite Hcon.
    cbn [negb nextCorrelationId config set_correlationIdCounter].
    destruct (RequestHeader.encode _) as [header|e'] eqn:Henc.
    + pose proof (blen_RequestHeader_encode _ _ Henc) as Hh.
      cbn [RequestHeader.clientId RequestHeader.collapsed] in Hh.
      destruct (Z.ltb_spec (maxRequestSize (config c))
                  (4 + blen header + blen data)).
      * cbn [fst snd]. intros [= <-]. split; [reflexivity|]. right.
        unfold requestTooLargeMessage. cbn [config set_correlationIdCounter].
        replace (4 + blen header + blen data)
          with (14 + Buf.byteLength (clientId (config c)) + blen data)
          by lia.
        reflexivity.
      * destruct (Buf.writeInt32BE _ _ 0) as [request|e'] eqn:Hw;
          cbn [fst snd]; [discriminate|].
        intros [= <-]. split; [reflexivity|]. left.
        unfold Buf.writeInt32BE, Buf.writeBE in Hw.
        destruct (_ || _); [congruence|].
        destruct (Buf.in_bounds _ _ _); congruence.
    + cbn [fst snd]. intros [= <-]. split; [reflexivity|]. left.
      revert Henc. unfold RequestHeader.encode, Buf.writeInt16BE, Buf.writeInt32BE.
      repeat match goal with
             | |- context [Buf.writeBE ?w ?lo ?hi ?b ?v ?o] =>
                 let E := fresh "E" in
                 destruct (Buf.writeBE w lo hi b v o) eqn:E; cbn [bind];
                 [|unfold Buf.writeBE in E;
                   repeat match type of E with
                          | (if ?x then _ else _) = _ => destruct x
                          end; congruence]
             | |- context [RequestHeader.truthy ?x] =>
                 destruct (RequestHeader.truthy x)
             end; congruence.
Qed.

(** X4.  When [send] accepts and what a refusal leaves behind.  The call
    is accepted exactly when the connection is connected, the API key and
    version fit an int16, the client id is at most 32767 bytes, and the
    frame (14 bytes more than client id and data) is neither longer than
    [maxRequestSize] nor than an int32 can announce.  Refused on a
    connection that is not connected, it leaves the connection as it was;
    refused for another reason, it has consumed a correlation id and
    changed nothing else.  A refusal emits no event. *)
Theorem send_accepted_iff (apiKey apiVersion : Z) (requestData : Buffer)
    (timeout : option Z) (now : Z) (c : BrokerConnection.t) :
  let cid := Z.rem (correlationIdCounter c + 1) 2147483647 in
  let outcome := send apiKey apiVersion requestData timeout now c in
  ((exists p, snd outcome = Ok p) <->
   isConnected c = true
   /\ RequestHeader.fits
        (RequestHeader.mk apiKey apiVersion cid (Some (clientId (config c))))
   /\ 14 + Buf.byteLength (clientId (config c)) + blen requestData
      <= maxRequestSize (config c)
   /\ 10 + Buf.byteLength (clientId (config c)) + blen requestData <= 2 ^ 31 - 1)
  /\ (isConnected c = false ->
      outcome = (c, [], Throw (DisconnectedError "Not connected to broker")))
  /\ (forall e, isConnected c = true -> snd outcome = Throw e ->
        fst outcome = (set_correlationIdCounter cid c, [])
        /\ (e = RangeError
            \/ e = KafkaError
                     (requestTooLargeMessage
                        (14 + Buf.byteLength (clientId (config c)) + blen requestData)
                        c))).
Proof.
  cbv zeta. split; [split|split].
  - intros [p Hp].
    destruct (send apiKey apiVersion requestData timeout now c) as [[c' ev] r] eqn:H.
    cbn [snd] in Hp. subst r.
    destruct (send_Ok _ _ _ _ _ _ _ _ _ H)
      as (header & Hcon & Henc & Hmax & Hlen & _).
    pose proof (blen_RequestHeader_encode _ _ Henc) as Hh.
    cbn [RequestHeader.clientId RequestHeader.collapsed] in Hh.
    split; [assumption|]. split; [exact (RequestHeader_encode_Ok _ _ Henc)|]. lia.
  - intros (Hcon & Hfit & Hmax & Hlen).
    pose proof (RequestHeader_encode_bytes _ Hfit) as Henc.
    unfold send. rewrite Hcon. cbn [negb nextCorrelationId config
                                    set_correlationIdCounter].
    destruct (RequestHeader.encode _) as [header|e'] eqn:Henc'; [|congruence].
    clear Henc.
    pose proof (blen_RequestHeader_encode _ _ Henc') as Hh.
    cbn [RequestHeader.clientId RequestHeader.collapsed] in Hh.
    destruct (Z.ltb_spec (maxRequestSize (config c))
                (4 + blen header + blen requestData)); [lia|].
    pose proof (byteLength_nonneg (clientId (config c))).
    pose proof (blen_nonneg requestData).
    unfold Buf.writeInt32BE, Buf.writeBE.
    destruct (Z.ltb_spec (4 + blen header + blen requestData - 4) (- 2 ^ 31));
      [lia|].
    destruct (Z.ltb_spec (2 ^ 31 - 1) (4 + blen header + blen requestData - 4));
      [lia|].
    cbn [orb]. rewrite in_bounds_alloc by (cbn; lia). cbn [snd]. eauto.
  - intros Hcon. unfold send. rewrite Hcon. reflexivity.
  - intros e Hcon. apply send_refused. exact Hcon.
Qed.

(** ** The life cycle of a connection *)

Lemma Map_set_In (k : Z) (r : InFlightRequest) (m : list (Z * InFlightRequest))
    (e : Z * InFlightRequest) :
  In e (Map_set k r m) -> e = (k, r) \/ In e m.
Proof.
  induction m as [|x m IH]; cbn [Map_set].
  - intros [<-|[]]. now left.
  - destruct (fst x =? k).
    + intros [<-|H]; [now left|right; now right].
    + intros [<-|H]; [right; now left|].
      destruct (IH H) as [->|Hin]; [now left|right; now right].
Qed.

Ltac lifecycle_closed :=
  constructor; cbn;
  [ discriminate
  | split; discriminate
  | split; [intros H; now destruct H | discriminate]
  | intros e []
  | discriminate
  | assumption
  | intros e [] ].

Lemma lifecycle_new (config : BrokerConnectionConfig) : lifecycle (new config).
Proof.
  constructor; cbn; try (split; discriminate); try discriminate;
    try (intros e []); try lia.
  split; [intros H; now destruct H | discriminate].
Qed.

Lemma lifecycle_disconnect (c : t) : lifecycle c -> lifecycle (fst (disconnect c)).
Proof.
  intros H. unfold disconnect.
  destruct (state c) eqn:Hs; [exact H|..];
    (destruct H as [_ _ _ _ _ Hc _]; lifecycle_closed).
Qed.

Lemma lifecycle_onDisconnect (error : option JsError) (c : t) :
  lifecycle c -> lifecycle (fst (onDisconnect error c)).
Proof. intros [_ _ _ _ _ Hc _]. unfold onDisconnect. lifecycle_closed. Qed.

(** Fewer requests in flight, and nothing else that the life cycle looks at. *)
Lemma lifecycle_fewer (c c' : t) :
  lifecycle c ->
  state c' = state c -> requestTimeoutInterval c' = requestTimeoutInterval c ->
  connectionTimeoutTimer c' = connectionTimeoutTimer c -> socket c' = socket c ->
  correlationIdCounter c' = correlationIdCounter c ->
  (forall e, In e (inFlightRequests c') -> In e (inFlightRequests c)) ->
  lifecycle c'.
Proof.
  intros [H1 H2 H3 H4 H5 H6 H7] Es Ei Ed Eso Ec Hsub.
  constructor; rewrite ?Es, ?Ei, ?Ed, ?Eso, ?Ec; try assumption.
  - intros e He. exact (H4 e (Hsub e He)).
  - intros e He. exact (H7 e (Hsub e He)).
Qed.

Lemma lifecycle_noted (error : JsError) (c : t) :
  lifecycle c -> lifecycle (noted error c).
Proof.
  intros H. destruct (noted_table error c) as (Et & _ & Es & Eso & Ed & Ei & _ & Ec & _).
  apply (lifecycle_fewer c _ H); try assumption. now rewrite Et.
Qed.

Lemma lifecycle_onError (error : JsError) (c c' : t) :
  after (onError error c) = Some c' -> lifecycle c -> lifecycle c'.
Proof.
  intros H Hl. pose proof (lifecycle_noted error c Hl) as Hn.
  destruct (onError_cases error c) as [[_ Ho]|[_ [thrown Ho]]]; rewrite Ho in H;
    injection H as <-; [now apply lifecycle_disconnect | assumption].
Qed.

Lemma lifecycle_handleResponse (now : Z) (m : Buffer) (c c' : t) :
  after (handleResponse now m c) = Some c' -> lifecycle c -> lifecycle c'.
Proof.
  intros H Hl.
  destruct (handleResponse_cases now m c)
    as [(header & request & Hdec & Hget & Ho)|[(header & Hdec & Hget & Ho)|[Hlen Ho]]];
    rewrite Ho in H.
  - injection H as <-. apply (lifecycle_fewer c _ Hl); try reflexivity.
    unfold resolved. cbn [inFlightRequests set_promises set_inFlightRequests].
    intros e He. now apply Map_delete_In in He as [He _].
  - now injection H as <-.
  - exact (lifecycle_onError _ _ _ H Hl).
Qed.

Lemma lifecycle_processMessages (fuel : nat) (now : Z) (buf : Buffer) :
  forall processed c events c',
    loop_end (processMessages fuel now buf processed c events) = Some c' ->
    lifecycle c -> lifecycle c'.
Proof.
  induction fuel as [|fuel IH]; intros processed c events c' H Hl; [discriminate|].
  rewrite processMessages_S in H.
  destruct (processed <? blen buf); [|now injection H as <-].
  destruct (_ <? 4); [now injection H as <-|].
  destruct (Buf.readInt32BE buf processed) as [messageSize|e];
    [|now injection H as <-].
  destruct (_ <? _); [now injection H as <-|].
  pose proof (lifecycle_handleResponse now
                (Buf.slice buf (processed + 4) (processed + 4 + messageSize)) c) as Hh.
  destruct (handleResponse now _ c) as [c1 ev1|e c1 ev1|]; [| |discriminate].
  - eapply IH; [exact H|]. now apply Hh.
  - injection H as <-. now apply Hh.
Qed.

Lemma lifecycle_set_buffer (b : option Buffer) (c : t) :
  lifecycle c -> lifecycle (set_buffer b c).
Proof. intros []. now constructor. Qed.

Lemma lifecycle_handleIncomingData (now : Z) (data : Buffer) (c c' : t) :
  after (handleIncomingData now data c) = Some c' -> lifecycle c -> lifecycle c'.
Proof.
  unfold handleIncomingData. intros H Hl.
  pose proof (fun buf => lifecycle_processMessages (S (List.length buf)) now buf 0
                (set_buffer (Some buf) c) [EmitBytesIn (blen data)]) as Hp.
  specialize (Hp match buffer c with
                 | Some b => Buf.concat b data
                 | None => data
                 end).
  destruct (processMessages _ _ _ _ _ _) as [c1 ev1 processed|e c1 ev1|];
    [| |discriminate].
  - pose proof (Hp c1 eq_refl (lifecycle_set_buffer _ _ Hl)) as H1.
    destruct (processed =? 0); [now injection H as <-|].
    destruct (processed <? _); injection H as <-; now apply lifecycle_set_buffer.
  - injection H as <-. exact (Hp c1 eq_refl (lifecycle_set_buffer _ _ Hl)).
Qed.

Lemma lifecycle_sweep (now : Z) (c : t) : lifecycle c -> lifecycle (sweep now c).
Proof.
  intros H. apply (lifecycle_fewer c _ H); unfold sweep;
    pose proof (sweep_fold_table now (inFlightRequests c) (inFlightRequests c)
                  (promises c)) as Ht;
    destruct (fold_left _ _ _) as [requests ps]; try reflexivity.
  cbn [fst] in Ht. intros e He. now apply Ht in He as [He _].
Qed.

Lemma lifecycle_onWriteError (i : nat) (error : JsError) (c : t) :
  lifecycle c -> lifecycle (onWriteError i error c).
Proof.
  intros H. unfold onWriteError. destruct (written c !! i) as [[[frame k] p]|]; [|exact H].
  apply (lifecycle_fewer c _ H); try reflexivity.
  intros e He. now apply Map_delete_In in He as [He _].
Qed.

Lemma lifecycle_connect (c : t) : lifecycle c -> lifecycle (connect c).
Proof.
  intros H. unfold connect. destruct (state c) eqn:Hs; try exact H.
  - destruct H as [H1 H2 H3 H4 H5 H6 H7]. constructor; cbn.
    + discriminate.
    + split; [|discriminate]. intros E. apply H2 in E. congruence.
    + split; [reflexivity|discriminate].
    + intros e He. specialize (H4 e He). congruence.
    + discriminate.
    + assumption.
    + assumption.
  - apply (lifecycle_fewer c _ H); try reflexivity. auto.
  - destruct H as [H1 _ _ _ _ _ _]. contradiction.
Qed.

Lemma lifecycle_onSocketConnect (c : t) :
  lifecycle c -> lifecycle (fst (onSocketConnect c)).
Proof.
  intros [H1 H2 H3 H4 H5 H6 H7]. unfold onSocketConnect, startRequestTimeoutTimer.
  cbn [requestTimeoutInterval set_state set_connectionTimeoutTimer fst].
  destruct (requestTimeoutInterval c); constructor; cbn;
    try discriminate; try assumption; try reflexivity;
    try (split; reflexivity);
    split; try discriminate; intros H; now destruct H.
Qed.

Lemma nextCorrelationId_range (counter : Z) :
  0 <= counter -> 0 <= Z.rem (counter + 1) 2147483647 <= 2147483646.
Proof.
  intros H. pose proof (Z.rem_bound_pos (counter + 1) 2147483647). lia.
Qed.

Lemma lifecycle_send (k v : Z) (data : Buffer) (timeout : option Z) (now : Z)
    (c : t) :
  lifecycle c -> lifecycle (fst (fst (send k v data timeout now c))).
Proof.
  intros H.
  assert (Hbump : isConnected c = true ->
                  lifecycle (set_correlationIdCounter
                               (Z.rem (correlationIdCounter c + 1) 2147483647) c)).
  { intros _. destruct H as [H1 H2 H3 H4 H5 H6 H7].
    constructor; cbn; auto. apply nextCorrelationId_range. lia. }
  destruct (send k v data timeout now c) as [[c' ev] [p|e]] eqn:Hs.
  - destruct (send_Ok _ _ _ _ _ _ _ _ _ Hs) as (header & Hcon & _ & _ & _ & _ & _ & ->).
    specialize (Hbump Hcon). destruct Hbump as [H1 H2 H3 H4 H5 H6 H7].
    cbn [fst]. constructor; cbn in *; auto.
    + intros e He. apply Map_set_In in He as [->|He]; [|eauto].
      unfold isConnected in Hcon. destruct (state c); congruence.
    + intros e He. apply Map_set_In in He as [->|He]; [|eauto].
      cbn. split; [reflexivity|assumption].
  - cbn [fst]. destruct (isConnected c) eqn:Hcon.
    + pose proof (send_refused k v data timeout now c e Hcon) as Hr.
      rewrite Hs in Hr. cbn [fst snd] in Hr.
      destruct (Hr eq_refl) as [[= ->] _]. now apply Hbump.
    + unfold send in Hs. rewrite Hcon in Hs. cbn [negb] in Hs.
      injection Hs as <- _ _. exact H.
Qed.

Lemma step_lifecycle (ev : Event) (c c' : t) :
  after (step ev c) = Some c' -> lifecycle c -> lifecycle c'.
Proof.
  intros H Hl. destruct ev; cbn [step after] in H.
  - injection H as <-. now apply lifecycle_connect.
  - pose proof (lifecycle_disconnect c Hl) as Hd.
    destruct (disconnect c). now injection H as <-.
  - pose proof (lifecycle_send apiKey0 apiVersion0 requestData0 timeout0 now c Hl)
      as Hd.
    destruct (send _ _ _ _ _ c) as [[c1 e1] r]. now injection H as <-.
  - injection H as <-. apply (lifecycle_fewer c _ Hl); try reflexivity. auto.
  - injection H as <-. apply (lifecycle_fewer c _ Hl); try reflexivity. auto.
  - injection H as <-. apply (lifecycle_fewer c _ Hl); try reflexivity. auto.
  - pose proof (lifecycle_onSocketConnect c Hl) as Hd.
    destruct (onSocketConnect c). now injection H as <-.
  - exact (lifecycle_handleIncomingData _ _ _ _ H Hl).
  - exact (lifecycle_onError _ _ _ H Hl).
  - pose proof (lifecycle_onDisconnect
                  (Some (DisconnectedError "Broker closed connection")) c Hl) as Hd.
    destruct (onDisconnect _ c). now injection H as <-.
  - destruct hadError; [now injection H as <-|].
    pose proof (lifecycle_onDisconnect None c Hl) as Hd.
    destruct (onDisconnect _ c). now injection H as <-.
  - exact (lifecycle_onError _ _ _ H Hl).
  - destruct (connectionTimeoutTimer c) eqn:Ht; [now injection H as <-| |
                                                 now injection H as <-].
    apply (lifecycle_onError _ _ _ H).
    destruct Hl as [H1 H2 H3 H4 H5 H6 H7]. constructor; cbn; try assumption.
    split; [|discriminate]. intros _. apply H3. rewrite Ht. discriminate.
  - injection H as <-. now apply lifecycle_onWriteError.
  - destruct (_ || _); injection H as <-;
      [now apply lifecycle_sweep | assumption].
Qed.

Lemma run_lifecycle (evs : list Event) :
  forall c c', run evs c = Some c' -> lifecycle c -> lifecycle c'.
Proof.
  induction evs as [|ev evs IH]; intros c c' H Hl; cbn [run] in H.
  - now injection H as <-.
  - destruct (after (step ev c)) as [c1|] eqn:Hs; try discriminate.
    exact (IH _ _ H (step_lifecycle _ _ _ Hs Hl)).
Qed.

Lemma reachable_lifecycle (c : t) : reachable c -> lifecycle c.
Proof.
  intros (config & evs & H). exact (run_lifecycle evs _ _ H (lifecycle_new config)).
Qed.

Lemma example_connection_reachable : reachable example_connection.
Proof. exists example_config, example_trace. vm_compute. reflexivity. Qed.

(** A tick with nothing in flight changes nothing. *)
Lemma sweep_empty (now : Z) (c : t) : inFlightRequests c = [] -> sweep now c = c.
Proof. intros H. unfold sweep. rewrite H. destruct c. cbn in *. now subst. Qed.

Lemma tick_idle (now : Z) (c : t) :
  inFlightRequests c = [] -> step (SweepTick now) c = Done c [].
Proof.
  intros H. cbn [step]. rewrite (sweep_empty now c H). now destruct (_ || _).
Qed.



(** X6.  Correlation ids stay within the header's int32.  In every state
    a connection can reach the correlation counter lies between 0 and
    2^31-2, as do the key and the id of every request in flight, which are
    equal; the next id is the counter plus one, except after 2147483646,
    where it is 0; and encoding the request header never fails because of
    the correlation id. *)
Theorem correlation_ids_in_range (c : BrokerConnection.t) :
  reachable c ->
  0 <= correlationIdCounter c <= 2147483646
  /\ (forall k request, Map_get k (inFlightRequests c) = Some request ->
        correlationId request = k /\ 0 <= k <= 2147483646)
  /\ snd (nextCorrelationId c)
     = (if correlationIdCounter c =? 2147483646 then 0
        else correlationIdCounter c + 1)
  /\ - 2 ^ 31 <= snd (nextCorrelationId c) <= 2 ^ 31 - 1.
Proof.
  intros Hr. destruct (reachable_lifecycle c Hr) as [_ _ _ _ _ Hc Hk].
  split; [assumption|]. split; [|split].
  - intros k request Hget. apply Map_get_Some in Hget. exact (Hk _ Hget).
  - cbn [nextCorrelationId snd].
    destruct (Z.eqb_spec (correlationIdCounter c) 2147483646) as [->|Hne];
      [reflexivity|].
    apply Z.rem_small. lia.
  - cbn [nextCorrelationId snd].
    pose proof (nextCorrelationId_range (correlationIdCounter c) (proj1 Hc)). lia.
Qed.

Lemma correlation_ids_in_range_witness :
  reachable example_connection
  /\ correlationIdCounter example_connection = 1
  /\ snd (nextCorrelationId example_connection) = 2.
Proof.
  split; [exact example_connection_reachable|].
  destruct (correlation_ids_in_range example_connection example_connection_reachable)
    as (_ & _ & Hnext & _).
  split; [reflexivity|]. rewrite Hnext. reflexivity.
Defined.

(** X7.  What a teardown leaves.  From every state a connection can
    reach, a teardown event whose handler gets as far as closing (always so
    for a call of [disconnect] and the socket's end and close without
    error; for the socket's error and timeout when ['error'] is listened to
    and no listener throws) leaves the connection DISCONNECTED, without
    socket, with both handles cleared and no request in flight; a [send]
    after it is refused with DisconnectedError and changes nothing, and a
    tick changes nothing.  Otherwise the handler of the socket's error or
    timeout throws out of [onError]: the error is recorded, and state,
    socket, timers, requests in flight and promises are as they were. *)
Theorem teardown_disconnects (ev : BrokerConnection.Event) (c : BrokerConnection.t) :
  reachable c -> teardown ev ->
  (closes ev c = true ->
   exists c' events,
     step ev c = Done c' events
     /\ state c' = DISCONNECTED /\ socket c' = false
     /\ requestTimeoutInterval c' = false /\ connectionTimeoutTimer c' = TimerNull
     /\ inFlightRequests c' = []
     /\ (forall apiKey apiVersion requestData timeout now,
           send apiKey apiVersion requestData timeout now c'
           = (c', [], Throw (DisconnectedError "Not connected to broker")))
     /\ (forall now, step (SweepTick now) c' = Done c' []))
  /\ (closes ev c = false ->
      exists error thrown c',
        error_of ev c = Some error
        /\ step ev c = Uncaught thrown c' [EmitError error]
        /\ connectionError c' = Some error
        /\ state c' = state c /\ socket c' = socket c
        /\ requestTimeoutInterval c' = requestTimeoutInterval c
        /\ connectionTimeoutTimer c' = connectionTimeoutTimer c
        /\ inFlightRequests c' = inFlightRequests c
        /\ promises c' = promises c)
  /\ (error_of ev c = None -> closes ev c = true)
  /\ (errorListeners c = [] -> error_of ev c <> None -> closes ev c = false).
Proof.
  intros Hr Htd.
  assert (Hclosed : forall c' : t,
             state c' = DISCONNECTED -> socket c' = false ->
             requestTimeoutInterval c' = false ->
             connectionTimeoutTimer c' = TimerNull ->
             inFlightRequests c' = [] ->
             state c' = DISCONNECTED /\ socket c' = false
             /\ requestTimeoutInterval c' = false
             /\ connectionTimeoutTimer c' = TimerNull
             /\ inFlightRequests c' = []
             /\ (forall apiKey apiVersion requestData timeout now,
                   send apiKey apiVersion requestData timeout now c'
                   = (c', [], Throw (DisconnectedError "Not connected to broker")))
             /\ (forall now, step (SweepTick now) c' = Done c' [])).
  { intros c' Hs Hso Hi Hd Ht. repeat split; try assumption.
    - intros. unfold send, isConnected. now rewrite Hs.
    - intros now. now apply tick_idle. }
  assert (Hdis : forall c0, lifecycle c0 ->
             let c' := fst (disconnect c0) in
             state c' = DISCONNECTED /\ socket c' = false
             /\ requestTimeoutInterval c' = false
             /\ connectionTimeoutTimer c' = TimerNull /\ inFlightRequests c' = []).
  { intros c0 [H1 H2 H3 H4 H5 _ _]. unfold disconnect.
    destruct (state c0) eqn:Hs; cbn; try (repeat split; reflexivity).
    repeat split.
    - exact Hs.
    - destruct (socket c0); [|reflexivity]. now destruct (H5 eq_refl).
    - destruct (requestTimeoutInterval c0); [|reflexivity].
      discriminate (proj1 H2 eq_refl).
    - destruct (connectionTimeoutTimer c0) eqn:Ht; [reflexivity| |];
        assert (Hc : DISCONNECTED = CONNECTING) by (apply H3; discriminate);
        discriminate Hc.
    - destruct (inFlightRequests c0) as [|e m]; [reflexivity|].
      discriminate (H4 e (or_introl eq_refl)). }
  pose proof (reachable_lifecycle c Hr) as Hl.
  split; [|split; [|split]].
  - intros Hcl.
    destruct ev as [| | | | | | | | | |[]| | | |]; try contradiction;
      cbn [step]; cbn [closes error_of] in Hcl.
    + pose proof (Hdis c Hl) as (A & B & C & D & E).
      destruct (disconnect c) as [c1 ev1]. exists c1, ev1.
      split; [reflexivity|]. now apply Hclosed.
    + rewrite (onError_heard error c Hcl).
      pose proof (Hdis _ (lifecycle_noted error c Hl)) as (A & B & C & D & E).
      eexists _, _. split; [reflexivity|]. now apply Hclosed.
    + unfold onDisconnect. eexists _, _. split; [reflexivity|].
      now apply Hclosed.
    + unfold onDisconnect. eexists _, _. split; [reflexivity|].
      now apply Hclosed.
    + rewrite (onError_heard _ c Hcl).
      pose proof (Hdis _ (lifecycle_noted
                            (TimeoutError (socketTimeoutMessage c)) c Hl))
        as (A & B & C & D & E).
      eexists _, _. split; [reflexivity|]. now apply Hclosed.
  - intros Hcl. destruct (teardown_thrown ev c Htd Hcl) as (error & thrown & He & Hs).
    destruct (noted_table error c) as (Et & Ep & Es & Eso & Ed & Ei & _ & _ & _ & Ee).
    exists error, thrown, (noted error c). now repeat split.
  - intros He. unfold closes. now rewrite He.
  - intros Hnone He. unfold closes. destruct (error_of ev c) as [error|];
      [|contradiction]. unfold heard, emitError. now rewrite Hnone.
Qed.

Lemma teardown_disconnects_witness :
  reachable example_connection /\ teardown SocketEnd
  /\ closes SocketEnd example_connection = true
  /\ exists c' events,
       step SocketEnd example_connection = Done c' events
       /\ state c' = DISCONNECTED /\ inFlightRequests c' = [].
Proof.
  split; [exact example_connection_reachable|]. split; [exact I|].
  split; [reflexivity|].
  destruct (teardown_disconnects SocketEnd example_connection
              example_connection_reachable I) as (Hcloses & _).
  destruct (Hcloses eq_refl) as (c' & events & Hs & Hst & _ & _ & _ & Ht & _).
  exists c', events. now repeat split.
Defined.

(** ** The encoder *)

Lemma take_app_alloc (bytes : Buffer) (n : Z) :
  n = blen bytes -> take (Z.to_nat n) (bytes ++ Buf.alloc n) = bytes.
Proof.
  intros ->. unfold blen. rewrite Nat2Z.id. now rewrite take_app_length.
Qed.

Lemma Buffer_concat_exact (list : list Buffer) (totalLength : Z) :
  totalLength = blen (List.concat list) ->
  Buffer_concat list totalLength = Ok (List.concat list).
Proof.
  intros H. unfold Buffer_concat. pose proof (blen_nonneg (List.concat list)).
  destruct (Z.ltb_spec totalLength 0); [lia|]. now rewrite take_app_alloc.
Qed.

Lemma concat_snoc (list : list Buffer) (b : Buffer) :
  List.concat (list ++ [b]) = List.concat list ++ b.
Proof. rewrite concat_app. cbn. now rewrite app_nil_r. Qed.

Lemma sized_new : sized Encoder.new.
Proof. reflexivity. Qed.

Lemma sized_push (b : Buffer) (e : Encoder.t) : sized e -> sized (Encoder.push b e).
Proof.
  unfold sized, Encoder.push. cbn. intros ->. now rewrite concat_snoc, blen_app.
Qed.

Lemma build_sized (e : Encoder.t) :
  sized e -> Encoder.build e = Ok (List.concat (Encoder.buffers e)).
Proof. intros H. now apply Buffer_concat_exact. Qed.

Lemma writeField_encodeField (f : Field) (e : Encoder.t) :
  writeField f e = let! buffer := encodeField f in Ok (Encoder.push buffer e).
Proof. destruct f; reflexivity. Qed.

Lemma writeFields_chunks (fields : list Field) :
  forall e e',
    writeFields fields e = Ok e' ->
    exists chunks,
      Forall2 (fun f chunk => encodeField f = Ok chunk) fields chunks
      /\ Encoder.buffers e' = Encoder.buffers e ++ chunks
      /\ Encoder.size e' = Encoder.size e + blen (List.concat chunks).
Proof.
  induction fields as [|f fields IH]; intros e e' H; cbn [writeFields] in H.
  - injection H as <-. exists []. split; [constructor|].
    now rewrite app_nil_r, Z.add_0_r.
  - rewrite writeField_encodeField in H.
    destruct (encodeField f) as [chunk|err] eqn:Hf; [|discriminate].
    cbn [bind] in H. destruct (IH _ _ H) as (chunks & Hall & Hb & Hs).
    exists (chunk :: chunks). split; [now constructor|].
    cbn [Encoder.push Encoder.buffers Encoder.size] in Hb, Hs.
    rewrite Hb, Hs, <- app_assoc. cbn [List.concat app]. rewrite blen_app.
    split; [reflexivity|lia].
Qed.

(** X8.  What an encoder builds.  After any sequence of write calls on a
    new encoder that all return, [build()] returns the [BasicTypes]
    encodings of the values, in the order of the calls and with nothing
    between them, and [getSize()] is the length of that buffer. *)
Theorem encoder_builds_the_concatenation (fields : list Field) (e : Encoder.t) :
  writeFields fields Encoder.new = Ok e ->
  exists chunks : list Buffer,
    Forall2 (fun f chunk => encodeField f = Ok chunk) fields chunks
    /\ Encoder.build e = Ok (List.concat chunks)
    /\ Encoder.getSize e = blen (List.concat chunks).
Proof.
  intros H. destruct (writeFields_chunks fields _ _ H) as (chunks & Hall & Hb & Hs).
  exists chunks. cbn [Encoder.new Encoder.buffers Encoder.size app] in Hb, Hs.
  split; [assumption|]. split.
  - rewrite build_sized; [now rewrite Hb|]. unfold sized. now rewrite Hs, Hb.
  - exact Hs.
Qed.

Lemma example_encoder_written :
  writeFields example_fields Encoder.new = Ok example_encoder.
Proof. vm_compute. reflexivity. Qed.

Lemma encoder_builds_the_concatenation_witness :
  exists chunks : list Buffer,
    Forall2 (fun f chunk => encodeField f = Ok chunk) example_fields chunks
    /\ Encoder.build example_encoder = Ok (List.concat chunks)
    /\ Encoder.getSize example_encoder = blen (List.concat chunks).
Proof.
  exact (encoder_builds_the_concatenation example_fields example_encoder
           example_encoder_written).
Defined.

(** ** Encoder and decoder *)

Lemma readField_blank (f : Field) (d : Decoder.t) :
  readField (blank f) d = readField f d.
Proof. now destruct f. Qed.

Lemma readFields_blank (fields : list Field) :
  forall d, readFields (map blank fields) d = readFields fields d.
Proof.
  induction fields as [|f fields IH]; intros d; [reflexivity|].
  cbn [map readFields]. rewrite readField_blank.
  destruct (readField f d) as [[v d']|]; [|reflexivity]. cbn [bind].
  now rewrite IH.
Qed.

(** Reading with a [BasicTypes] decoder that round-trips. *)
Lemma read_framed {A : Type} (dec : Buffer -> Z -> result (A * Z))
    (bytes pre post : Buffer) (v : A) :
  decodes_framed dec bytes v ->
  Decoder.read dec (Decoder.mk (pre ++ bytes ++ post) (blen pre))
  = Ok (v, Decoder.mk (pre ++ bytes ++ post) (blen pre + blen bytes)).
Proof. intros H. unfold Decoder.read. cbn. now rewrite H. Qed.

Ltac field_round_trip lemma :=
  let bytes := fresh "bytes" in
  let Henc := fresh "Henc" in
  let Hdec := fresh "Hdec" in
  destruct lemma as (bytes & Henc & Hdec);
  exists bytes; split; [exact Henc|];
  intros pre post; cbn [readField];
  cbv delta [Decoder.readBoolean Decoder.readInt8 Decoder.readInt16
             Decoder.readInt32 Decoder.readInt64 Decoder.readUInt8
             Decoder.readUInt16 Decoder.readUInt32 Decoder.readUInt64
             Decoder.readFloat Decoder.readDouble Decoder.readString
             Decoder.readCompactString Decoder.readBytes
             Decoder.readCompactBytes];
  rewrite (read_framed _ bytes pre post _ Hdec); reflexivity.

Lemma field_round_trips (f : Field) :
  fits_field f ->
  exists bytes,
    encodeField f = Ok bytes
    /\ forall pre post,
         readField f (Decoder.mk (pre ++ bytes ++ post) (blen pre))
         = Ok (f, Decoder.mk (pre ++ bytes ++ post) (blen pre + blen bytes)).
Proof.
  destruct f; cbn [fits_field encodeField]; intros Hfit.
  - field_round_trip (encodeBoolean_round_trips value).
  - field_round_trip (encodeInt8_round_trips value Hfit).
  - field_round_trip (encodeInt16_round_trips value Hfit).
  - field_round_trip (encodeInt32_round_trips value Hfit).
  - field_round_trip (encodeInt64_round_trips value Hfit).
  - field_round_trip (encodeUInt8_round_trips value Hfit).
  - field_round_trip (encodeUInt16_round_trips value Hfit).
  - field_round_trip (encodeUInt32_round_trips value Hfit).
  - field_round_trip (encodeUInt64_round_trips value Hfit).
  - field_round_trip (encodeFloat_round_trips bits Hfit).
  - field_round_trip (encodeDouble_round_trips bits Hfit).
  - field_round_trip (encodeString_round_trips value
                        ltac:(destruct value; exact Hfit)).
  - field_round_trip (encodeCompactString_round_trips value
                        ltac:(destruct value; exact Hfit)).
  - field_round_trip (encodeBytes_round_trips value
                        ltac:(destruct value; exact Hfit)).
  - field_round_trip (encodeCompactBytes_round_trips value
                        ltac:(destruct value; exact Hfit)).
Qed.

Lemma fields_round_trip (fields : list Field) :
  Forall fits_field fields ->
  exists chunks,
    Forall2 (fun f chunk => encodeField f = Ok chunk) fields chunks
    /\ forall pre post,
         readFields fields
           (Decoder.mk (pre ++ List.concat chunks ++ post) (blen pre))
         = Ok (fields,
               Decoder.mk (pre ++ List.concat chunks ++ post)
                 (blen pre + blen (List.concat chunks))).
Proof.
  induction 1 as [|f fields Hf Hfs IH].
  - exists []. split; [constructor|]. intros pre post. cbn.
    change (blen []) with 0. now rewrite Z.add_0_r.
  - destruct (field_round_trips f Hf) as (bytes & Henc & Hdec).
    destruct IH as (chunks & Hall & Hread).
    exists (bytes :: chunks). split; [now constructor|].
    intros pre post. cbn [List.concat readFields].
    rewrite <- app_assoc, Hdec. cbn [bind].
    replace (pre ++ bytes ++ List.concat chunks ++ post)
      with ((pre ++ bytes) ++ List.concat chunks ++ post)
      by (now rewrite <- app_assoc).
    rewrite <- blen_app, Hread. cbn [bind].
    rewrite !blen_app. do 3 f_equal. lia.
Qed.

Lemma writeFields_Forall2 (fields : list Field) (chunks : list Buffer) :
  Forall2 (fun f chunk => encodeField f = Ok chunk) fields chunks ->
  forall e,
    writeFields fields e
    = Ok (Encoder.mk (Encoder.buffers e ++ chunks)
            (Encoder.size e + blen (List.concat chunks))).
Proof.
  induction 1 as [|f chunk fields chunks Hf Hall IH]; intros e.
  - cbn. rewrite app_nil_r. change (blen []) with 0. rewrite Z.add_0_r.
    now destruct e.
  - cbn [writeFields]. rewrite writeField_encodeField, Hf. cbn [bind].
    rewrite IH. cbn [Encoder.push Encoder.buffers Encoder.size List.concat].
    rewrite <- app_assoc, blen_app. do 2 f_equal. lia.
Qed.

(** X9.  Encoder and decoder are inverse to each other.  Values that fit
    the widths of their kinds, written to a new encoder one after the
    other, are all accepted; reading the built buffer with the read methods
    of the same kinds, in the same order, returns the same values, and
    leaves the decoder with nothing remaining, at the offset [getSize()]
    gave.  The reader is told the kinds, not the values. *)
Theorem encoder_decoder_round_trip (fields : list Field) :
  Forall fits_field fields ->
  exists (e : Encoder.t) (bytes : Buffer) (d : Decoder.t),
    writeFields fields Encoder.new = Ok e
    /\ Encoder.build e = Ok bytes
    /\ readFields (map blank fields) (Decoder.new bytes) = Ok (fields, d)
    /\ Decoder.remaining d = 0
    /\ Decoder.getOffset d = Encoder.getSize e.
Proof.
  intros Hfit. destruct (fields_round_trip fields Hfit) as (chunks & Hall & Hread).
  pose proof (writeFields_Forall2 fields chunks Hall Encoder.new) as Hw.
  cbn [Encoder.new Encoder.buffers Encoder.size app] in Hw. rewrite Z.add_0_l in Hw.
  eexists _, (List.concat chunks), _. split; [exact Hw|].
  split; [now apply Buffer_concat_exact|].
  rewrite readFields_blank. specialize (Hread [] []).
  cbn [app] in Hread. rewrite app_nil_r in Hread. change (blen []) with 0 in Hread.
  unfold Decoder.new. split; [exact Hread|].
  unfold Decoder.remaining, Decoder.getOffset, Encoder.getSize. cbn. split; lia.
Qed.

Lemma encoder_decoder_round_trip_witness :
  Forall fits_field example_fields
  /\ exists (e : Encoder.t) (bytes : Buffer) (d : Decoder.t),
       writeFields example_fields Encoder.new = Ok e
       /\ Encoder.build e = Ok bytes
       /\ readFields (map blank example_fields) (Decoder.new bytes)
          = Ok (example_fields, d)
       /\ Decoder.remaining d = 0.
Proof.
  assert (Hfit : Forall fits_field example_fields).
  { repeat (apply Forall_cons_2;
            [cbn [fits_field]; try exact I; unfold Buf.byteLength, blen;
             cbn [String.length List.length]; lia|]).
    apply Forall_nil_2. }
  split; [exact Hfit|].
  destruct (encoder_decoder_round_trip example_fields Hfit)
    as (e & bytes & d & Hw & Hb & Hr & Hrem & _).
  exists e, bytes, d. now repeat split.
Defined.

(** ** Arrays read with a decoder *)

Lemma readElements_decodeValues {T : Type} (dec : Buffer -> Z -> result (T * Z))
    (count : nat) :
  forall (d : Decoder.t) (acc : list T),
    Decoder.readElements (Decoder.read dec) count d acc
    = match BasicTypes.decodeValues dec count (Decoder.buffer d) (Decoder.offset d)
              acc with
      | Ok (values, offset) => Ok (values, Decoder.mk (Decoder.buffer d) offset)
      | Throw e => Throw e
      end.
Proof.
  induction count as [|count IH]; intros d acc; cbn [Decoder.readElements
                                                     BasicTypes.decodeValues].
  - now destruct d.
  - unfold Decoder.read at 1.
    destruct (dec (Decoder.buffer d) (Decoder.offset d)) as [[v off]|e];
      [|reflexivity].
    cbn [bind]. now rewrite IH.
Qed.

Lemma readUInt8_at (buf : Buffer) (off : Z) (b : byte) (rest : Buffer) :
  0 <= off -> drop (Z.to_nat off) buf = b :: rest ->
  Decoder.readUInt8 (Decoder.mk buf off)
  = Ok (byte_to_Z b, Decoder.mk buf (off + 1)).
Proof.
  intros H0 Hd. unfold Decoder.readUInt8, Decoder.read, BasicTypes.decodeUInt8,
    Buf.readUInt8, Buf.readUIntBE, Buf.in_bounds.
  cbn [Decoder.buffer Decoder.offset].
  assert (Hlen : off + 1 <= blen buf).
  { apply (f_equal (@List.length byte)) in Hd. rewrite length_drop in Hd.
    cbn [List.length] in Hd. unfold blen. lia. }
  destruct (Z.leb_spec 0 off); [|lia].
  destruct (Z.leb_spec (off + Z.of_nat 1) (blen buf)); [|lia].
  cbn [andb bind]. rewrite Hd. cbn [take be_to_Z].
  change (blen []) with 0. now rewrite Z.pow_0_r, Z.mul_1_r, Z.add_0_r.
Qed.

Lemma readUInt8_end (buf : Buffer) (off : Z) :
  off < 0 \/ drop (Z.to_nat off) buf = [] ->
  Decoder.readUInt8 (Decoder.mk buf off) = Throw RangeError.
Proof.
  intros H. unfold Decoder.readUInt8, Decoder.read, BasicTypes.decodeUInt8,
    Buf.readUInt8, Buf.readUIntBE, Buf.in_bounds.
  cbn [Decoder.buffer Decoder.offset].
  destruct (Z.leb_spec 0 off); [|reflexivity].
  destruct H as [H|H]; [lia|].
  apply (f_equal (@List.length byte)) in H. rewrite length_drop in H.
  cbn [List.length] in H.
  destruct (Z.leb_spec (off + Z.of_nat 1) (blen buf)); [unfold blen in *; lia|].
  reflexivity.
Qed.

(** The loop of [readCompactArray] never runs out of iterations: it is the
    loop of the compact decoders of [BasicTypes]. *)
Lemma readCompactLength_fuel (buf : Buffer) (rest : Buffer) :
  forall (fuel : nat) (off length shift : Z),
    0 <= off -> drop (Z.to_nat off) buf = rest ->
    (List.length rest < fuel)%nat ->
    Decoder.readCompactLength fuel length shift (Decoder.mk buf off)
    = match BasicTypes.readLength_loop rest length shift off with
      | Ok (len, offset) => Ok (len, Decoder.mk buf offset)
      | Throw e => Throw e
      end.
Proof.
  induction rest as [|b rest IH]; intros fuel off length shift H0 Hd Hfuel;
    (destruct fuel as [|fuel]; [cbn in Hfuel; lia|]);
    cbn [Decoder.readCompactLength BasicTypes.readLength_loop].
  - now rewrite readUInt8_end by auto.
  - rewrite (readUInt8_at buf off b rest H0 Hd). cbn [bind].
    destruct (js_and (byte_to_Z b) 128 =? 0); [reflexivity|].
    apply IH; [lia| |cbn [List.length] in Hfuel; lia].
    replace (Z.to_nat (off + 1)) with (Z.to_nat off + 1)%nat by lia.
    rewrite <- drop_drop, Hd. reflexivity.
Qed.

Lemma readCompactLength_readLength (d : Decoder.t) :
  Decoder.readCompactLength (S (List.length (Decoder.buffer d))) 0 0 d
  = match BasicTypes.readLength (Decoder.buffer d) (Decoder.offset d) with
    | Ok (len, offset) => Ok (len, Decoder.mk (Decoder.buffer d) offset)
    | Throw e => Throw e
    end.
Proof.
  destruct d as [buf off]. cbn [Decoder.buffer Decoder.offset].
  unfold BasicTypes.readLength.
  destruct (Z.ltb_spec off 0) as [Hneg|Hpos].
  - cbn [Decoder.readCompactLength]. now rewrite readUInt8_end by auto.
  - apply readCompactLength_fuel; [assumption|reflexivity|].
    rewrite length_drop. lia.
Qed.

Lemma read_unfold {A : Type} (dec : Buffer -> Z -> result (A * Z)) (d : Decoder.t) :
  Decoder.read dec d
  = match dec (Decoder.buffer d) (Decoder.offset d) with
    | Ok (value, offset) => Ok (value, Decoder.mk (Decoder.buffer d) offset)
    | Throw e => Throw e
    end.
Proof.
  unfold Decoder.read.
  now destruct (dec (Decoder.buffer d) (Decoder.offset d)) as [[v off]|e].
Qed.

(** X10.  Arrays read through a decoder.  [readArray] and
    [readCompactArray], given an element reader that calls a [BasicTypes]
    decoder, return in every case (null array, values, or the exception)
    what [BasicTypes.decodeArray] and [BasicTypes.decodeCompactArray] return
    on the decoder's buffer at its offset, and leave the offset where those
    say; in particular every negative length prefix reads as the null
    array, and the varint loop of [readCompactArray] stops at the end of
    the buffer at the latest. *)
Theorem decoder_arrays_agree {T : Type} (dec : Buffer -> Z -> result (T * Z))
    (d : Decoder.t) :
  Decoder.readArray (Decoder.read dec) d
  = Decoder.read (BasicTypes.decodeArray dec) d
  /\ Decoder.readCompactArray (Decoder.read dec) d
     = Decoder.read (BasicTypes.decodeCompactArray dec) d.
Proof.
  split.
  - unfold Decoder.readArray, Decoder.readInt32.
    rewrite (read_unfold BasicTypes.decodeInt32),
      (read_unfold (BasicTypes.decodeArray dec)).
    unfold BasicTypes.decodeArray, BasicTypes.decodeInt32.
    destruct (Buf.readInt32BE (Decoder.buffer d) (Decoder.offset d)) as [len|e];
      [|reflexivity].
    cbn [bind Decoder.buffer Decoder.offset].
    destruct (len <? 0); [reflexivity|].
    rewrite readElements_decodeValues. cbn [Decoder.buffer Decoder.offset].
    destruct (BasicTypes.decodeValues dec _ _ _ _) as [[values off]|e]; reflexivity.
  - unfold Decoder.readCompactArray.
    rewrite (read_unfold (BasicTypes.decodeCompactArray dec)).
    unfold BasicTypes.decodeCompactArray.
    rewrite readCompactLength_readLength.
    destruct (BasicTypes.readLength _ _) as [[len off]|e]; [|reflexivity].
    cbn [bind Decoder.buffer Decoder.offset].
    destruct (len =? 0); [reflexivity|].
    rewrite readElements_decodeValues. cbn [Decoder.buffer Decoder.offset].
    destruct (BasicTypes.decodeValues dec _ _ _ _) as [[values off']|e]; reflexivity.
Qed.

(** ** Arrays written with an encoder *)

Lemma encodeValues_Ok {T : Type} (enc : T -> result Buffer) (values : list T) :
  forall total acc total' acc',
    BasicTypes.encodeValues enc values total acc = Ok (total', acc') ->
    exists chunks,
      Forall2 (fun v chunk => enc v = Ok chunk) values chunks
      /\ total' = total + blen (List.concat chunks) /\ acc' = acc ++ chunks.
Proof.
  induction values as [|v values IH]; intros total acc total' acc' H;
    cbn [BasicTypes.encodeValues] in H.
  - injection H as <- <-. exists []. split; [constructor|].
    now rewrite Z.add_0_r, app_nil_r.
  - destruct (enc v) as [chunk|e] eqn:Hv; [|discriminate]. cbn [bind] in H.
    destruct (IH _ _ _ _ H) as (chunks & Hall & -> & ->).
    exists (chunk :: chunks). split; [now constructor|].
    cbn [List.concat]. rewrite blen_app, <- app_assoc. split; [lia|reflexivity].
Qed.

Lemma encodeArray_Ok {T : Type} (enc : T -> result Buffer) (values : list T)
    (bytes : Buffer) :
  BasicTypes.encodeArray enc (Some values) = Ok bytes ->
  exists chunks,
    Forall2 (fun v chunk => enc v = Ok chunk) values chunks
    /\ - 2 ^ 31 <= Z.of_nat (List.length values) <= 2 ^ 31 - 1
    /\ bytes = Z_to_be 4 (Z.of_nat (List.length values)) ++ List.concat chunks.
Proof.
  unfold BasicTypes.encodeArray.
  destruct (BasicTypes.encodeValues enc values 4 []) as [[total encoded]|e] eqn:Hv;
    [|discriminate].
  destruct (encodeValues_Ok enc values _ _ _ _ Hv) as (chunks & Hall & -> & ->).
  cbn [bind app].
  destruct (Buf.writeInt32BE _ _ 0) as [buffer|e] eqn:Hw; [|discriminate].
  apply writeBE_Ok in Hw as (Hr & _ & ->). cbn [bind]. intros [= <-].
  exists chunks. split; [assumption|]. split; [assumption|].
  pose proof (blen_nonneg (List.concat chunks)).
  rewrite alloc_add by lia.
  rewrite (blit_at _ [] (Buf.alloc 4) (Buf.alloc (blen (List.concat chunks)))
             (Z_to_be 4 (Z.of_nat (List.length values))) 0);
    [|reflexivity|reflexivity|now rewrite length_Z_to_be].
  cbn [app].
  pose proof (copyValues_chunks chunks (Z_to_be 4 (Z.of_nat (List.length values))) [])
    as Hc.
  rewrite !app_nil_r, blen_Z_to_be in Hc. change (Z.of_nat 4) with 4 in Hc.
  now rewrite Hc.
Qed.

Lemma write_Ok {A : Type} (enc : A -> result Buffer) (v : A) (chunk : Buffer)
    (e : Encoder.t) :
  enc v = Ok chunk -> Encoder.write enc v e = Ok (Encoder.push chunk e).
Proof. intros H. unfold Encoder.write. now rewrite H. Qed.

Lemma writeElements_chunks {T : Type} (enc : T -> result Buffer)
    (values : list T) (chunks : list Buffer) :
  Forall2 (fun v chunk => enc v = Ok chunk) values chunks ->
  forall e,
    Encoder.writeElements (fun e v => Encoder.write enc v e) values e
    = Ok (Encoder.mk (Encoder.buffers e ++ chunks)
            (Encoder.size e + blen (List.concat chunks))).
Proof.
  induction 1 as [|v chunk values chunks Hv Hall IH]; intros e.
  - cbn. rewrite app_nil_r. change (blen []) with 0. rewrite Z.add_0_r.
    now destruct e.
  - cbn [Encoder.writeElements]. rewrite (write_Ok enc v chunk e Hv). cbn [bind].
    rewrite IH. cbn [Encoder.push Encoder.buffers Encoder.size List.concat].
    rewrite <- app_assoc, blen_app. do 2 f_equal. lia.
Qed.

Lemma encodeUInt8_byte (v : Z) :
  0 <= v <= 255 -> BasicTypes.encodeUInt8 v = Ok [byte_of_Z v].
Proof.
  intros H. unfold BasicTypes.encodeUInt8, Buf.writeUInt8.
  rewrite (writeBE_alloc 1) by lia. cbn [Z_to_be].
  change (256 ^ Z.of_nat 0) with 1. now rewrite Z.div_1_r.
Qed.

(** The varint loop of [writeCompactArray] and its last byte push the
    bytes of the unsigned varint, one buffer per byte. *)
Lemma writeCompactLength_uvarint (fuel : nat) :
  forall (n : Z) (e : Encoder.t),
    0 <= n < 2 ^ 31 ->
    exists (len : Z) (e1 e2 : Encoder.t),
      Encoder.writeCompactLength fuel n e = Ok (len, e1)
      /\ Encoder.writeUInt8 (js_and len 127) e1 = Ok e2
      /\ List.concat (Encoder.buffers e2)
         = List.concat (Encoder.buffers e) ++ uvarint fuel n
      /\ Encoder.size e2 = Encoder.size e + blen (uvarint fuel n).
Proof.
  assert (Hlast : forall n e, 0 <= n < 2 ^ 31 ->
            Encoder.writeUInt8 (js_and n 127) e
            = Ok (Encoder.push [byte_of_Z (n mod 128)] e)).
  { intros n e Hn. unfold Encoder.writeUInt8. apply write_Ok.
    rewrite js_and_127 by assumption. apply encodeUInt8_byte.
    pose proof (Z.mod_pos_bound n 128). lia. }
  induction fuel as [|fuel IH]; intros n e Hn;
    cbn [Encoder.writeCompactLength uvarint].
  - eexists _, _, _. split; [reflexivity|]. split; [now apply Hlast|].
    cbn [Encoder.push Encoder.buffers Encoder.size].
    now rewrite concat_snoc.
  - destruct (Z.ltb_spec 127 n) as [Hbig|Hsmall].
    + unfold Encoder.writeUInt8 at 1.
      rewrite (write_Ok BasicTypes.encodeUInt8 _ [byte_of_Z (n mod 128 + 128)]).
      2:{ rewrite js_and_127 by assumption.
          pose proof (Z.mod_pos_bound n 128).
          rewrite js_or_128 by lia. apply encodeUInt8_byte. lia. }
      cbn [bind]. rewrite js_sar_7 by assumption.
      destruct (IH (n / 128) (Encoder.push [byte_of_Z (n mod 128 + 128)] e))
        as (len & e1 & e2 & H1 & H2 & Hb & Hs).
      { split; [apply Z.div_pos; lia|].
        apply Z.div_lt_upper_bound; lia. }
      exists len, e1, e2. split; [exact H1|]. split; [exact H2|].
      cbn [Encoder.push Encoder.buffers Encoder.size] in Hb, Hs.
      rewrite Hb, Hs, concat_snoc, <- app_assoc. split; [reflexivity|].
      rewrite (blen_cons _ (uvarint fuel (n / 128))). change (blen [_]) with 1. lia.
    + eexists _, _, _. split; [reflexivity|]. split; [now apply Hlast|].
      cbn [Encoder.push Encoder.buffers Encoder.size].
      now rewrite concat_snoc.
Qed.

Lemma encodeCompactArray_Ok {T : Type} (enc : T -> result Buffer) (values : list T)
    (bytes : Buffer) :
  Z.of_nat (List.length values) + 1 < 2 ^ 31 ->
  BasicTypes.encodeCompactArray enc (Some values) = Ok bytes ->
  exists chunks,
    Forall2 (fun v chunk => enc v = Ok chunk) values chunks
    /\ bytes = uvarint BasicTypes.varint_fuel (Z.of_nat (List.length values) + 1)
               ++ List.concat chunks.
Proof.
  intros Hlen. unfold BasicTypes.encodeCompactArray.
  rewrite sizeOfLength_uvarint by lia.
  destruct (BasicTypes.encodeValues enc values _ []) as [[total encoded]|e] eqn:Hv;
    [|discriminate].
  destruct (encodeValues_Ok enc values _ _ _ _ Hv) as (chunks & Hall & -> & ->).
  cbn [bind app].
  pose proof (blen_nonneg (List.concat chunks)).
  pose proof (blen_nonneg
                (uvarint BasicTypes.varint_fuel (Z.of_nat (List.length values) + 1))).
  rewrite alloc_add by lia. rewrite writeLength_uvarint by lia.
  pose proof (copyValues_chunks chunks
                (uvarint BasicTypes.varint_fuel (Z.of_nat (List.length values) + 1))
                []) as Hc.
  rewrite !app_nil_r in Hc. rewrite Hc. cbn [fst]. intros [= <-].
  exists chunks. now split.
Qed.

(** X11.  Arrays written through an encoder.  Whenever
    [BasicTypes.encodeArray] returns a buffer for an element encoder,
    [writeArray] with an element writer that calls the write method of that
    encoder builds the same buffer; the same holds for [writeCompactArray]
    and [BasicTypes.encodeCompactArray], for arrays of fewer than 2^31-1
    elements.  The null array is four bytes ff, or one byte 00 in the
    compact form, in both. *)
Theorem encoder_arrays_agree {T : Type} (enc : T -> result Buffer)
    (values : option (list T)) (bytes : Buffer) :
  (BasicTypes.encodeArray enc values = Ok bytes ->
   exists e,
     Encoder.writeArray values (fun e v => Encoder.write enc v e) Encoder.new = Ok e
     /\ Encoder.build e = Ok bytes /\ Encoder.getSize e = blen bytes)
  /\ (match values with
      | Some values => Z.of_nat (List.length values) + 1 < 2 ^ 31
      | None => True
      end ->
      BasicTypes.encodeCompactArray enc values = Ok bytes ->
      exists e,
        Encoder.writeCompactArray values (fun e v => Encoder.write enc v e)
          Encoder.new = Ok e
        /\ Encoder.build e = Ok bytes /\ Encoder.getSize e = blen bytes).
Proof.
  split.
  - destruct values as [values|]; cbn [Encoder.writeArray].
    + intros H. destruct (encodeArray_Ok enc values bytes H) as (chunks & Hall & Hr & ->).
      unfold Encoder.writeInt32.
      rewrite (write_Ok BasicTypes.encodeInt32 _
                 (Z_to_be 4 (Z.of_nat (List.length values)))).
      2:{ unfold BasicTypes.encodeInt32, Buf.writeInt32BE.
          now rewrite (writeBE_alloc 4) by lia. }
      cbn [bind]. rewrite (writeElements_chunks enc values chunks Hall).
      eexists. split; [reflexivity|].
      cbn [Encoder.push Encoder.new Encoder.buffers Encoder.size app].
      assert (Hs : sized (Encoder.mk
                            (Z_to_be 4 (Z.of_nat (List.length values)) :: chunks)
                            (0 + blen (Z_to_be 4 (Z.of_nat (List.length values)))
                             + blen (List.concat chunks)))).
      { unfold sized. cbn [Encoder.size Encoder.buffers List.concat].
        rewrite blen_app. lia. }
      split; [now rewrite (build_sized _ Hs)|].
      unfold Encoder.getSize. cbn [Encoder.size]. rewrite blen_app. lia.
    + cbn. intros [= <-]. eexists. split; [reflexivity|]. split; reflexivity.
  - destruct values as [values|]; cbn [Encoder.writeCompactArray].
    + intros Hlen H.
      destruct (encodeCompactArray_Ok enc values bytes Hlen H) as (chunks & Hall & ->).
      destruct (writeCompactLength_uvarint BasicTypes.varint_fuel
                  (Z.of_nat (List.length values) + 1) Encoder.new ltac:(lia))
        as (len & e1 & e2 & H1 & H2 & Hb & Hs).
      rewrite H1. cbn [bind]. rewrite H2. cbn [bind].
      rewrite (writeElements_chunks enc values chunks Hall).
      eexists. split; [reflexivity|].
      cbn [Encoder.new Encoder.buffers Encoder.size List.concat app] in Hb, Hs.
      assert (Hsz : sized (Encoder.mk (Encoder.buffers e2 ++ chunks)
                             (Encoder.size e2 + blen (List.concat chunks)))).
      { unfold sized. cbn [Encoder.size Encoder.buffers].
        rewrite concat_app, blen_app, Hb, Hs. lia. }
      split.
      * rewrite (build_sized _ Hsz). cbn [Encoder.buffers].
        now rewrite concat_app, Hb.
      * unfold Encoder.getSize. cbn [Encoder.size]. rewrite Hs, blen_app. lia.
    + cbn. intros _ [= <-]. eexists. split; [reflexivity|]. split; reflexivity.
Qed.

Lemma encoder_arrays_agree_witness :
  exists e,
    Encoder.writeArray (Some [1; 2; 3])
      (fun e v => Encoder.write BasicTypes.encodeInt32 v e) Encoder.new = Ok e
    /\ Encoder.build e
       = Ok [x00; x00; x00; x03; x00; x00; x00; x01; x00; x00; x00; x02;
             x00; x00; x00; x03].
Proof.
  destruct (encoder_arrays_agree BasicTypes.encodeInt32 (Some [1; 2; 3])
              [x00; x00; x00; x03; x00; x00; x00; x01; x00; x00; x00; x02;
               x00; x00; x00; x03]) as [Harray _].
  destruct Harray as (e & Hw & Hb & _); [vm_compute; reflexivity|].
  exists e. now split.
Defined.

(** ** The varint loops stop within five iterations *)

Lemma js_sar_7_div (z : Z) : js_sar z 7 = toInt32 z / 128.
Proof.
  unfold js_sar. change (7 mod 32) with 7. rewrite Z.shiftr_div_pow2 by lia.
  reflexivity.
Qed.

Lemma js_sar_7_first (z : Z) : - 2 ^ 31 <= js_sar z 7 < 2 ^ 24.
Proof.
  rewrite js_sar_7_div. pose proof (toInt32_range z). split.
  - apply Z.div_le_lower_bound; lia.
  - apply Z.div_lt_upper_bound; lia.
Qed.

Lemma js_sar_7_next (z b : Z) :
  - 2 ^ 31 <= z < 128 * b -> b <= 2 ^ 24 -> - 2 ^ 31 <= js_sar z 7 < b.
Proof.
  intros Hz Hb. rewrite js_sar_7_div, toInt32_small by lia. split.
  - apply Z.div_le_lower_bound; lia.
  - apply Z.div_lt_upper_bound; lia.
Qed.

Ltac varint_exit len :=
  let l1 := fresh "l1" in
  pose proof (js_sar_7_first len) as l1;
  let l2 := fresh "l2" in
  pose proof (js_sar_7_next (js_sar len 7) (2 ^ 17) ltac:(lia) ltac:(lia)) as l2;
  let l3 := fresh "l3" in
  pose proof (js_sar_7_next (js_sar (js_sar len 7) 7) (2 ^ 10) ltac:(lia) ltac:(lia))
    as l3;
  let l4 := fresh "l4" in
  pose proof (js_sar_7_next (js_sar (js_sar (js_sar len 7) 7) 7) (2 ^ 3)
                ltac:(lia) ltac:(lia)) as l4.

Lemma sizeOfLength_loop_exit (sizeOfLength len : Z) :
  snd (BasicTypes.sizeOfLength_loop BasicTypes.varint_fuel sizeOfLength len) <= 127.
Proof.
  varint_exit len. unfold BasicTypes.varint_fuel.
  cbn [BasicTypes.sizeOfLength_loop].
  repeat match goal with
         | |- context [127 <? ?x] => destruct (Z.ltb_spec 127 x)
         end; cbn [snd]; lia.
Qed.

Lemma writeLength_loop_exit (buffer : Buffer) (idx len : Z) :
  snd (BasicTypes.writeLength_loop BasicTypes.varint_fuel buffer idx len) <= 127.
Proof.
  varint_exit len. unfold BasicTypes.varint_fuel.
  cbn [BasicTypes.writeLength_loop].
  repeat match goal with
         | |- context [127 <? ?x] => destruct (Z.ltb_spec 127 x)
         end; cbn [snd]; lia.
Qed.

Lemma writeUInt8_continuation (len : Z) (e : Encoder.t) :
  exists chunk,
    Encoder.writeUInt8 (js_or (js_and len 127) 128) e = Ok (Encoder.push chunk e).
Proof.
  unfold Encoder.writeUInt8. eexists. apply write_Ok. apply encodeUInt8_byte.
  unfold js_or, js_and.
  assert (Hand : 0 <= Z.land (toInt32 len) (toInt32 127) < 128).
  { change (toInt32 127) with (Z.ones 7). rewrite Z.land_ones by lia.
    apply Z.mod_pos_bound. lia. }
  rewrite (toInt32_small (Z.land _ _)) by lia.
  change (toInt32 128) with (1 * 2 ^ 7).
  rewrite lor_disjoint by lia. lia.
Qed.

Lemma writeCompactLength_exit (len : Z) (e : Encoder.t) :
  exists (len' : Z) (e' : Encoder.t),
    Encoder.writeCompactLength BasicTypes.varint_fuel len e = Ok (len', e')
    /\ len' <= 127.
Proof.
  varint_exit len. unfold BasicTypes.varint_fuel.
  cbn [Encoder.writeCompactLength].
  repeat match goal with
         | |- context [127 <? ?x] => destruct (Z.ltb_spec 127 x)
         | |- context [Encoder.writeUInt8 (js_or (js_and ?l 127) 128) ?e0] =>
             let chunk := fresh "chunk" in
             let H := fresh "H" in
             destruct (writeUInt8_continuation l e0) as [chunk H];
             rewrite H; cbn [bind]
         end; try lia; eexists _, _; (split; [reflexivity|lia]).
Qed.

(** ** The decoder's cursor *)

Lemma read_fixed {A : Type} (w : nat) (f : Z -> A)
    (readBE : Buffer -> Z -> result Z)
    (dec : Buffer -> Z -> result (A * Z)) :
  (forall buf off, dec buf off = let! v := readBE buf off in Ok (f v, off + Z.of_nat w)) ->
  (forall buf off, if Buf.in_bounds buf off w
                   then exists v, readBE buf off = Ok v
                   else readBE buf off = Throw RangeError) ->
  reads_exactly (Decoder.read dec) (Z.of_nat w).
Proof.
  intros Hdec Hread d. rewrite read_unfold, Hdec.
  specialize (Hread (Decoder.buffer d) (Decoder.offset d)).
  unfold Buf.in_bounds, Decoder.remaining in *.
  destruct (Z.leb_spec 0 (Decoder.offset d)); cbn [andb] in *.
  - destruct (Z.leb_spec (Decoder.offset d + Z.of_nat w) (blen (Decoder.buffer d)));
      destruct (Z.leb_spec (Z.of_nat w) (blen (Decoder.buffer d) - Decoder.offset d));
      try lia.
    + destruct Hread as [v ->]. cbn [bind]. eauto.
    + now rewrite Hread.
  - now rewrite Hread.
Qed.

Lemma readUIntBE_total (w : nat) (buf : Buffer) (off : Z) :
  if Buf.in_bounds buf off w
  then exists v, Buf.readUIntBE w buf off = Ok v
  else Buf.readUIntBE w buf off = Throw RangeError.
Proof. unfold Buf.readUIntBE. destruct (Buf.in_bounds buf off w); eauto. Qed.

Lemma readIntBE_total (w : nat) (buf : Buffer) (off : Z) :
  if Buf.in_bounds buf off w
  then exists v, Buf.readIntBE w buf off = Ok v
  else Buf.readIntBE w buf off = Throw RangeError.
Proof.
  unfold Buf.readIntBE, Buf.readUIntBE.
  destruct (Buf.in_bounds buf off w); cbn [bind]; eauto.
Qed.

(** X12.  Fixed-width reads are all or nothing.  Each of the eleven
    fixed-width read methods of the decoder returns a value exactly when
    the offset is not negative and at least the width of its type remains
    (1, 2, 4 or 8 bytes), and then advances the offset by exactly that
    width; otherwise it throws RangeError, and the decoder is as before.
    After [skip] past the end, every one of them throws. *)
Theorem decoder_fixed_width_reads :
  reads_exactly Decoder.readBoolean 1
  /\ reads_exactly Decoder.readInt8 1 /\ reads_exactly Decoder.readInt16 2
  /\ reads_exactly Decoder.readInt32 4 /\ reads_exactly Decoder.readInt64 8
  /\ reads_exactly Decoder.readUInt8 1 /\ reads_exactly Decoder.readUInt16 2
  /\ reads_exactly Decoder.readUInt32 4 /\ reads_exactly Decoder.readUInt64 8
  /\ reads_exactly Decoder.readFloat 4 /\ reads_exactly Decoder.readDouble 8
  /\ (forall (d : Decoder.t) (length : Z),
        Decoder.remaining (Decoder.skip length d) = Decoder.remaining d - length
        /\ Decoder.getBuffer (Decoder.skip length d) = Decoder.getBuffer d).
Proof.
  repeat split.
  - apply (read_fixed 1 (fun v => negb (v =? 0)) Buf.readInt8); [reflexivity|].
    apply readIntBE_total.
  - apply (read_fixed 1 id Buf.readInt8); [reflexivity|]. apply readIntBE_total.
  - apply (read_fixed 2 id Buf.readInt16BE); [reflexivity|]. apply readIntBE_total.
  - apply (read_fixed 4 id Buf.readInt32BE); [reflexivity|]. apply readIntBE_total.
  - apply (read_fixed 8 id Buf.readBigInt64BE); [reflexivity|]. apply readIntBE_total.
  - apply (read_fixed 1 id Buf.readUInt8); [reflexivity|]. apply readUIntBE_total.
  - apply (read_fixed 2 id Buf.readUInt16BE); [reflexivity|]. apply readUIntBE_total.
  - apply (read_fixed 4 id Buf.readUInt32BE); [reflexivity|]. apply readUIntBE_total.
  - apply (read_fixed 8 id Buf.readBigUInt64BE); [reflexivity|]. apply readUIntBE_total.
  - apply (read_fixed 4 id Buf.readUInt32BE); [reflexivity|]. apply readUIntBE_total.
  - apply (read_fixed 8 id Buf.readBigUInt64BE); [reflexivity|]. apply readUIntBE_total.
  - unfold Decoder.remaining, Decoder.skip. cbn. lia.
Qed.

(** ** The headers of the Message classes *)

Lemma read_at {A : Type} (dec : Buffer -> Z -> result (A * Z))
    (bytes : Buffer) (v : A) (buf pre post : Buffer) (off : Z) :
  decodes_framed dec bytes v ->
  buf = pre ++ bytes ++ post -> off = blen pre ->
  Decoder.read dec (Decoder.mk buf off) = Ok (v, Decoder.mk buf (off + blen bytes)).
Proof. intros H -> ->. now apply read_framed. Qed.

Lemma encode_as_fields (encoder : option Encoder.t) (h : MessageRequestHeader.t) :
  MessageRequestHeader.encode encoder h
  = let! enc := writeFields (header_fields h)
                  (match encoder with Some e => e | None => Encoder.new end) in
    let! buffer := Encoder.build enc in
    Ok (enc, buffer).
Proof.
  unfold MessageRequestHeader.encode, header_fields.
  set (enc0 := match encoder with Some e => e | None => Encoder.new end).
  cbn [writeFields app writeField].
  destruct (Encoder.writeInt16 _ enc0) as [e1|]; [|reflexivity]. cbn [bind].
  destruct (Encoder.writeInt16 _ e1) as [e2|]; [|reflexivity]. cbn [bind].
  destruct (Encoder.writeInt32 _ e2) as [e3|]; [|reflexivity]. cbn [bind].
  destruct (Encoder.writeString _ e3) as [e4|]; [|reflexivity]. cbn [bind].
  destruct (2 <=? MessageRequestHeader.apiVersion h); cbn [writeFields writeField];
    [|reflexivity].
  now destruct (Encoder.writeUInt16 _ e4).
Qed.

Lemma encodeInt16_bytes (v : Z) :
  - 2 ^ 15 <= v <= 2 ^ 15 - 1 -> BasicTypes.encodeInt16 v = Ok (Z_to_be 2 v).
Proof. intros H. apply (writeBE_alloc 2). lia. Qed.

Lemma encodeUInt16_bytes (v : Z) :
  0 <= v <= 2 ^ 16 - 1 -> BasicTypes.encodeUInt16 v = Ok (Z_to_be 2 v).
Proof. intros H. apply (writeBE_alloc 2). lia. Qed.

Lemma encodeInt32_bytes (v : Z) :
  - 2 ^ 31 <= v <= 2 ^ 31 - 1 -> BasicTypes.encodeInt32 v = Ok (Z_to_be 4 v).
Proof. intros H. apply (writeBE_alloc 4). lia. Qed.

Lemma encodeString_value (v : option string) :
  match v with Some s => Buf.byteLength s <= 2 ^ 15 - 1 | None => True end ->
  BasicTypes.encodeString v
  = Ok (match v with
        | Some s => Z_to_be 2 (Buf.byteLength s) ++ Buf.bytes_of_string s
        | None => [xff; xff]
        end).
Proof. destruct v as [s|]; [apply encodeString_bytes|reflexivity]. Qed.

Lemma header_fits_ranges (h : MessageRequestHeader.t) :
  header_fits h <->
  - 2 ^ 15 <= MessageRequestHeader.apiKey h <= 2 ^ 15 - 1
  /\ - 2 ^ 15 <= MessageRequestHeader.apiVersion h <= 2 ^ 15 - 1
  /\ - 2 ^ 31 <= MessageRequestHeader.correlationId h <= 2 ^ 31 - 1
  /\ match MessageRequestHeader.clientId h with
     | Some s => Buf.byteLength s <= 2 ^ 15 - 1
     | None => True
     end
  /\ (2 <= MessageRequestHeader.apiVersion h ->
      0 <= MessageRequestHeader.tag h <= 2 ^ 16 - 1).
Proof.
  unfold header_fits, header_fields.
  rewrite Forall_app, !Forall_cons, Forall_nil. cbn [fits_field].
  destruct (Z.leb_spec 2 (MessageRequestHeader.apiVersion h)).
  - rewrite Forall_cons, Forall_nil. cbn [fits_field].
    destruct (MessageRequestHeader.clientId h); intuition lia.
  - rewrite Forall_nil.
    destruct (MessageRequestHeader.clientId h); intuition lia.
Qed.

Lemma header_fields_bytes (h : MessageRequestHeader.t) :
  header_fits h ->
  exists chunks,
    Forall2 (fun f chunk => encodeField f = Ok chunk) (header_fields h) chunks
    /\ List.concat chunks = header_bytes h.
Proof.
  intros Hfit. apply header_fits_ranges in Hfit as (Hk & Hv & Hc & Hs & Ht).
  unfold header_fields, header_bytes.
  destruct (Z.leb_spec 2 (MessageRequestHeader.apiVersion h)) as [H2|H2].
  - eexists [_; _; _; _; _]. split.
    + repeat constructor; cbn [encodeField].
      * now apply encodeInt16_bytes.
      * now apply encodeInt16_bytes.
      * now apply encodeInt32_bytes.
      * now apply encodeString_value.
      * apply encodeUInt16_bytes. now apply Ht.
    + cbn [List.concat]. now rewrite app_nil_r.
  - eexists [_; _; _; _]. split.
    + repeat constructor; cbn [encodeField].
      * now apply encodeInt16_bytes.
      * now apply encodeInt16_bytes.
      * now apply encodeInt32_bytes.
      * now apply encodeString_value.
    + cbn [List.concat]. now rewrite !app_nil_r.
Qed.

Lemma blen_header_bytes (h : MessageRequestHeader.t) :
  blen (header_bytes h) = MessageRequestHeader.size h.
Proof.
  unfold header_bytes, MessageRequestHeader.size.
  rewrite !blen_app, !blen_Z_to_be.
  destruct (MessageRequestHeader.clientId h) as [s|];
    destruct (2 <=? MessageRequestHeader.apiVersion h);
    rewrite ?blen_app, ?blen_Z_to_be, ?blen_bytes_of_string;
    change (blen []) with 0; change (blen [xff; xff]) with 2; lia.
Qed.

Lemma encodeField_Ok_fits (f : Field) (chunk : Buffer) :
  match f with
  | FInt16 _ | FInt32 _ | FUInt16 _ | FString _ => True
  | _ => False
  end ->
  encodeField f = Ok chunk -> fits_field f.
Proof.
  destruct f; try contradiction; intros _; cbn [encodeField fits_field].
  - intros H. now apply writeBE_Ok in H as (Hr & _).
  - intros H. now apply writeBE_Ok in H as (Hr & _).
  - intros H. now apply writeBE_Ok in H as (Hr & _).
  - destruct value as [s|]; [|trivial]. unfold BasicTypes.encodeString.
    destruct (Buf.writeInt16BE _ _ 0) as [b|] eqn:Hw; [|discriminate].
    apply writeBE_Ok in Hw as (Hr & _). intros _. lia.
Qed.

Lemma Forall2_Forall_left {A B : Type} (P : A -> B -> Prop) (Q : A -> Prop)
    (l : list A) (l' : list B) :
  Forall2 P l l' -> (forall x y, In x l -> P x y -> Q x) -> Forall Q l.
Proof.
  induction 1 as [|x y l l' Hxy Hall IH]; intros HQ; constructor.
  - apply (HQ x y); [now left|assumption].
  - apply IH. intros x' y' Hin. apply HQ. now right.
Qed.

Lemma encode_Ok_fits (encoder : option Encoder.t) (h : MessageRequestHeader.t)
    (e : Encoder.t) (bytes : Buffer) :
  MessageRequestHeader.encode encoder h = Ok (e, bytes) -> header_fits h.
Proof.
  rewrite encode_as_fields.
  destruct (writeFields _ _) as [e1|] eqn:Hw; [|discriminate]. intros _.
  destruct (writeFields_chunks _ _ _ Hw) as (chunks & Hall & _).
  unfold header_fits.
  apply (Forall2_Forall_left _ _ _ _ Hall). intros f chunk Hin Hf.
  apply (encodeField_Ok_fits f chunk); [|assumption].
  unfold header_fields in Hin. apply in_app_iff in Hin as [Hin|Hin].
  - cbn in Hin. destruct Hin as [<-|[<-|[<-|[<-|[]]]]]; exact I.
  - destruct (2 <=? _); [|contradiction]. destruct Hin as [<-|[]]. exact I.
Qed.

Lemma header_decode (h : MessageRequestHeader.t) (this : MessageRequestHeader.t)
    (pre post : Buffer) :
  header_fits h ->
  MessageRequestHeader.decode
    (Decoder.mk (pre ++ header_bytes h ++ post) (blen pre)) this
  = Ok (header_read h (MessageRequestHeader.tag this),
        Decoder.mk (pre ++ header_bytes h ++ post)
          (blen pre + blen (header_bytes h))).
Proof.
  intros Hfit. apply header_fits_ranges in Hfit as (Hk & Hv & Hc & Hs & Ht).
  destruct (encodeInt16_round_trips _ Hk) as (bk & Ek & Dk).
  rewrite (encodeInt16_bytes _ Hk) in Ek. injection Ek as <-.
  destruct (encodeInt16_round_trips _ Hv) as (bv & Ev & Dv).
  rewrite (encodeInt16_bytes _ Hv) in Ev. injection Ev as <-.
  destruct (encodeInt32_round_trips _ Hc) as (bc & Ec & Dc).
  rewrite (encodeInt32_bytes _ Hc) in Ec. injection Ec as <-.
  destruct (encodeString_round_trips (MessageRequestHeader.clientId h) Hs)
    as (bs & Es & Ds).
  rewrite (encodeString_value _ Hs) in Es. injection Es as <-.
  unfold MessageRequestHeader.decode, header_bytes, header_read.
  set (K := Z_to_be 2 (MessageRequestHeader.apiKey h)) in *.
  set (V := Z_to_be 2 (MessageRequestHeader.apiVersion h)) in *.
  set (C := Z_to_be 4 (MessageRequestHeader.correlationId h)) in *.
  set (S := match MessageRequestHeader.clientId h with
            | Some s => Z_to_be 2 (Buf.byteLength s) ++ Buf.bytes_of_string s
            | None => [xff; xff]
            end) in *.
  set (T := if 2 <=? MessageRequestHeader.apiVersion h
            then Z_to_be 2 (MessageRequestHeader.tag h) else []).
  set (buf := pre ++ (K ++ V ++ C ++ S ++ T) ++ post).
  unfold Decoder.readInt16, Decoder.readInt32, Decoder.readString,
    Decoder.readUInt16.
  rewrite (read_at _ K _ buf pre (V ++ C ++ S ++ T ++ post) _ Dk);
    [|unfold buf; now rewrite <- !app_assoc|reflexivity].
  cbn [bind].
  rewrite (read_at _ V _ buf (pre ++ K) (C ++ S ++ T ++ post) _ Dv);
    [|unfold buf; now rewrite <- !app_assoc|now rewrite blen_app].
  cbn [bind].
  rewrite (read_at _ C _ buf (pre ++ K ++ V) (S ++ T ++ post) _ Dc);
    [|unfold buf; now rewrite <- !app_assoc|rewrite !blen_app; lia].
  cbn [bind].
  rewrite (read_at _ S _ buf (pre ++ K ++ V ++ C) (T ++ post) _ Ds);
    [|unfold buf; now rewrite <- !app_assoc|rewrite !blen_app; lia].
  cbn [bind]. unfold T.
  destruct (Z.leb_spec 2 (MessageRequestHeader.apiVersion h)) as [H2|H2].
  - destruct (encodeUInt16_round_trips _ (Ht H2)) as (bt & Et & Dt).
    rewrite (encodeUInt16_bytes _ (Ht H2)) in Et. injection Et as <-.
    rewrite (read_at _ (Z_to_be 2 (MessageRequestHeader.tag h)) _ buf
               (pre ++ K ++ V ++ C ++ S) post _ Dt);
      [|unfold buf, T; destruct (Z.leb_spec 2 (MessageRequestHeader.apiVersion h));
        [now rewrite <- !app_assoc|lia]
       |rewrite !blen_app; lia].
    cbn [bind]. rewrite !blen_app. do 3 f_equal. lia.
  - rewrite !blen_app. change (blen []) with 0. do 3 f_equal. lia.
Qed.

Lemma encode_header_bytes (h : MessageRequestHeader.t) :
  header_fits h ->
  exists e, MessageRequestHeader.encode None h = Ok (e, header_bytes h)
            /\ Encoder.getSize e = blen (header_bytes h).
Proof.
  intros Hfit. destruct (header_fields_bytes h Hfit) as (chunks & Hall & Hcat).
  rewrite encode_as_fields.
  rewrite (writeFields_Forall2 _ chunks Hall). cbn [bind].
  cbn [Encoder.new Encoder.buffers Encoder.size app]. rewrite Z.add_0_l.
  unfold Encoder.build. cbn [Encoder.buffers Encoder.size].
  rewrite Buffer_concat_exact by reflexivity. cbn [bind]. rewrite Hcat.
  eexists. split; reflexivity.
Qed.

Lemma example_header_fits : header_fits example_header.
Proof.
  apply header_fits_ranges. unfold example_header.
  cbn [MessageRequestHeader.apiKey MessageRequestHeader.apiVersion
       MessageRequestHeader.correlationId MessageRequestHeader.clientId
       MessageRequestHeader.tag].
  unfold Buf.byteLength, blen. cbn [String.length List.length]. lia.
Qed.

(** X13.  The request header of the Message classes.  A header whose
    fields fit their widths is encoded in [size()] bytes and decoded back
    to the same header, null and empty client id kept apart, with nothing
    remaining; the tag travels only from API version 2 on, below it
    [decode] leaves the tag of the object as it was.  Whenever [encode]
    returns at all, the buffer is [size()] bytes long. *)
Theorem message_header_round_trip (h this : MessageRequestHeader.t) :
  (header_fits h ->
   exists (e : Encoder.t) (bytes : Buffer) (d : Decoder.t),
     MessageRequestHeader.encode None h = Ok (e, bytes)
     /\ MessageRequestHeader.decode (Decoder.new bytes) this
        = Ok (header_read h (MessageRequestHeader.tag this), d)
     /\ Decoder.remaining d = 0)
  /\ (forall (e : Encoder.t) (bytes : Buffer),
        MessageRequestHeader.encode None h = Ok (e, bytes) ->
        blen bytes = MessageRequestHeader.size h
        /\ Encoder.getSize e = MessageRequestHeader.size h).
Proof.
  split.
  - intros Hfit. destruct (encode_header_bytes h Hfit) as (e & He & _).
    pose proof (header_decode h this [] [] Hfit) as Hd.
    cbn [app] in Hd. rewrite app_nil_r in Hd. change (blen []) with 0 in Hd.
    eexists e, (header_bytes h), _. split; [exact He|]. split; [exact Hd|].
    unfold Decoder.remaining. cbn. lia.
  - intros e bytes H. pose proof (encode_Ok_fits _ _ _ _ H) as Hfit.
    destruct (encode_header_bytes h Hfit) as (e' & He & Hs). rewrite He in H.
    injection H as <- <-. rewrite <- blen_header_bytes. now split.
Qed.

Lemma message_header_round_trip_witness :
  exists (e : Encoder.t) (bytes : Buffer) (d : Decoder.t),
    MessageRequestHeader.encode None example_header = Ok (e, bytes)
    /\ MessageRequestHeader.decode (Decoder.new bytes) example_header
       = Ok (header_read example_header (MessageRequestHeader.tag example_header), d)
    /\ Decoder.remaining d = 0.
Proof.
  exact (proj1 (message_header_round_trip example_header example_header)
           example_header_fits).
Defined.

(** X14.  The two request headers of the repository,
    [RequestHeader.encode] of protocol/Headers and the header of the
    Message classes as [Request.toBuffer] constructs it, write the same
    bytes exactly when the API version is below 2 and the client id is not
    the empty string: from version 2 on the Message header carries two tag
    bytes more, and the empty client id is written as the null marker by
    the first and as a string of length 0 by the second. *)
Theorem request_headers_agree (k v c : Z) (clientId : option string) :
  RequestHeader.fits (RequestHeader.mk k v c clientId) ->
  exists (e : Encoder.t) (b1 b2 : Buffer),
    RequestHeader.encode (RequestHeader.mk k v c clientId) = Ok b1
    /\ MessageRequestHeader.encode None (MessageRequestHeader.new k v c clientId)
       = Ok (e, b2)
    /\ (b1 = b2 <-> v < 2 /\ clientId <> Some EmptyString).
Proof.
  intros Hfit. pose proof Hfit as (Hk & Hv & Hc & Hs).
  cbn [RequestHeader.apiKey RequestHeader.apiVersion RequestHeader.correlationId
       RequestHeader.clientId] in Hk, Hv, Hc, Hs.
  assert (Hfit' : header_fits (MessageRequestHeader.new k v c clientId)).
  { apply header_fits_ranges. unfold MessageRequestHeader.new.
    cbn [MessageRequestHeader.apiKey MessageRequestHeader.apiVersion
         MessageRequestHeader.correlationId MessageRequestHeader.clientId
         MessageRequestHeader.tag].
    repeat split; try lia. destruct clientId as [s|]; [exact Hs|exact I]. }
  destruct (encode_header_bytes _ Hfit') as (e & He & _).
  exists e. eexists. eexists. split; [apply (RequestHeader_encode_bytes _ Hfit)|].
  split; [exact He|].
  unfold header_bytes, MessageRequestHeader.new.
  cbn [RequestHeader.apiKey RequestHeader.apiVersion RequestHeader.correlationId
       RequestHeader.clientId
       MessageRequestHeader.apiKey MessageRequestHeader.apiVersion
       MessageRequestHeader.correlationId MessageRequestHeader.clientId
       MessageRequestHeader.tag].
  split.
  - intros H. do 3 apply app_inv_head in H.
    apply (f_equal blen) in H as Hlen. rewrite blen_app in Hlen.
    destruct (Z.leb_spec 2 v) as [H2|H2].
    + exfalso. rewrite blen_Z_to_be in Hlen.
      destruct clientId as [[|a r]|]; cbn [RequestHeader.truthy] in Hlen;
        rewrite ?blen_app, ?blen_Z_to_be, ?blen_bytes_of_string in Hlen;
        change (blen [xff; xff]) with 2 in Hlen;
        pose proof (byteLength_nonneg EmptyString); lia.
    + split; [lia|]. intros ->. cbn [RequestHeader.truthy] in H.
      vm_compute in H. discriminate H.
  - intros (H2 & Hne). destruct (Z.leb_spec 2 v) as [|_]; [lia|].
    do 3 f_equal. rewrite app_nil_r.
    destruct clientId as [[|a r]|]; [congruence|reflexivity|reflexivity].
Qed.

Lemma request_headers_agree_witness :
  RequestHeader.fits (RequestHeader.mk 3 1 7 (Some "app"%string))
  /\ exists (e : Encoder.t) (b1 b2 : Buffer),
       RequestHeader.encode (RequestHeader.mk 3 1 7 (Some "app"%string)) = Ok b1
       /\ MessageRequestHeader.encode None
            (MessageRequestHeader.new 3 1 7 (Some "app"%string)) = Ok (e, b2)
       /\ (b1 = b2 <-> 1 < 2 /\ Some "app"%string <> Some EmptyString).
Proof.
  assert (H : RequestHeader.fits (RequestHeader.mk 3 1 7 (Some "app"%string))).
  { unfold RequestHeader.fits.
    cbn [RequestHeader.apiKey RequestHeader.apiVersion RequestHeader.correlationId
         RequestHeader.clientId RequestHeader.collapsed].
    unfold Buf.byteLength, blen. cbn [String.length List.length]. lia. }
  split; [exact H|]. exact (request_headers_agree 3 1 7 (Some "app"%string) H).
Defined.

(** ** Request.toBuffer and Response.parse *)

Lemma toBuffer_unframed (apiKey apiVersion correlationId : Z)
    (clientId : option string) (body : list Field) (chunks : list Buffer) :
  header_fits (MessageRequestHeader.new apiKey apiVersion correlationId clientId) ->
  Forall2 (fun f chunk => encodeField f = Ok chunk) body chunks ->
  Request.toBuffer apiKey (writeFields body) apiVersion correlationId clientId
  = let payload :=
      header_bytes (MessageRequestHeader.new apiKey apiVersion correlationId clientId)
      ++ List.concat chunks in
    Buf.writeInt32BE (Z_to_be 4 0 ++ payload) (blen payload) 0.
Proof.
  intros Hfit Hall. unfold Request.toBuffer.
  set (h := MessageRequestHeader.new apiKey apiVersion correlationId clientId) in *.
  destruct (header_fields_bytes h Hfit) as (hchunks & Hhall & Hhcat).
  unfold Encoder.writeInt32.
  rewrite (write_Ok _ 0 (Z_to_be 4 0)) by (apply encodeInt32_bytes; lia).
  cbn [bind]. rewrite encode_as_fields. cbv zeta.
  rewrite (writeFields_Forall2 _ hchunks Hhall). cbn [bind].
  unfold Encoder.build at 1.
  cbn [Encoder.push Encoder.new Encoder.buffers Encoder.size app].
  rewrite Buffer_concat_exact by (cbn [List.concat]; rewrite blen_app; lia).
  cbn [bind]. rewrite (writeFields_Forall2 _ chunks Hall). cbn [bind].
  unfold Encoder.build. cbn [Encoder.buffers Encoder.size app].
  rewrite Buffer_concat_exact
    by (cbn [List.concat]; rewrite concat_app, !blen_app; lia).
  cbn [bind List.concat]. rewrite concat_app, Hhcat.
  f_equal. rewrite (blen_app (Z_to_be 4 0)), blen_Z_to_be. lia.
Qed.

Lemma fields_bytes_chunks (fields : list Field) (chunks : list Buffer) :
  Forall2 (fun f chunk => encodeField f = Ok chunk) fields chunks ->
  fields_bytes fields = List.concat chunks.
Proof.
  unfold fields_bytes. induction 1 as [|f chunk fields chunks Hf Hall IH];
    [reflexivity|].
  cbn [map List.concat]. now rewrite Hf, IH.
Qed.

(** X15.  [Request.toBuffer] builds one frame.  For a header and body
    values that fit their widths, let the payload be the bytes of the
    header followed by the bytes of the body fields.  When the payload has
    at most 2^31-1 bytes, [toBuffer] returns the payload behind the four
    bytes of its length; read from byte 4 on, the header and then the body
    come back as they were written, with nothing remaining.  When the
    payload is longer it cannot be framed: writing the size throws
    RangeError. *)
Theorem toBuffer_builds_a_frame (apiKey apiVersion correlationId : Z)
    (clientId : option string) (body : list Field)
    (this : MessageRequestHeader.t) :
  header_fits (MessageRequestHeader.new apiKey apiVersion correlationId clientId) ->
  Forall fits_field body ->
  let payload :=
    header_bytes (MessageRequestHeader.new apiKey apiVersion correlationId clientId)
    ++ fields_bytes body in
  (2 ^ 31 - 1 < blen payload ->
   Request.toBuffer apiKey (writeFields body) apiVersion correlationId clientId
   = Throw RangeError)
  /\ (blen payload <= 2 ^ 31 - 1 ->
      Request.toBuffer apiKey (writeFields body) apiVersion correlationId clientId
      = Ok (frame_of payload)
      /\ Buf.readInt32BE (frame_of payload) 0 = Ok (blen payload)
      /\ exists d d' : Decoder.t,
           MessageRequestHeader.decode
             (Decoder.new (Buf.slice_from (frame_of payload) 4)) this
           = Ok (MessageRequestHeader.mk apiKey apiVersion correlationId clientId
                   (if 2 <=? apiVersion then 0 else MessageRequestHeader.tag this),
                 d)
           /\ readFields (map blank body) d = Ok (body, d')
           /\ Decoder.remaining d' = 0).
Proof.
  intros Hfit Hbody.
  set (h := MessageRequestHeader.new apiKey apiVersion correlationId clientId) in *.
  destruct (fields_round_trip body Hbody) as (chunks & Hall & Hread).
  rewrite (fields_bytes_chunks body chunks Hall).
  pose proof (toBuffer_unframed _ _ _ _ _ _ Hfit Hall) as Hto. cbv zeta in Hto.
  fold h in Hto. rewrite Hto. clear Hto.
  set (payload := header_bytes h ++ List.concat chunks).
  pose proof (blen_nonneg payload) as Hnn.
  cbv zeta. split.
  - intros Hbig. unfold Buf.writeInt32BE, Buf.writeBE.
    destruct (Z.ltb_spec (blen payload) (- 2 ^ 31)); [lia|].
    destruct (Z.ltb_spec (2 ^ 31 - 1) (blen payload)); [reflexivity|lia].
  - intros Hsmall. split; [|split].
    + unfold Buf.writeInt32BE, frame_of.
      apply (writeBE_at 4 _ _ _ 0 [] (Z_to_be 4 0) payload);
        [reflexivity|reflexivity|lia|reflexivity].
    + rewrite <- (app_nil_r (frame_of payload)). now apply readInt32BE_frame.
    + eexists (Decoder.mk payload (blen (header_bytes h))),
              (Decoder.mk payload (blen payload)).
      split; [|split].
      * unfold frame_of.
        pose proof (slice_from_framed (Z_to_be 4 (blen payload)) payload) as Hs.
        rewrite blen_Z_to_be in Hs. change (Z.of_nat 4) with 4 in Hs. rewrite Hs.
        pose proof (header_decode h this [] (List.concat chunks) Hfit) as Hd.
        cbn [app] in Hd. change (blen []) with 0 in Hd. rewrite Z.add_0_l in Hd.
        unfold Decoder.new. fold payload in Hd. rewrite Hd. reflexivity.
      * rewrite readFields_blank. specialize (Hread (header_bytes h) []).
        rewrite app_nil_r in Hread. fold payload in Hread. rewrite Hread.
        unfold payload. now rewrite blen_app.
      * unfold Decoder.remaining. cbn. lia.
Qed.

Lemma toBuffer_builds_a_frame_witness :
  Request.toBuffer 3 (writeFields example_fields) 2 7 None
  = Ok (frame_of
          (header_bytes (MessageRequestHeader.new 3 2 7 None)
           ++ fields_bytes example_fields))
  /\ Buf.readInt32BE
       (frame_of
          (header_bytes (MessageRequestHeader.new 3 2 7 None)
           ++ fields_bytes example_fields)) 0
     = Ok 30.
Proof.
  destruct (toBuffer_builds_a_frame 3 2 7 None example_fields example_header)
    as [_ Hframe].
  - apply header_fits_ranges. cbn. lia.
  - repeat (apply Forall_cons_2;
            [cbn [fits_field]; try exact I; unfold Buf.byteLength, blen;
             cbn [String.length List.length]; lia|]).
    apply Forall_nil_2.
  - destruct Hframe as (Hto & Hsize & _); [vm_compute; discriminate|].
    split; [exact Hto|]. rewrite Hsize. reflexivity.
Defined.

Lemma blen_slice_from (buf : Buffer) (start : Z) :
  0 <= start -> blen (Buf.slice_from buf start) = Z.max 0 (blen buf - start).
Proof.
  intros Hs. pose proof (blen_nonneg buf) as Hn.
  unfold Buf.slice_from, Buf.slice, Buf.adjustOffset.
  destruct (Z.ltb_spec start 0); [lia|].
  destruct (Z.ltb_spec (blen buf) 0); [lia|]. rewrite Z.min_id.
  destruct (Z.ltb_spec (Z.min start (blen buf)) (blen buf)).
  - unfold blen in *. rewrite length_take, length_drop. lia.
  - change (blen []) with 0. lia.
Qed.

(** X16.  [Response.parse] reads behind the size field without looking at
    it.  The four leading bytes may hold anything; the correlation id is
    the one [ResponseHeader.decode] of protocol/Headers reads from the
    message without its size field, and the body is decoded from offset 4
    of that message, the place from which [handleResponse] takes the body.
    A response written with [ResponseHeader.encode] and the write methods
    of the encoder parses back to its correlation id and its values with
    nothing remaining.  A buffer of fewer than 8 bytes is refused with
    RangeError before the body is looked at. *)
Theorem parse_reads_past_the_size :
  (forall (Body : Type) (decode : Decoder.t -> result (Body * Decoder.t))
          (size4 message : Buffer) (header : ResponseHeader.t),
      blen size4 = 4 ->
      ResponseHeader.decode message = Ok header ->
      Response.parse decode (size4 ++ message)
      = let! (body, decoder) :=
          decode (Decoder.mk message (ResponseHeader.size header)) in
        Ok (MessageResponseHeader.new (ResponseHeader.correlationId header),
            body, decoder))
  /\ (forall (Body : Type) (decode : Decoder.t -> result (Body * Decoder.t))
             (buffer : Buffer),
        blen buffer < 8 -> Response.parse decode buffer = Throw RangeError)
  /\ (forall (correlationId : Z) (body : list Field) (size4 : Buffer),
        - 2 ^ 31 <= correlationId <= 2 ^ 31 - 1 ->
        Forall fits_field body -> blen size4 = 4 ->
        exists (e e' : Encoder.t) (header message : Buffer) (d : Decoder.t),
          MessageResponseHeader.encode None (MessageResponseHeader.new correlationId)
          = Ok (e, header)
          /\ writeFields body e = Ok e'
          /\ Encoder.build e' = Ok message
          /\ Response.parse (readFields (map blank body)) (size4 ++ message)
             = Ok (MessageResponseHeader.new correlationId, body, d)
          /\ Decoder.remaining d = 0).
Proof.
  assert (Hparse : forall (Body : Type)
            (decode : Decoder.t -> result (Body * Decoder.t))
            (size4 message : Buffer), blen size4 = 4 ->
            Response.parse decode (size4 ++ message)
            = let! correlationId := Buf.readInt32BE message 0 in
              let! (body, decoder) := decode (Decoder.mk message 4) in
              Ok (MessageResponseHeader.new correlationId, body, decoder)).
  { intros Body decode size4 message H4. unfold Response.parse.
    pose proof (slice_from_framed size4 message) as Hs. rewrite H4 in Hs.
    rewrite Hs.
    unfold MessageResponseHeader.decode, Decoder.readInt32.
    rewrite read_unfold. cbn [Decoder.new Decoder.buffer Decoder.offset].
    unfold BasicTypes.decodeInt32.
    destruct (Buf.readInt32BE message 0) as [cid|err]; reflexivity. }
  split; [|split].
  - intros Body decode size4 message header H4 Hh. rewrite (Hparse _ _ _ _ H4).
    unfold ResponseHeader.decode in Hh.
    destruct (Buf.readInt32BE message 0) as [cid|err]; [|discriminate].
    cbn [bind] in *. injection Hh as <-. reflexivity.
  - intros Body decode buffer Hshort. unfold Response.parse.
    unfold MessageResponseHeader.decode, Decoder.readInt32.
    rewrite read_unfold. cbn [Decoder.new Decoder.buffer Decoder.offset].
    unfold BasicTypes.decodeInt32, Buf.readInt32BE.
    pose proof (readIntBE_total 4 (Buf.slice_from buffer 4) 0) as Hr.
    unfold Buf.in_bounds in Hr. rewrite blen_slice_from in Hr by lia.
    destruct (Z.leb_spec (0 + Z.of_nat 4) (Z.max 0 (blen buffer - 4))); [lia|].
    cbn [Z.leb andb] in Hr. now rewrite Hr.
  - intros cid body size4 Hcid Hbody H4.
    destruct (fields_round_trip body Hbody) as (chunks & Hall & Hread).
    exists (Encoder.push (Z_to_be 4 cid) Encoder.new).
    eexists _, (Z_to_be 4 cid), (Z_to_be 4 cid ++ List.concat chunks), _.
    split; [|split; [|split; [|split]]].
    + unfold MessageResponseHeader.encode, MessageResponseHeader.new,
        Encoder.writeInt32. cbn [MessageResponseHeader.correlationId].
      rewrite (write_Ok _ cid (Z_to_be 4 cid)) by (now apply encodeInt32_bytes).
      cbn [bind]. unfold Encoder.build.
      cbn [Encoder.push Encoder.new Encoder.buffers Encoder.size app].
      rewrite Buffer_concat_exact by (cbn [List.concat]; now rewrite app_nil_r).
      cbn [bind List.concat]. now rewrite app_nil_r.
    + apply (writeFields_Forall2 _ chunks Hall).
    + unfold Encoder.build.
      cbn [Encoder.push Encoder.new Encoder.buffers Encoder.size app].
      rewrite Buffer_concat_exact
        by (cbn [List.concat]; rewrite !blen_app; change (blen []) with 0; lia).
      reflexivity.
    + rewrite (Hparse _ _ _ _ H4).
      rewrite (readIntBE_at 4 [] (List.concat chunks) _ cid 0);
        [|reflexivity|reflexivity|lia|lia].
      cbn [bind]. rewrite readFields_blank.
      specialize (Hread (Z_to_be 4 cid) []). rewrite app_nil_r in Hread.
      rewrite blen_Z_to_be in Hread. change (Z.of_nat 4) with 4 in Hread.
      rewrite Hread. reflexivity.
    + unfold Decoder.remaining. cbn [Decoder.buffer Decoder.offset].
      rewrite blen_app, blen_Z_to_be. lia.
Qed.

Lemma parse_reads_past_the_size_witness :
  exists (e e' : Encoder.t) (header message : Buffer) (d : Decoder.t),
    MessageResponseHeader.encode None (MessageResponseHeader.new 7) = Ok (e, header)
    /\ writeFields example_fields e = Ok e'
    /\ Encoder.build e' = Ok message
    /\ Response.parse (readFields (map blank example_fields))
         ([x00; x00; x00; x00] ++ message)
       = Ok (MessageResponseHeader.new 7, example_fields, d)
    /\ Decoder.remaining d = 0.
Proof.
  apply (proj2 (proj2 parse_reads_past_the_size) 7 example_fields
           [x00; x00; x00; x00]); [lia| |reflexivity].
  repeat (apply Forall_cons_2;
          [cbn [fits_field]; try exact I; unfold Buf.byteLength, blen;
           cbn [String.length List.length]; lia|]).
  apply Forall_nil_2.
Defined.

(** ** API versions *)

Lemma getVersionRange_update (versionRanges : list ApiVersionRange.t)
    (this : ApiVersions.t) (apiKey : Z) :
  ApiVersions.getVersionRange apiKey (ApiVersions.update versionRanges this)
  = match last_with ApiVersionRange.apiKey apiKey versionRanges with
    | Some range => range
    | None => ApiVersions.getVersionRange apiKey this
    end.
Proof.
  unfold ApiVersions.getVersionRange, ApiVersions.update.
  cbn [ApiVersions.versionRanges ApiVersions.defaultMinVersion
       ApiVersions.defaultMaxVersion].
  rewrite (fold_left_insert_lookup ApiVersionRange.apiKey).
  now destruct (last_with ApiVersionRange.apiKey apiKey versionRanges).
Qed.

(** X17.  [ApiVersions.selectVersion] returns the preferred version when
    the range of the API holds it, else the fallback version when the range
    holds it, else the maximum of the range.  The version it returns is a
    supported one exactly when the range is not empty: with a minimum above
    the maximum it returns the maximum, which [isVersionSupported]
    rejects. *)
Theorem selectVersion_supported (apiKey : Z) (preferredVersion fallbackVersion : option Z)
    (this : ApiVersions.t) :
  let supported (version : option Z) :=
    exists v, version = Some v /\ ApiVersions.isVersionSupported apiKey v this = true in
  let selected :=
    ApiVersions.selectVersion apiKey preferredVersion fallbackVersion this in
  (supported preferredVersion -> Some selected = preferredVersion)
  /\ (~ supported preferredVersion -> supported fallbackVersion ->
      Some selected = fallbackVersion)
  /\ (~ supported preferredVersion -> ~ supported fallbackVersion ->
      selected = ApiVersions.maxVersion apiKey this)
  /\ (ApiVersions.isVersionSupported apiKey selected this = true
      <-> ApiVersions.minVersion apiKey this <= ApiVersions.maxVersion apiKey this).
Proof.
  cbv zeta.
  unfold ApiVersions.selectVersion, ApiVersions.isVersionSupported,
    ApiVersions.maxVersion, ApiVersions.minVersion.
  set (range := ApiVersions.getVersionRange apiKey this).
  set (lo := ApiVersionRange.minVersion range).
  set (hi := ApiVersionRange.maxVersion range).
  assert (Hsup : forall version : option Z,
            match version with
            | Some version => (lo <=? version) && (version <=? hi)
            | None => false
            end = true
            <-> exists v, version = Some v /\ (lo <=? v) && (v <=? hi) = true).
  { intros [v|]; split.
    - intros H. now exists v.
    - now intros (v' & [= <-] & H).
    - discriminate.
    - now intros (v' & [=] & _). }
  destruct (match preferredVersion with
            | Some version => (lo <=? version) && (version <=? hi)
            | None => false
            end) eqn:Hp.
  - pose proof (proj1 (Hsup preferredVersion) Hp) as (v & -> & Hv).
    assert (Hyes : exists v0, Some v = Some v0 /\ (lo <=? v0) && (v0 <=? hi) = true)
      by eauto.
    split; [reflexivity|]. split; [now intros H|]. split; [now intros H|].
    split; [|intros _; exact Hv].
    intros _. apply andb_true_iff in Hv as [H1 H2]. lia.
  - assert (Hnp : ~ exists v, preferredVersion = Some v
                              /\ (lo <=? v) && (v <=? hi) = true).
    { intros H. apply Hsup in H. congruence. }
    split; [intros H; now destruct (Hnp H)|].
    destruct (match fallbackVersion with
              | Some version => (lo <=? version) && (version <=? hi)
              | None => false
              end) eqn:Hf.
    + pose proof (proj1 (Hsup fallbackVersion) Hf) as (v & -> & Hv).
      assert (Hyes : exists v0, Some v = Some v0
                                /\ (lo <=? v0) && (v0 <=? hi) = true) by eauto.
      split; [reflexivity|]. split; [now intros _ H|].
      split; [|intros _; exact Hv].
      intros _. apply andb_true_iff in Hv as [H1 H2]. lia.
    + assert (Hnf : ~ exists v, fallbackVersion = Some v
                                /\ (lo <=? v) && (v <=? hi) = true).
      { intros H. apply Hsup in H. congruence. }
      split; [intros _ H; now destruct (Hnf H)|]. split; [reflexivity|].
      split.
      * intros H. apply andb_true_iff in H as [H _]. lia.
      * intros H. apply andb_true_iff. split; lia.
Qed.

Lemma selectVersion_supported_witness :
  Some (ApiVersions.selectVersion 3 (Some 5) None
          (ApiVersions.update (ApiVersionsResponse.apiVersions example_versions)
             (ApiVersions.new None)))
  = Some 5.
Proof.
  apply (proj1 (selectVersion_supported 3 (Some 5) None
                  (ApiVersions.update (ApiVersionsResponse.apiVersions example_versions)
                     (ApiVersions.new None)))).
  exists 5. split; [reflexivity|]. vm_compute. reflexivity.
Defined.

(** X18.  [ApiVersions.update] merges: after it, an API has the last range
    the response lists for it, and keeps the range it had (or the default)
    when the response does not list it; two updates in a row are one update
    with both lists.  Starting from a new manager, the range returned for
    an API always names that API. *)
Theorem update_last_wins (first second : list ApiVersionRange.t)
    (this : ApiVersions.t) (apiKey : Z) (defaultMaxVersion : option Z) :
  ApiVersions.getVersionRange apiKey (ApiVersions.update first this)
  = match last_with ApiVersionRange.apiKey apiKey first with
    | Some range => range
    | None => ApiVersions.getVersionRange apiKey this
    end
  /\ ApiVersions.update second (ApiVersions.update first this)
     = ApiVersions.update (first ++ second) this
  /\ ApiVersionRange.apiKey
       (ApiVersions.getVersionRange apiKey
          (ApiVersions.update second
             (ApiVersions.update first (ApiVersions.new defaultMaxVersion))))
     = apiKey.
Proof.
  split; [apply getVersionRange_update|]. split.
  - unfold ApiVersions.update.
    cbn [ApiVersions.versionRanges ApiVersions.defaultMinVersion
         ApiVersions.defaultMaxVersion].
    now rewrite fold_left_app.
  - rewrite !getVersionRange_update.
    destruct (last_with _ apiKey second) as [r|] eqn:H2;
      [now apply last_with_Some in H2|].
    destruct (last_with _ apiKey first) as [r|] eqn:H1;
      [now apply last_with_Some in H1|].
    reflexivity.
Qed.

(** ** ApiVersionsResponse.parse *)

Lemma readInt16BE_at (pre post buf : Buffer) (v off : Z) :
  buf = pre ++ Z_to_be 2 v ++ post -> off = blen pre ->
  - 2 ^ 15 <= v <= 2 ^ 15 - 1 -> Buf.readInt16BE buf off = Ok v.
Proof. intros -> -> Hv. apply (readIntBE_at 2 pre post); auto; lia. Qed.

Lemma readInt32BE_at (pre post buf : Buffer) (v off : Z) :
  buf = pre ++ Z_to_be 4 v ++ post -> off = blen pre ->
  - 2 ^ 31 <= v <= 2 ^ 31 - 1 -> Buf.readInt32BE buf off = Ok v.
Proof. intros -> -> Hv. apply (readIntBE_at 4 pre post); auto; lia. Qed.

Lemma readIntBE_Ok (w : nat) (buf : Buffer) (off v : Z) :
  Buf.readIntBE w buf off = Ok v -> 0 <= off /\ off + Z.of_nat w <= blen buf.
Proof.
  pose proof (readIntBE_total w buf off) as H. unfold Buf.in_bounds in H.
  destruct (Z.leb_spec 0 off); destruct (Z.leb_spec (off + Z.of_nat w) (blen buf));
    cbn [andb] in H; intros Hv; try (rewrite H in Hv; discriminate); lia.
Qed.

(** The bytes of a version range. *)
Lemma range_fields_bytes (range : ApiVersionRange.t) :
  Forall fits_field (range_fields range) ->
  Forall2 (fun f chunk => encodeField f = Ok chunk) (range_fields range)
    [Z_to_be 2 (ApiVersionRange.apiKey range);
     Z_to_be 2 (ApiVersionRange.minVersion range);
     Z_to_be 2 (ApiVersionRange.maxVersion range)].
Proof.
  unfold range_fields. rewrite !Forall_cons. cbn [fits_field].
  intros (Hk & Hlo & Hhi & _).
  repeat constructor; cbn [encodeField]; now apply encodeInt16_bytes.
Qed.

Lemma ranges_fields_bytes (ranges : list ApiVersionRange.t) :
  Forall fits_field (flat_map range_fields ranges) ->
  exists chunks,
    Forall2 (fun f chunk => encodeField f = Ok chunk)
      (flat_map range_fields ranges) chunks
    /\ blen (List.concat chunks) = 6 * Z.of_nat (List.length ranges)
    /\ forall pre post acc,
         ApiVersionsResponse.readApiVersions (List.length ranges)
           (pre ++ List.concat chunks ++ post) (blen pre) acc
         = Ok (acc ++ ranges, blen pre + blen (List.concat chunks)).
Proof.
  induction ranges as [|range ranges IH]; cbn [flat_map]; intros Hfit.
  - exists []. split; [constructor|]. split; [reflexivity|].
    intros pre post acc. cbn. change (blen []) with 0.
    now rewrite app_nil_r, Z.add_0_r.
  - apply Forall_app in Hfit as [Hr Hrs].
    destruct (IH Hrs) as (chunks & Hall & Hlen & Hread).
    pose proof (range_fields_bytes range Hr) as Hchunks.
    eexists (_ ++ chunks). split; [apply Forall2_app; eassumption|].
    unfold range_fields in Hr. rewrite !Forall_cons in Hr. cbn [fits_field] in Hr.
    destruct Hr as (Hk & Hlo & Hhi & _).
    split.
    + rewrite concat_app, blen_app, Hlen. cbn [List.concat List.length].
      rewrite !blen_app, !blen_Z_to_be. change (blen []) with 0. lia.
    + intros pre post acc. cbn [List.length ApiVersionsResponse.readApiVersions].
      cbn [app List.concat]. rewrite <- !app_assoc.
      set (K := Z_to_be 2 (ApiVersionRange.apiKey range)).
      set (L := Z_to_be 2 (ApiVersionRange.minVersion range)).
      set (H := Z_to_be 2 (ApiVersionRange.maxVersion range)).
      set (tail := List.concat chunks ++ post).
      rewrite (readInt16BE_at pre (L ++ H ++ tail) _ (ApiVersionRange.apiKey range));
        [|reflexivity|reflexivity|assumption].
      cbn [bind].
      rewrite (readInt16BE_at (pre ++ K) (H ++ tail) _
                 (ApiVersionRange.minVersion range));
        [|now rewrite <- !app_assoc
         |unfold K; now rewrite blen_app, blen_Z_to_be|assumption].
      cbn [bind].
      rewrite (readInt16BE_at (pre ++ K ++ L) tail _
                 (ApiVersionRange.maxVersion range));
        [|now rewrite <- !app_assoc
         |unfold K, L; rewrite !blen_app, !blen_Z_to_be; lia|assumption].
      cbn [bind].
      specialize (Hread (pre ++ K ++ L ++ H) post
                    (acc ++ [ApiVersionRange.mk (ApiVersionRange.apiKey range)
                               (ApiVersionRange.minVersion range)
                               (ApiVersionRange.maxVersion range)])).
      rewrite <- !app_assoc in Hread. fold tail in Hread.
      replace (blen pre + 2 + 2 + 2) with (blen (pre ++ K ++ L ++ H))
        by (unfold K, L, H; rewrite !blen_app, !blen_Z_to_be; lia).
      rewrite Hread. destruct range. cbn [ApiVersionRange.apiKey
        ApiVersionRange.minVersion ApiVersionRange.maxVersion app].
      do 2 f_equal. unfold K, L, H.
      cbn [ApiVersionRange.apiKey ApiVersionRange.minVersion
           ApiVersionRange.maxVersion].
      rewrite !blen_app, !blen_Z_to_be. change (blen []) with 0. lia.
Qed.

Lemma readApiVersions_Ok (count : nat) (buffer : Buffer) :
  forall (offset : Z) (acc ranges : list ApiVersionRange.t) (offset' : Z),
    ApiVersionsResponse.readApiVersions count buffer offset acc
    = Ok (ranges, offset') ->
    List.length ranges = (List.length acc + count)%nat
    /\ offset' = offset + 6 * Z.of_nat count
    /\ ((0 < count)%nat -> 0 <= offset)
    /\ ((0 < count)%nat -> offset' <= blen buffer).
Proof.
  induction count as [|count IH]; intros offset acc ranges offset' H;
    cbn [ApiVersionsResponse.readApiVersions] in H.
  - injection H as <- <-. repeat split; lia.
  - destruct (Buf.readInt16BE buffer offset) as [k|] eqn:Hk; [|discriminate].
    cbn [bind] in H.
    destruct (Buf.readInt16BE buffer (offset + 2)) as [lo|] eqn:Hlo; [|discriminate].
    cbn [bind] in H.
    destruct (Buf.readInt16BE buffer (offset + 2 + 2)) as [hi|] eqn:Hhi;
      [|discriminate].
    cbn [bind] in H. apply IH in H as (Hlen & Hoff & Hpos & Hend).
    rewrite length_app in Hlen. cbn [List.length] in Hlen.
    apply readIntBE_Ok in Hk, Hhi.
    repeat split; lia.
Qed.

(** X19.  [ApiVersionsResponse.parse] reads the layout the encoder writes
    with one 16-bit error code, one 32-bit throttle time, one 32-bit count
    and three 16-bit numbers for each version range: such a response is
    parsed back as it was written, whatever follows it in the buffer.  It
    reads nothing on trust: when it returns, the buffer holds the 10 bytes
    of the fixed part and 6 bytes for each range returned, and the number
    of ranges is the count read, or none when that count is negative. *)
Theorem ApiVersionsResponse_parse_written :
  (forall (response : ApiVersionsResponse.t),
      Forall fits_field (ApiVersionsResponse_fields response) ->
      exists (e : Encoder.t) (bytes : Buffer),
        writeFields (ApiVersionsResponse_fields response) Encoder.new = Ok e
        /\ Encoder.build e = Ok bytes
        /\ blen bytes
           = 10 + 6 * Z.of_nat (List.length (ApiVersionsResponse.apiVersions response))
        /\ forall rest : Buffer,
             ApiVersionsResponse.parse (bytes ++ rest) = Ok response)
  /\ (forall (buffer : Buffer) (response : ApiVersionsResponse.t),
        ApiVersionsResponse.parse buffer = Ok response ->
        10 + 6 * Z.of_nat (List.length (ApiVersionsResponse.apiVersions response))
        <= blen buffer
        /\ exists count,
             Buf.readInt32BE buffer 6 = Ok count
             /\ List.length (ApiVersionsResponse.apiVersions response)
                = Z.to_nat count).
Proof.
  split.
  - intros [errorCode ranges throttle]. unfold ApiVersionsResponse_fields.
    cbn [ApiVersionsResponse.errorCode ApiVersionsResponse.apiVersions
         ApiVersionsResponse.throttleTimeMs].
    intros Hfit. apply Forall_app in Hfit as [Hfix Hrs].
    rewrite !Forall_cons in Hfix. cbn [fits_field] in Hfix.
    destruct Hfix as (He & Ht & Hn & _).
    destruct (ranges_fields_bytes ranges Hrs) as (chunks & Hall & Hlen & Hread).
    assert (Hchunks :
      Forall2 (fun f chunk => encodeField f = Ok chunk)
        ([FInt16 errorCode; FInt32 throttle; FInt32 (Z.of_nat (List.length ranges))]
         ++ flat_map range_fields ranges)
        ([Z_to_be 2 errorCode; Z_to_be 4 throttle;
          Z_to_be 4 (Z.of_nat (List.length ranges))] ++ chunks)).
    { apply Forall2_app; [|exact Hall].
      repeat constructor; cbn [encodeField];
        [now apply encodeInt16_bytes|now apply encodeInt32_bytes
        |now apply encodeInt32_bytes]. }
    pose proof (writeFields_Forall2 _ _ Hchunks Encoder.new) as Hw.
    cbn [Encoder.new Encoder.buffers Encoder.size] in Hw.
    rewrite app_nil_l, Z.add_0_l in Hw.
    eexists _, _. split; [exact Hw|]. split; [now apply Buffer_concat_exact|].
    cbn [Encoder.buffers]. rewrite concat_app. cbn [List.concat app].
    rewrite app_nil_r.
    set (E := Z_to_be 2 errorCode). set (T := Z_to_be 4 throttle).
    set (N := Z_to_be 4 (Z.of_nat (List.length ranges))).
    split.
    + rewrite !blen_app, Hlen. unfold E, T, N. rewrite !blen_Z_to_be. lia.
    + intros rest. unfold ApiVersionsResponse.parse. rewrite <- !app_assoc.
      rewrite (readInt16BE_at [] (T ++ N ++ List.concat chunks ++ rest) _ errorCode);
        [|reflexivity|reflexivity|assumption].
      cbn [bind].
      rewrite (readInt32BE_at E (N ++ List.concat chunks ++ rest) _ throttle);
        [|reflexivity|reflexivity|assumption].
      cbn [bind].
      rewrite (readInt32BE_at (E ++ T) (List.concat chunks ++ rest) _
                 (Z.of_nat (List.length ranges)));
        [|now rewrite <- !app_assoc|reflexivity|assumption].
      cbn [bind]. rewrite Nat2Z.id.
      specialize (Hread (E ++ T ++ N) rest []).
      rewrite <- !app_assoc in Hread.
      replace (0 + 2 + 4 + 4) with (blen (E ++ T ++ N)) by reflexivity.
      rewrite Hread. reflexivity.
  - intros buffer response H. unfold ApiVersionsResponse.parse in H.
    destruct (Buf.readInt16BE buffer 0) as [errorCode|] eqn:He; [|discriminate].
    cbn [bind] in H.
    destruct (Buf.readInt32BE buffer (0 + 2)) as [throttle|] eqn:Ht; [|discriminate].
    cbn [bind] in H.
    destruct (Buf.readInt32BE buffer (0 + 2 + 4)) as [count|] eqn:Hc; [|discriminate].
    cbn [bind] in H.
    destruct (ApiVersionsResponse.readApiVersions _ _ _ _) as [[ranges off]|] eqn:Hr;
      [|discriminate].
    cbn [bind] in H. injection H as <-.
    cbn [ApiVersionsResponse.apiVersions].
    apply readApiVersions_Ok in Hr as (Hlen & Hoff & _ & Hend).
    cbn [List.length] in Hlen. pose proof (readIntBE_Ok _ _ _ _ Hc) as Hb.
    change (Z.of_nat 4) with 4 in Hb.
    split; [|exists count; now split].
    rewrite Hlen. destruct (Z.to_nat count) as [|n] eqn:Hn; [cbn; lia|].
    rewrite <- Hn in *. lia.
Qed.

(** ** The API versions of the network client *)

Lemma fetchApiVersions_Ok (sent : result Buffer)
    (apiVersions : gmap Z ApiVersionRange.t) :
  NetworkClient.fetchApiVersions sent = Ok apiVersions ->
  exists responseBuffer response,
    sent = Ok responseBuffer
    /\ ApiVersionsResponse.parse responseBuffer = Ok response
    /\ ApiVersionsResponse.errorCode response = 0
    /\ forall apiKey,
         apiVersions !! apiKey
         = last_with ApiVersionRange.apiKey apiKey
             (ApiVersionsResponse.apiVersions response).
Proof.
  unfold NetworkClient.fetchApiVersions. destruct sent as [responseBuffer|]; [|discriminate].
  cbn [bind].
  destruct (ApiVersionsResponse.parse responseBuffer) as [response|] eqn:Hp;
    [|discriminate].
  cbn [bind].
  destruct (Z.eqb_spec (ApiVersionsResponse.errorCode response) 0) as [He|He];
    cbn [negb]; [|discriminate].
  intros [= <-]. exists responseBuffer, response. repeat split; try assumption.
  intros apiKey. rewrite (fold_left_insert_lookup ApiVersionRange.apiKey).
  rewrite lookup_empty. now destruct (last_with _ _ _).
Qed.

(** X20.  The version table of the network client.  When
    [fetchApiVersions] returns, the broker answered, the answer parsed and
    carried error code 0, and the table holds for each API the last range
    the answer lists for it and nothing else, whatever it held before.
    [supportsApiVersion] accepts a version exactly when the API is listed
    and the version lies in its range.  For an API that is not listed
    [getApiVersion] reports the range from 0 to 0 while
    [supportsApiVersion] rejects every version, version 0 included, and
    [refreshMetadata] falls back to version 0. *)
Theorem fetched_api_versions (sent : result Buffer)
    (apiVersions : gmap Z ApiVersionRange.t) :
  NetworkClient.fetchApiVersions sent = Ok apiVersions ->
  exists (responseBuffer : Buffer) (response : ApiVersionsResponse.t),
    sent = Ok responseBuffer
    /\ ApiVersionsResponse.parse responseBuffer = Ok response
    /\ ApiVersionsResponse.errorCode response = 0
    /\ (forall apiKey apiVersion : Z,
          NetworkClient.supportsApiVersion apiVersions apiKey apiVersion = true
          <-> exists range,
                last_with ApiVersionRange.apiKey apiKey
                  (ApiVersionsResponse.apiVersions response) = Some range
                /\ in_range apiVersion range)
    /\ (forall (apiKey : Z) (range : ApiVersionRange.t),
          last_with ApiVersionRange.apiKey apiKey
            (ApiVersionsResponse.apiVersions response) = Some range ->
          NetworkClient.getApiVersion apiVersions apiKey
          = (ApiVersionRange.minVersion range, ApiVersionRange.maxVersion range))
    /\ (forall apiKey : Z,
          (forall range, In range (ApiVersionsResponse.apiVersions response) ->
             ApiVersionRange.apiKey range <> apiKey) ->
          NetworkClient.getApiVersion apiVersions apiKey = (0, 0)
          /\ (forall apiVersion,
                NetworkClient.supportsApiVersion apiVersions apiKey apiVersion = false)
          /\ (apiKey = ApiKeys.METADATA ->
              NetworkClient.metadataVersion apiVersions = 0)).
Proof.
  intros H. destruct (fetchApiVersions_Ok _ _ H)
    as (responseBuffer & response & Hs & Hp & He & Hlookup).
  exists responseBuffer, response. split; [exact Hs|]. split; [exact Hp|].
  split; [exact He|]. split; [|split].
  - intros apiKey apiVersion. unfold NetworkClient.supportsApiVersion, in_range.
    rewrite Hlookup.
    destruct (last_with _ apiKey _) as [range|]; split.
    + intros Hb. apply andb_true_iff in Hb as [H1 H2]. exists range.
      split; [reflexivity|lia].
    + intros (r & [= <-] & Hr). apply andb_true_iff. split; lia.
    + discriminate.
    + now intros (r & [=] & _).
  - intros apiKey range Hl. unfold NetworkClient.getApiVersion.
    now rewrite Hlookup, Hl.
  - intros apiKey Hnone. apply last_with_None in Hnone.
    unfold NetworkClient.getApiVersion, NetworkClient.supportsApiVersion,
      NetworkClient.metadataVersion.
    rewrite Hlookup, Hnone. repeat split. intros <-. now rewrite Hlookup, Hnone.
Qed.

Lemma example_versions_fetched :
  NetworkClient.fetchApiVersions (Ok example_versions_bytes)
  = Ok example_versions_table.
Proof. vm_compute. reflexivity. Qed.

Lemma fetched_api_versions_witness :
  exists (responseBuffer : Buffer) (response : ApiVersionsResponse.t),
    Ok example_versions_bytes = Ok responseBuffer
    /\ ApiVersionsResponse.parse responseBuffer = Ok response
    /\ ApiVersionsResponse.errorCode response = 0
    /\ (forall apiKey apiVersion : Z,
          NetworkClient.supportsApiVersion example_versions_table apiKey apiVersion
          = true
          <-> exists range,
                last_with ApiVersionRange.apiKey apiKey
                  (ApiVersionsResponse.apiVersions response) = Some range
                /\ in_range apiVersion range).
Proof.
  destruct (fetched_api_versions (Ok example_versions_bytes) example_versions_table
              example_versions_fetched)
    as (responseBuffer & response & H1 & H2 & H3 & H4 & _).
  exists responseBuffer, response. exact (conj H1 (conj H2 (conj H3 H4))).
Defined.

(** ** The request bodies of the network client *)

Lemma write_string_framed (pre post : Buffer) (s : string) :
  Buf.byteLength s <= 2 ^ 15 - 1 ->
  Buf.writeInt16BE (pre ++ Buf.alloc (blen (string_bytes s)) ++ post)
    (Buf.byteLength s) (blen pre)
  = Ok (pre ++ (Z_to_be 2 (Buf.byteLength s) ++ Buf.alloc (Buf.byteLength s)) ++ post)
  /\ Buf.write
       (pre ++ (Z_to_be 2 (Buf.byteLength s) ++ Buf.alloc (Buf.byteLength s)) ++ post)
       s (blen pre + 2)
     = pre ++ string_bytes s ++ post.
Proof.
  intros Hlen. pose proof (byteLength_nonneg s) as Hnn. unfold string_bytes.
  rewrite blen_app, blen_Z_to_be, blen_bytes_of_string.
  change (Z.of_nat 2) with 2. rewrite alloc_add by lia. split.
  - unfold Buf.writeInt16BE. rewrite <- !app_assoc.
    apply (writeBE_at 2 _ _ _ _ pre (Buf.alloc 2)
             (Buf.alloc (Buf.byteLength s) ++ post));
      [reflexivity|reflexivity|lia|reflexivity].
  - unfold Buf.write. rewrite <- !app_assoc.
    rewrite (blit_at _ (pre ++ Z_to_be 2 (Buf.byteLength s))
               (Buf.alloc (Buf.byteLength s)) post (Buf.bytes_of_string s)).
    + now rewrite <- !app_assoc.
    + now rewrite <- !app_assoc.
    + rewrite blen_app, blen_Z_to_be. reflexivity.
    + rewrite length_alloc, length_bytes_of_string. unfold Buf.byteLength. lia.
Qed.

Lemma sizeOfTopics_bytes (topics : list string) :
  forall size,
    MetadataRequest.sizeOfTopics topics size
    = size + blen (List.concat (map string_bytes topics)).
Proof.
  induction topics as [|topic topics IH]; intros size;
    cbn [MetadataRequest.sizeOfTopics map List.concat].
  - change (blen []) with 0. lia.
  - rewrite IH, blen_app. unfold string_bytes at 2.
    rewrite blen_app, blen_Z_to_be, blen_bytes_of_string. lia.
Qed.

Lemma writeTopics_framed (topics : list string) :
  Forall (fun topic => Buf.byteLength topic <= 2 ^ 15 - 1) topics ->
  forall pre post,
    MetadataRequest.writeTopics topics
      (pre ++ Buf.alloc (blen (List.concat (map string_bytes topics))) ++ post)
      (blen pre)
    = Ok (pre ++ List.concat (map string_bytes topics) ++ post,
          blen pre + blen (List.concat (map string_bytes topics))).
Proof.
  induction 1 as [|topic topics Hfit _ IH]; intros pre post;
    cbn [MetadataRequest.writeTopics map List.concat].
  - change (blen []) with 0. cbn [Buf.alloc Z.to_nat repeat app].
    now rewrite Z.add_0_r.
  - rewrite blen_app, alloc_add by apply blen_nonneg. rewrite <- app_assoc.
    destruct (write_string_framed pre
                (Buf.alloc (blen (List.concat (map string_bytes topics))) ++ post)
                topic Hfit) as [Hw Hs].
    rewrite Hw. cbn [bind]. rewrite Hs.
    specialize (IH (pre ++ string_bytes topic) post).
    rewrite <- !app_assoc in IH.
    replace (blen pre + 2 + Buf.byteLength topic)
      with (blen (pre ++ string_bytes topic))
      by (unfold string_bytes;
          rewrite !blen_app, blen_Z_to_be, blen_bytes_of_string; lia).
    rewrite <- !app_assoc. rewrite IH. rewrite !blen_app. do 2 f_equal. lia.
Qed.

Lemma writeTopics_too_long (topics : list string) (topic : string) :
  In topic topics -> 2 ^ 15 - 1 < Buf.byteLength topic ->
  forall buffer offset,
    MetadataRequest.writeTopics topics buffer offset = Throw RangeError.
Proof.
  induction topics as [|t topics IH]; [contradiction|].
  intros Hin Hlong buffer offset. cbn [MetadataRequest.writeTopics].
  destruct (Buf.writeInt16BE buffer (Buf.byteLength t) offset) as [b|e] eqn:Hw.
  - cbn [bind]. destruct Hin as [->|Hin]; [|now apply IH].
    apply writeBE_Ok in Hw as (Hr & _). lia.
  - cbn [bind]. f_equal. unfold Buf.writeInt16BE, Buf.writeBE in Hw.
    destruct (_ || _); [congruence|]. destruct (Buf.in_bounds _ _ _); congruence.
Qed.

Lemma writeBE_throws (w : nat) (lo hi : Z) (buffer : Buffer) (v off : Z) (e : JsError) :
  Buf.writeBE w lo hi buffer v off = Throw e -> e = RangeError.
Proof.
  unfold Buf.writeBE. destruct (_ || _); [congruence|].
  destruct (Buf.in_bounds _ _ _); congruence.
Qed.

Lemma encodeBoolean_byte (value : bool) :
  BasicTypes.encodeBoolean value = Ok (Z_to_be 1 (if value then 1 else 0)).
Proof.
  unfold BasicTypes.encodeBoolean, Buf.writeInt8.
  apply (writeBE_alloc 1). destruct value; lia.
Qed.

Lemma writeBoolean_framed (pre post : Buffer) (value : bool) :
  Protocol.writeBoolean (pre ++ Buf.alloc 1 ++ post) value (blen pre)
  = Ok (pre ++ Z_to_be 1 (if value then 1 else 0) ++ post, blen pre + 1).
Proof.
  unfold Protocol.writeBoolean, Buf.writeInt8.
  rewrite (writeBE_at 1 _ _ _ _ pre (Buf.alloc 1) post);
    [reflexivity|reflexivity|reflexivity|destruct value; lia|reflexivity].
Qed.

Lemma readBoolean_framed (pre post : Buffer) (value : bool) :
  Protocol.readBoolean (pre ++ Z_to_be 1 (if value then 1 else 0) ++ post) (blen pre)
  = Ok (value, blen pre + 1).
Proof.
  unfold Protocol.readBoolean, Buf.readInt8.
  rewrite (readIntBE_at 1 pre post _ (if value then 1 else 0));
    [|reflexivity|reflexivity|lia|destruct value; cbn; lia].
  cbn [bind]. now destruct value.
Qed.

Lemma topics_encoded_as (topics : list string) :
  Forall (fun topic => Buf.byteLength topic <= 2 ^ 15 - 1) topics ->
  encoded_as BasicTypes.encodeString BasicTypes.decodeString
    (map Some topics) (map string_bytes topics).
Proof.
  induction 1 as [|topic topics Hfit _ IH]; cbn [map]; constructor; [|exact IH].
  destruct (encodeString_round_trips (Some topic) Hfit) as (bytes & He & Hd).
  rewrite (encodeString_bytes topic Hfit) in He. injection He as <-.
  split; [now apply encodeString_bytes|exact Hd].
Qed.

Lemma encodeArray_bytes {T : Type} (enc : T -> result Buffer)
    (dec : Buffer -> Z -> result (T * Z)) (vs : list T) (chunks : list Buffer) :
  encoded_as enc dec vs chunks -> Z.of_nat (List.length vs) <= 2 ^ 31 - 1 ->
  BasicTypes.encodeArray enc (Some vs)
  = Ok (Z_to_be 4 (Z.of_nat (List.length vs)) ++ List.concat chunks).
Proof.
  intros Hch Hlen. unfold BasicTypes.encodeArray.
  rewrite (encodeValues_chunks enc dec vs chunks Hch). cbn [bind app].
  rewrite alloc_add by (apply blen_nonneg || lia).
  unfold Buf.writeInt32BE.
  rewrite (writeBE_framed 4 _ _ _ [] (Buf.alloc 4)
             (Buf.alloc (blen (List.concat chunks))))
    by (try reflexivity; lia).
  cbn [bind app].
  pose proof (copyValues_chunks chunks
                (Z_to_be 4 (Z.of_nat (List.length vs))) []) as Hc.
  rewrite !app_nil_r in Hc. rewrite blen_Z_to_be in Hc.
  change (Z.of_nat 4) with 4 in Hc. rewrite Hc. reflexivity.
Qed.

(** X21.  [MetadataRequest.encode] writes what the codecs of [BasicTypes]
    write and read: the body is the array of the topics as
    [encodeArray encodeString] encodes it (the null array when all topics
    are asked for), followed by the three flags as [encodeBoolean] encodes
    them; [decodeArray decodeString] reads the topics back from it and
    [Protocol.readBoolean] the flags, up to the last byte.  A topic of more
    than 32767 bytes makes [encode] throw RangeError. *)
Theorem MetadataRequest_encode_layout (this : MetadataRequest.t) :
  let topics := option_map (map Some) (MetadataRequest.topics this) in
  (match MetadataRequest.topics this with
   | Some names =>
       Forall (fun topic => Buf.byteLength topic <= 2 ^ 15 - 1) names
       /\ Z.of_nat (List.length names) <= 2 ^ 31 - 1
   | None => True
   end ->
   exists array a c t bytes : Buffer,
     BasicTypes.encodeArray BasicTypes.encodeString topics = Ok array
     /\ BasicTypes.encodeBoolean (MetadataRequest.allowAutoTopicCreation this) = Ok a
     /\ BasicTypes.encodeBoolean
          (MetadataRequest.includeClusterAuthorizedOperations this) = Ok c
     /\ BasicTypes.encodeBoolean
          (MetadataRequest.includeTopicAuthorizedOperations this) = Ok t
     /\ MetadataRequest.encode this = Ok bytes
     /\ bytes = array ++ a ++ c ++ t
     /\ BasicTypes.decodeArray BasicTypes.decodeString bytes 0
        = Ok (topics, blen bytes - 3)
     /\ Protocol.readBoolean bytes (blen bytes - 3)
        = Ok (MetadataRequest.allowAutoTopicCreation this, blen bytes - 2)
     /\ Protocol.readBoolean bytes (blen bytes - 2)
        = Ok (MetadataRequest.includeClusterAuthorizedOperations this, blen bytes - 1)
     /\ Protocol.readBoolean bytes (blen bytes - 1)
        = Ok (MetadataRequest.includeTopicAuthorizedOperations this, blen bytes))
  /\ (forall names topic,
        MetadataRequest.topics this = Some names -> In topic names ->
        2 ^ 15 - 1 < Buf.byteLength topic ->
        MetadataRequest.encode this = Throw RangeError).
Proof.
  cbv zeta. split.
  - intros Hfit.
    set (A := Z_to_be 1 (if MetadataRequest.allowAutoTopicCreation this then 1 else 0)).
    set (C := Z_to_be 1 (if MetadataRequest.includeClusterAuthorizedOperations this
                         then 1 else 0)).
    set (T := Z_to_be 1 (if MetadataRequest.includeTopicAuthorizedOperations this
                         then 1 else 0)).
    assert (Harr : round_trips (BasicTypes.encodeArray BasicTypes.encodeString)
                     (BasicTypes.decodeArray BasicTypes.decodeString)
                     (option_map (map Some) (MetadataRequest.topics this))).
    { apply encodeArray_round_trips.
      destruct (MetadataRequest.topics this) as [names|]; cbn [option_map]; [|exact I].
      destruct Hfit as [Hall Hlen]. rewrite length_map. split; [|exact Hlen].
      clear -Hall. induction Hall as [|topic names Hfit _ IH]; cbn [map];
        constructor; [now apply encodeString_round_trips|exact IH]. }
    destruct Harr as (array & Henc & Hdec).
    assert (Hencode : MetadataRequest.encode this = Ok (array ++ A ++ C ++ T)).
    { unfold MetadataRequest.encode.
      destruct (MetadataRequest.topics this) as [names|] eqn:Hnames;
        cbn [option_map] in Henc.
      - destruct Hfit as [Hall Hlen].
        rewrite (encodeArray_bytes _ _ _ _ (topics_encoded_as names Hall)) in Henc
          by (now rewrite length_map).
        rewrite length_map in Henc.
        set (S := List.concat (map string_bytes names)) in *.
        set (N := Z_to_be 4 (Z.of_nat (List.length names))) in *.
        assert (Harray : array = N ++ S) by congruence. rewrite Harray.
        assert (HN : blen N = 4) by (unfold N; now rewrite blen_Z_to_be).
        rewrite sizeOfTopics_bytes. fold S.
        pose proof (blen_nonneg S) as HS.
        rewrite !alloc_add by lia. unfold Buf.writeInt32BE.
        rewrite (writeBE_at 4 _ _ _ 0 [] (Buf.alloc 4)
                   (Buf.alloc (blen S) ++ Buf.alloc 1 ++ Buf.alloc 1 ++ Buf.alloc 1));
          [|now rewrite <- !app_assoc|reflexivity|lia|reflexivity].
        cbn [bind app]. fold N.
        pose proof (writeTopics_framed names Hall N
                      (Buf.alloc 1 ++ Buf.alloc 1 ++ Buf.alloc 1)) as Hw.
        fold S in Hw. rewrite HN in Hw. change (0 + 4) with 4. rewrite Hw.
        cbn [bind].
        pose proof (writeBoolean_framed (N ++ S) (Buf.alloc 1 ++ Buf.alloc 1)
                      (MetadataRequest.allowAutoTopicCreation this)) as H1.
        rewrite blen_app, HN in H1. rewrite <- !app_assoc in H1.
        rewrite H1. cbn [bind]. fold A.
        pose proof (writeBoolean_framed (N ++ S ++ A) (Buf.alloc 1)
                      (MetadataRequest.includeClusterAuthorizedOperations this)) as H2.
        rewrite !blen_app, HN in H2. change (blen A) with 1 in H2.
        rewrite <- !app_assoc in H2.
        replace (4 + blen S + 1) with (4 + (blen S + 1)) by lia.
        rewrite H2. cbn [bind]. fold C.
        pose proof (writeBoolean_framed (N ++ S ++ A ++ C) []
                      (MetadataRequest.includeTopicAuthorizedOperations this)) as H3.
        rewrite !blen_app, HN in H3. change (blen A) with 1 in H3.
        change (blen C) with 1 in H3. rewrite <- !app_assoc in H3.
        rewrite !app_nil_r in H3.
        replace (4 + (blen S + 1) + 1) with (4 + (blen S + (1 + 1))) by lia.
        rewrite H3. cbn [bind]. fold T. now rewrite <- !app_assoc.
      - injection Henc as <-. change (4 + 1 + 1 + 1) with (4 + (1 + (1 + 1))).
        rewrite !alloc_add by lia. unfold Buf.writeInt32BE.
        rewrite (writeBE_at 4 _ _ _ 0 [] (Buf.alloc 4)
                   (Buf.alloc 1 ++ Buf.alloc 1 ++ Buf.alloc 1));
          [|reflexivity|reflexivity|lia|reflexivity].
        cbn [bind app].
        change (Z_to_be 4 (-1)) with [xff; xff; xff; xff].
        pose proof (writeBoolean_framed [xff; xff; xff; xff] (Buf.alloc 1 ++ Buf.alloc 1)
                      (MetadataRequest.allowAutoTopicCreation this)) as H1.
        change (blen [xff; xff; xff; xff]) with 4 in H1. change (0 + 4) with 4.
        rewrite H1. cbn [bind]. fold A.
        pose proof (writeBoolean_framed ([xff; xff; xff; xff] ++ A) (Buf.alloc 1)
                      (MetadataRequest.includeClusterAuthorizedOperations this)) as H2.
        change (blen ([xff; xff; xff; xff] ++ A)) with (4 + 1) in H2.
        rewrite <- !app_assoc in H2. rewrite H2. cbn [bind]. fold C.
        pose proof (writeBoolean_framed ([xff; xff; xff; xff] ++ A ++ C) []
                      (MetadataRequest.includeTopicAuthorizedOperations this)) as H3.
        change (blen ([xff; xff; xff; xff] ++ A ++ C)) with (4 + 1 + 1) in H3.
        rewrite <- !app_assoc in H3. rewrite app_nil_r in H3.
        rewrite H3. cbn [bind]. fold T. reflexivity. }
    exists array, A, C, T, (array ++ A ++ C ++ T).
    split; [exact Henc|]. split; [apply encodeBoolean_byte|].
    split; [apply encodeBoolean_byte|]. split; [apply encodeBoolean_byte|].
    split; [exact Hencode|]. split; [reflexivity|].
    assert (Hlen : blen (array ++ A ++ C ++ T) = blen array + 3).
    { rewrite !blen_app. change (blen A) with 1. change (blen C) with 1.
      change (blen T) with 1. lia. }
    rewrite Hlen. split; [|split; [|split]].
    + specialize (Hdec [] (A ++ C ++ T)). cbn [app] in Hdec.
      change (blen []) with 0 in Hdec. rewrite Hdec. do 2 f_equal. lia.
    + replace (blen array + 3 - 3) with (blen array) by lia.
      replace (blen array + 3 - 2) with (blen array + 1) by lia.
      apply (readBoolean_framed array (C ++ T)).
    + replace (blen array + 3 - 2) with (blen (array ++ A))
        by (rewrite blen_app; change (blen A) with 1; lia).
      replace (blen array + 3 - 1) with (blen (array ++ A) + 1)
        by (rewrite blen_app; change (blen A) with 1; lia).
      rewrite (app_assoc array A). apply (readBoolean_framed (array ++ A) T).
    + replace (blen array + 3 - 1) with (blen (array ++ A ++ C))
        by (rewrite !blen_app; change (blen A) with 1; change (blen C) with 1; lia).
      replace (blen array + 3) with (blen (array ++ A ++ C) + 1)
        by (rewrite !blen_app; change (blen A) with 1; change (blen C) with 1; lia).
      pose proof (readBoolean_framed (array ++ A ++ C) []
                    (MetadataRequest.includeTopicAuthorizedOperations this)) as H3.
      fold T in H3. rewrite <- !app_assoc in H3. exact H3.
  - intros names topic Hnames Hin Hlong. unfold MetadataRequest.encode.
    rewrite Hnames.
    destruct (Buf.writeInt32BE _ _ 0) as [buffer|e] eqn:Hw.
    + cbn [bind]. now rewrite (writeTopics_too_long names topic Hin Hlong).
    + cbn [bind]. f_equal. now apply writeBE_throws in Hw.
Qed.

(** X22.  [ApiVersionsRequest.encode] writes the name and the version of
    the client software as [BasicTypes.encodeString] encodes them, and
    [decodeString] reads them back; behind them come the four zero bytes
    the buffer was allocated with, of which [encode] writes the first: the
    body is 8 bytes longer than the two strings.  A name or a version of
    more than 32767 bytes makes [encode] throw RangeError. *)
Theorem ApiVersionsRequest_encode_layout (this : ApiVersionsRequest.t) :
  (Buf.byteLength (ApiVersionsRequest.clientSoftwareName this) <= 2 ^ 15 - 1 ->
   Buf.byteLength (ApiVersionsRequest.clientSoftwareVersion this) <= 2 ^ 15 - 1 ->
   exists name version bytes : Buffer,
     BasicTypes.encodeString (Some (ApiVersionsRequest.clientSoftwareName this))
     = Ok name
     /\ BasicTypes.encodeString (Some (ApiVersionsRequest.clientSoftwareVersion this))
        = Ok version
     /\ ApiVersionsRequest.encode this = Ok bytes
     /\ bytes = name ++ version ++ [x00; x00; x00; x00]
     /\ blen bytes
        = 8 + Buf.byteLength (ApiVersionsRequest.clientSoftwareName this)
          + Buf.byteLength (ApiVersionsRequest.clientSoftwareVersion this)
     /\ BasicTypes.decodeString bytes 0
        = Ok (Some (ApiVersionsRequest.clientSoftwareName this), blen name)
     /\ BasicTypes.decodeString bytes (blen name)
        = Ok (Some (ApiVersionsRequest.clientSoftwareVersion this), blen bytes - 4))
  /\ (2 ^ 15 - 1 < Buf.byteLength (ApiVersionsRequest.clientSoftwareName this)
      \/ 2 ^ 15 - 1 < Buf.byteLength (ApiVersionsRequest.clientSoftwareVersion this) ->
      ApiVersionsRequest.encode this = Throw RangeError).
Proof.
  set (n := ApiVersionsRequest.clientSoftwareName this).
  set (v := ApiVersionsRequest.clientSoftwareVersion this).
  pose proof (byteLength_nonneg n) as Hn0. pose proof (byteLength_nonneg v) as Hv0.
  split.
  - intros Hn Hv.
    destruct (encodeString_round_trips (Some n) Hn) as (name & Hen & Hdn).
    destruct (encodeString_round_trips (Some v) Hv) as (version & Hev & Hdv).
    pose proof Hen as Hname. rewrite (encodeString_bytes n Hn) in Hname.
    pose proof Hev as Hversion. rewrite (encodeString_bytes v Hv) in Hversion.
    assert (Hname' : name = string_bytes n) by (unfold string_bytes; congruence).
    assert (Hversion' : version = string_bytes v) by (unfold string_bytes; congruence).
    clear Hname Hversion.
    assert (Hln : blen (string_bytes n) = 2 + Buf.byteLength n)
      by (unfold string_bytes;
          rewrite blen_app, blen_Z_to_be, blen_bytes_of_string; lia).
    assert (Hlv : blen (string_bytes v) = 2 + Buf.byteLength v)
      by (unfold string_bytes;
          rewrite blen_app, blen_Z_to_be, blen_bytes_of_string; lia).
    exists name, version, (name ++ version ++ [x00; x00; x00; x00]).
    split; [exact Hen|]. split; [exact Hev|]. split; [|split; [reflexivity|split]].
    + unfold ApiVersionsRequest.encode. fold n v.
      replace (2 + Buf.byteLength n + 2 + Buf.byteLength v + 4)
        with (blen (string_bytes n) + (blen (string_bytes v) + 4)) by lia.
      rewrite !alloc_add by lia.
      destruct (write_string_framed [] (Buf.alloc (blen (string_bytes v)) ++ Buf.alloc 4)
                  n Hn) as [Hw1 Hs1].
      cbn [app] in Hw1, Hs1. change (blen []) with 0 in Hw1, Hs1.
      rewrite Hw1. cbn [bind]. rewrite Hs1.
      destruct (write_string_framed (string_bytes n) (Buf.alloc 4) v Hv) as [Hw2 Hs2].
      rewrite Hln in Hw2, Hs2.
      replace (0 + 2 + Buf.byteLength n) with (2 + Buf.byteLength n) by lia.
      rewrite Hw2. cbn [bind]. rewrite Hs2.
      unfold Buf.writeUInt8.
      rewrite (writeBE_at 1 _ _ 0 _ (string_bytes n ++ string_bytes v) [x00]
                 [x00; x00; x00]);
        [|now rewrite <- !app_assoc|rewrite blen_app; lia|lia|reflexivity].
      rewrite Hname', Hversion'. now rewrite <- !app_assoc.
    + rewrite Hname', Hversion', !blen_app, Hln, Hlv.
      change (blen [x00; x00; x00; x00]) with 4. lia.
    + split.
      * specialize (Hdn [] (version ++ [x00; x00; x00; x00])).
        cbn [app] in Hdn. change (blen []) with 0 in Hdn. now rewrite Hdn.
      * specialize (Hdv name [x00; x00; x00; x00]). rewrite Hdv.
        rewrite !blen_app. change (blen [x00; x00; x00; x00]) with 4.
        do 2 f_equal. lia.
  - intros Hlong. unfold ApiVersionsRequest.encode. fold n v.
    destruct (Buf.writeInt16BE _ (Buf.byteLength n) 0) as [b1|e] eqn:H1;
      [|cbn [bind]; f_equal; now apply writeBE_throws in H1].
    cbn [bind].
    destruct (Buf.writeInt16BE _ (Buf.byteLength v) _) as [b2|e] eqn:H2;
      [|cbn [bind]; f_equal; now apply writeBE_throws in H2].
    apply writeBE_Ok in H1 as (Hr1 & _). apply writeBE_Ok in H2 as (Hr2 & _). lia.
Qed.

Lemma ApiVersionsRequest_encode_layout_witness :
  exists name version bytes : Buffer,
    BasicTypes.encodeString (Some "node-kafka-client"%string) = Ok name
    /\ BasicTypes.encodeString (Some "1.0.0"%string) = Ok version
    /\ ApiVersionsRequest.encode (ApiVersionsRequest.create None None) = Ok bytes
    /\ bytes = name ++ version ++ [x00; x00; x00; x00].
Proof.
  destruct (proj1 (ApiVersionsRequest_encode_layout
                     (ApiVersionsRequest.create None None)))
    as (name & version & bytes & H1 & H2 & H3 & H4 & _).
  - vm_compute. discriminate.
  - vm_compute. discriminate.
  - exists name, version, bytes. exact (conj H1 (conj H2 (conj H3 H4))).
Defined.

Lemma MetadataRequest_encode_layout_witness :
  exists array a c t bytes : Buffer,
    BasicTypes.encodeArray BasicTypes.encodeString
      (Some [Some "orders"%string; Some "payments"%string]) = Ok array
    /\ BasicTypes.encodeBoolean true = Ok a
    /\ BasicTypes.encodeBoolean false = Ok c
    /\ BasicTypes.encodeBoolean false = Ok t
    /\ MetadataRequest.encode example_metadata_request = Ok bytes
    /\ bytes = array ++ a ++ c ++ t.
Proof.
  destruct (proj1 (MetadataRequest_encode_layout example_metadata_request))
    as (array & a & c & t & bytes & H1 & H2 & H3 & H4 & H5 & H6 & _).
  - split; [|vm_compute; discriminate].
    repeat (apply Forall_cons_2; [vm_compute; discriminate|]). apply Forall_nil_2.
  - exists array, a, c, t, bytes.
    exact (conj H1 (conj H2 (conj H3 (conj H4 (conj H5 H6))))).
Defined.

Lemma ApiVersionsResponse_parse_written_witness :
  exists (e : Encoder.t) (bytes : Buffer),
    writeFields (ApiVersionsResponse_fields example_versions) Encoder.new = Ok e
    /\ Encoder.build e = Ok bytes
    /\ blen bytes = 10 + 6 * 3
    /\ forall rest : Buffer,
         ApiVersionsResponse.parse (bytes ++ rest) = Ok example_versions.
Proof.
  apply (proj1 ApiVersionsResponse_parse_written example_versions).
  unfold ApiVersionsResponse_fields, example_versions.
  cbn [ApiVersionsResponse.errorCode ApiVersionsResponse.apiVersions
       ApiVersionsResponse.throttleTimeMs flat_map range_fields app List.length
       ApiVersionRange.apiKey ApiVersionRange.minVersion ApiVersionRange.maxVersion].
  repeat (apply Forall_cons_2; [cbn [fits_field]; lia|]). apply Forall_nil_2.
Defined.

(** ** MetadataResponse.parse *)

Lemma encodes_nil : encodes [] [].
Proof. exists []. split; [constructor|reflexivity]. Qed.

Lemma encodes_cons (f : Field) (fields : list Field) (chunk bytes : Buffer) :
  encodeField f = Ok chunk -> encodes fields bytes ->
  encodes (f :: fields) (chunk ++ bytes).
Proof.
  intros Hf (chunks & Hall & <-). exists (chunk :: chunks).
  split; [now constructor|reflexivity].
Qed.

Lemma encodes_app (fs gs : list Field) (a b : Buffer) :
  encodes fs a -> encodes gs b -> encodes (fs ++ gs) (a ++ b).
Proof.
  intros (ca & Ha & <-) (cb & Hb & <-). exists (ca ++ cb).
  split; [now apply Forall2_app|apply concat_app].
Qed.

Lemma encodes_flat_map {A : Type} (f : A -> list Field) (g : A -> Buffer)
    (P : A -> Prop) (l : list A) :
  (forall x, P x -> encodes (f x) (g x)) -> Forall P l ->
  encodes (flat_map f l) (List.concat (map g l)).
Proof.
  intros Hx. induction 1 as [|x l Hp _ IH]; cbn [flat_map map List.concat].
  - apply encodes_nil.
  - apply encodes_app; [now apply Hx|exact IH].
Qed.

Lemma encodes_count {A : Type} (l : list A) :
  countable l ->
  BasicTypes.encodeInt32 (Z.of_nat (List.length l))
  = Ok (Z_to_be 4 (Z.of_nat (List.length l))).
Proof. intros H. apply encodeInt32_bytes. unfold countable in H. lia. Qed.

Lemma encodes_nullable_string (s : option string) :
  match s with Some s => short_string s | None => True end ->
  BasicTypes.encodeString s = Ok (nullable_string_bytes s).
Proof. destruct s as [s|]; intros H; [now apply encodeString_bytes|reflexivity]. Qed.

Lemma encodes_nodes (nodes : list Z) :
  fits_nodes nodes -> encodes (nodes_fields nodes) (nodes_bytes nodes).
Proof.
  intros [Hall Hlen]. unfold nodes_fields, nodes_bytes.
  apply encodes_cons; [now apply encodes_count|].
  clear Hlen. induction Hall as [|v nodes Hv _ IH]; cbn [map List.concat].
  - apply encodes_nil.
  - apply encodes_cons; [now apply encodeInt32_bytes|exact IH].
Qed.

Lemma encodes_partition (p : PartitionMetadata.t) :
  fits_partition p -> encodes (partition_fields p) (partition_bytes p).
Proof.
  intros (He & Hi & Hl & Hep & Hr & His & Ho).
  unfold partition_fields, partition_bytes. cbn [app].
  apply encodes_cons; [now apply encodeInt16_bytes|].
  apply encodes_cons; [now apply encodeInt32_bytes|].
  apply encodes_cons; [now apply encodeInt32_bytes|].
  apply encodes_cons; [now apply encodeInt32_bytes|].
  apply encodes_app; [now apply encodes_nodes|].
  apply encodes_app; now apply encodes_nodes.
Qed.

Lemma encodes_topic (t : TopicMetadata.t) :
  fits_topic t -> encodes (topic_fields t) (topic_bytes t).
Proof.
  intros (He & Hn & Hps & Hc & Ha).
  unfold topic_fields, topic_bytes. cbn [app].
  apply encodes_cons; [now apply encodeInt16_bytes|].
  apply encodes_cons; [now apply encodeString_bytes|].
  apply encodes_cons; [apply encodeBoolean_byte|].
  apply encodes_cons; [now apply encodes_count|].
  apply encodes_app.
  - apply (encodes_flat_map _ _ fits_partition); [apply encodes_partition|exact Hps].
  - rewrite <- (app_nil_r (Z_to_be 4 _)).
    apply encodes_cons; [now apply encodeInt32_bytes|apply encodes_nil].
Qed.

Lemma encodes_broker (b : Broker.t) :
  fits_broker b -> encodes (broker_fields b) (broker_bytes b).
Proof.
  intros (Hn & Hh & Hp & Hr). unfold broker_fields, broker_bytes.
  apply encodes_cons; [now apply encodeInt32_bytes|].
  apply encodes_cons; [now apply encodeString_bytes|].
  apply encodes_cons; [now apply encodeInt32_bytes|].
  rewrite <- (app_nil_r (nullable_string_bytes _)).
  apply encodes_cons; [now apply encodes_nullable_string|apply encodes_nil].
Qed.

Lemma encodes_response (r : MetadataResponse.t) :
  fits_response r -> encodes (MetadataResponse_fields r) (MetadataResponse_bytes r).
Proof.
  intros (Ht & Hbs & Hbc & Hci & Hctl & Hts & Htc & Hcao).
  unfold MetadataResponse_fields, MetadataResponse_bytes. cbn [app].
  apply encodes_cons; [now apply encodeInt32_bytes|].
  apply encodes_cons; [now apply encodes_count|].
  apply encodes_app.
  - apply (encodes_flat_map _ _ fits_broker); [apply encodes_broker|exact Hbs].
  - cbn [app].
    apply encodes_cons; [now apply encodes_nullable_string|].
    apply encodes_cons; [now apply encodeInt32_bytes|].
    apply encodes_cons; [now apply encodes_count|].
    apply encodes_app.
    + apply (encodes_flat_map _ _ fits_topic); [apply encodes_topic|exact Hts].
    + rewrite <- (app_nil_r (Z_to_be 4 _)).
      apply encodes_cons; [now apply encodeInt32_bytes|apply encodes_nil].
Qed.

Lemma encodes_written (fields : list Field) (bytes : Buffer) :
  encodes fields bytes ->
  exists e, writeFields fields Encoder.new = Ok e /\ Encoder.build e = Ok bytes.
Proof.
  intros (chunks & Hall & <-).
  pose proof (writeFields_Forall2 fields chunks Hall Encoder.new) as Hw.
  cbn [Encoder.new Encoder.buffers Encoder.size app] in Hw. rewrite Z.add_0_l in Hw.
  eexists. split; [exact Hw|]. now apply Buffer_concat_exact.
Qed.

Lemma blen_string_bytes (s : string) : blen (string_bytes s) = 2 + Buf.byteLength s.
Proof.
  unfold string_bytes. rewrite blen_app, blen_Z_to_be, blen_bytes_of_string. lia.
Qed.

Lemma string_framed (s : string) (pre post B : Buffer) (off : Z) :
  short_string s ->
  B = pre ++ string_bytes s ++ post -> off = blen pre ->
  Buf.readInt16BE B off = Ok (Buf.byteLength s)
  /\ Buf.toString B (off + 2) (off + 2 + Buf.byteLength s) = s.
Proof.
  intros Hs HB Hoff. pose proof (byteLength_nonneg s) as Hnn.
  unfold string_bytes in HB. split.
  - apply (readInt16BE_at pre (Buf.bytes_of_string s ++ post));
      [rewrite HB; now rewrite <- !app_assoc|exact Hoff|unfold short_string in Hs; lia].
  - rewrite (toString_at B (pre ++ Z_to_be 2 (Buf.byteLength s))
               (Buf.bytes_of_string s) post);
      [apply string_of_bytes_of_string|rewrite HB; now rewrite <- !app_assoc
      |rewrite blen_app, blen_Z_to_be; lia|now rewrite blen_bytes_of_string].
Qed.

Lemma nullable_string_framed (s : option string) (pre post B : Buffer) (off : Z) :
  match s with Some s => short_string s | None => True end ->
  B = pre ++ nullable_string_bytes s ++ post -> off = blen pre ->
  exists length,
    Buf.readInt16BE B off = Ok length
    /\ (if 0 <=? length
        then (Some (Buf.toString B (off + 2) (off + 2 + length)), off + 2 + length)
        else (None, off + 2))
       = (s, off + blen (nullable_string_bytes s)).
Proof.
  intros Hs HB Hoff. destruct s as [s|]; cbn [nullable_string_bytes] in *.
  - destruct (string_framed s pre post B off Hs HB Hoff) as [Hr Ht].
    exists (Buf.byteLength s). split; [exact Hr|].
    pose proof (byteLength_nonneg s).
    destruct (Z.leb_spec 0 (Buf.byteLength s)); [|lia].
    rewrite Ht, blen_string_bytes. f_equal. lia.
  - exists (-1). split; [|reflexivity].
    apply (readInt16BE_at pre post); [exact HB|exact Hoff|lia].
Qed.

Lemma readNodes_framed (nodes : list Z) :
  Forall int32 nodes ->
  forall pre post acc B off,
    B = pre ++ List.concat (map (Z_to_be 4) nodes) ++ post -> off = blen pre ->
    MetadataResponse.readNodes (List.length nodes) B off acc
    = Ok (acc ++ nodes, off + blen (List.concat (map (Z_to_be 4) nodes))).
Proof.
  induction 1 as [|v nodes Hv _ IH]; intros pre post acc B off HB Hoff;
    cbn [map List.concat List.length MetadataResponse.readNodes].
  - change (blen []) with 0. now rewrite app_nil_r, Z.add_0_r.
  - cbn [map List.concat] in HB.
    rewrite (readInt32BE_at pre (List.concat (map (Z_to_be 4) nodes) ++ post) B v);
      [|rewrite HB; now rewrite <- !app_assoc|exact Hoff|exact Hv].
    cbn [bind].
    rewrite (IH (pre ++ Z_to_be 4 v) post (acc ++ [v]) B (off + 4));
      [|rewrite HB; now rewrite <- !app_assoc|rewrite blen_app, blen_Z_to_be; lia].
    rewrite <- app_assoc, blen_app, blen_Z_to_be. cbn [app]. do 2 f_equal. lia.
Qed.

Lemma nodes_framed (nodes : list Z) (pre post B : Buffer) (off : Z) :
  fits_nodes nodes ->
  B = pre ++ nodes_bytes nodes ++ post -> off = blen pre ->
  Buf.readInt32BE B off = Ok (Z.of_nat (List.length nodes))
  /\ MetadataResponse.readNodes (List.length nodes) B (off + 4) []
     = Ok (nodes, off + blen (nodes_bytes nodes)).
Proof.
  intros [Hall Hc] HB Hoff. unfold nodes_bytes in *. unfold countable in Hc. split.
  - apply (readInt32BE_at pre (List.concat (map (Z_to_be 4) nodes) ++ post));
      [rewrite HB; now rewrite <- !app_assoc|exact Hoff|lia].
  - rewrite (readNodes_framed nodes Hall
               (pre ++ Z_to_be 4 (Z.of_nat (List.length nodes))) post [] B (off + 4));
      [|rewrite HB; now rewrite <- !app_assoc|rewrite blen_app, blen_Z_to_be; lia].
    cbn [app]. rewrite blen_app, blen_Z_to_be. do 2 f_equal. lia.
Qed.

Lemma readPartitions_framed (partitions : list PartitionMetadata.t) :
  Forall fits_partition partitions ->
  forall pre post acc B off,
    B = pre ++ List.concat (map partition_bytes partitions) ++ post ->
    off = blen pre ->
    MetadataResponse.readPartitions (List.length partitions) B off acc
    = Ok (acc ++ partitions,
          off + blen (List.concat (map partition_bytes partitions))).
Proof.
  induction 1 as [|p ps Hp _ IH]; intros pre post acc B off HB Hoff;
    cbn [map List.concat List.length MetadataResponse.readPartitions].
  - change (blen []) with 0. now rewrite app_nil_r, Z.add_0_r.
  - destruct Hp as (He & Hi & Hl & Hep & Hr & His & Ho).
    cbn [map List.concat] in HB.
    set (tail := List.concat (map partition_bytes ps) ++ post).
    set (E := Z_to_be 2 (PartitionMetadata.errorCode p)).
    set (I := Z_to_be 4 (PartitionMetadata.partitionIndex p)).
    set (L := Z_to_be 4 (PartitionMetadata.leaderId p)).
    set (P := Z_to_be 4 (PartitionMetadata.leaderEpoch p)).
    set (R := nodes_bytes (PartitionMetadata.replicaNodes p)).
    set (S := nodes_bytes (PartitionMetadata.isrNodes p)).
    set (O := nodes_bytes (PartitionMetadata.offlineReplicas p)).
    assert (HB' : B = pre ++ E ++ I ++ L ++ P ++ R ++ S ++ O ++ tail)
      by (rewrite HB; unfold partition_bytes, tail, E, I, L, P, R, S, O;
          now rewrite <- !app_assoc).
    assert (HE : blen E = 2) by apply blen_Z_to_be.
    assert (HI : blen I = 4) by apply blen_Z_to_be.
    assert (HL : blen L = 4) by apply blen_Z_to_be.
    assert (HP : blen P = 4) by apply blen_Z_to_be.
    rewrite (readInt16BE_at pre (I ++ L ++ P ++ R ++ S ++ O ++ tail) B
               (PartitionMetadata.errorCode p));
      [|exact HB'|exact Hoff|exact He].
    cbn [bind].
    rewrite (readInt32BE_at (pre ++ E) (L ++ P ++ R ++ S ++ O ++ tail) B
               (PartitionMetadata.partitionIndex p));
      [|rewrite HB'; now rewrite <- !app_assoc|rewrite blen_app; lia|exact Hi].
    cbn [bind].
    rewrite (readInt32BE_at (pre ++ E ++ I) (P ++ R ++ S ++ O ++ tail) B
               (PartitionMetadata.leaderId p));
      [|rewrite HB'; now rewrite <- !app_assoc|rewrite !blen_app; lia|exact Hl].
    cbn [bind].
    rewrite (readInt32BE_at (pre ++ E ++ I ++ L) (R ++ S ++ O ++ tail) B
               (PartitionMetadata.leaderEpoch p));
      [|rewrite HB'; now rewrite <- !app_assoc|rewrite !blen_app; lia|exact Hep].
    cbn [bind].
    destruct (nodes_framed (PartitionMetadata.replicaNodes p)
                (pre ++ E ++ I ++ L ++ P) (S ++ O ++ tail) B (off + 2 + 4 + 4 + 4) Hr)
      as [Hc1 Hn1];
      [rewrite HB'; now rewrite <- !app_assoc|rewrite !blen_app; lia|].
    rewrite Hc1. cbn [bind]. rewrite Nat2Z.id, Hn1. cbn [bind]. fold R.
    destruct (nodes_framed (PartitionMetadata.isrNodes p)
                (pre ++ E ++ I ++ L ++ P ++ R) (O ++ tail) B
                (off + 2 + 4 + 4 + 4 + blen R) His)
      as [Hc2 Hn2];
      [rewrite HB'; now rewrite <- !app_assoc|rewrite !blen_app; lia|].
    rewrite Hc2. cbn [bind]. rewrite Nat2Z.id, Hn2. cbn [bind]. fold S.
    destruct (nodes_framed (PartitionMetadata.offlineReplicas p)
                (pre ++ E ++ I ++ L ++ P ++ R ++ S) tail B
                (off + 2 + 4 + 4 + 4 + blen R + blen S) Ho)
      as [Hc3 Hn3];
      [rewrite HB'; now rewrite <- !app_assoc|rewrite !blen_app; lia|].
    rewrite Hc3. cbn [bind]. rewrite Nat2Z.id, Hn3. cbn [bind]. fold O.
    assert (Hlen : blen (partition_bytes p) = 2 + 4 + 4 + 4 + blen R + blen S + blen O)
      by (unfold partition_bytes; fold E I L P R S O; rewrite !blen_app; lia).
    rewrite (IH (pre ++ partition_bytes p) post
               (acc ++ [PartitionMetadata.mk (PartitionMetadata.errorCode p)
                          (PartitionMetadata.partitionIndex p)
                          (PartitionMetadata.leaderId p)
                          (PartitionMetadata.leaderEpoch p)
                          (PartitionMetadata.replicaNodes p)
                          (PartitionMetadata.isrNodes p)
                          (PartitionMetadata.offlineReplicas p)]) B
               (off + 2 + 4 + 4 + 4 + blen R + blen S + blen O));
      [|rewrite HB; now rewrite <- !app_assoc|rewrite blen_app; lia].
    rewrite <- app_assoc, blen_app, Hlen. destruct p. cbn [app]. do 2 f_equal. lia.
Qed.

Lemma readInt8_flag (pre post B : Buffer) (off : Z) (flag : bool) :
  B = pre ++ Z_to_be 1 (if flag then 1 else 0) ++ post -> off = blen pre ->
  Buf.readInt8 B off = Ok (if flag then 1 else 0).
Proof.
  intros -> ->. unfold Buf.readInt8.
  apply (readIntBE_at 1 pre post); [reflexivity|reflexivity|lia|destruct flag; cbn; lia].
Qed.

Lemma readTopics_framed (topics : list TopicMetadata.t) :
  Forall fits_topic topics ->
  forall pre post acc B off,
    B = pre ++ List.concat (map topic_bytes topics) ++ post ->
    off = blen pre ->
    MetadataResponse.readTopics (List.length topics) B off acc
    = Ok (acc ++ topics, off + blen (List.concat (map topic_bytes topics))).
Proof.
  induction 1 as [|t ts Ht _ IH]; intros pre post acc B off HB Hoff;
    cbn [map List.concat List.length MetadataResponse.readTopics].
  - change (blen []) with 0. now rewrite app_nil_r, Z.add_0_r.
  - destruct Ht as (He & Hn & Hps & Hc & Ha).
    cbn [map List.concat] in HB.
    set (tail := List.concat (map topic_bytes ts) ++ post).
    set (E := Z_to_be 2 (TopicMetadata.errorCode t)).
    set (N := string_bytes (TopicMetadata.name t)).
    set (I := Z_to_be 1 (if TopicMetadata.isInternal t then 1 else 0)).
    set (C := Z_to_be 4 (Z.of_nat (List.length (TopicMetadata.partitions t)))).
    set (P := List.concat (map partition_bytes (TopicMetadata.partitions t))).
    set (A := Z_to_be 4 (TopicMetadata.topicAuthorizedOperations t)).
    assert (HB' : B = pre ++ E ++ N ++ I ++ C ++ P ++ A ++ tail)
      by (rewrite HB; unfold topic_bytes, tail, E, N, I, C, P, A;
          now rewrite <- !app_assoc).
    assert (HE : blen E = 2) by apply blen_Z_to_be.
    assert (HN : blen N = 2 + Buf.byteLength (TopicMetadata.name t))
      by apply blen_string_bytes.
    assert (HI : blen I = 1) by apply blen_Z_to_be.
    assert (HC : blen C = 4) by apply blen_Z_to_be.
    assert (HA : blen A = 4) by apply blen_Z_to_be.
    rewrite (readInt16BE_at pre (N ++ I ++ C ++ P ++ A ++ tail) B
               (TopicMetadata.errorCode t));
      [|exact HB'|exact Hoff|exact He].
    cbn [bind].
    destruct (string_framed (TopicMetadata.name t) (pre ++ E)
                (I ++ C ++ P ++ A ++ tail) B (off + 2) Hn) as [Hlen Hname];
      [rewrite HB'; now rewrite <- !app_assoc|rewrite blen_app; lia|].
    rewrite Hlen. cbn [bind]. rewrite Hname.
    rewrite (readInt8_flag (pre ++ E ++ N) (C ++ P ++ A ++ tail) B _
               (TopicMetadata.isInternal t));
      [|rewrite HB'; now rewrite <- !app_assoc|rewrite !blen_app; lia].
    cbn [bind].
    unfold countable in Hc.
    rewrite (readInt32BE_at (pre ++ E ++ N ++ I) (P ++ A ++ tail) B
               (Z.of_nat (List.length (TopicMetadata.partitions t))));
      [|rewrite HB'; now rewrite <- !app_assoc|rewrite !blen_app; lia
       |unfold int32; lia].
    cbn [bind]. rewrite Nat2Z.id.
    rewrite (readPartitions_framed (TopicMetadata.partitions t) Hps
               (pre ++ E ++ N ++ I ++ C) (A ++ tail) [] B
               (off + 2 + 2 + Buf.byteLength (TopicMetadata.name t) + 1 + 4));
      [|rewrite HB'; now rewrite <- !app_assoc|rewrite !blen_app; lia].
    cbn [bind app]. fold P.
    rewrite (readInt32BE_at (pre ++ E ++ N ++ I ++ C ++ P) tail B
               (TopicMetadata.topicAuthorizedOperations t));
      [|rewrite HB'; now rewrite <- !app_assoc|rewrite !blen_app; lia|exact Ha].
    cbn [bind].
    assert (Hbytes : blen (topic_bytes t)
                     = 2 + 2 + Buf.byteLength (TopicMetadata.name t) + 1 + 4
                       + blen P + 4)
      by (unfold topic_bytes; fold E N I C P A; rewrite !blen_app; lia).
    rewrite (IH (pre ++ topic_bytes t) post
               (acc ++ [TopicMetadata.mk (TopicMetadata.errorCode t)
                          (TopicMetadata.name t)
                          (negb ((if TopicMetadata.isInternal t then 1 else 0) =? 0))
                          (TopicMetadata.partitions t)
                          (TopicMetadata.topicAuthorizedOperations t)]) B
               (off + 2 + 2 + Buf.byteLength (TopicMetadata.name t) + 1 + 4
                + blen P + 4));
      [|rewrite HB; now rewrite <- !app_assoc|rewrite blen_app; lia].
    rewrite <- app_assoc, blen_app, Hbytes. destruct t as [e n [|] ps a];
      cbn [app negb Z.eqb TopicMetadata.errorCode TopicMetadata.name
           TopicMetadata.isInternal TopicMetadata.partitions
           TopicMetadata.topicAuthorizedOperations]; do 2 f_equal; lia.
Qed.

Lemma readBrokers_framed (brokers : list Broker.t) :
  Forall fits_broker brokers ->
  forall pre post acc B off,
    B = pre ++ List.concat (map broker_bytes brokers) ++ post ->
    off = blen pre ->
    MetadataResponse.readBrokers (List.length brokers) B off acc
    = Ok (acc ++ brokers, off + blen (List.concat (map broker_bytes brokers))).
Proof.
  induction 1 as [|b bs Hb _ IH]; intros pre post acc B off HB Hoff;
    cbn [map List.concat List.length MetadataResponse.readBrokers].
  - change (blen []) with 0. now rewrite app_nil_r, Z.add_0_r.
  - destruct Hb as (Hn & Hh & Hp & Hr).
    cbn [map List.concat] in HB.
    set (tail := List.concat (map broker_bytes bs) ++ post).
    set (N := Z_to_be 4 (Broker.nodeId b)).
    set (H := string_bytes (Broker.host b)).
    set (P := Z_to_be 4 (Broker.port b)).
    set (R := nullable_string_bytes (Broker.rack b)).
    assert (HB' : B = pre ++ N ++ H ++ P ++ R ++ tail)
      by (rewrite HB; unfold broker_bytes, tail, N, H, P, R;
          now rewrite <- !app_assoc).
    assert (HN : blen N = 4) by apply blen_Z_to_be.
    assert (HH : blen H = 2 + Buf.byteLength (Broker.host b))
      by apply blen_string_bytes.
    assert (HP : blen P = 4) by apply blen_Z_to_be.
    rewrite (readInt32BE_at pre (H ++ P ++ R ++ tail) B (Broker.nodeId b));
      [|exact HB'|exact Hoff|exact Hn].
    cbn [bind].
    destruct (string_framed (Broker.host b) (pre ++ N) (P ++ R ++ tail) B (off + 4) Hh)
      as [Hlen Hhost];
      [rewrite HB'; now rewrite <- !app_assoc|rewrite blen_app; lia|].
    rewrite Hlen. cbn [bind]. rewrite Hhost.
    rewrite (readInt32BE_at (pre ++ N ++ H) (R ++ tail) B (Broker.port b));
      [|rewrite HB'; now rewrite <- !app_assoc|rewrite !blen_app; lia|exact Hp].
    cbn [bind].
    destruct (nullable_string_framed (Broker.rack b) (pre ++ N ++ H ++ P) tail B
                (off + 4 + 2 + Buf.byteLength (Broker.host b) + 4) Hr)
      as (len & Hrack & Hif);
      [rewrite HB'; now rewrite <- !app_assoc|rewrite !blen_app; lia|].
    rewrite Hrack. cbn [bind]. rewrite Hif. fold R.
    assert (Hbytes : blen (broker_bytes b)
                     = 4 + 2 + Buf.byteLength (Broker.host b) + 4 + blen R)
      by (unfold broker_bytes; fold N H P R; rewrite !blen_app; lia).
    rewrite (IH (pre ++ broker_bytes b) post
               (acc ++ [Broker.mk (Broker.nodeId b) (Broker.host b) (Broker.port b)
                          (Broker.rack b)]) B
               (off + 4 + 2 + Buf.byteLength (Broker.host b) + 4 + blen R));
      [|rewrite HB; now rewrite <- !app_assoc|rewrite blen_app; lia].
    rewrite <- app_assoc, blen_app, Hbytes. destruct b. cbn [app]. do 2 f_equal. lia.
Qed.

Lemma parse_bytes (r : MetadataResponse.t) (rest : Buffer) :
  fits_response r ->
  MetadataResponse.parse (MetadataResponse_bytes r ++ rest) = Ok r.
Proof.
  intros (Ht & Hbs & Hbc & Hci & Hctl & Hts & Htc & Hcao).
  unfold MetadataResponse.parse.
  set (B := MetadataResponse_bytes r ++ rest).
  set (T := Z_to_be 4 (MetadataResponse.throttleTimeMs r)).
  set (N := Z_to_be 4 (Z.of_nat (List.length (MetadataResponse.brokers r)))).
  set (Bs := List.concat (map broker_bytes (MetadataResponse.brokers r))).
  set (I := nullable_string_bytes (MetadataResponse.clusterId r)).
  set (C := Z_to_be 4 (MetadataResponse.controllerId r)).
  set (M := Z_to_be 4 (Z.of_nat (List.length (MetadataResponse.topics r)))).
  set (Ts := List.concat (map topic_bytes (MetadataResponse.topics r))).
  set (A := Z_to_be 4 (MetadataResponse.clusterAuthorizedOperations r)).
  assert (HB : B = [] ++ T ++ N ++ Bs ++ I ++ C ++ M ++ Ts ++ A ++ rest)
    by (unfold B, MetadataResponse_bytes; fold T N Bs I C M Ts A;
        now rewrite <- !app_assoc).
  assert (HT : blen T = 4) by apply blen_Z_to_be.
  assert (HN : blen N = 4) by apply blen_Z_to_be.
  assert (HC : blen C = 4) by apply blen_Z_to_be.
  assert (HM : blen M = 4) by apply blen_Z_to_be.
  unfold countable in Hbc, Htc.
  rewrite (readInt32BE_at [] (N ++ Bs ++ I ++ C ++ M ++ Ts ++ A ++ rest) B
             (MetadataResponse.throttleTimeMs r));
    [|exact HB|reflexivity|exact Ht].
  cbn [bind].
  rewrite (readInt32BE_at T (Bs ++ I ++ C ++ M ++ Ts ++ A ++ rest) B
             (Z.of_nat (List.length (MetadataResponse.brokers r))));
    [|exact HB|lia|unfold int32; lia].
  cbn [bind]. rewrite Nat2Z.id.
  rewrite (readBrokers_framed (MetadataResponse.brokers r) Hbs (T ++ N)
             (I ++ C ++ M ++ Ts ++ A ++ rest) [] B (0 + 4 + 4));
    [|rewrite HB; now rewrite <- !app_assoc|rewrite blen_app; lia].
  cbn [bind app]. fold Bs.
  destruct (nullable_string_framed (MetadataResponse.clusterId r) (T ++ N ++ Bs)
              (C ++ M ++ Ts ++ A ++ rest) B (0 + 4 + 4 + blen Bs) Hci)
    as (len & Hlen & Hif);
    [rewrite HB; now rewrite <- !app_assoc|rewrite !blen_app; lia|].
  rewrite Hlen. cbn [bind]. rewrite Hif. fold I.
  rewrite (readInt32BE_at (T ++ N ++ Bs ++ I) (M ++ Ts ++ A ++ rest) B
             (MetadataResponse.controllerId r));
    [|rewrite HB; now rewrite <- !app_assoc|rewrite !blen_app; lia|exact Hctl].
  cbn [bind].
  rewrite (readInt32BE_at (T ++ N ++ Bs ++ I ++ C) (Ts ++ A ++ rest) B
             (Z.of_nat (List.length (MetadataResponse.topics r))));
    [|rewrite HB; now rewrite <- !app_assoc|rewrite !blen_app; lia|unfold int32; lia].
  cbn [bind]. rewrite Nat2Z.id.
  rewrite (readTopics_framed (MetadataResponse.topics r) Hts
             (T ++ N ++ Bs ++ I ++ C ++ M) (A ++ rest) [] B
             (0 + 4 + 4 + blen Bs + blen I + 4 + 4));
    [|rewrite HB; now rewrite <- !app_assoc|rewrite !blen_app; lia].
  cbn [bind app]. fold Ts.
  rewrite (readInt32BE_at (T ++ N ++ Bs ++ I ++ C ++ M ++ Ts) rest B
             (MetadataResponse.clusterAuthorizedOperations r));
    [|rewrite HB; now rewrite <- !app_assoc|rewrite !blen_app; lia|exact Hcao].
  cbn [bind]. now destruct r.
Qed.

(** ** From the bytes of a response to the leader of a partition *)

Lemma find_unique (partitions : list PartitionMetadata.t) (p : PartitionMetadata.t) :
  NoDup (map PartitionMetadata.partitionIndex partitions) -> In p partitions ->
  List.find (fun q => PartitionMetadata.partitionIndex q
                      =? PartitionMetadata.partitionIndex p) partitions
  = Some p.
Proof.
  intros Hnd Hin.
  destruct (List.find _ partitions) as [q|] eqn:Hf.
  - apply find_some in Hf as [Hq Hidx]. apply Z.eqb_eq in Hidx. f_equal.
    apply (NoDup_map_In_inj PartitionMetadata.partitionIndex partitions);
      assumption.
  - pose proof (find_none _ _ Hf p Hin) as Hne. cbn in Hne.
    now rewrite Z.eqb_refl in Hne.
Qed.

Lemma example_metadata_fits : fits_response example_metadata.
Proof.
  unfold fits_response, example_metadata, example_brokers, example_orders,
    fits_broker, fits_topic, fits_partition, fits_nodes, countable, int16, int32,
    short_string.
  cbn [MetadataResponse.throttleTimeMs MetadataResponse.brokers
       MetadataResponse.clusterId MetadataResponse.controllerId
       MetadataResponse.topics MetadataResponse.clusterAuthorizedOperations].
  repeat split;
    repeat (apply Forall_cons_2 || apply Forall_nil_2 || split);
    try exact I; vm_compute; discriminate.
Qed.

(** X23.  [MetadataResponse.parse] reads the layout the encoder writes:
    counts as 32-bit numbers before the elements, strings behind 16-bit
    lengths, the rack and the cluster id nullable.  A response whose values
    fit, written field by field in the order of the parser, is parsed back
    as it was written, whatever follows it in the buffer. *)
Theorem MetadataResponse_parse_written (r : MetadataResponse.t) :
  fits_response r ->
  exists (e : Encoder.t) (bytes : Buffer),
    writeFields (MetadataResponse_fields r) Encoder.new = Ok e
    /\ Encoder.build e = Ok bytes
    /\ forall rest : Buffer, MetadataResponse.parse (bytes ++ rest) = Ok r.
Proof.
  intros Hfit.
  destruct (encodes_written _ _ (encodes_response r Hfit)) as (e & Hw & Hb).
  exists e, (MetadataResponse_bytes r). split; [exact Hw|]. split; [exact Hb|].
  intros rest. now apply parse_bytes.
Qed.

Lemma MetadataResponse_parse_written_witness :
  exists (e : Encoder.t) (bytes : Buffer),
    writeFields (MetadataResponse_fields example_metadata) Encoder.new = Ok e
    /\ Encoder.build e = Ok bytes
    /\ forall rest : Buffer,
         MetadataResponse.parse (bytes ++ rest) = Ok example_metadata.
Proof.
  exact (MetadataResponse_parse_written example_metadata example_metadata_fits).
Defined.

(** X24.  From the bytes of a broker's answer to the leader of a
    partition.  When [refreshMetadata] receives a Metadata response as the
    encoder writes it, whose topics with error code 0 have distinct names,
    then for each such topic with distinct partition indices the cache
    afterwards holds the topic as it was sent, [findLeader] returns the
    leader of each of its partitions that has one, and
    [getPartitionCount] its number of partitions; the cache is
    initialised and holds the controller and the cluster id of the
    response, and, for distinct node ids, each of its brokers. *)
Theorem refreshed_leader (r : MetadataResponse.t) (cache : ClusterMetadata.t)
    (rest : Buffer) :
  fits_response r ->
  NoDup (map TopicMetadata.name (accepted (MetadataResponse.topics r))) ->
  exists (e : Encoder.t) (bytes : Buffer) (cache' : ClusterMetadata.t),
    writeFields (MetadataResponse_fields r) Encoder.new = Ok e
    /\ Encoder.build e = Ok bytes
    /\ NetworkClient.refreshMetadata_update (bytes ++ rest) cache = Ok cache'
    /\ ClusterMetadata.isInitialized cache' = true
    /\ ClusterMetadata.getControllerId cache' = MetadataResponse.controllerId r
    /\ ClusterMetadata.getClusterId cache' = MetadataResponse.clusterId r
    /\ (NoDup (map Broker.nodeId (MetadataResponse.brokers r)) ->
        forall broker, In broker (MetadataResponse.brokers r) ->
          ClusterMetadata.getBroker cache' (Broker.nodeId broker) = Some broker)
    /\ (forall topic,
          In topic (MetadataResponse.topics r) ->
          TopicMetadata.errorCode topic = 0 ->
          ClusterMetadata.getTopicMetadata cache' (TopicMetadata.name topic)
          = Some topic
          /\ ClusterMetadata.getPartitionCount cache' (TopicMetadata.name topic)
             = Z.of_nat (List.length (TopicMetadata.partitions topic))
          /\ (unique_partitions topic ->
              forall p, In p (TopicMetadata.partitions topic) ->
                0 <= PartitionMetadata.leaderId p ->
                ClusterMetadata.findLeader cache' (TopicMetadata.name topic)
                  (PartitionMetadata.partitionIndex p)
                = Ok (PartitionMetadata.leaderId p))).
Proof.
  intros Hfit Hnd.
  destruct (encodes_written _ _ (encodes_response r Hfit)) as (e & Hw & Hb).
  exists e, (MetadataResponse_bytes r). eexists.
  split; [exact Hw|]. split; [exact Hb|].
  split; [unfold NetworkClient.refreshMetadata_update;
          rewrite (parse_bytes r rest Hfit); reflexivity|].
  split; [apply updateMetadata_initialized|].
  split; [unfold ClusterMetadata.getControllerId, ClusterMetadata.updateMetadata;
          now destruct (fold_left ClusterMetadata.updateTopic _ _)|].
  split; [unfold ClusterMetadata.getClusterId, ClusterMetadata.updateMetadata;
          now destruct (fold_left ClusterMetadata.updateTopic _ _)|].
  split.
  - intros Hbn broker Hin. unfold ClusterMetadata.getBroker.
    rewrite updateMetadata_brokers. unfold ClusterMetadata.setBrokers.
    rewrite (fold_left_insert_lookup Broker.nodeId).
    now rewrite (last_with_unique Broker.nodeId).
  - intros topic Hin Herr.
    pose proof (updateMetadata_stores cache (MetadataResponse.brokers r)
                  (MetadataResponse.topics r) (MetadataResponse.clusterId r)
                  (MetadataResponse.controllerId r) topic Hin Herr Hnd) as Hst.
    split; [exact Hst|]. split.
    + unfold ClusterMetadata.getPartitionCount,
        ClusterMetadata.getPartitionsForTopic. now rewrite Hst.
    + intros Hu p Hp Hl. unfold ClusterMetadata.findLeader. rewrite Hst.
      rewrite (find_unique _ p Hu Hp).
      destruct (Z.ltb_spec (PartitionMetadata.leaderId p) 0); [lia|reflexivity].
Qed.

Lemma refreshed_leader_witness :
  exists (e : Encoder.t) (bytes : Buffer) (cache' : ClusterMetadata.t),
    writeFields (MetadataResponse_fields example_metadata) Encoder.new = Ok e
    /\ Encoder.build e = Ok bytes
    /\ NetworkClient.refreshMetadata_update (bytes ++ []) ClusterMetadata.new
       = Ok cache'
    /\ ClusterMetadata.isInitialized cache' = true.
Proof.
  destruct (refreshed_leader example_metadata ClusterMetadata.new []
              example_metadata_fits)
    as (e & bytes & cache' & H1 & H2 & H3 & H4 & _).
  - unfold example_metadata, accepted. cbn. repeat constructor. intros H.
    now apply elem_of_nil in H.
  - exists e, bytes, cache'. exact (conj H1 (conj H2 (conj H3 H4))).
Defined.

(** ** The cache over a sequence of updates *)

Lemma updateAll_snoc (responses : list MetadataResponse.t) (r : MetadataResponse.t)
    (this : ClusterMetadata.t) :
  updateAll (responses ++ [r]) this
  = ClusterMetadata.updateMetadata (updateAll responses this)
      (MetadataResponse.brokers r) (MetadataResponse.topics r)
      (MetadataResponse.clusterId r) (MetadataResponse.controllerId r).
Proof. unfold updateAll. now rewrite fold_left_app. Qed.

Lemma updateAll_topic_lookup (responses : list MetadataResponse.t)
    (this : ClusterMetadata.t) (name : string) :
  (is_Some (ClusterMetadata.topics (updateAll responses this) !! name)
   <-> is_Some (ClusterMetadata.topics this !! name)
       \/ exists r t, In r responses /\ In t (MetadataResponse.topics r)
                      /\ TopicMetadata.name t = name
                      /\ TopicMetadata.errorCode t = 0)
  /\ ((forall r t, In r responses -> In t (MetadataResponse.topics r) ->
         TopicMetadata.name t = name -> TopicMetadata.errorCode t <> 0) ->
      ClusterMetadata.topics (updateAll responses this) !! name
      = ClusterMetadata.topics this !! name).
Proof.
  induction responses as [|r responses IH] using rev_ind.
  - cbn. split; [|reflexivity]. split; [now left|].
    intros [H|(r & t & [] & _)]. exact H.
  - rewrite updateAll_snoc, updateMetadata_topic_lookup.
    destruct IH as [IH1 IH2]. split.
    + destruct (last_with TopicMetadata.name name
                  (accepted (MetadataResponse.topics r))) as [t|] eqn:Hl.
      * split; [|intros _; now exists t].
        intros _. right. apply last_with_Some in Hl as [Hin Hname].
        apply accepted_In in Hin as [Hin Herr].
        exists r, t. split; [apply in_or_app; right; now left|]. now repeat split.
      * rewrite IH1. split.
        -- intros [H|(r' & t & Hr & Ht & Hn & He)]; [now left|].
           right. exists r', t. split; [apply in_or_app; now left|]. now repeat split.
        -- intros [H|(r' & t & Hr & Ht & Hn & He)]; [now left|].
           apply in_app_or in Hr as [Hr|[<-|[]]].
           ++ right. exists r', t. now repeat split.
           ++ rewrite last_with_None in Hl. exfalso. apply (Hl t); [|exact Hn].
              apply accepted_In. now split.
    + intros Hnone.
      destruct (last_with TopicMetadata.name name
                  (accepted (MetadataResponse.topics r))) as [t|] eqn:Hl.
      * apply last_with_Some in Hl as [Hin Hname].
        apply accepted_In in Hin as [Hin Herr].
        exfalso. apply (Hnone r t); try assumption. apply in_or_app. right. now left.
      * apply IH2. intros r' t Hr. apply Hnone. apply in_or_app. now left.
Qed.

(** X25.  The cache over any sequence of updates.  The topics it knows are
    those it knew before and those some response carried with error code
    0: a topic is never forgotten.  A topic that every response omits or
    reports with an error keeps its entry, so [findLeader] keeps answering
    for it as before, while the brokers are those of the last response
    only.  At most one ['update'] event is emitted for each response, and
    none is taken back. *)
Theorem cache_across_updates (responses : list MetadataResponse.t)
    (this : ClusterMetadata.t) :
  let cache := updateAll responses this in
  (forall name : string,
      ClusterMetadata.hasTopicMetadata cache name = true
      <-> ClusterMetadata.hasTopicMetadata this name = true
          \/ exists r t, In r responses /\ In t (MetadataResponse.topics r)
                         /\ TopicMetadata.name t = name
                         /\ TopicMetadata.errorCode t = 0)
  /\ (forall (name : string) (partition : Z),
        (forall r t, In r responses -> In t (MetadataResponse.topics r) ->
           TopicMetadata.name t = name -> TopicMetadata.errorCode t <> 0) ->
        ClusterMetadata.getTopicMetadata cache name
        = ClusterMetadata.getTopicMetadata this name
        /\ ClusterMetadata.findLeader cache name partition
           = ClusterMetadata.findLeader this name partition)
  /\ (forall earlier last, responses = earlier ++ [last] ->
        ClusterMetadata.isInitialized cache = true
        /\ forall nodeId : Z,
             ClusterMetadata.getBroker cache nodeId
             = last_with Broker.nodeId nodeId (MetadataResponse.brokers last))
  /\ (exists events : list (list string),
        ClusterMetadata.updates cache = ClusterMetadata.updates this ++ events
        /\ (List.length events <= List.length responses)%nat).
Proof.
  cbv zeta. split; [|split; [|split]].
  - intros name. unfold ClusterMetadata.hasTopicMetadata.
    rewrite !bool_decide_eq_true. apply updateAll_topic_lookup.
  - intros name partition Hnone.
    pose proof (proj2 (updateAll_topic_lookup responses this name) Hnone) as Hl.
    unfold ClusterMetadata.getTopicMetadata, ClusterMetadata.findLeader.
    now rewrite Hl.
  - intros earlier last ->. rewrite updateAll_snoc.
    split; [apply updateMetadata_initialized|].
    intros nodeId. unfold ClusterMetadata.getBroker.
    rewrite updateMetadata_brokers. unfold ClusterMetadata.setBrokers.
    rewrite (fold_left_insert_lookup Broker.nodeId), lookup_empty.
    now destruct (last_with _ _ _).
  - induction responses as [|r responses IH] using rev_ind.
    + exists []. cbn. now rewrite app_nil_r.
    + destruct IH as (events & Hev & Hlen).
      rewrite updateAll_snoc, updateMetadata_updates, Hev.
      rewrite length_app. cbn [List.length].
      destruct (_ || _).
      * eexists (events ++ [_]). rewrite app_assoc. split; [reflexivity|].
        rewrite length_app. cbn [List.length]. lia.
      * exists events. split; [reflexivity|lia].
Qed.

Lemma cache_across_updates_witness :
  ClusterMetadata.hasTopicMetadata
    (updateAll [example_metadata] ClusterMetadata.new) "orders"%string = true.
Proof.
  apply (proj1 (cache_across_updates [example_metadata] ClusterMetadata.new)).
  right. exists example_metadata, example_orders.
  split; [now left|]. split; [now left|]. split; reflexivity.
Defined.
